(** * MarkdownStreamRenderer: a shallow embedding and its properties

  The development follows [src/MarkdownStreamRenderer.js]:

  - [JS]        strings as lists of UTF-16 code units, the few
                [String.prototype] methods the renderer calls, values
                and numbers;
  - [Regex]     a backtracking matcher for the regular expressions the
                renderer contains, with [test] and global [replace];
  - [Preprocess] [_preprocess], [_normalizeInlineDollars] and
                [_applyHardBreaks];
  - [Renderer]  the renderer object, the host's timers and the event
                loop that drives [write], [update], [flush], [clear],
                [destroy], the throttle timer and the typewriter ticker. *)

From Stdlib Require Import String Ascii ZArith NArith QArith Qround List Bool Lia.
Import ListNotations.
Close Scope Q_scope.
Open Scope nat_scope.

Set Implicit Arguments.

(* ================================================================= *)
(** * JavaScript data *)

Module JS.

(** A JavaScript string is a sequence of 16-bit code units. *)
Definition char := N.
Definition jsstring := list char.

(** Literals are written as Rocq strings; [js] gives their code units. *)
Definition js (s : string) : jsstring :=
  List.map N_of_ascii (list_ascii_of_string s).

Definition TAB : char := 9%N.
Definition LF : char := 10%N.
Definition CR : char := 13%N.
Definition SP : char := 32%N.
Definition DOLLAR : char := 36%N.
Definition BACKSLASH : char := 92%N.

Definition char_eqb (a b : char) : bool := N.eqb a b.

Definition only (a : char) : char -> bool := fun c => char_eqb c a.

(** [LineTerminator]: LF, CR, U+2028, U+2029. *)
Definition is_line_terminator (c : char) : bool :=
  (N.eqb c 10 || N.eqb c 13 || N.eqb c 8232 || N.eqb c 8233)%N.

(** [WhiteSpace] and [LineTerminator]: what [\s] matches and what
    [trim] strips. *)
Definition is_space (c : char) : bool :=
  ((N.leb 9 c && N.leb c 13) || N.eqb c 32 || N.eqb c 160
   || N.eqb c 5760 || (N.leb 8192 c && N.leb c 8202)
   || N.eqb c 8232 || N.eqb c 8233 || N.eqb c 8239 || N.eqb c 8287
   || N.eqb c 12288 || N.eqb c 65279)%N.

(** [\d] *)
Definition is_digit (c : char) : bool := (N.leb 48 c && N.leb c 57)%N.

(** [.] without the [s] flag, and with it. *)
Definition dot (c : char) : bool := negb (is_line_terminator c).
Definition dot_all (c : char) : bool := true.

Fixpoint str_eqb (a b : jsstring) : bool :=
  match a, b with
  | [], [] => true
  | x :: a', y :: b' => char_eqb x y && str_eqb a' b'
  | _, _ => false
  end.

Fixpoint trimStart (s : jsstring) : jsstring :=
  match s with
  | c :: s' => if is_space c then trimStart s' else s
  | [] => []
  end.

Definition trimEnd (s : jsstring) : jsstring := rev (trimStart (rev s)).

Definition trim (s : jsstring) : jsstring := trimEnd (trimStart s).

Fixpoint startsWith (s p : jsstring) : bool :=
  match p, s with
  | [], _ => true
  | x :: p', c :: s' => char_eqb c x && startsWith s' p'
  | _ :: _, [] => false
  end.

(** [s.split("\n")]: never empty, the empty string gives one empty line. *)
Fixpoint split_lines (s : jsstring) : list jsstring :=
  match s with
  | [] => [[]]
  | c :: s' =>
      if char_eqb c LF then [] :: split_lines s'
      else match split_lines s' with
           | l :: ls => (c :: l) :: ls
           | [] => [[c]]
           end
  end.

(** [lines.join("\n")] *)
Fixpoint join_lines (ls : list jsstring) : jsstring :=
  match ls with
  | [] => []
  | [l] => l
  | l :: ls' => l ++ LF :: join_lines ls'
  end.

(** The values a caller can pass where a string is expected. *)
Inductive value :=
| VString (s : jsstring)
| VNumber (q : Q)
| VBoolean (b : bool)
| VNull
| VUndefined
| VObject.

(** [typeof v === 'string'] *)
Definition is_string (v : value) : bool :=
  match v with VString _ => true | _ => false end.

(** Numbers: the finite ones as rationals, and the three others. *)
Inductive number :=
| Fin (q : Q)
| PosInf
| NegInf
| NaN.

(** [n > 0] *)
Definition gt0 (n : number) : bool :=
  match n with
  | Fin q => match Qnum q with Zpos _ => true | _ => false end
  | PosInf => true
  | NegInf | NaN => false
  end.

(** [ToIntegerOrInfinity] on a non-negative argument, clamped to a
    string of length [len]: the index [slice] works with. *)
Definition clamp_index (n : number) (len : nat) : nat :=
  match n with
  | Fin q =>
      let z := Z.quot (Qnum q) (Zpos (Qden q)) in
      if (z <? 0)%Z then (len - Z.to_nat (- z))%nat
      else Nat.min (Z.to_nat z) len
  | PosInf => len
  | NegInf => 0%nat
  | NaN => 0%nat
  end.

(** [s.slice(a, b)] and [s.slice(a)] *)
Definition slice2 (s : jsstring) (a b : number) : jsstring :=
  let from := clamp_index a (length s) in
  let to := clamp_index b (length s) in
  firstn (to - from) (skipn from s).

Definition slice1 (s : jsstring) (a : number) : jsstring :=
  skipn (clamp_index a (length s)) s.

Definition of_nat (n : nat) : number := Fin (inject_Z (Z.of_nat n)).

End JS.

Import JS.

(* ================================================================= *)
(** * Regular expressions *)

(** The renderer's regular expressions quantify single characters and
  character classes only, so the matcher keeps quantifiers on classes;
  everything else (sequence, ordered alternatives, groups, the two
  anchors and one-character look-around) is as in the source syntax.
  Matching is by backtracking in the order ECMAScript prescribes:
  alternatives left to right, a greedy quantifier longest first, a
  lazy one shortest first. *)

Module Regex.

Inductive re :=
| Eps
| Cls (p : char -> bool)
| Cat (a b : re)
| Alt (a b : re)
| Rep (p : char -> bool) (lo : nat) (hi : option nat) (greedy : bool)
| Grp (i : nat) (r : re)
| Bos
| Eos
| NotBehind (p : char -> bool)
| NotAhead (p : char -> bool).

(** Captures, most recent first. *)
Definition caps := list (nat * jsstring).

Fixpoint capture (i : nat) (cs : caps) : jsstring :=
  match cs with
  | [] => []
  | (j, s) :: cs' => if Nat.eqb i j then s else capture i cs'
  end.

Definition may_repeat (hi : option nat) : bool :=
  match hi with Some 0%nat => false | _ => true end.

Definition one_less (hi : option nat) : option nat :=
  match hi with Some n => Some (pred n) | None => None end.

Section Matcher.
Variable A : Type.

(** [rep p greedy lo hi b s k]: between [lo] and [hi] characters of
    class [p] at the front of [s], then [k]. [b] is the text before
    the current position, last character first. *)
Fixpoint rep (p : char -> bool) (greedy : bool) (lo : nat) (hi : option nat)
         (b s : jsstring) (k : jsstring -> jsstring -> option A)
         {struct s} : option A :=
  match s with
  | c :: s' =>
      if p c && may_repeat hi then
        if greedy then
          match rep p greedy (pred lo) (one_less hi) (c :: b) s' k with
          | Some x => Some x
          | None => match lo with 0%nat => k b s | S _ => None end
          end
        else
          match (match lo with 0%nat => k b s | S _ => None end) with
          | Some x => Some x
          | None => rep p greedy (pred lo) (one_less hi) (c :: b) s' k
          end
      else match lo with 0%nat => k b s | S _ => None end
  | [] => match lo with 0%nat => k b s | S _ => None end
  end.

Fixpoint run (r : re) (b s : jsstring) (cs : caps)
         (k : jsstring -> jsstring -> caps -> option A) : option A :=
  match r with
  | Eps => k b s cs
  | Cls p =>
      match s with
      | c :: s' => if p c then k (c :: b) s' cs else None
      | [] => None
      end
  | Cat r1 r2 => run r1 b s cs (fun b' s' cs' => run r2 b' s' cs' k)
  | Alt r1 r2 =>
      match run r1 b s cs k with
      | Some x => Some x
      | None => run r2 b s cs k
      end
  | Rep p lo hi greedy => rep p greedy lo hi b s (fun b' s' => k b' s' cs)
  | Grp i r1 =>
      run r1 b s cs
          (fun b' s' cs' =>
             k b' s' ((i, rev (firstn (length b' - length b) b')) :: cs'))
  | Bos => match b with [] => k b s cs | _ :: _ => None end
  | Eos => match s with [] => k b s cs | _ :: _ => None end
  | NotBehind p =>
      match b with
      | c :: _ => if p c then None else k b s cs
      | [] => k b s cs
      end
  | NotAhead p =>
      match s with
      | c :: _ => if p c then None else k b s cs
      | [] => k b s cs
      end
  end.
End Matcher.

(** A match at the current position: the text before its end (last
    character first), the text after it, and the captures. *)
Definition match_here (r : re) (b s : jsstring)
  : option (jsstring * jsstring * caps) :=
  run r b s [] (fun b' s' cs => Some (b', s', cs)).

(** [re.test(s)]: a match at some position, leftmost first. *)
Fixpoint search (r : re) (b s : jsstring) : bool :=
  match match_here r b s with
  | Some _ => true
  | None =>
      match s with
      | c :: s' => search r (c :: b) s'
      | [] => false
      end
  end.

Definition test (r : re) (s : jsstring) : bool := search r [] s.

(** [s.replace(re, f)] for a global [re]: matches are found left to
    right and do not overlap; [skip] counts the characters of the
    current match still to pass. After an empty match the next
    character is copied and matching resumes behind it. *)
Fixpoint replace_from (r : re) (f : caps -> jsstring) (skip : nat)
         (b s : jsstring) {struct s} : jsstring :=
  match skip with
  | S n =>
      match s with
      | c :: s' => replace_from r f n (c :: b) s'
      | [] => []
      end
  | 0%nat =>
      match match_here r b s with
      | Some (_, s1, cs) =>
          f cs ++
            match s with
            | c :: s' =>
                match (length s - length s1)%nat with
                | 0%nat => c :: replace_from r f 0 (c :: b) s'
                | S n => replace_from r f n (c :: b) s'
                end
            | [] => []
            end
      | None =>
          match s with
          | c :: s' => c :: replace_from r f 0 (c :: b) s'
          | [] => []
          end
      end
  end.

Definition replace (r : re) (f : caps -> jsstring) (s : jsstring) : jsstring :=
  replace_from r f 0 [] s.

(** Sequences and alternatives of several parts, and literal text. *)
Fixpoint seq (rs : list re) : re :=
  match rs with
  | [] => Eps
  | [r] => r
  | r :: rs' => Cat r (seq rs')
  end.

Fixpoint alt (rs : list re) : re :=
  match rs with
  | [] => Eps
  | [r] => r
  | r :: rs' => Alt r (alt rs')
  end.

Definition lit (s : string) : re := seq (List.map (fun c => Cls (only c)) (js s)).

Definition one (c : char) : re := Cls (only c).

End Regex.

Import Regex.

(* ================================================================= *)
(** * The text preprocessor *)

Module Preprocess.

(** [this.mathSyntax] *)
Record mathSyntax_t := { brackets : bool; dollars : bool }.

Definition LBRACKET : char := 91%N.
Definition RBRACKET : char := 93%N.
Definition LPAREN : char := 40%N.
Definition RPAREN : char := 41%N.

(** [/\\{1,2}\[(.*?)\\{1,2}\]/gs] *)
Definition block_re : re :=
  seq [Rep (only BACKSLASH) 1 (Some 2) true; one LBRACKET;
       Grp 1 (Rep dot_all 0 None false);
       Rep (only BACKSLASH) 1 (Some 2) true; one RBRACKET].

(** [/\\{1,2}\((.*?)\\{1,2}\)/g] *)
Definition inline_re : re :=
  seq [Rep (only BACKSLASH) 1 (Some 2) true; one LPAREN;
       Grp 1 (Rep dot 0 None false);
       Rep (only BACKSLASH) 1 (Some 2) true; one RPAREN].

(** The two replacers: [$$\n${inner}\n$$] and [$${inner}$]. *)
Definition block_math (cs : caps) : jsstring :=
  js "$$" ++ [LF] ++ capture 1 cs ++ [LF] ++ js "$$".

Definition inline_math (cs : caps) : jsstring :=
  js "$" ++ capture 1 cs ++ js "$".

(** [/\r\n/g] *)
Definition crlf_re : re := seq [one CR; one LF].

(** [input.replace(/\r\n/g, "\n").split("\n")] *)
Definition lines_of (input : jsstring) : list jsstring :=
  split_lines (replace crlf_re (fun _ => [LF]) input).

(** [t.startsWith("```") || t.startsWith("~~~")] *)
Definition fence (t : jsstring) : bool :=
  startsWith t (js "```") || startsWith t (js "~~~").

(** [/(?<![$\s])\$(?!\$)/g] and [/(?<!\$)\$(?![\$\s])/g] *)
Definition dollar_left_re : re :=
  seq [NotBehind (fun c => only DOLLAR c || is_space c); one DOLLAR;
       NotAhead (only DOLLAR)].

Definition dollar_right_re : re :=
  seq [NotBehind (only DOLLAR); one DOLLAR;
       NotAhead (fun c => only DOLLAR c || is_space c)].

(** The loop of [_normalizeInlineDollars]; the lines are rewritten in
    place, [code] and [blockMath] are the two toggles. *)
Fixpoint dollars_loop (code blockMath : bool) (lines : list jsstring)
  : list jsstring :=
  match lines with
  | [] => []
  | l :: rest =>
      let t := trim l in
      if fence t then l :: dollars_loop (negb code) blockMath rest
      else if startsWith t (js "$$") && negb code
           then l :: dollars_loop code (negb blockMath) rest
      else if code || blockMath then l :: dollars_loop code blockMath rest
      else
        let line := replace dollar_left_re (fun _ => js " $") l in
        let line := replace dollar_right_re (fun _ => js "$ ") line in
        line :: dollars_loop code blockMath rest
  end.

Definition _normalizeInlineDollars (input : jsstring) : jsstring :=
  join_lines (dollars_loop false false (lines_of input)).

(** [/^(#{1,6}\s|>\s|([-+*])\s|\d+\.\s|(```|~~~)|\s*<|\s*$)/] *)
Definition blockStart_re : re :=
  seq [Bos;
       Grp 1 (alt [seq [Rep (only 35%N) 1 (Some 6) true; Cls is_space];
                   seq [one 62%N; Cls is_space];
                   seq [Grp 2 (Cls (fun c => only 45%N c || only 43%N c
                                             || only 42%N c));
                        Cls is_space];
                   seq [Rep is_digit 1 None true; one 46%N; Cls is_space];
                   Grp 3 (alt [lit "```"; lit "~~~"]);
                   seq [Rep is_space 0 None true; one 60%N];
                   seq [Rep is_space 0 None true; Eos]])].

(** [/^<\/(div|p|section|article|header|footer|table|ul|ol|li|pre|blockquote)>\s*$/] *)
Definition closingHtmlBlock_re : re :=
  seq [Bos; lit "</";
       Grp 1 (alt [lit "div"; lit "p"; lit "section"; lit "article";
                   lit "header"; lit "footer"; lit "table"; lit "ul";
                   lit "ol"; lit "li"; lit "pre"; lit "blockquote"]);
       one 62%N; Rep is_space 0 None true; Eos].

(** [/\s\s$/] *)
Definition two_spaces_re : re := seq [Cls is_space; Cls is_space; Eos].

(** The loop of [_applyHardBreaks]: [lines] are the lines from index
    [i] on, [res] the lines pushed so far. *)
Fixpoint hardBreaks_loop (lines : list jsstring) (code math : bool)
         (res : list jsstring) : list jsstring :=
  match lines with
  | [] => res
  | line :: rest =>
      let t := trim line in
      if fence t then hardBreaks_loop rest (negb code) math (res ++ [line])
      else if startsWith t (js "$$") && negb code
           then hardBreaks_loop rest code (negb math) (res ++ [line])
      else if negb code && negb math then
        let next := match rest with n :: _ => n | [] => [] end in
        let nt := trim next in
        let blockStart := test blockStart_re nt in
        let closingHtmlBlock := test closingHtmlBlock_re t in
        let line :=
          if negb (Nat.eqb (length t) 0) && negb (Nat.eqb (length nt) 0)
             && negb blockStart && negb (test two_spaces_re line)
          then line ++ js "  " else line in
        if closingHtmlBlock && negb (Nat.eqb (length nt) 0) && negb blockStart
        then hardBreaks_loop rest code math (res ++ [line; []])
        else hardBreaks_loop rest code math (res ++ [line])
      else hardBreaks_loop rest code math (res ++ [line])
  end.

Definition _applyHardBreaks (input : jsstring) : jsstring :=
  join_lines (hardBreaks_loop (lines_of input) false false []).

(** [_preprocess(text)], reading [this.mathSyntax] and
    [this.respectNewlines]. *)
Definition _preprocess (mathSyntax : mathSyntax_t) (respectNewlines : bool)
           (text : jsstring) : jsstring :=
  if negb (brackets mathSyntax) then text
  else
    let out := text in
    let out := replace block_re block_math out in
    let out := replace inline_re inline_math out in
    let out := if dollars mathSyntax then _normalizeInlineDollars out else out in
    let out := if respectNewlines then _applyHardBreaks out else out in
    out.

End Preprocess.

Import Preprocess.


(* ================================================================= *)
(** * The renderer and its host *)

(** The parser ([micromark]) and the sanitizer ([DOMPurify.sanitize]) are
    collaborators: the development is parametric in them. A parser call
    that throws is [None]. The host owns the timers: [setTimeout] and
    [setInterval] draw their handles from one counter and [clearTimeout]
    and [clearInterval] remove a timer by its handle. The listener is
    the caller's function, which is only recorded, or the closure that
    [renderTo] installs, which writes its target element: the page
    keeps, for every element, the markup last assigned to it and the
    class names added to its descendants since. *)

Module Renderer.

Section Collaborators.

Variables extension htmlExtension sanitizeOptions_t : Type.

(** The options object of a [micromark] call. *)
Record parse_options := {
  po_extensions : list extension;
  po_htmlExtensions : list htmlExtension;
  po_allowDangerousHtml : bool
}.

Variable micromark : jsstring -> parse_options -> option jsstring.
Variable sanitize : jsstring -> sanitizeOptions_t -> jsstring.
(** [math(mo)], by [mo.singleDollarTextMath], and [mathHtml(ko)]. *)
Variable math : bool -> extension.
Variable mathHtml : htmlExtension.

Record typewriter_t := { enabled : bool; intervalMs : number; step : number }.

Definition handle := positive.

(** A DOM element, as [renderTo] is given one. *)
Definition element := positive.

(** The caller's function, or the closure [renderTo] makes for [el]. *)
Inductive listener_t :=
| Callback
| ElementWriter (el : element).

(** A value of [selectorClassMap]: a falsy one, an array (an element of
    it is [None] when falsy and [Some s] when truthy, [s] the string it
    converts to), or any other value, given by [String(cls)]. *)
Inductive class_value :=
| ClsFalsy
| ClsArray (l : list (option jsstring))
| ClsOther (s : jsstring).

(** The fields of [this]. *)
Record renderer := {
  extensions : list extension;
  htmlExtensions : list htmlExtension;
  mathSyntax : mathSyntax_t;
  allowHtml : bool;
  respectNewlines : bool;
  selectorClassMap : list (jsstring * class_value);
  typewriter : typewriter_t;
  twQueue : list jsstring;
  twTimer : option handle;
  sanitizeOptions : sanitizeOptions_t;
  throttleMs : number;
  buffer : jsstring;
  timer : option handle;
  listener : option listener_t;
  prevHtml : jsstring
}.

Inductive timer_kind := OneShot | Repeating.

Record timer_entry := {
  t_handle : handle;
  t_kind : timer_kind;
  t_delay : number
}.

(** What the page holds of an element: the markup last assigned to
    [innerHTML] and, oldest first, the [querySelectorAll] calls made on
    it since, each with the class names [classList.add] was then called
    with on every node found. *)
Record element_t := {
  innerHTML : jsstring;
  classes : list (jsstring * list jsstring)
}.

(** The host: its pending timers, the elements of the page, and two
    records kept for the statements only: the arguments the listener
    was called with and the sources of the render passes, oldest
    first. *)
Record host_t := {
  next_handle : handle;
  timers : list timer_entry;
  elements : element -> element_t;
  calls : list jsstring;
  passes : list jsstring
}.

Record world := { this : renderer; host : host_t }.

(** ** Field updates *)

Definition set_buffer (v : jsstring) (r : renderer) : renderer :=
  {| extensions := extensions r; htmlExtensions := htmlExtensions r;
     mathSyntax := mathSyntax r; allowHtml := allowHtml r;
     respectNewlines := respectNewlines r;
     selectorClassMap := selectorClassMap r; typewriter := typewriter r;
     twQueue := twQueue r; twTimer := twTimer r;
     sanitizeOptions := sanitizeOptions r; throttleMs := throttleMs r;
     buffer := v; timer := timer r; listener := listener r;
     prevHtml := prevHtml r |}.

Definition set_twQueue (v : list jsstring) (r : renderer) : renderer :=
  {| extensions := extensions r; htmlExtensions := htmlExtensions r;
     mathSyntax := mathSyntax r; allowHtml := allowHtml r;
     respectNewlines := respectNewlines r;
     selectorClassMap := selectorClassMap r; typewriter := typewriter r;
     twQueue := v; twTimer := twTimer r;
     sanitizeOptions := sanitizeOptions r; throttleMs := throttleMs r;
     buffer := buffer r; timer := timer r; listener := listener r;
     prevHtml := prevHtml r |}.

Definition set_twTimer (v : option handle) (r : renderer) : renderer :=
  {| extensions := extensions r; htmlExtensions := htmlExtensions r;
     mathSyntax := mathSyntax r; allowHtml := allowHtml r;
     respectNewlines := respectNewlines r;
     selectorClassMap := selectorClassMap r; typewriter := typewriter r;
     twQueue := twQueue r; twTimer := v;
     sanitizeOptions := sanitizeOptions r; throttleMs := throttleMs r;
     buffer := buffer r; timer := timer r; listener := listener r;
     prevHtml := prevHtml r |}.

Definition set_timer (v : option handle) (r : renderer) : renderer :=
  {| extensions := extensions r; htmlExtensions := htmlExtensions r;
     mathSyntax := mathSyntax r; allowHtml := allowHtml r;
     respectNewlines := respectNewlines r;
     selectorClassMap := selectorClassMap r; typewriter := typewriter r;
     twQueue := twQueue r; twTimer := twTimer r;
     sanitizeOptions := sanitizeOptions r; throttleMs := throttleMs r;
     buffer := buffer r; timer := v; listener := listener r;
     prevHtml := prevHtml r |}.

Definition set_listener (v : option listener_t) (r : renderer) : renderer :=
  {| extensions := extensions r; htmlExtensions := htmlExtensions r;
     mathSyntax := mathSyntax r; allowHtml := allowHtml r;
     respectNewlines := respectNewlines r;
     selectorClassMap := selectorClassMap r; typewriter := typewriter r;
     twQueue := twQueue r; twTimer := twTimer r;
     sanitizeOptions := sanitizeOptions r; throttleMs := throttleMs r;
     buffer := buffer r; timer := timer r; listener := v;
     prevHtml := prevHtml r |}.

Definition set_prevHtml (v : jsstring) (r : renderer) : renderer :=
  {| extensions := extensions r; htmlExtensions := htmlExtensions r;
     mathSyntax := mathSyntax r; allowHtml := allowHtml r;
     respectNewlines := respectNewlines r;
     selectorClassMap := selectorClassMap r; typewriter := typewriter r;
     twQueue := twQueue r; twTimer := twTimer r;
     sanitizeOptions := sanitizeOptions r; throttleMs := throttleMs r;
     buffer := buffer r; timer := timer r; listener := listener r;
     prevHtml := v |}.

Definition set_extensions (v : list extension) (r : renderer) : renderer :=
  {| extensions := v; htmlExtensions := htmlExtensions r;
     mathSyntax := mathSyntax r; allowHtml := allowHtml r;
     respectNewlines := respectNewlines r;
     selectorClassMap := selectorClassMap r; typewriter := typewriter r;
     twQueue := twQueue r; twTimer := twTimer r;
     sanitizeOptions := sanitizeOptions r; throttleMs := throttleMs r;
     buffer := buffer r; timer := timer r; listener := listener r;
     prevHtml := prevHtml r |}.

Definition set_htmlExtensions (v : list htmlExtension) (r : renderer) : renderer :=
  {| extensions := extensions r; htmlExtensions := v;
     mathSyntax := mathSyntax r; allowHtml := allowHtml r;
     respectNewlines := respectNewlines r;
     selectorClassMap := selectorClassMap r; typewriter := typewriter r;
     twQueue := twQueue r; twTimer := twTimer r;
     sanitizeOptions := sanitizeOptions r; throttleMs := throttleMs r;
     buffer := buffer r; timer := timer r; listener := listener r;
     prevHtml := prevHtml r |}.

Definition set_sanitizeOptions (v : sanitizeOptions_t) (r : renderer) : renderer :=
  {| extensions := extensions r; htmlExtensions := htmlExtensions r;
     mathSyntax := mathSyntax r; allowHtml := allowHtml r;
     respectNewlines := respectNewlines r;
     selectorClassMap := selectorClassMap r; typewriter := typewriter r;
     twQueue := twQueue r; twTimer := twTimer r;
     sanitizeOptions := v; throttleMs := throttleMs r;
     buffer := buffer r; timer := timer r; listener := listener r;
     prevHtml := prevHtml r |}.

Definition on_this (f : renderer -> renderer) (w : world) : world :=
  {| this := f (this w); host := host w |}.

Definition set_timers (v : list timer_entry) (h : host_t) : host_t :=
  {| next_handle := next_handle h; timers := v; elements := elements h;
     calls := calls h; passes := passes h |}.

(** ** The host's timers *)

(** [setTimeout] and [setInterval]: a fresh handle, the timer pending. *)
Definition start_timer (k : timer_kind) (delay : number) (h : host_t)
  : handle * host_t :=
  (next_handle h,
   {| next_handle := Pos.succ (next_handle h);
      timers := {| t_handle := next_handle h; t_kind := k; t_delay := delay |}
                  :: timers h;
      elements := elements h; calls := calls h; passes := passes h |}).

(** [clearTimeout] and [clearInterval] *)
Definition clear_timer (x : handle) (h : host_t) : host_t :=
  set_timers (filter (fun e => negb (Pos.eqb (t_handle e) x)) (timers h)) h.

Definition pending (k : timer_kind) (h : host_t) : list timer_entry :=
  filter (fun e => match t_kind e, k with
                   | OneShot, OneShot | Repeating, Repeating => true
                   | _, _ => false
                   end) (timers h).

Definition is_pending (k : timer_kind) (x : handle) (h : host_t) : bool :=
  existsb (fun e => Pos.eqb (t_handle e) x) (pending k h).

(** ** The listener *)

(** [String(cls).split(/\s+/)]: the text between the runs of white
    space, the empty text before a leading and behind a trailing run
    included. *)
Fixpoint split_spaces_from (cur : jsstring) (in_run : bool) (s : jsstring)
  : list jsstring :=
  match s with
  | [] => [rev cur]
  | c :: s' =>
      if is_space c then
        if in_run then split_spaces_from cur true s'
        else rev cur :: split_spaces_from [] true s'
      else split_spaces_from (c :: cur) false s'
  end.

Definition split_spaces (s : jsstring) : list jsstring :=
  split_spaces_from [] false s.

(** [Array.isArray(cls) ? cls : String(cls).split(/\s+/)], and of it
    the names [c] that pass [c &&]: the ones [classList.add] is called
    with. *)
Definition class_names (cls : class_value) : list jsstring :=
  match cls with
  | ClsFalsy => []
  | ClsArray l =>
      flat_map (fun c => match c with Some name => [name] | None => [] end) l
  | ClsOther s => filter (fun c => negb (Nat.eqb (length c) 0)) (split_spaces s)
  end.

(** The loop over [this.selectorClassMap]: a falsy value is passed
    over; for any other, every node [el.querySelectorAll(k)] finds gets
    the class names. *)
Definition add_classes (map : list (jsstring * class_value)) (e : element_t)
  : element_t :=
  fold_left
    (fun e kc =>
       match snd kc with
       | ClsFalsy => e
       | cls =>
           {| innerHTML := innerHTML e;
              classes := classes e ++ [(fst kc, class_names cls)] |}
       end)
    map e.

(** [el.innerHTML = html]: the descendants are made anew. *)
Definition assigned (html : jsstring) : element_t :=
  {| innerHTML := html; classes := [] |}.

(** [this.listener(safe)]: the caller's function is recorded; the closure
    of [renderTo] assigns [el.innerHTML] and [this.prevHtml] when the
    markup differs from [this.prevHtml], and then adds the class names
    of [this.selectorClassMap] to the descendants of [el], whether it
    has assigned or not. (The caller's function is taken to return, and
    the selectors and class names to be ones the page accepts.) *)
Definition call_listener (safe : jsstring) (w : world) : world :=
  match listener (this w) with
  | None => w
  | Some Callback =>
      {| this := this w;
         host := {| next_handle := next_handle (host w); timers := timers (host w);
                    elements := elements (host w);
                    calls := calls (host w) ++ [safe];
                    passes := passes (host w) |} |}
  | Some (ElementWriter el) =>
      let differs := negb (str_eqb safe (prevHtml (this w))) in
      let shown := if differs then assigned safe else elements (host w) el in
      let shown := add_classes (selectorClassMap (this w)) shown in
      {| this := if differs then set_prevHtml safe (this w) else this w;
         host := {| next_handle := next_handle (host w); timers := timers (host w);
                    elements := fun x => if Pos.eqb x el then shown
                                         else elements (host w) x;
                    calls := calls (host w) ++ [safe];
                    passes := passes (host w) |} |}
  end.

Definition record_pass (source : jsstring) (w : world) : world :=
  {| this := this w;
     host := {| next_handle := next_handle (host w); timers := timers (host w);
                elements := elements (host w); calls := calls (host w);
                passes := passes (host w) ++ [source] |} |}.

(** ** The methods *)

Inductive completion (A : Type) :=
| Normal (a : A)
| Throw.
Arguments Throw {A}.

(** [_emit(forceHtml)]: [forceHtml] is a string or absent. *)
Definition _emit (forceHtml : option jsstring) (w : world)
  : completion jsstring * world :=
  let source :=
    match forceHtml with
    | Some s => s
    | None => _preprocess (mathSyntax (this w)) (respectNewlines (this w))
                          (buffer (this w))
    end in
  let w := record_pass source w in
  let html :=
    match micromark source
            {| po_extensions := extensions (this w);
               po_htmlExtensions := htmlExtensions (this w);
               po_allowDangerousHtml := allowHtml (this w) |} with
    | Some html => Some html
    | None =>
        micromark (buffer (this w))
          {| po_extensions := []; po_htmlExtensions := [];
             po_allowDangerousHtml := allowHtml (this w) |}
    end in
  match html with
  | None => (Throw, w)
  | Some html =>
      let safe := sanitize html (sanitizeOptions (this w)) in
      (Normal safe, call_listener safe w)
  end.

(** [_schedule()] *)
Definition _schedule (w : world) : world :=
  match timer (this w) with
  | Some _ => w
  | None =>
      let (x, h) := start_timer OneShot (throttleMs (this w)) (host w) in
      {| this := set_timer (Some x) (this w); host := h |}
  end.

(** The callback of the throttle timer. *)
Definition on_timeout (w : world) : completion jsstring * world :=
  _emit None (on_this (set_timer None) w).

(** [_startTypewriter()] *)
Definition _startTypewriter (w : world) : world :=
  match twTimer (this w) with
  | Some _ => w
  | None =>
      let (x, h) := start_timer Repeating (intervalMs (typewriter (this w))) (host w) in
      {| this := set_twTimer (Some x) (this w); host := h |}
  end.

Definition clear_opt (x : option handle) (h : host_t) : host_t :=
  match x with Some x => clear_timer x h | None => h end.

(** The callback of the typewriter ticker. *)
Definition on_tick (w : world) : world :=
  match twQueue (this w) with
  | [] =>
      {| this := set_twTimer None (this w);
         host := clear_opt (twTimer (this w)) (host w) |}
  | current :: others =>
      let take := slice2 current (of_nat 0) (step (typewriter (this w))) in
      let rest := slice1 current (step (typewriter (this w))) in
      let queue := if Nat.ltb 0 (length rest) then rest :: others else others in
      _schedule
        (on_this (fun r => set_buffer (buffer r ++ take) (set_twQueue queue r)) w)
  end.

(** [if (this.timer) { clearTimeout(this.timer); this.timer = null }] *)
Definition stop_timer (w : world) : world :=
  match timer (this w) with
  | Some x => {| this := set_timer None (this w); host := clear_timer x (host w) |}
  | None => w
  end.

(** [if (this.twTimer) { clearInterval(this.twTimer); this.twTimer = null }] *)
Definition stop_ticker (w : world) : world :=
  match twTimer (this w) with
  | Some x => {| this := set_twTimer None (this w); host := clear_timer x (host w) |}
  | None => w
  end.

(** [write(chunk)] *)
Definition write (chunk : value) (w : world) : world :=
  match chunk with
  | VString [] => w
  | VString s =>
      if enabled (typewriter (this w)) then
        _startTypewriter (on_this (fun r => set_twQueue (twQueue r ++ [s]) r) w)
      else _schedule (on_this (fun r => set_buffer (buffer r ++ s) r) w)
  | _ => w
  end.

(** [flush()] *)
Definition flush (w : world) : completion jsstring * world := _emit None w.

(** [clear()] *)
Definition clear (w : world) : completion jsstring * world :=
  let w := on_this (fun r => set_twQueue [] (set_buffer [] r)) w in
  let w := stop_ticker w in
  _emit (Some []) w.

(** [destroy()] *)
Definition destroy (w : world) : world :=
  let w := on_this (fun r => set_twQueue [] (set_buffer [] r)) w in
  let w := stop_timer w in
  let w := stop_ticker w in
  on_this (set_listener None) w.

(** The length of the longest common prefix, as the [while] loop of
    [update] counts it. *)
Fixpoint common_prefix (old newStr : jsstring) : nat :=
  match old, newStr with
  | a :: old', b :: new' => if char_eqb a b then S (common_prefix old' new') else 0
  | _, _ => 0
  end.

(** [update(text)] *)
Definition update (text : value) (w : world) : world :=
  match text with
  | VString newStr =>
      if enabled (typewriter (this w)) then
        let old := buffer (this w) in
        let i := common_prefix old newStr in
        let isInitial := Nat.eqb (length old) 0 && Nat.ltb 0 (length newStr) in
        let isAppend := Nat.eqb i (length old) && Nat.ltb (length old) (length newStr) in
        if isInitial then
          _startTypewriter (on_this (fun r => set_twQueue (twQueue r ++ [newStr]) r) w)
        else if isAppend then
          let delta := slice1 newStr (of_nat i) in
          match delta with
          | [] => w
          | _ :: _ =>
              _startTypewriter (on_this (fun r => set_twQueue (twQueue r ++ [delta]) r) w)
          end
        else
          let w := on_this (set_twQueue []) w in
          let w := stop_ticker w in
          _schedule (on_this (set_buffer newStr) w)
      else _schedule (on_this (set_buffer newStr) w)
  | _ => w
  end.

(** [on(fn)]: [fn] is a function ([Some]) or anything else. *)
Definition on (fn : option listener_t) (w : world) : world :=
  on_this (set_listener fn) w.

(** [renderTo(el)]: [el] is an element or a falsy value ([None]). *)
Definition renderTo (el : option element) (w : world) : world :=
  match el with
  | Some el => on (Some (ElementWriter el)) w
  | None => w
  end.

(** [registerExtensions], [registerHtmlExtensions] and
    [setSanitizeOptions]; an argument that is not an array is [None]. *)
Definition registerExtensions (exts : option (list extension)) (w : world) : world :=
  match exts with
  | Some l => on_this (fun r => set_extensions (extensions r ++ l) r) w
  | None => w
  end.

Definition registerHtmlExtensions (exts : option (list htmlExtension)) (w : world)
  : world :=
  match exts with
  | Some l => on_this (fun r => set_htmlExtensions (htmlExtensions r ++ l) r) w
  | None => w
  end.

Definition setSanitizeOptions (opts : sanitizeOptions_t) (w : world) : world :=
  on_this (set_sanitizeOptions opts) w.

(** ** The constructor *)

(** The options after destructuring and defaults; a field whose value is
    not of the expected type is [None] or [false]. *)
Record options := {
  o_extensions : list extension;
  o_htmlExtensions : list htmlExtension;
  o_sanitizeOptions : sanitizeOptions_t;
  o_throttleMs : option number;
  o_onChunk : bool;
  o_useMath : bool;
  o_singleDollarTextMath : bool;
  o_mathSyntax : mathSyntax_t;
  o_allowHtml : bool;
  o_respectNewlines : bool;
  o_selectorClassMap : list (jsstring * class_value);
  o_tw_enabled : bool;
  o_tw_intervalMs : option number;
  o_tw_step : option number
}.

Definition constructor (o : options) : renderer :=
  {| extensions :=
       if o_useMath o
       then math (if dollars (o_mathSyntax o) then o_singleDollarTextMath o else false)
              :: o_extensions o
       else o_extensions o;
     htmlExtensions :=
       if o_useMath o then mathHtml :: o_htmlExtensions o else o_htmlExtensions o;
     mathSyntax := o_mathSyntax o;
     allowHtml := o_allowHtml o;
     respectNewlines := o_respectNewlines o;
     selectorClassMap := o_selectorClassMap o;
     typewriter :=
       {| enabled := o_tw_enabled o;
          intervalMs := match o_tw_intervalMs o with Some n => n | None => of_nat 24 end;
          step := match o_tw_step o with
                  | Some n => if gt0 n then n else of_nat 1
                  | None => of_nat 1
                  end |};
     twQueue := [];
     twTimer := None;
     sanitizeOptions := o_sanitizeOptions o;
     throttleMs := match o_throttleMs o with Some n => n | None => of_nat 16 end;
     buffer := [];
     timer := None;
     listener := if o_onChunk o then Some Callback else None;
     prevHtml := [] |}.

(** A fresh page: no timer pending, its elements empty, nothing
    recorded. *)
Definition fresh_host : host_t :=
  {| next_handle := 1%positive; timers := []; elements := fun _ => assigned [];
     calls := []; passes := [] |}.

Definition create (o : options) : world :=
  {| this := constructor o; host := fresh_host |}.

(** ** Events *)

(** What can happen to a renderer: a method call, or the host running
    the callback of one of its pending timers. *)
Inductive event :=
| Write (chunk : value)
| Update (text : value)
| Flush
| Clear
| Destroy
| On (fn : option listener_t)
| RenderTo (el : option element)
| RegisterExtensions (exts : option (list extension))
| RegisterHtmlExtensions (exts : option (list htmlExtension))
| SetSanitizeOptions (opts : sanitizeOptions_t)
| TimeoutFires (x : handle)
| IntervalFires (x : handle).

(** The host runs a one-shot timer's callback once and forgets the
    timer; a repeating timer stays until it is cleared. A timer that is
    not pending does not fire. *)
Definition step_event (w : world) (e : event) : completion unit * world :=
  let quiet (w' : world) := (Normal tt, w') in
  let loud (r : completion jsstring * world) :=
    match r with
    | (Normal _, w') => (Normal tt, w')
    | (Throw, w') => (Throw, w')
    end in
  match e with
  | Write chunk => quiet (write chunk w)
  | Update text => quiet (update text w)
  | Flush => loud (flush w)
  | Clear => loud (clear w)
  | Destroy => quiet (destroy w)
  | On fn => quiet (on fn w)
  | RenderTo el => quiet (renderTo el w)
  | RegisterExtensions exts => quiet (registerExtensions exts w)
  | RegisterHtmlExtensions exts => quiet (registerHtmlExtensions exts w)
  | SetSanitizeOptions opts => quiet (setSanitizeOptions opts w)
  | TimeoutFires x =>
      if is_pending OneShot x (host w)
      then loud (on_timeout {| this := this w; host := clear_timer x (host w) |})
      else quiet w
  | IntervalFires x =>
      if is_pending Repeating x (host w) then quiet (on_tick w) else quiet w
  end.

(** A run: the events in order; an exception ends an event, not the run. *)
Fixpoint run (w : world) (es : list event) : world :=
  match es with
  | [] => w
  | e :: es' => run (snd (step_event w e)) es'
  end.

End Collaborators.

Arguments Throw {A}.
Arguments Write {extension htmlExtension sanitizeOptions_t} chunk.
Arguments Update {extension htmlExtension sanitizeOptions_t} text.
Arguments Flush {extension htmlExtension sanitizeOptions_t}.
Arguments Clear {extension htmlExtension sanitizeOptions_t}.
Arguments Destroy {extension htmlExtension sanitizeOptions_t}.
Arguments On {extension htmlExtension sanitizeOptions_t} fn.
Arguments RenderTo {extension htmlExtension sanitizeOptions_t} el.
Arguments RegisterExtensions {extension htmlExtension sanitizeOptions_t} exts.
Arguments RegisterHtmlExtensions {extension htmlExtension sanitizeOptions_t} exts.
Arguments SetSanitizeOptions {extension htmlExtension sanitizeOptions_t} opts.
Arguments TimeoutFires {extension htmlExtension sanitizeOptions_t} x.
Arguments IntervalFires {extension htmlExtension sanitizeOptions_t} x.

End Renderer.

Import Renderer.

(* ================================================================= *)
(** * Style sheets *)

(** [_cssFromMap] and the part of the constructor that puts style
    sheets into the document. Of the argument of [_cssFromMap] only
    this matters: whether it is an object, which properties it has, in
    enumeration order (own properties; none inherited), whether the
    value of a property is an object again, and, for the properties of
    such a set of rules, the text each value gives in a template
    literal (no Symbol, which gives none). The document is seen as the
    list of its [style] elements that carry a [data-name] attribute, in
    document order, each with its [textContent];
    [katexCssOverrides] and [katexStylePreset] are strings. *)

Module Styles.

(** [map[sel]] *)
Inductive rules_value :=
| RObject (props : list (jsstring * jsstring))
| ROther.

(** [cssOverrides]: a string, an object, or anything else (a falsy
    value or a value that is not an object). *)
Inductive css_value :=
| CssString (s : jsstring)
| CssMap (entries : list (jsstring * rules_value))
| CssOther.

(** [`${k}: ${v};`] *)
Definition declaration (kv : jsstring * jsstring) : jsstring :=
  fst kv ++ js ": " ++ snd kv ++ js ";".

(** [parts.join(' ')] *)
Fixpoint join_spaces (parts : list jsstring) : jsstring :=
  match parts with
  | [] => []
  | [p] => p
  | p :: ps => p ++ SP :: join_spaces ps
  end.

(** The loop of [_cssFromMap] over the properties of [map]. *)
Fixpoint cssFromMap_loop (entries : list (jsstring * rules_value)) (out : jsstring)
  : jsstring :=
  match entries with
  | [] => out
  | (sel, rules) :: rest =>
      match rules with
      | RObject props =>
          let body := join_spaces (List.map declaration props) in
          cssFromMap_loop rest (out ++ sel ++ js " { " ++ body ++ js " }" ++ [LF])
      | ROther => cssFromMap_loop rest out
      end
  end.

Definition _cssFromMap (map : css_value) : jsstring :=
  match map with
  | CssMap entries => cssFromMap_loop entries []
  | CssString _ | CssOther => []
  end.

(** The style sheet of the preset ['academic']. *)
Definition academic_css : jsstring :=
  [LF] ++ js "        .katex { font-size: 1.06em; }"
  ++ [LF] ++ js "        .katex-display { text-align: left; margin: 1.1em 0; padding-left: 2em; }"
  ++ [LF] ++ js "        .katex .frac-line { border-top-width: 2px; }"
  ++ [LF] ++ js "        .katex .sqrt-line { border-top-width: 2px; }"
  ++ [LF] ++ js "        .katex .underline { text-decoration-thickness: .08em; }"
  ++ [LF] ++ js "      ".

Record style_options := {
  katexCssOverrides : jsstring;
  katexStylePreset : jsstring;
  cssOverrides : css_value
}.

(** A [style] element: its [data-name] and its [textContent]. *)
Definition style_element := (jsstring * jsstring)%type.

(** The [style] elements of the document: the ones inside
    [document.head], in document order, and the ones anywhere else in
    the document. *)
Record document_t := {
  in_head : list style_element;
  elsewhere : list style_element
}.

(** One of the elements has the name. *)
Definition named (name : string) (l : list style_element) : bool :=
  existsb (fun st => str_eqb (fst st) (js name)) l.

(** [document.querySelector('style[data-name="..."]')] finds one,
    wherever in the document it is. *)
Definition has_style (name : string) (doc : document_t) : bool :=
  named name (in_head doc) || named name (elsewhere doc).

(** [document.head.appendChild(s)], for each of [added] in turn: they
    come last in [document.head]. *)
Definition appended (doc : document_t) (added : list style_element) : document_t :=
  {| in_head := in_head doc ++ added; elsewhere := elsewhere doc |}.

(** [if (!document.querySelector(...)) { ...; document.head.appendChild(s) }] *)
Definition add_style (name : string) (text : jsstring) (doc : document_t)
  : document_t :=
  if has_style name doc then doc else appended doc [(js name, text)].

(** A string is truthy when it is not empty. *)
Definition truthy (s : jsstring) : bool := negb (Nat.eqb (length s) 0).

(** The constructor's two blocks on style sheets; [None] is a host
    without [document]. *)
Definition constructor_styles (o : style_options) (document : option document_t)
  : option document_t :=
  let css := katexCssOverrides o in
  let css :=
    if negb (truthy css) && str_eqb (katexStylePreset o) (js "academic")
    then academic_css else css in
  let document :=
    match document with
    | Some doc =>
        if truthy css then Some (add_style "katex-overrides" css doc) else Some doc
    | None => None
    end in
  match document with
  | Some doc =>
      let cssText :=
        match cssOverrides o with
        | CssString s => s
        | m => _cssFromMap m
        end in
      if truthy cssText then Some (add_style "md-overrides" cssText doc) else Some doc
  | None => None
  end.

(** The number of [style] elements with the name [name]. *)
Definition count_named (name : string) (l : list style_element) : nat :=
  length (filter (fun st => str_eqb (fst st) (js name)) l).

Definition count_style (name : string) (doc : document_t) : nat :=
  count_named name (in_head doc) + count_named name (elsewhere doc).

(** A property whose value is a set of rules. *)
Definition has_rules (e : jsstring * rules_value) : bool :=
  match snd e with RObject _ => true | ROther => false end.

(** The renderers constructed one after the other on one page. *)
Definition construct_all (os : list style_options) (document : option document_t)
  : option document_t :=
  fold_left (fun d o => constructor_styles o d) os document.

End Styles.

Import Styles.


(* ================================================================= *)
(** * The KaTeX style sheet *)

(** The entry module: [rewriteKatexCss] and [injectKatexCss]. The style
    sheet of KaTeX and the URLs the bundler gives the font files are
    the module's imports. [replace] is called here with a replacement
    string, in which [$$], [$&], [$`] and [$'] stand for a dollar sign,
    the matched text, the text before it and the text behind it; the
    expressions have no groups, so [$1] and the like stand for
    themselves. *)

Module Katex.

Record imports := {
  katexCss : jsstring;
  mainRegularWoff2 : jsstring;
  mainItalicWoff2 : jsstring;
  mathItalicWoff2 : jsstring;
  size1RegularWoff2 : jsstring;
  size2RegularWoff2 : jsstring;
  size3RegularWoff2 : jsstring;
  size4RegularWoff2 : jsstring
}.

(** [GetSubstitution] for an expression without groups. *)
Fixpoint GetSubstitution (matched before after template : jsstring) : jsstring :=
  match template with
  | [] => []
  | c :: t =>
      if only DOLLAR c then
        match t with
        | d :: t' =>
            if only DOLLAR d then DOLLAR :: GetSubstitution matched before after t'
            else if only 38%N d then matched ++ GetSubstitution matched before after t'
            else if only 96%N d then before ++ GetSubstitution matched before after t'
            else if only 39%N d then after ++ GetSubstitution matched before after t'
            else c :: GetSubstitution matched before after t
        | [] => [c]
        end
      else c :: GetSubstitution matched before after t
  end.

(** [s.replace(re, template)] for a global [re], as [replace_from] with
    the replacement worked out from the template at every match. *)
Fixpoint replace_str_from (r : re) (template : jsstring) (skip : nat)
         (b s : jsstring) {struct s} : jsstring :=
  match skip with
  | S n =>
      match s with
      | c :: s' => replace_str_from r template n (c :: b) s'
      | [] => []
      end
  | 0%nat =>
      match match_here r b s with
      | Some (_, s1, _) =>
          GetSubstitution (firstn (length s - length s1) s) (rev b) s1 template ++
            match s with
            | c :: s' =>
                match (length s - length s1)%nat with
                | 0%nat => c :: replace_str_from r template 0 (c :: b) s'
                | S n => replace_str_from r template n (c :: b) s'
                end
            | [] => []
            end
      | None =>
          match s with
          | c :: s' => c :: replace_str_from r template 0 (c :: b) s'
          | [] => []
          end
      end
  end.

Definition replace_str (r : re) (template s : jsstring) : jsstring :=
  replace_str_from r template 0 [] s.

(** [`url(${u})`] *)
Definition url (u : jsstring) : jsstring := js "url(" ++ u ++ js ")".

(** [/,\s*url\(fonts\/KaTeX_[^)]+\.woff\)\s*format\('woff'\)/g] and
    [/,\s*url\(fonts\/KaTeX_[^)]+\.ttf\)\s*format\('truetype'\)/g] *)
Definition woff_re : re :=
  seq [one 44%N; Rep is_space 0 None true; lit "url(fonts/KaTeX_";
       Rep (fun c => negb (only 41%N c)) 1 None true; lit ".woff)";
       Rep is_space 0 None true; lit "format('woff')"].

Definition ttf_re : re :=
  seq [one 44%N; Rep is_space 0 None true; lit "url(fonts/KaTeX_";
       Rep (fun c => negb (only 41%N c)) 1 None true; lit ".ttf)";
       Rep is_space 0 None true; lit "format('truetype')"].

Definition rewriteKatexCss (im : imports) (css : jsstring) : jsstring :=
  let css := replace_str (lit "url(fonts/KaTeX_Main-Regular.woff2)")
                         (url (mainRegularWoff2 im)) css in
  let css := replace_str (lit "url(fonts/KaTeX_Main-Italic.woff2)")
                         (url (mainItalicWoff2 im)) css in
  let css := replace_str (lit "url(fonts/KaTeX_Math-Italic.woff2)")
                         (url (mathItalicWoff2 im)) css in
  let css := replace_str (lit "url(fonts/KaTeX_Size1-Regular.woff2)")
                         (url (size1RegularWoff2 im)) css in
  let css := replace_str (lit "url(fonts/KaTeX_Size2-Regular.woff2)")
                         (url (size2RegularWoff2 im)) css in
  let css := replace_str (lit "url(fonts/KaTeX_Size3-Regular.woff2)")
                         (url (size3RegularWoff2 im)) css in
  let css := replace_str (lit "url(fonts/KaTeX_Size4-Regular.woff2)")
                         (url (size4RegularWoff2 im)) css in
  let css := replace_str woff_re [] css in
  let css := replace_str ttf_re [] css in
  css.

(** [injectKatexCss()]; [None] is a host without [document]. *)
Definition injectKatexCss (im : imports) (document : option document_t)
  : option document_t :=
  match document with
  | None => None
  | Some doc =>
      if has_style "katex-injected" doc then Some doc
      else Some (appended doc
                   [(js "katex-injected", rewriteKatexCss im (katexCss im))])
  end.

(** The font files the style sheet names and the URLs put in their
    place. *)
Definition font_files (im : imports) : list (string * jsstring) :=
  [("Main-Regular", mainRegularWoff2 im); ("Main-Italic", mainItalicWoff2 im);
   ("Math-Italic", mathItalicWoff2 im); ("Size1-Regular", size1RegularWoff2 im);
   ("Size2-Regular", size2RegularWoff2 im); ("Size3-Regular", size3RegularWoff2 im);
   ("Size4-Regular", size4RegularWoff2 im)]%string.

End Katex.

Import Katex.

(* ================================================================= *)
(** * Notions used in the statements *)

Section Notions.

Variables extension htmlExtension sanitizeOptions_t : Type.
Let world := Renderer.world extension htmlExtension sanitizeOptions_t.
Let event := Renderer.event extension htmlExtension sanitizeOptions_t.

Definition entry (k : timer_kind) (d : number) (x : handle) : timer_entry :=
  {| t_handle := x; t_kind := k; t_delay := d |}.

Definition entry_of (k : timer_kind) (d : number) (x : option handle)
  : list timer_entry :=
  match x with Some x => [entry k d x] | None => [] end.

(** The host's pending timers are the ones the renderer holds handles
    of, with the configured delays; handles are fresh and the two the
    renderer may hold differ. *)
Definition timers_ok (w : world) : Prop :=
  pending OneShot (host w)
  = entry_of OneShot (throttleMs (this w)) (timer (this w))
  /\ pending Repeating (host w)
     = entry_of Repeating (intervalMs (typewriter (this w))) (twTimer (this w))
  /\ Forall (fun e => (t_handle e < next_handle (host w))%positive)
            (timers (host w))
  /\ match timer (this w), twTimer (this w) with
     | Some x, Some y => x <> y
     | _, _ => True
     end.

(** From [w] to [w'] the host only dropped timers or started ones with
    handles that were still unused in [w]. *)
Definition host_grows (w w' : world) : Prop :=
  (next_handle (host w) <= next_handle (host w'))%positive
  /\ forall e, In e (timers (host w')) ->
               In e (timers (host w))
               \/ (next_handle (host w) <= t_handle e)%positive.

(** [N] calls of [write], one per chunk. *)
Definition writes (chunks : list jsstring) : list event :=
  List.map (fun c => Write (VString c)) chunks.

(** [k] ticks of the ticker [x]. *)
Definition ticks (x : handle) (k : nat) : list event :=
  repeat (IntervalFires x) k.

(** Events that attach a listener. *)
Definition attaches (e : event) : bool :=
  match e with
  | On (Some _) => true
  | RenderTo (Some _) => true
  | _ => false
  end.

(** The source text of a render pass and the two option objects. *)
Definition source_of (f : option jsstring) (w : world) : jsstring :=
  match f with
  | Some s => s
  | None => _preprocess (mathSyntax (this w)) (respectNewlines (this w))
                        (buffer (this w))
  end.

Definition configured (w : world) : parse_options extension htmlExtension :=
  {| po_extensions := extensions (this w);
     po_htmlExtensions := htmlExtensions (this w);
     po_allowDangerousHtml := allowHtml (this w) |}.

Definition minimal (w : world) : parse_options extension htmlExtension :=
  {| po_extensions := []; po_htmlExtensions := [];
     po_allowDangerousHtml := allowHtml (this w) |}.


End Notions.

Arguments writes {extension htmlExtension sanitizeOptions_t} chunks.
Arguments ticks {extension htmlExtension sanitizeOptions_t} x k.

(** Collaborators for concrete runs: no extensions, a parser that
    returns its input ([echo]) and one that throws when it is given an
    extension ([picky]), a sanitizer that returns its input. *)
Module Demo.

Definition echo (s : jsstring) (_ : parse_options unit unit) : option jsstring :=
  Some s.

(** A parser that throws as soon as an extension is configured. *)
Definition picky (s : jsstring) (po : parse_options unit unit) : option jsstring :=
  match po_extensions po with
  | [] => Some s
  | _ :: _ => None
  end.

Definition keep (s : jsstring) (_ : unit) : jsstring := s.

Definition defaults : options unit unit unit :=
  {| o_extensions := []; o_htmlExtensions := []; o_sanitizeOptions := tt;
     o_throttleMs := Some (of_nat 16); o_onChunk := true; o_useMath := true;
     o_singleDollarTextMath := true;
     o_mathSyntax := {| brackets := true; dollars := false |};
     o_allowHtml := true; o_respectNewlines := false;
     o_selectorClassMap := [];
     o_tw_enabled := false; o_tw_intervalMs := Some (of_nat 24);
     o_tw_step := Some (of_nat 1) |}.

Definition with_typewriter (stepSize : number) : options unit unit unit :=
  {| o_extensions := []; o_htmlExtensions := []; o_sanitizeOptions := tt;
     o_throttleMs := Some (of_nat 16); o_onChunk := true; o_useMath := true;
     o_singleDollarTextMath := true;
     o_mathSyntax := {| brackets := true; dollars := false |};
     o_allowHtml := true; o_respectNewlines := false;
     o_selectorClassMap := [];
     o_tw_enabled := true; o_tw_intervalMs := Some (of_nat 24);
     o_tw_step := Some stepSize |}.

(** A class map with a string of names, a falsy value and an array. *)
Definition with_classes : options unit unit unit :=
  {| o_extensions := []; o_htmlExtensions := []; o_sanitizeOptions := tt;
     o_throttleMs := Some (of_nat 16); o_onChunk := false; o_useMath := true;
     o_singleDollarTextMath := true;
     o_mathSyntax := {| brackets := true; dollars := false |};
     o_allowHtml := true; o_respectNewlines := false;
     o_selectorClassMap :=
       [(js "p", ClsOther (js " lead  big ")); (js "a", ClsFalsy);
        (js "h1", ClsArray [Some (js "title"); None])];
     o_tw_enabled := false; o_tw_intervalMs := Some (of_nat 24);
     o_tw_step := Some (of_nat 1) |}.

Definition start (o : options unit unit unit) : world unit unit unit :=
  create (fun _ => tt) tt o.

Definition go := run echo keep.

Definition picky_go := run picky keep.

Definition say (s : string) : event unit unit unit := Write (VString (js s)).

Definition fonts : imports :=
  {| katexCss := js ".katex{font:normal 1.21em KaTeX_Main}";
     mainRegularWoff2 := js "data:font/woff2;base64,AAEC";
     mainItalicWoff2 := js "/assets/KaTeX_Main-Italic.woff2";
     mathItalicWoff2 := js "/assets/KaTeX_Math-Italic.woff2";
     size1RegularWoff2 := js "/assets/KaTeX_Size1-Regular.woff2";
     size2RegularWoff2 := js "/assets/KaTeX_Size2-Regular.woff2";
     size3RegularWoff2 := js "/assets/KaTeX_Size3-Regular.woff2";
     size4RegularWoff2 := js "/assets/KaTeX_Size4-Regular.woff2" |}.

End Demo.

(* ================================================================= *)
(** * Notions used in the statements about the preprocessor *)

(** The upper bound of a quantifier. *)
Definition within (hi : option nat) (n : nat) : Prop :=
  match hi with Some h => n <= h | None => True end.

(** A continuation that succeeds or fails whatever was captured. *)
Definition blind (A : Type) (k : jsstring -> jsstring -> caps -> option A) : Prop :=
  forall b s c1 c2, k b s c1 <> None <-> k b s c2 <> None.

(** What an expression may match, without the search order: [spans r b
    s b' s'] when [r] matches from the position with [b] behind (last
    character first) and [s] ahead to the position with [b'] behind and
    [s'] ahead. *)
Fixpoint spans (r : re) (b s b' s' : jsstring) : Prop :=
  match r with
  | Eps => b' = b /\ s' = s
  | Cls p => exists c, s = c :: s' /\ p c = true /\ b' = c :: b
  | Cat r1 r2 => exists b1 s1, spans r1 b s b1 s1 /\ spans r2 b1 s1 b' s'
  | Alt r1 r2 => spans r1 b s b' s' \/ spans r2 b s b' s'
  | Rep p lo hi _ =>
      exists taken,
        s = taken ++ s' /\ b' = rev taken ++ b /\ forallb p taken = true
        /\ lo <= length taken /\ within hi (length taken)
  | Grp _ r1 => spans r1 b s b' s'
  | Bos => b = [] /\ b' = b /\ s' = s
  | Eos => s = [] /\ b' = b /\ s' = s
  | NotBehind p =>
      match b with c :: _ => p c = false | [] => True end /\ b' = b /\ s' = s
  | NotAhead p =>
      match s with c :: _ => p c = false | [] => True end /\ b' = b /\ s' = s
  end.

(** [delim br s]: [s] begins with one or two backslashes followed by the
    bracket [br]; the delimiter and the text behind it. *)
Definition delim (br : char) (s : jsstring) : option (jsstring * jsstring) :=
  match s with
  | c1 :: s1 =>
      if only BACKSLASH c1 then
        match s1 with
        | c2 :: s2 =>
            if only BACKSLASH c2 then
              match s2 with
              | c3 :: s3 => if only br c3 then Some ([c1; c2; c3], s3) else None
              | [] => None
              end
            else if only br c2 then Some ([c1; c2], s2) else None
        | [] => None
        end
      else None
  | [] => None
  end.

(** [is_delim br d]: [d] is such a delimiter and nothing more. *)
Definition is_delim (br : char) (d : jsstring) : bool :=
  match delim br d with
  | Some (_, []) => true
  | _ => false
  end.

(** No delimiter begins inside [t] when [next] follows [t]. *)
Fixpoint delim_free (br : char) (t next : jsstring) : bool :=
  match t with
  | [] => true
  | _ :: t' =>
      match delim br (t ++ next) with
      | Some _ => false
      | None => delim_free br t' next
      end
  end.

(** The two toggles of [_applyHardBreaks] after the lines [ls]. *)
Fixpoint toggles (code math : bool) (ls : list jsstring) : bool * bool :=
  match ls with
  | [] => (code, math)
  | l :: rest =>
      let t := trim l in
      if fence t then toggles (negb code) math rest
      else if startsWith t (js "$$") && negb code then toggles code (negb math) rest
      else toggles code math rest
  end.

(** A line that [_applyHardBreaks] passes through as a boundary. *)
Definition boundary (line : jsstring) : bool :=
  fence (trim line) || startsWith (trim line) (js "$$").

(** [s.endsWith(p)] *)
Definition endsWith (s p : jsstring) : bool := startsWith (rev s) (rev p).

(** A heading as the block-start test sees it: one to six [#], then a
    white-space character. *)
Definition heading (t : jsstring) : Prop :=
  exists n c rest,
    1 <= n <= 6 /\ is_space c = true /\ t = repeat 35%N n ++ c :: rest.

(** A line of text proper: no line break in it. *)
Definition plain_line (l : jsstring) : bool :=
  forallb (fun c => negb (char_eqb c LF) && negb (char_eqb c CR)) l.

(** The regular expression of a bracket span: the opening delimiter,
    the shortest inner text of characters [allowed], the closing
    delimiter. [block_re] and [inline_re] are its two instances. *)
Definition span_re (open : char) (allowed : char -> bool) (close : char) : re :=
  seq [Rep (only BACKSLASH) 1 (Some 2) true; one open;
       Grp 1 (Rep allowed 0 None false);
       Rep (only BACKSLASH) 1 (Some 2) true; one close].

(** The first closing delimiter in [s], with nothing but [allowed]
    characters before it: the text before it, the delimiter, the rest. *)
Fixpoint close_at (allowed : char -> bool) (close : char) (s : jsstring)
  : option (jsstring * jsstring * jsstring) :=
  match delim close s with
  | Some (d, rest) => Some ([], d, rest)
  | None =>
      match s with
      | x :: s' =>
          if allowed x then
            match close_at allowed close s' with
            | Some (inner, d, rest) => Some (x :: inner, d, rest)
            | None => None
            end
          else None
      | [] => None
      end
  end.

(** A span at the front of [s]: its text, its inner text, the rest. *)
Definition span_here (open : char) (allowed : char -> bool) (close : char)
           (s : jsstring) : option (jsstring * jsstring * jsstring) :=
  match delim open s with
  | Some (d, body) =>
      match close_at allowed close body with
      | Some (inner, d', rest) => Some (d ++ inner ++ d', inner, rest)
      | None => None
      end
  | None => None
  end.

(** Not a line terminator: not LF, CR, U+2028 or U+2029. *)
Definition one_line (c : char) : bool :=
  negb (N.eqb c 10 || N.eqb c 13 || N.eqb c 8232 || N.eqb c 8233)%N.

(** Any character. *)
Definition any_char (c : char) : bool := true.

(** [s] opens with the span [m] and goes on with [rest]: [m] is an
    opening delimiter, the inner text, which holds [allowed] characters
    only, and a closing delimiter, the first that begins behind the
    opening one. *)
Definition span_at (open : char) (allowed : char -> bool) (close : char)
           (s m inner rest : jsstring) : Prop :=
  exists op cl,
    is_delim open op = true /\ is_delim close cl = true
    /\ forallb allowed inner = true
    /\ delim_free close inner cl = true
    /\ m = op ++ inner ++ cl
    /\ s = m ++ rest.

(** The text read from left to right: a span where one opens becomes
    [form] of its inner text and reading goes on behind it; a character
    where no span opens is copied. *)
Inductive rewritten (open : char) (allowed : char -> bool) (close : char)
          (form : jsstring -> jsstring) : jsstring -> jsstring -> Prop :=
| rewritten_end : rewritten open allowed close form [] []
| rewritten_span (s m inner rest out : jsstring) :
    span_at open allowed close s m inner rest ->
    rewritten open allowed close form rest out ->
    rewritten open allowed close form s (form inner ++ out)
| rewritten_char (c : char) (s out : jsstring) :
    (forall m inner rest, ~ span_at open allowed close (c :: s) m inner rest) ->
    rewritten open allowed close form s out ->
    rewritten open allowed close form (c :: s) (c :: out).

(** [$$], a line break, the inner text, a line break, [$$]; and [$],
    the inner text, [$]. *)
Definition block_form (inner : jsstring) : jsstring :=
  js "$$" ++ [LF] ++ inner ++ [LF] ++ js "$$".

Definition inline_form (inner : jsstring) : jsstring :=
  js "$" ++ inner ++ js "$".

(** The shapes the block-start test accepts. *)
Definition quote_line (t : jsstring) : Prop :=
  exists c rest, is_space c = true /\ t = 62%N :: c :: rest.

Definition bullet_line (t : jsstring) : Prop :=
  exists x c rest,
    (x = 45%N \/ x = 43%N \/ x = 42%N) /\ is_space c = true /\ t = x :: c :: rest.

Definition numbered_line (t : jsstring) : Prop :=
  exists ds c rest,
    ds <> [] /\ forallb is_digit ds = true /\ is_space c = true
    /\ t = ds ++ 46%N :: c :: rest.

Definition tag_line (t : jsstring) : Prop :=
  exists ws rest, forallb is_space ws = true /\ t = ws ++ 60%N :: rest.

Definition blank (t : jsstring) : Prop := forallb is_space t = true.

Definition block_start (t : jsstring) : Prop :=
  heading t \/ quote_line t \/ bullet_line t \/ numbered_line t
  \/ fence t = true \/ tag_line t \/ blank t.

(** The block-level tags whose closing line gets a blank line after it. *)
Definition closing_tags : list string :=
  ["div"; "p"; "section"; "article"; "header"; "footer"; "table"; "ul";
   "ol"; "li"; "pre"; "blockquote"]%string.

Definition closes_block (t : jsstring) : Prop :=
  exists tag, In tag closing_tags /\ t = js "</" ++ js tag ++ js ">".

(** [line] ends in two white-space characters. *)
Definition ends_in_two_spaces (line : jsstring) : Prop :=
  exists p a b, line = p ++ [a; b] /\ is_space a = true /\ is_space b = true.

(** One turn of the loop of [_applyHardBreaks] at [line], with [next]
    the line after it (empty at the end): the lines pushed and the
    toggles afterwards. *)
Definition hardBreaks_turn (code math : bool) (line next : jsstring)
  : list jsstring * (bool * bool) :=
  let t := trim line in
  if fence t then ([line], (negb code, math))
  else if startsWith t (js "$$") && negb code then ([line], (code, negb math))
  else if negb code && negb math then
    let nt := trim next in
    let blockStart := test blockStart_re nt in
    let closingHtmlBlock := test closingHtmlBlock_re t in
    let line' :=
      if negb (Nat.eqb (length t) 0) && negb (Nat.eqb (length nt) 0)
         && negb blockStart && negb (test two_spaces_re line)
      then line ++ js "  " else line in
    if closingHtmlBlock && negb (Nat.eqb (length nt) 0) && negb blockStart
    then ([line'; []], (code, math))
    else ([line'], (code, math))
  else ([line], (code, math)).

(** The character before or behind a position, if there is one: is it
    a dollar sign, is it white space. *)
Definition is_dollar (x : option char) : bool :=
  match x with Some c => only DOLLAR c | None => false end.

Definition is_blank (x : option char) : bool :=
  match x with Some c => is_space c | None => false end.

(** What the two replacements of [_normalizeInlineDollars] make of a
    line, read from left to right with [prev] the character before:
    the first puts a space before a dollar sign that has neither a
    dollar sign nor white space before it and no dollar sign behind it,
    the second a space behind a dollar sign that has no dollar sign
    before it and neither a dollar sign nor white space behind it. *)
Fixpoint pad_left (prev : option char) (s : jsstring) : jsstring :=
  match s with
  | [] => []
  | c :: s' =>
      (if only DOLLAR c && negb (is_dollar prev || is_blank prev)
          && negb (is_dollar (hd_error s'))
       then [SP; c] else [c]) ++ pad_left (Some c) s'
  end.

Fixpoint pad_right (prev : option char) (s : jsstring) : jsstring :=
  match s with
  | [] => []
  | c :: s' =>
      (if only DOLLAR c && negb (is_dollar prev)
          && negb (is_dollar (hd_error s') || is_blank (hd_error s'))
       then [c; SP] else [c]) ++ pad_right (Some c) s'
  end.

(** Both in one: a dollar sign with no dollar sign next to it gets a
    space on each side where there is no white space yet. *)
Fixpoint pad_dollars (prev : option char) (s : jsstring) : jsstring :=
  match s with
  | [] => []
  | c :: s' =>
      (if only DOLLAR c && negb (is_dollar prev) && negb (is_dollar (hd_error s'))
       then (if is_blank prev then [] else [SP]) ++ [c]
              ++ (if is_blank (hd_error s') then [] else [SP])
       else [c]) ++ pad_dollars (Some c) s'
  end.

(** Every dollar sign of [s] with no dollar sign next to it has a
    white-space character before it and one behind it. *)
Fixpoint padded (prev : option char) (s : jsstring) : bool :=
  match s with
  | [] => true
  | c :: s' =>
      (if only DOLLAR c && negb (is_dollar prev) && negb (is_dollar (hd_error s'))
       then is_blank prev && is_blank (hd_error s') else true)
      && padded (Some c) s'
  end.

(** A text without its spaces (U+0020). *)
Definition unspaced (s : jsstring) : jsstring :=
  filter (fun c => negb (char_eqb c SP)) s.

(** [lines.join("\r\n")]: a text with Windows line ends. *)
Fixpoint join_crlf (ls : list jsstring) : jsstring :=
  match ls with
  | [] => []
  | [l] => l
  | l :: ls' => l ++ CR :: LF :: join_crlf ls'
  end.

(** The text with every CR that stands before an LF left out. *)
Fixpoint unix_line_ends (s : jsstring) : jsstring :=
  match s with
  | [] => []
  | c :: s' =>
      if char_eqb c CR then
        match s' with
        | d :: _ => if char_eqb d LF then unix_line_ends s' else c :: unix_line_ends s'
        | [] => [c]
        end
      else c :: unix_line_ends s'
  end.

(** What [_applyHardBreaks] may make of the lines of a text: the last
    line stays; a line before it stays or gets two spaces appended, and
    an empty line may be put behind it. *)
Inductive decorated : list jsstring -> list jsstring -> Prop :=
| decorated_last (l : jsstring) : decorated [l] [l]
| decorated_line (l l' : jsstring) (ls out : list jsstring) :
    l' = l \/ l' = l ++ js "  " ->
    decorated ls out -> decorated (l :: ls) (l' :: out)
| decorated_blank (l l' : jsstring) (ls out : list jsstring) :
    l' = l \/ l' = l ++ js "  " ->
    decorated ls out -> decorated (l :: ls) (l' :: [] :: out).

(** [p] occurs in [s]. *)
Definition occurs (p s : jsstring) : Prop := exists a c, s = a ++ p ++ c.

(** The ends of a text that are not empty, longest first. *)
Fixpoint tails (s : jsstring) : list jsstring :=
  match s with
  | [] => []
  | _ :: s' => s :: tails s'
  end.

(** [u] and [l] differ at a position both have. *)
Definition clash (l u : jsstring) : bool :=
  negb (startsWith u l) && negb (startsWith l u).

(** What every reference to a KaTeX font file begins with. *)
Definition font_reference : jsstring := js "url(fonts/KaTeX_".

(* ================================================================= *)
(** * Notions used in the statements about runs *)

Section Streams.

Variables extension htmlExtension sanitizeOptions_t : Type.
Let world := Renderer.world extension htmlExtension sanitizeOptions_t.
Let event := Renderer.event extension htmlExtension sanitizeOptions_t.

(** Events that run a render pass: [flush], [clear] and the expiry of
    the throttle timer. *)
Definition renders (e : event) : bool :=
  match e with
  | Flush | Clear | TimeoutFires _ => true
  | _ => false
  end.

(** Events that replace or drop text: [update], [clear], [destroy]. *)
Definition resets (e : event) : bool :=
  match e with
  | Update _ | Clear | Destroy => true
  | _ => false
  end.

(** The text the [write] calls among [es] were given, in order. *)
Fixpoint written (es : list event) : jsstring :=
  match es with
  | [] => []
  | Write (VString s) :: es' => s ++ written es'
  | _ :: es' => written es'
  end.

(** Ticks of the ticker [x], expiries of the throttle timer and
    [flush] calls. *)
Definition passes_time (x : handle) (e : event) : bool :=
  match e with
  | IntervalFires y => Pos.eqb y x
  | TimeoutFires _ | Flush => true
  | _ => false
  end.

(** The number of ticks among [es]. *)
Fixpoint tick_count (es : list event) : nat :=
  match es with
  | [] => 0
  | IntervalFires _ :: es' => S (tick_count es')
  | _ :: es' => tick_count es'
  end.

(** [destroy] calls. *)
Definition destroys (e : event) : bool :=
  match e with
  | Destroy => true
  | _ => false
  end.

(** The last pass was on the buffer as it is, or the buffer is empty
    and no pass has run. *)
Definition shown (w : world) : Prop :=
  last (passes (host w)) []
  = _preprocess (mathSyntax (this w)) (respectNewlines (this w)) (buffer (this w))
  /\ (passes (host w) = [] -> buffer (this w) = []).

(** Shown, unless a throttle timer is held. *)
Definition up_to_date (w : world) : Prop := timer (this w) = None -> shown w.

(** The chunks waiting are not empty, and a ticker runs while one waits. *)
Definition queue_ok (w : world) : Prop :=
  Forall (fun c : jsstring => c <> []) (twQueue (this w))
  /\ (twQueue (this w) <> [] -> twTimer (this w) <> None).

End Streams.

(** One for a ticker that is held: with the number of characters queued,
    the number of ticks the typewriter still has before it. *)
Definition ticker_weight (t : option handle) : nat :=
  match t with Some _ => 1 | None => 0 end.

(** A step of one character at least: [slice] takes a character of
    every chunk that has one. *)
Definition whole (n : number) : Prop :=
  match n with
  | Fin q => (1 <= q)%Q
  | PosInf => True
  | NegInf | NaN => False
  end.

(** A step below one character that the constructor accepts. *)
Definition fractional (n : number) : Prop :=
  match n with
  | Fin q => (0 < q)%Q /\ (q < 1)%Q
  | _ => False
  end.

(* ================================================================= *)
(** * The timers *)

Section TimerFacts.

Variables extension htmlExtension sanitizeOptions_t : Type.
Variable micromark : jsstring -> parse_options extension htmlExtension -> option jsstring.
Variable sanitize : jsstring -> sanitizeOptions_t -> jsstring.
Variable math : bool -> extension.
Variable mathHtml : htmlExtension.

Let world := Renderer.world extension htmlExtension sanitizeOptions_t.
Let event := Renderer.event extension htmlExtension sanitizeOptions_t.

Implicit Types (w : world) (ev : event) (h : host_t) (x : handle).

Lemma pending_clear k x h :
  pending k (clear_timer x h)
  = filter (fun e => negb (Pos.eqb (t_handle e) x)) (pending k h).
Proof.
  unfold pending, clear_timer; simpl.
  induction (timers h) as [|e ts IH]; simpl; [reflexivity|].
  destruct (negb (t_handle e =? x)%positive) eqn:E1;
    destruct (match t_kind e with OneShot => _ | Repeating => _ end) eqn:E2;
    simpl; rewrite ?E1, ?E2, IH; reflexivity.
Qed.

Lemma pending_start k k' d h :
  pending k (snd (start_timer k' d h))
  = (match k', k with
     | OneShot, OneShot | Repeating, Repeating => [entry k' d (next_handle h)]
     | _, _ => []
     end) ++ pending k h.
Proof. destruct k, k'; reflexivity. Qed.

Lemma pending_below k h e :
  Forall (fun e => (t_handle e < next_handle h)%positive) (timers h) ->
  In e (pending k h) -> (t_handle e < next_handle h)%positive.
Proof.
  intros HF He. unfold pending in He. apply filter_In in He.
  rewrite Forall_forall in HF. apply HF, He.
Qed.

Lemma clear_keeps_other k d x y :
  x <> y ->
  filter (fun e => negb (Pos.eqb (t_handle e) x)) (entry_of k d (Some y))
  = entry_of k d (Some y).
Proof.
  intros Hne. simpl. destruct (Pos.eqb_spec y x); [congruence | reflexivity].
Qed.

Lemma clear_drops_own k d x :
  filter (fun e => negb (Pos.eqb (t_handle e) x)) (entry_of k d (Some x)) = [].
Proof. simpl. rewrite Pos.eqb_refl. reflexivity. Qed.

Lemma timers_ok_create (o : options extension htmlExtension sanitizeOptions_t) :
  timers_ok (create math mathHtml o).
Proof. repeat split; simpl; auto. Qed.

(** Steps that touch neither the handles nor the host's timers. *)
Lemma timers_ok_same w w' :
  timer (this w') = timer (this w) ->
  twTimer (this w') = twTimer (this w) ->
  throttleMs (this w') = throttleMs (this w) ->
  typewriter (this w') = typewriter (this w) ->
  timers (host w') = timers (host w) ->
  next_handle (host w') = next_handle (host w) ->
  timers_ok w -> timers_ok w'.
Proof.
  intros E1 E2 E3 E4 E5 E6 (H1 & H2 & H3 & H4).
  unfold timers_ok, pending in *. rewrite E1, E2, E3, E4, E5, E6. auto.
Qed.

Lemma timers_ok_schedule w : timers_ok w -> timers_ok (_schedule w).
Proof.
  intros (H1 & H2 & H3 & H4). unfold _schedule.
  destruct (timer (this w)) eqn:Ht; [repeat split; auto; now rewrite Ht|].
  unfold timers_ok. simpl. repeat split.
  - change (pending OneShot (snd (start_timer OneShot (throttleMs (this w)) (host w)))
            = [entry OneShot (throttleMs (this w)) (next_handle (host w))]).
    rewrite pending_start, H1. reflexivity.
  - change (pending Repeating (snd (start_timer OneShot (throttleMs (this w)) (host w)))
            = entry_of Repeating (intervalMs (typewriter (this w))) (twTimer (this w))).
    rewrite pending_start, H2. reflexivity.
  - constructor; simpl; [lia|].
    eapply Forall_impl; [|exact H3]. simpl. intros; lia.
  - destruct (twTimer (this w)) as [y|] eqn:Hy; [|exact I].
    assert (Hin : In (entry Repeating (intervalMs (typewriter (this w))) y)
                     (pending Repeating (host w)))
      by (rewrite H2; left; reflexivity).
    apply pending_below in Hin; [|exact H3]. simpl in Hin. lia.
Qed.

Lemma timers_ok_startTypewriter w : timers_ok w -> timers_ok (_startTypewriter w).
Proof.
  intros (H1 & H2 & H3 & H4). unfold _startTypewriter.
  destruct (twTimer (this w)) eqn:Ht; [repeat split; auto; now rewrite Ht|].
  unfold timers_ok. simpl. repeat split.
  - change (pending OneShot
              (snd (start_timer Repeating (intervalMs (typewriter (this w))) (host w)))
            = entry_of OneShot (throttleMs (this w)) (timer (this w))).
    rewrite pending_start, H1. reflexivity.
  - change (pending Repeating
              (snd (start_timer Repeating (intervalMs (typewriter (this w))) (host w)))
            = [entry Repeating (intervalMs (typewriter (this w))) (next_handle (host w))]).
    rewrite pending_start, H2. reflexivity.
  - constructor; simpl; [lia|].
    eapply Forall_impl; [|exact H3]. simpl. intros; lia.
  - destruct (timer (this w)) as [y|] eqn:Hy; [|exact I].
    assert (Hin : In (entry OneShot (throttleMs (this w)) y) (pending OneShot (host w)))
      by (rewrite H1; left; reflexivity).
    apply pending_below in Hin; [|exact H3]. simpl in Hin. lia.
Qed.

Lemma Forall_filter_keep (A : Type) (P : A -> Prop) (f : A -> bool) (l : list A) :
  Forall P l -> Forall P (filter f l).
Proof.
  intros H. rewrite Forall_forall in *. intros a Ha.
  apply filter_In in Ha. apply H, Ha.
Qed.

(** [clearTimeout(this.timer); this.timer = null] *)
Lemma timers_ok_cancel_timer w x :
  timers_ok w -> timer (this w) = Some x ->
  timers_ok {| this := set_timer None (this w); host := clear_timer x (host w) |}.
Proof.
  intros (H1 & H2 & H3 & H4) Hx. unfold timers_ok. simpl.
  rewrite !pending_clear, H1, H2, Hx. rewrite Hx in H4. repeat split.
  - apply clear_drops_own.
  - destruct (twTimer (this w)) as [y|]; [|reflexivity].
    apply clear_keeps_other. exact H4.
  - apply Forall_filter_keep. exact H3.
Qed.

(** [clearInterval(this.twTimer); this.twTimer = null] *)
Lemma timers_ok_cancel_twTimer w x :
  timers_ok w -> twTimer (this w) = Some x ->
  timers_ok {| this := set_twTimer None (this w); host := clear_timer x (host w) |}.
Proof.
  intros (H1 & H2 & H3 & H4) Hx. unfold timers_ok. simpl.
  rewrite !pending_clear, H1, H2, Hx. rewrite Hx in H4. repeat split.
  - destruct (timer (this w)) as [y|]; [|reflexivity].
    apply clear_keeps_other. congruence.
  - apply clear_drops_own.
  - apply Forall_filter_keep. exact H3.
  - destruct (timer (this w)); exact I.
Qed.

Lemma timers_ok_on_this w (f : renderer extension htmlExtension sanitizeOptions_t
                               -> renderer extension htmlExtension sanitizeOptions_t) :
  (forall r, timer (f r) = timer r /\ twTimer (f r) = twTimer r
             /\ throttleMs (f r) = throttleMs r /\ typewriter (f r) = typewriter r) ->
  timers_ok w -> timers_ok (on_this f w).
Proof.
  intros Hf. destruct (Hf (this w)) as (E1 & E2 & E3 & E4).
  apply timers_ok_same; simpl; auto.
Qed.

Ltac frame_fields := intros; repeat split; reflexivity.

Lemma timers_ok_call_listener safe w :
  timers_ok w -> timers_ok (call_listener safe w).
Proof.
  unfold call_listener. destruct (listener (this w)) as [[|]|]; auto.
  cbv zeta. destruct (negb (str_eqb safe (prevHtml (this w))));
    apply timers_ok_same; reflexivity.
Qed.

Lemma timers_ok_emit f w :
  timers_ok w -> timers_ok (snd (_emit micromark sanitize f w)).
Proof.
  intros H. unfold _emit.
  set (src := match f with Some s => s | None => _ end).
  assert (Hr : timers_ok (record_pass src w))
    by (revert H; apply timers_ok_same; reflexivity).
  destruct (match micromark src _ with Some html => Some html | None => _ end);
    simpl; [apply timers_ok_call_listener|]; exact Hr.
Qed.

Lemma timers_ok_write chunk w : timers_ok w -> timers_ok (write chunk w).
Proof.
  intros H. destruct chunk as [[|c s]| | | | |]; simpl; auto.
  destruct (enabled (typewriter (this w))).
  - apply timers_ok_startTypewriter, timers_ok_on_this; [frame_fields|exact H].
  - apply timers_ok_schedule, timers_ok_on_this; [frame_fields|exact H].
Qed.

Lemma timers_ok_tick w : timers_ok w -> timers_ok (on_tick w).
Proof.
  intros H. unfold on_tick. destruct (twQueue (this w)) as [|current others].
  - destruct (twTimer (this w)) as [x|] eqn:Hx; simpl.
    + apply timers_ok_cancel_twTimer; assumption.
    + revert H. apply timers_ok_same; simpl; auto.
  - apply timers_ok_schedule, timers_ok_on_this; [frame_fields|exact H].
Qed.

Lemma timers_ok_drop_ticker w : timers_ok w -> timers_ok (stop_ticker w).
Proof.
  intros H. unfold stop_ticker. destruct (twTimer (this w)) as [x|] eqn:Hx; [|exact H].
  apply timers_ok_cancel_twTimer; assumption.
Qed.

Lemma timers_ok_drop_timer w : timers_ok w -> timers_ok (stop_timer w).
Proof.
  intros H. unfold stop_timer. destruct (timer (this w)) as [x|] eqn:Hx; [|exact H].
  apply timers_ok_cancel_timer; assumption.
Qed.

Lemma timers_ok_update text w : timers_ok w -> timers_ok (update text w).
Proof.
  intros H. destruct text as [newStr| | | | |]; simpl; auto.
  destruct (enabled (typewriter (this w))).
  - destruct (Nat.eqb (length (buffer (this w))) 0 && Nat.ltb 0 (length newStr)).
    { apply timers_ok_startTypewriter, timers_ok_on_this; [frame_fields|exact H]. }
    destruct (Nat.eqb _ _ && Nat.ltb _ _).
    { destruct (slice1 newStr _); [exact H|].
      apply timers_ok_startTypewriter, timers_ok_on_this; [frame_fields|exact H]. }
    apply timers_ok_schedule, timers_ok_on_this; [frame_fields|].
    apply timers_ok_drop_ticker.
    apply timers_ok_on_this; [frame_fields|exact H].
  - apply timers_ok_schedule, timers_ok_on_this; [frame_fields|exact H].
Qed.

Lemma timers_ok_clear w :
  timers_ok w -> timers_ok (snd (clear micromark sanitize w)).
Proof.
  intros H. unfold clear. apply timers_ok_emit.
  apply timers_ok_drop_ticker.
  apply timers_ok_on_this; [frame_fields|exact H].
Qed.

Lemma timers_ok_destroy w : timers_ok w -> timers_ok (destroy w).
Proof.
  intros H. unfold destroy.
  apply timers_ok_on_this; [frame_fields|].
  apply timers_ok_drop_ticker.
  apply timers_ok_drop_timer.
  apply timers_ok_on_this; [frame_fields|exact H].
Qed.

(** A pending one-shot timer is the one [this.timer] names, and a
    pending ticker the one [this.twTimer] names. *)
Lemma pending_timeout_is_held w x :
  timers_ok w -> is_pending OneShot x (host w) = true -> timer (this w) = Some x.
Proof.
  intros (H1 & _) Hp. unfold is_pending in Hp. rewrite H1 in Hp.
  destruct (timer (this w)) as [y|]; simpl in Hp; [|discriminate].
  rewrite orb_false_r in Hp. apply Pos.eqb_eq in Hp. congruence.
Qed.

Lemma pending_interval_is_held w x :
  timers_ok w -> is_pending Repeating x (host w) = true -> twTimer (this w) = Some x.
Proof.
  intros (_ & H2 & _) Hp. unfold is_pending in Hp. rewrite H2 in Hp.
  destruct (twTimer (this w)) as [y|]; simpl in Hp; [|discriminate].
  rewrite orb_false_r in Hp. apply Pos.eqb_eq in Hp. congruence.
Qed.

Lemma held_timeout_is_pending w x :
  timers_ok w -> timer (this w) = Some x -> is_pending OneShot x (host w) = true.
Proof.
  intros (H1 & _) Hx. unfold is_pending. rewrite H1, Hx. simpl.
  rewrite Pos.eqb_refl. reflexivity.
Qed.

Lemma held_interval_is_pending w x :
  timers_ok w -> twTimer (this w) = Some x -> is_pending Repeating x (host w) = true.
Proof.
  intros (_ & H2 & _) Hx. unfold is_pending. rewrite H2, Hx. simpl.
  rewrite Pos.eqb_refl. reflexivity.
Qed.

Lemma timers_ok_step w ev :
  timers_ok w -> timers_ok (snd (step_event micromark sanitize w ev)).
Proof.
  intros H. destruct ev; simpl.
  - apply timers_ok_write, H.
  - apply timers_ok_update, H.
  - unfold flush. pose proof (timers_ok_emit None H) as He.
    destruct (_emit micromark sanitize None w) as [[s|] w']; exact He.
  - pose proof (timers_ok_clear H) as He.
    destruct (clear micromark sanitize w) as [[s|] w']; exact He.
  - apply timers_ok_destroy, H.
  - apply timers_ok_on_this; [frame_fields|exact H].
  - destruct el; [apply timers_ok_on_this; [frame_fields|exact H]|exact H].
  - destruct exts; [apply timers_ok_on_this; [frame_fields|exact H]|exact H].
  - destruct exts; [apply timers_ok_on_this; [frame_fields|exact H]|exact H].
  - apply timers_ok_on_this; [frame_fields|exact H].
  - destruct (is_pending OneShot x (host w)) eqn:Hp; [|exact H].
    apply pending_timeout_is_held in Hp; [|exact H].
    pose proof (timers_ok_cancel_timer H Hp) as Hc.
    apply (timers_ok_emit None) in Hc.
    unfold on_timeout, on_this. simpl.
    destruct (_emit micromark sanitize None _) as [[s|] w']; exact Hc.
  - destruct (is_pending Repeating x (host w)); [apply timers_ok_tick, H|exact H].
Qed.

Lemma timers_ok_run es w :
  timers_ok w -> timers_ok (run micromark sanitize w es).
Proof.
  revert w. induction es as [|ev es IH]; intros w H; simpl; [exact H|].
  apply IH, timers_ok_step, H.
Qed.

(** Every state a renderer reaches from its construction. *)
Lemma timers_ok_reachable o es :
  timers_ok (run micromark sanitize (create math mathHtml o) es).
Proof. apply timers_ok_run, timers_ok_create. Qed.


(** ** Render passes *)

Lemma emit_parsed f w html :
  micromark (source_of f w) (configured w) = Some html ->
  _emit micromark sanitize f w
  = (Normal (sanitize html (sanitizeOptions (this w))),
     call_listener (sanitize html (sanitizeOptions (this w)))
                   (record_pass (source_of f w) w)).
Proof.
  intros H. unfold _emit. fold (source_of f w). simpl.
  unfold configured in H. rewrite H. reflexivity.
Qed.

Lemma emit_fallback f w html :
  micromark (source_of f w) (configured w) = None ->
  micromark (buffer (this w)) (minimal w) = Some html ->
  _emit micromark sanitize f w
  = (Normal (sanitize html (sanitizeOptions (this w))),
     call_listener (sanitize html (sanitizeOptions (this w)))
                   (record_pass (source_of f w) w)).
Proof.
  intros H1 H2. unfold _emit. fold (source_of f w). simpl.
  unfold configured in H1. unfold minimal in H2. rewrite H1, H2. reflexivity.
Qed.

Lemma emit_throws f w :
  micromark (source_of f w) (configured w) = None ->
  micromark (buffer (this w)) (minimal w) = None ->
  _emit micromark sanitize f w = (Throw, record_pass (source_of f w) w).
Proof.
  intros H1 H2. unfold _emit. fold (source_of f w). simpl.
  unfold configured in H1. unfold minimal in H2. rewrite H1, H2. reflexivity.
Qed.

(** Whatever the parser does, a pass is recorded and nothing but the
    listener's effects is added. *)
Lemma emit_cases f w :
  (exists safe,
      _emit micromark sanitize f w
      = (Normal safe, call_listener safe (record_pass (source_of f w) w)))
  \/ _emit micromark sanitize f w = (Throw, record_pass (source_of f w) w).
Proof.
  destruct (micromark (source_of f w) (configured w)) as [html|] eqn:H1.
  - left. eexists. apply emit_parsed, H1.
  - destruct (micromark (buffer (this w)) (minimal w)) as [html|] eqn:H2.
    + left. eexists. apply emit_fallback; eassumption.
    + right. apply emit_throws; assumption.
Qed.

Lemma calls_call_listener safe w :
  calls (host (call_listener safe w))
  = match listener (this w) with
    | Some _ => calls (host w) ++ [safe]
    | None => calls (host w)
    end.
Proof. unfold call_listener. destruct (listener (this w)) as [[|]|]; reflexivity. Qed.

Lemma passes_call_listener safe w :
  passes (host (call_listener safe w)) = passes (host w).
Proof. unfold call_listener. destruct (listener (this w)) as [[|]|]; reflexivity. Qed.

Lemma passes_emit f w :
  passes (host (snd (_emit micromark sanitize f w)))
  = passes (host w) ++ [source_of f w].
Proof.
  destruct (emit_cases f w) as [[safe ->]| ->]; simpl;
    rewrite ?passes_call_listener; reflexivity.
Qed.


Lemma str_eqb_eq (a b : jsstring) : str_eqb a b = true <-> a = b.
Proof.
  revert b. induction a as [|x a IH]; intros [|y b]; simpl; split;
    try congruence; try discriminate; auto.
  - intros H. apply andb_prop in H. destruct H as [H1 H2].
    apply N.eqb_eq in H1. apply IH in H2. congruence.
  - intros H. injection H as -> ->. unfold char_eqb. rewrite N.eqb_refl.
    apply IH. reflexivity.
Qed.

(** The result of a pass depends on the buffer and the configuration
    only, so it is the same before and after the listener ran. *)
Lemma emit_result_same f w w' :
  buffer (this w') = buffer (this w) ->
  mathSyntax (this w') = mathSyntax (this w) ->
  respectNewlines (this w') = respectNewlines (this w) ->
  extensions (this w') = extensions (this w) ->
  htmlExtensions (this w') = htmlExtensions (this w) ->
  allowHtml (this w') = allowHtml (this w) ->
  sanitizeOptions (this w') = sanitizeOptions (this w) ->
  fst (_emit micromark sanitize f w') = fst (_emit micromark sanitize f w).
Proof.
  intros E1 E2 E3 E4 E5 E6 E7. unfold _emit. simpl.
  rewrite E1, E2, E3, E4, E5, E6, E7.
  destruct (match micromark _ _ with Some html => Some html | None => _ end);
    reflexivity.
Qed.

Lemma this_call_listener_frame safe w :
  let r := this (call_listener safe w) in
  buffer r = buffer (this w) /\ mathSyntax r = mathSyntax (this w)
  /\ respectNewlines r = respectNewlines (this w)
  /\ extensions r = extensions (this w)
  /\ htmlExtensions r = htmlExtensions (this w)
  /\ allowHtml r = allowHtml (this w)
  /\ sanitizeOptions r = sanitizeOptions (this w)
  /\ listener r = listener (this w).
Proof.
  unfold call_listener. destruct (listener (this w)) as [[|]|] eqn:E; simpl;
    try (repeat split; (reflexivity || assumption)).
  destruct (negb (str_eqb safe (prevHtml (this w)))); simpl;
    repeat split; (reflexivity || assumption).
Qed.

Lemma emit_twice f w safe :
  fst (_emit micromark sanitize f w) = Normal safe ->
  let w1 := snd (_emit micromark sanitize f w) in
  fst (_emit micromark sanitize f w1) = Normal safe
  /\ listener (this w1) = listener (this w).
Proof.
  intros H w1. subst w1.
  destruct (emit_cases f w) as [[s E]|E]; rewrite E in *; simpl in *; [|discriminate].
  destruct (this_call_listener_frame s (record_pass (source_of f w) w))
    as (E1 & E2 & E3 & E4 & E5 & E6 & E7 & E8).
  split; [|exact E8].
  injection H as ->.
  rewrite (emit_result_same f w (call_listener safe (record_pass (source_of f w) w)));
    try assumption.
  rewrite E. reflexivity.
Qed.

Lemma calls_emit f w safe :
  fst (_emit micromark sanitize f w) = Normal safe ->
  calls (host (snd (_emit micromark sanitize f w)))
  = match listener (this w) with
    | Some _ => calls (host w) ++ [safe]
    | None => calls (host w)
    end.
Proof.
  intros H.
  destruct (emit_cases f w) as [[s E]|E]; rewrite E in *; simpl in *; [|discriminate].
  injection H as ->. rewrite calls_call_listener. reflexivity.
Qed.

(** The class names are added to the descendants; the markup assigned
    is not touched. *)
Lemma add_classes_markup map (e : element_t) :
  innerHTML (add_classes map e) = innerHTML e.
Proof.
  unfold add_classes. revert e. induction map as [|[k cls] map IH]; intros e;
    [reflexivity|].
  cbn [fold_left]. rewrite IH. destruct cls; reflexivity.
Qed.

(** What the listener of [renderTo] does to the elements. *)
Lemma element_after_emit f w safe el :
  listener (this w) = Some (ElementWriter el) ->
  fst (_emit micromark sanitize f w) = Normal safe ->
  let w1 := snd (_emit micromark sanitize f w) in
  prevHtml (this w1) = safe
  /\ selectorClassMap (this w1) = selectorClassMap (this w)
  /\ elements (host w1) el
     = add_classes (selectorClassMap (this w))
         (if str_eqb safe (prevHtml (this w)) then elements (host w) el
          else assigned safe)
  /\ (forall x, x <> el -> elements (host w1) x = elements (host w) x).
Proof.
  intros Hl H w1. subst w1.
  destruct (emit_cases f w) as [[s E]|E]; rewrite E in *; simpl in *; [|discriminate].
  injection H as ->. unfold call_listener. simpl. rewrite Hl.
  destruct (str_eqb safe (prevHtml (this w))) eqn:Eq; simpl;
    rewrite Pos.eqb_refl; repeat split; auto.
  - apply str_eqb_eq in Eq. congruence.
  - intros x Hx. apply Pos.eqb_neq in Hx. rewrite Hx. reflexivity.
  - intros x Hx. apply Pos.eqb_neq in Hx. rewrite Hx. reflexivity.
Qed.

(** C1 (amended): a render pass that completes with a listener attached
    calls the listener exactly once with the sanitized result, whether
    or not the string equals the previous one; so a second [flush] with
    no [write] in between calls it again with the identical string.
    Only the listener installed by [renderTo] compares with the last
    markup: it assigns its element and [prevHtml] when the result
    differs from [prevHtml] and does not assign when it is equal; in
    both cases it then adds the class names of [selectorClassMap] to
    the element's descendants, and it touches no other element. [clear]
    runs one pass on the empty source and calls the listener with its
    sanitized rendering. *)
Theorem C1_listener_called_on_every_pass :
  forall (w : world) (l : listener_t) (safe : jsstring),
    listener (this w) = Some l ->
    fst (flush micromark sanitize w) = Normal safe ->
    let w1 := snd (flush micromark sanitize w) in
    let w2 := snd (flush micromark sanitize w1) in
    calls (host w1) = calls (host w) ++ [safe]
    /\ fst (flush micromark sanitize w1) = Normal safe
    /\ calls (host w2) = calls (host w) ++ [safe; safe]
    /\ (forall el,
           l = ElementWriter el ->
           prevHtml (this w1) = safe
           /\ elements (host w1) el
              = add_classes (selectorClassMap (this w))
                  (if str_eqb safe (prevHtml (this w)) then elements (host w) el
                   else assigned safe)
           /\ prevHtml (this w2) = safe
           /\ elements (host w2) el
              = add_classes (selectorClassMap (this w)) (elements (host w1) el)
           /\ innerHTML (elements (host w2) el) = innerHTML (elements (host w1) el)
           /\ (forall x, x <> el -> elements (host w2) x = elements (host w) x))
    /\ (forall html,
           micromark [] (configured w) = Some html ->
           calls (host (snd (clear micromark sanitize w)))
           = calls (host w) ++ [sanitize html (sanitizeOptions (this w))]).
Proof.
  intros w l safe Hl H w1 w2. unfold flush in *.
  pose proof (emit_twice None w H) as [H2 Hl2]. fold w1 in H2, Hl2.
  pose proof (calls_emit None w H) as C1. fold w1 in C1. rewrite Hl in C1.
  pose proof (calls_emit None w1 H2) as C2. fold w2 in C2.
  rewrite Hl2, Hl, C1, <- app_assoc in C2. simpl in C2.
  split; [exact C1|]. split; [exact H2|]. split; [exact C2|]. split.
  - intros el ->. rewrite Hl in Hl2.
    destruct (element_after_emit None w Hl H) as (P1 & M1 & P1' & O1).
    destruct (element_after_emit None w1 Hl2 H2) as (P2 & M2 & P2' & O2).
    fold w1 in P1, M1, P1', O1. fold w2 in P2, M2, P2', O2.
    assert (E2 : elements (host w2) el
                 = add_classes (selectorClassMap (this w)) (elements (host w1) el)).
    { rewrite P2', P1, M1. replace (str_eqb safe safe) with true; [reflexivity|].
      symmetry. apply str_eqb_eq. reflexivity. }
    repeat split; auto.
    + rewrite E2. apply add_classes_markup.
    + intros x Hx. rewrite (O2 x Hx). apply O1, Hx.
  - intros html Hp. unfold clear in *.
    set (w0 := stop_ticker _) in *.
    assert (Hl0 : listener (this w0) = Some l /\ calls (host w0) = calls (host w)
                   /\ sanitizeOptions (this w0) = sanitizeOptions (this w)).
    { subst w0. unfold stop_ticker. simpl. destruct (twTimer (this w)); simpl; auto. }
    destruct Hl0 as (Hl0 & Hc0 & Hs0).
    assert (Hcfg : micromark (source_of (Some []) w0) (configured w0) = Some html).
    { rewrite <- Hp. subst w0. unfold configured, stop_ticker. simpl.
      destruct (twTimer (this w)); reflexivity. }
    rewrite (emit_parsed (Some []) Hcfg). simpl.
    rewrite calls_call_listener. simpl. rewrite Hl0, Hc0, Hs0. reflexivity.
Qed.




(** C8 (amended): [write] ignores every argument that is not a string or
    is the empty string, and [update] ignores every argument that is
    not a string: no exception, the renderer and the host unchanged.
    [update] with the empty string is not ignored: it raises nothing,
    sets the buffer to the empty string and requests a throttled render;
    in typewriter mode it also empties the queue and drops the ticker. *)
Theorem C8_ignored_arguments :
  forall (w : world) (v : value),
    (is_string v = false \/ v = VString []) ->
    step_event micromark sanitize w (Write v) = (Normal tt, w)
    /\ (is_string v = false ->
        step_event micromark sanitize w (Update v) = (Normal tt, w))
    /\ (v = VString [] ->
        let w' := snd (step_event micromark sanitize w (Update v)) in
        fst (step_event micromark sanitize w (Update v)) = Normal tt
        /\ buffer (this w') = []
        /\ timer (this w') <> None
        /\ (enabled (typewriter (this w)) = true ->
            twQueue (this w') = [] /\ twTimer (this w') = None)
        /\ (enabled (typewriter (this w)) = false ->
            twQueue (this w') = twQueue (this w)
            /\ twTimer (this w') = twTimer (this w))).
Proof.
  intros w v Hv. split; [|split].
  - destruct Hv as [Hv| ->]; [|reflexivity].
    destruct v; try discriminate; reflexivity.
  - intros Hs. destruct v; try discriminate; reflexivity.
  - intros ->. cbv zeta.
    assert (S : forall u : world,
               buffer (this (_schedule u)) = buffer (this u)
               /\ timer (this (_schedule u)) <> None
               /\ twQueue (this (_schedule u)) = twQueue (this u)
               /\ twTimer (this (_schedule u)) = twTimer (this u)).
    { intros u. unfold _schedule. destruct (timer (this u)) eqn:E; simpl;
        repeat split; try congruence. }
    assert (T : forall u : world,
               twQueue (this (stop_ticker u)) = twQueue (this u)
               /\ twTimer (this (stop_ticker u)) = None).
    { intros u. unfold stop_ticker. destruct (twTimer (this u)) eqn:E; simpl; auto. }
    split; [reflexivity|].
    change (snd (step_event micromark sanitize w (Update (VString []))))
      with (update (VString []) w).
    unfold update. destruct (enabled (typewriter (this w))) eqn:En.
    + replace (Nat.eqb (length (buffer (this w))) 0 && Nat.ltb 0 (@length char []))
        with false by (rewrite andb_comm; reflexivity).
      replace (Nat.eqb (common_prefix (buffer (this w)) []) (length (buffer (this w)))
               && Nat.ltb (length (buffer (this w))) (@length char []))
        with false by (rewrite andb_comm; reflexivity).
      cbv zeta.
      match goal with |- context [_schedule ?u] => destruct (S u) as (S1 & S2 & S3 & S4) end.
      rewrite S1, S3, S4.
      destruct (T (on_this (set_twQueue []) w)) as [T1 T2].
      repeat split; auto; try discriminate.
    + match goal with |- context [_schedule ?u] => destruct (S u) as (S1 & S2 & S3 & S4) end.
      rewrite S1, S3, S4. simpl. repeat split; auto; discriminate.
Qed.


(** ** Handles are never reused *)

Lemma host_grows_refl w : host_grows w w.
Proof. split; [lia|auto]. Qed.

Lemma host_grows_trans w1 w2 w3 :
  host_grows w1 w2 -> host_grows w2 w3 -> host_grows w1 w3.
Proof.
  intros [A1 A2] [B1 B2]. split; [lia|].
  intros e He. destruct (B2 e He) as [H|H].
  - apply A2, H.
  - right. lia.
Qed.

Lemma host_grows_same w w' :
  timers (host w') = timers (host w) ->
  next_handle (host w') = next_handle (host w) -> host_grows w w'.
Proof. intros E1 E2. unfold host_grows. rewrite E1, E2. split; [lia|auto]. Qed.

Lemma host_grows_schedule w : host_grows w (_schedule w).
Proof.
  unfold _schedule. destruct (timer (this w)); [apply host_grows_refl|].
  split; simpl; [lia|]. intros e [<-|He]; [right; simpl; lia|left; exact He].
Qed.

Lemma host_grows_startTypewriter w : host_grows w (_startTypewriter w).
Proof.
  unfold _startTypewriter. destruct (twTimer (this w)); [apply host_grows_refl|].
  split; simpl; [lia|]. intros e [<-|He]; [right; simpl; lia|left; exact He].
Qed.

Lemma host_grows_clear_timer w x r :
  host_grows w {| this := r; host := clear_timer x (host w) |}.
Proof.
  split; simpl; [lia|]. intros e He. apply filter_In in He. left. apply He.
Qed.

Lemma host_grows_stop_timer w : host_grows w (stop_timer w).
Proof.
  unfold stop_timer. destruct (timer (this w));
    [apply host_grows_clear_timer|apply host_grows_refl].
Qed.

Lemma host_grows_stop_ticker w : host_grows w (stop_ticker w).
Proof.
  unfold stop_ticker. destruct (twTimer (this w));
    [apply host_grows_clear_timer|apply host_grows_refl].
Qed.

Lemma host_grows_call_listener safe w : host_grows w (call_listener safe w).
Proof.
  unfold call_listener. destruct (listener (this w)) as [[|]|];
    apply host_grows_same; reflexivity.
Qed.

Lemma host_grows_emit f w : host_grows w (snd (_emit micromark sanitize f w)).
Proof.
  destruct (emit_cases f w) as [[safe ->]| ->]; simpl.
  - eapply host_grows_trans; [|apply host_grows_call_listener].
    apply host_grows_same; reflexivity.
  - apply host_grows_same; reflexivity.
Qed.

Ltac grows_chain :=
  repeat first
    [ apply host_grows_refl
    | (eapply host_grows_trans; [|apply host_grows_schedule])
    | (eapply host_grows_trans; [|apply host_grows_startTypewriter])
    | (eapply host_grows_trans; [|apply host_grows_stop_ticker])
    | (eapply host_grows_trans; [|apply host_grows_stop_timer])
    | (eapply host_grows_trans; [|apply host_grows_emit])
    | (apply host_grows_same; reflexivity) ].

Lemma host_grows_step w ev :
  host_grows w (snd (step_event micromark sanitize w ev)).
Proof.
  destruct ev; simpl.
  - destruct chunk as [[|c s]| | | | |]; simpl; try apply host_grows_refl.
    destruct (enabled (typewriter (this w))); grows_chain.
  - destruct text as [newStr| | | | |]; simpl; try apply host_grows_refl.
    destruct (enabled (typewriter (this w))); [|grows_chain].
    destruct (Nat.eqb _ _ && Nat.ltb _ _); [grows_chain|].
    destruct (Nat.eqb _ _ && Nat.ltb _ _); [|grows_chain].
    destruct (slice1 newStr _); grows_chain.
  - unfold flush. pose proof (host_grows_emit None w) as H.
    destruct (_emit micromark sanitize None w) as [[s|] w']; exact H.
  - unfold clear.
    match goal with |- context [_emit micromark sanitize ?f ?u] =>
      pose proof (host_grows_emit f u) as H;
      destruct (_emit micromark sanitize f u) as [[s|] w'] end;
      simpl in *; (eapply host_grows_trans; [|exact H]); grows_chain.
  - unfold destroy. eapply host_grows_trans; [|apply host_grows_same; reflexivity].
    grows_chain.
  - grows_chain.
  - destruct el; grows_chain.
  - destruct exts; grows_chain.
  - destruct exts; grows_chain.
  - grows_chain.
  - destruct (is_pending OneShot x (host w)); [|apply host_grows_refl].
    unfold on_timeout.
    match goal with |- context [_emit micromark sanitize ?f ?u] =>
      pose proof (host_grows_emit f u) as H;
      destruct (_emit micromark sanitize f u) as [[s|] w'] end;
      simpl in *; (eapply host_grows_trans; [|exact H]);
      (eapply host_grows_trans; [apply (host_grows_clear_timer w x (this w))|]);
      apply host_grows_same; reflexivity.
  - destruct (is_pending Repeating x (host w)); [|apply host_grows_refl].
    unfold on_tick. destruct (twQueue (this w)).
    + destruct (twTimer (this w)); simpl;
        [apply host_grows_clear_timer|apply host_grows_same; reflexivity].
    + grows_chain.
Qed.

Lemma host_grows_run es w : host_grows w (run micromark sanitize w es).
Proof.
  revert w. induction es as [|ev es IH]; intros w; simpl; [apply host_grows_refl|].
  eapply host_grows_trans; [apply host_grows_step|apply IH].
Qed.

(** A handle that was already given out and is not pending now is never
    pending again. *)
Lemma spent_handle_stays_spent w es k x :
  (x < next_handle (host w))%positive ->
  is_pending k x (host w) = false ->
  is_pending k x (host (run micromark sanitize w es)) = false.
Proof.
  intros Hx Hn. destruct (host_grows_run es w) as [_ G].
  destruct (is_pending k x (host (run micromark sanitize w es))) eqn:E; [|reflexivity].
  unfold is_pending in E. apply existsb_exists in E. destruct E as (e & He & Hh).
  apply Pos.eqb_eq in Hh. unfold pending in He. apply filter_In in He.
  destruct He as [He Hk]. destruct (G e He) as [Hold|Hnew]; [|lia].
  assert (is_pending k x (host w) = true); [|congruence].
  unfold is_pending. apply existsb_exists. exists e. split.
  - unfold pending. apply filter_In. auto.
  - apply Pos.eqb_eq, Hh.
Qed.


(** ** After [destroy] *)

Lemma no_pending_no_timers h :
  pending OneShot h = [] -> pending Repeating h = [] -> timers h = [].
Proof.
  unfold pending. induction (timers h) as [|e ts IH]; simpl; [reflexivity|].
  destruct (t_kind e); discriminate.
Qed.

Lemma stop_timer_frame w :
  let w' := stop_timer w in
  listener (this w') = listener (this w) /\ calls (host w') = calls (host w)
  /\ passes (host w') = passes (host w) /\ buffer (this w') = buffer (this w)
  /\ twQueue (this w') = twQueue (this w) /\ twTimer (this w') = twTimer (this w)
  /\ timer (this w') = None.
Proof.
  unfold stop_timer. destruct (timer (this w)) eqn:E; simpl;
    repeat split; congruence.
Qed.

Lemma stop_ticker_frame w :
  let w' := stop_ticker w in
  listener (this w') = listener (this w) /\ calls (host w') = calls (host w)
  /\ passes (host w') = passes (host w) /\ buffer (this w') = buffer (this w)
  /\ twQueue (this w') = twQueue (this w) /\ timer (this w') = timer (this w)
  /\ typewriter (this w') = typewriter (this w)
  /\ twTimer (this w') = None.
Proof.
  unfold stop_ticker. destruct (twTimer (this w)) eqn:E; simpl;
    repeat split; congruence.
Qed.

Lemma destroy_fields w :
  let w' := destroy w in
  buffer (this w') = [] /\ twQueue (this w') = [] /\ timer (this w') = None
  /\ twTimer (this w') = None /\ listener (this w') = None
  /\ calls (host w') = calls (host w) /\ passes (host w') = passes (host w).
Proof.
  unfold destroy. simpl.
  match goal with |- context [stop_ticker ?u] =>
    destruct (stop_ticker_frame u) as (_ & A2 & A3 & A4 & A5 & A6 & _ & A8) end.
  match goal with |- context [stop_timer ?u] =>
    destruct (stop_timer_frame u) as (_ & B2 & B3 & B4 & B5 & _ & B7) end.
  rewrite A2, A3, A4, A5, A6, A8, B2, B3, B4, B5, B7. simpl.
  repeat split; reflexivity.
Qed.

Lemma schedule_frame w :
  let w' := _schedule w in
  listener (this w') = listener (this w) /\ calls (host w') = calls (host w)
  /\ passes (host w') = passes (host w) /\ buffer (this w') = buffer (this w)
  /\ twQueue (this w') = twQueue (this w) /\ twTimer (this w') = twTimer (this w)
  /\ typewriter (this w') = typewriter (this w)
  /\ mathSyntax (this w') = mathSyntax (this w)
  /\ respectNewlines (this w') = respectNewlines (this w)
  /\ throttleMs (this w') = throttleMs (this w).
Proof.
  unfold _schedule. destruct (timer (this w)); simpl; repeat split; reflexivity.
Qed.

Lemma schedule_sets_timer w : timer (this (_schedule w)) <> None.
Proof.
  unfold _schedule. destruct (timer (this w)) eqn:E; simpl; congruence.
Qed.

Lemma startTypewriter_frame w :
  let w' := _startTypewriter w in
  listener (this w') = listener (this w) /\ calls (host w') = calls (host w)
  /\ passes (host w') = passes (host w) /\ buffer (this w') = buffer (this w)
  /\ twQueue (this w') = twQueue (this w) /\ timer (this w') = timer (this w)
  /\ typewriter (this w') = typewriter (this w)
  /\ twTimer (this w') <> None.
Proof.
  unfold _startTypewriter. destruct (twTimer (this w)) eqn:E; simpl;
    repeat split; congruence.
Qed.

Lemma listener_calls_emit f w :
  let w' := snd (_emit micromark sanitize f w) in
  listener (this w') = listener (this w)
  /\ (listener (this w) = None -> calls (host w') = calls (host w)).
Proof.
  destruct (emit_cases f w) as [[safe ->]| ->]; simpl.
  - destruct (this_call_listener_frame safe (record_pass (source_of f w) w))
      as (_ & _ & _ & _ & _ & _ & _ & E).
    split; [exact E|]. intros Hn. rewrite calls_call_listener. simpl.
    rewrite Hn. reflexivity.
  - auto.
Qed.

(** While no listener is attached and none gets attached, nothing is
    delivered. *)
Lemma detached_step w ev :
  listener (this w) = None -> attaches ev = false ->
  let w' := snd (step_event micromark sanitize w ev) in
  listener (this w') = None /\ calls (host w') = calls (host w).
Proof.
  intros Hl Ha. destruct ev; simpl.
  - destruct chunk as [[|c s]| | | | |]; simpl; auto.
    destruct (enabled (typewriter (this w))).
    + match goal with |- context [_startTypewriter ?u] =>
        destruct (startTypewriter_frame u) as (E1 & E2 & _) end.
      rewrite E1, E2. auto.
    + match goal with |- context [_schedule ?u] =>
        destruct (schedule_frame u) as (E1 & E2 & _) end.
      rewrite E1, E2. auto.
  - destruct text as [newStr| | | | |]; simpl; auto.
    destruct (enabled (typewriter (this w))).
    + destruct (Nat.eqb _ _ && Nat.ltb _ _).
      { match goal with |- context [_startTypewriter ?u] =>
          destruct (startTypewriter_frame u) as (E1 & E2 & _) end.
        rewrite E1, E2. auto. }
      destruct (Nat.eqb _ _ && Nat.ltb _ _).
      { destruct (slice1 newStr _); auto.
        match goal with |- context [_startTypewriter ?u] =>
          destruct (startTypewriter_frame u) as (E1 & E2 & _) end.
        rewrite E1, E2. auto. }
      match goal with |- context [_schedule ?u] =>
        destruct (schedule_frame u) as (E1 & E2 & _) end.
      rewrite E1, E2. simpl.
      destruct (stop_ticker_frame (on_this (set_twQueue []) w)) as (F1 & F2 & _).
      rewrite F1, F2. auto.
    + match goal with |- context [_schedule ?u] =>
        destruct (schedule_frame u) as (E1 & E2 & _) end.
      rewrite E1, E2. auto.
  - unfold flush. destruct (listener_calls_emit None w) as [E1 E2].
    destruct (_emit micromark sanitize None w) as [[s|] w']; simpl in *;
      rewrite E1; auto.
  - unfold clear.
    match goal with |- context [_emit micromark sanitize ?f ?u] =>
      destruct (listener_calls_emit f u) as [E1 E2];
      destruct (stop_ticker_frame
                  (on_this (fun r => set_twQueue [] (set_buffer [] r)) w))
        as (F1 & F2 & _);
      destruct (_emit micromark sanitize f u) as [[s|] w'] end;
      simpl in *; rewrite E1, F1, E2; rewrite ?F1, ?F2; auto.
  - destruct (destroy_fields w) as (_ & _ & _ & _ & E1 & E2 & _). auto.
  - destruct fn; [discriminate|auto].
  - destruct el; [discriminate|auto].
  - destruct exts; auto.
  - destruct exts; auto.
  - auto.
  - destruct (is_pending OneShot x (host w)); [|auto].
    unfold on_timeout.
    match goal with |- context [_emit micromark sanitize ?f ?u] =>
      destruct (listener_calls_emit f u) as [E1 E2];
      destruct (_emit micromark sanitize f u) as [[s|] w'] end;
      simpl in *; rewrite E1, E2; auto.
  - destruct (is_pending Repeating x (host w)); [|auto].
    unfold on_tick. destruct (twQueue (this w)).
    + simpl. destruct (twTimer (this w)); simpl; auto.
    + cbv zeta. cbn [snd fst].
      match goal with |- context [_schedule ?u] =>
        destruct (schedule_frame u) as (E1 & E2 & _) end.
      rewrite E1, E2. auto.
Qed.

Lemma detached_run es w :
  listener (this w) = None ->
  forallb (fun ev => negb (attaches ev)) es = true ->
  calls (host (run micromark sanitize w es)) = calls (host w).
Proof.
  revert w. induction es as [|ev es IH]; intros w Hl Ha; simpl; [reflexivity|].
  simpl in Ha. apply andb_prop in Ha. destruct Ha as [Ha1 Ha2].
  apply negb_true_iff in Ha1.
  destruct (detached_step w ev Hl Ha1) as [E1 E2].
  rewrite IH; auto.
Qed.

(** C9: [destroy] empties the buffer and the queue, leaves no timer or
    ticker pending and detaches the listener. No timer that was given
    out before [destroy] is pending in any later state, and as long as
    no listener is attached again ([on], [renderTo]), no later event
    (a [write], a timer expiring, a tick, a [flush]) reaches a
    listener. *)
Theorem C9_destroy_is_final :
  forall (o : options extension htmlExtension sanitizeOptions_t)
         (es es' : list event),
    let w0 := run micromark sanitize (create math mathHtml o) es in
    let w := snd (step_event micromark sanitize w0 Destroy) in
    (buffer (this w) = [] /\ twQueue (this w) = []
     /\ timer (this w) = None /\ twTimer (this w) = None
     /\ listener (this w) = None /\ timers (host w) = [])
    /\ (forall k x, (x < next_handle (host w0))%positive ->
                    is_pending k x (host (run micromark sanitize w es')) = false)
    /\ (forallb (fun ev => negb (attaches ev)) es' = true ->
        calls (host (run micromark sanitize w es')) = calls (host w0)).
Proof.
  intros o es es' w0 w.
  assert (Hok : timers_ok w) by (apply timers_ok_step, timers_ok_reachable).
  change w with (destroy w0) in *.
  destruct (destroy_fields w0) as (E1 & E2 & E3 & E4 & E5 & E6 & E7).
  assert (Hts : timers (host (destroy w0)) = []).
  { destruct Hok as (H1 & H2 & _). rewrite E3 in H1. rewrite E4 in H2.
    apply no_pending_no_timers; assumption. }
  split; [repeat split; assumption|]. split.
  - intros k x Hx. apply spent_handle_stays_spent.
    + destruct (host_grows_step w0 Destroy) as [G _].
      change (snd (step_event micromark sanitize w0 Destroy)) with (destroy w0) in G.
      lia.
    + unfold is_pending, pending. rewrite Hts. reflexivity.
  - intros Ha. rewrite detached_run; auto.
Qed.


(** ** The throttle timer *)

(** A pass changes [this] in [prevHtml] at most. *)
Lemma emit_this f w :
  exists p, this (snd (_emit micromark sanitize f w)) = set_prevHtml p (this w).
Proof.
  assert (R : forall r : renderer extension htmlExtension sanitizeOptions_t,
             r = set_prevHtml (prevHtml r) r) by (intros []; reflexivity).
  destruct (emit_cases f w) as [[safe ->]| ->]; simpl.
  - unfold call_listener. simpl. destruct (listener (this w)) as [[|]|]; simpl.
    + exists (prevHtml (this w)). apply R.
    + destruct (negb (str_eqb safe (prevHtml (this w)))).
      * exists safe. reflexivity.
      * exists (prevHtml (this w)). apply R.
    + exists (prevHtml (this w)). apply R.
  - exists (prevHtml (this w)). apply R.
Qed.

Lemma run_cons w ev es :
  run micromark sanitize w (ev :: es)
  = run micromark sanitize (snd (step_event micromark sanitize w ev)) es.
Proof. reflexivity. Qed.

(** ** The configuration *)

Lemma emit_host_timers f w :
  timers (host (snd (_emit micromark sanitize f w))) = timers (host w)
  /\ next_handle (host (snd (_emit micromark sanitize f w))) = next_handle (host w).
Proof.
  destruct (emit_cases f w) as [[safe ->]| ->]; simpl.
  - unfold call_listener; simpl. destruct (listener (this w)) as [[|]|]; simpl; auto.
  - auto.
Qed.

Ltac by_cases_of_the_methods :=
  unfold write, update, destroy, on, renderTo, registerExtensions,
    registerHtmlExtensions, setSanitizeOptions, on_tick, stop_timer, stop_ticker,
    _schedule, _startTypewriter, on_this, start_timer, clear_opt;
  cbv zeta;
  repeat (match goal with
          | |- context [match ?x with _ => _ end] => destruct x
          end; simpl);
  repeat split; reflexivity.

Lemma config_step w ev :
  let w' := snd (step_event micromark sanitize w ev) in
  typewriter (this w') = typewriter (this w)
  /\ mathSyntax (this w') = mathSyntax (this w)
  /\ allowHtml (this w') = allowHtml (this w)
  /\ respectNewlines (this w') = respectNewlines (this w)
  /\ throttleMs (this w') = throttleMs (this w).
Proof.
  destruct ev; cbn [step_event snd].
  - by_cases_of_the_methods.
  - by_cases_of_the_methods.
  - unfold flush. destruct (emit_this None w) as [p E].
    destruct (_emit micromark sanitize None w) as [[s|] w']; simpl in *;
      rewrite E; repeat split; reflexivity.
  - unfold clear. cbv zeta.
    match goal with |- context [_emit micromark sanitize ?f ?u] =>
      destruct (emit_this f u) as [p E];
      destruct (_emit micromark sanitize f u) as [[s|] w'] end;
      simpl in *; rewrite E; by_cases_of_the_methods.
  - by_cases_of_the_methods.
  - by_cases_of_the_methods.
  - by_cases_of_the_methods.
  - by_cases_of_the_methods.
  - by_cases_of_the_methods.
  - by_cases_of_the_methods.
  - destruct (is_pending OneShot x (host w)); [|simpl; repeat split; reflexivity].
    unfold on_timeout.
    match goal with |- context [_emit micromark sanitize ?f ?u] =>
      destruct (emit_this f u) as [p E];
      destruct (_emit micromark sanitize f u) as [[s|] w'] end;
      simpl in *; rewrite E; repeat split; reflexivity.
  - destruct (is_pending Repeating x (host w)); [|simpl; repeat split; reflexivity].
    simpl. by_cases_of_the_methods.
Qed.

Lemma config_run es w :
  let w' := run micromark sanitize w es in
  typewriter (this w') = typewriter (this w)
  /\ mathSyntax (this w') = mathSyntax (this w)
  /\ allowHtml (this w') = allowHtml (this w)
  /\ respectNewlines (this w') = respectNewlines (this w)
  /\ throttleMs (this w') = throttleMs (this w).
Proof.
  revert w. induction es as [|ev es IH]; intros w; [simpl; auto 6|].
  cbv zeta. rewrite run_cons.
  destruct (IH (snd (step_event micromark sanitize w ev))) as (A1 & A2 & A3 & A4 & A5).
  destruct (config_step w ev) as (B1 & B2 & B3 & B4 & B5).
  repeat split; congruence.
Qed.

Lemma timeout_fires w x :
  timers_ok w -> is_pending OneShot x (host w) = true ->
  let w' := snd (step_event micromark sanitize w (TimeoutFires x)) in
  timer (this w') = None
  /\ pending OneShot (host w') = []
  /\ buffer (this w') = buffer (this w)
  /\ passes (host w')
     = passes (host w)
         ++ [_preprocess (mathSyntax (this w)) (respectNewlines (this w))
                         (buffer (this w))].
Proof.
  intros Hok Hp w'.
  assert (Hok' : timers_ok w') by (apply timers_ok_step, Hok).
  subst w'. simpl in *. rewrite Hp in *. unfold on_timeout in *.
  set (u := on_this (set_timer None) {| this := this w; host := clear_timer x (host w) |}) in *.
  destruct (emit_this None u) as [p Hthis].
  pose proof (passes_emit None u) as Hpass.
  destruct (_emit micromark sanitize None u) as [[s|] w']; simpl in *.
  all: assert (Ht : timer (this w') = None) by (rewrite Hthis; reflexivity).
  all: destruct Hok' as (H1 & _); rewrite Ht in H1.
  all: rewrite Hthis at 2; simpl.
  all: repeat split; assumption.
Qed.

Lemma write_plain s w :
  enabled (typewriter (this w)) = false -> s <> [] ->
  write (VString s) w = _schedule (on_this (fun r => set_buffer (buffer r ++ s) r) w).
Proof.
  intros En Hs. destruct s; [congruence|]. simpl. rewrite En. reflexivity.
Qed.

(** Writes outside typewriter mode: the buffer grows by the chunks, no
    pass runs, and a timer is pending as soon as one chunk was not
    empty; a timer that was pending stays the one. *)
Lemma run_writes chunks w :
  enabled (typewriter (this w)) = false ->
  let w' := run micromark sanitize w (writes chunks) in
  buffer (this w') = buffer (this w) ++ concat chunks
  /\ passes (host w') = passes (host w)
  /\ mathSyntax (this w') = mathSyntax (this w)
  /\ respectNewlines (this w') = respectNewlines (this w)
  /\ (concat chunks <> [] -> timer (this w') <> None)
  /\ (timer (this w) <> None -> timer (this w') = timer (this w)).
Proof.
  revert w. induction chunks as [|c cs IH]; intros w En.
  - simpl. rewrite app_nil_r. repeat split; congruence.
  - cbv zeta.
    change (run micromark sanitize w (writes (c :: cs)))
      with (run micromark sanitize (write (VString c) w) (writes cs)).
    change (concat (c :: cs)) with (c ++ concat cs).
    destruct c as [|a c].
    + apply IH, En.
    + rewrite (write_plain (s := a :: c) w En) by discriminate.
      set (u := _schedule _).
      destruct (schedule_frame (on_this (fun r => set_buffer (buffer r ++ a :: c) r) w))
        as (_ & _ & E3 & E4 & _ & _ & E7 & E8 & E9 & _). fold u in E3, E4, E7, E8, E9.
      simpl in E3, E4, E7, E8, E9.
      assert (Hu : timer (this u) <> None).
      { subst u. unfold _schedule. simpl. destruct (timer (this w)) eqn:E; simpl; congruence. }
      assert (Hk : timer (this w) <> None -> timer (this u) = timer (this w)).
      { subst u. unfold _schedule. simpl. destruct (timer (this w)) eqn:E; simpl; congruence. }
      destruct (IH u) as (I1 & I2 & I3 & I4 & I5 & I6); [rewrite E7; exact En|].
      rewrite I1, I2, I3, I4, E3, E4, E8, E9. rewrite <- app_assoc.
      repeat split; auto.
      * intros _. rewrite (I6 Hu). exact Hu.
      * intros Hw. rewrite (I6 Hu). apply Hk, Hw.
Qed.

(** Writes of empty chunks change nothing. *)
Lemma run_writes_empty chunks w :
  concat chunks = [] -> run micromark sanitize w (writes chunks) = w.
Proof.
  induction chunks as [|c cs IH]; intros H; [reflexivity|].
  cbn [concat] in H. apply app_eq_nil in H. destruct H as [-> H].
  change (run micromark sanitize w (writes ([] :: cs)))
    with (run micromark sanitize w (writes cs)).
  apply IH, H.
Qed.

(** Writes in typewriter mode: the chunks that are not empty are
    queued, the buffer stays, no pass runs and no render is requested. *)
Lemma run_writes_queued chunks w :
  enabled (typewriter (this w)) = true ->
  let w' := run micromark sanitize w (writes chunks) in
  buffer (this w') = buffer (this w)
  /\ twQueue (this w')
     = twQueue (this w) ++ filter (fun c => negb (Nat.eqb (length c) 0)) chunks
  /\ timer (this w') = timer (this w)
  /\ passes (host w') = passes (host w).
Proof.
  revert w. induction chunks as [|c cs IH]; intros w En.
  - simpl. rewrite app_nil_r. repeat split; reflexivity.
  - cbv zeta.
    change (run micromark sanitize w (writes (c :: cs)))
      with (run micromark sanitize (write (VString c) w) (writes cs)).
    destruct c as [|a c]; [apply IH, En|].
    cbn [write filter length Nat.eqb negb]. rewrite En.
    destruct (startTypewriter_frame
                (on_this (fun r => set_twQueue (twQueue r ++ [a :: c]) r) w))
      as (_ & _ & E3 & E4 & E5 & E6 & E7 & _).
    set (u := _startTypewriter _) in *. simpl in E3, E4, E5, E6, E7.
    assert (En' : enabled (typewriter (this u)) = true) by (rewrite E7; exact En).
    destruct (IH u En') as (I1 & I2 & I3 & I4).
    rewrite I1, I2, I3, I4, E3, E4, E5, E6, <- app_assoc. repeat split; reflexivity.
Qed.

(** C2 (amended): in every state a renderer reaches, the host holds at
    most one pending throttle timer and at most one ticker. [_schedule]
    with a timer pending changes nothing; with none pending it starts
    exactly one one-shot timer with the delay [throttleMs]. When that
    timer expires the handle is cleared, nothing is pending and exactly
    one pass runs, on the buffer of that moment. Hence, outside
    typewriter mode, any number of [write] calls with no expiry in
    between leave one timer pending (the one that was pending, if one
    was) and run no pass, and the expiry runs one pass on the old buffer
    followed by all the chunks, provided a timer was pending or one
    chunk at least is not empty; writes of empty chunks alone change
    nothing. In typewriter mode [write] only queues: the chunks that are
    not empty go to the queue, the buffer stays, no pass runs and no
    throttle timer is started. *)
Theorem C2_one_timer_and_coalescing :
  forall (o : options extension htmlExtension sanitizeOptions_t) (es : list event),
    let w := run micromark sanitize (create math mathHtml o) es in
    (length (pending OneShot (host w)) <= 1
     /\ length (pending Repeating (host w)) <= 1)
    /\ (timer (this w) <> None -> _schedule w = w)
    /\ (timer (this w) = None ->
        timer (this (_schedule w)) = Some (next_handle (host w))
        /\ timers (host (_schedule w))
           = entry OneShot (throttleMs (this w)) (next_handle (host w))
               :: timers (host w)
        /\ pending OneShot (host (_schedule w))
           = [entry OneShot (throttleMs (this w)) (next_handle (host w))]
        /\ passes (host (_schedule w)) = passes (host w))
    /\ (forall x,
           is_pending OneShot x (host w) = true ->
           let w' := snd (step_event micromark sanitize w (TimeoutFires x)) in
           timer (this w') = None
           /\ pending OneShot (host w') = []
           /\ passes (host w')
              = passes (host w)
                  ++ [_preprocess (mathSyntax (this w)) (respectNewlines (this w))
                                  (buffer (this w))])
    /\ (forall chunks,
           enabled (typewriter (this w)) = false ->
           let w1 := run micromark sanitize w (writes chunks) in
           (concat chunks = [] -> w1 = w)
           /\ (timer (this w) <> None \/ concat chunks <> [] ->
               exists x,
                 pending OneShot (host w1) = [entry OneShot (throttleMs (this w)) x]
                 /\ (forall y, timer (this w) = Some y -> x = y)
                 /\ passes (host w1) = passes (host w)
                 /\ passes (host (snd (step_event micromark sanitize w1
                                         (TimeoutFires x))))
                    = passes (host w)
                        ++ [_preprocess (mathSyntax (this w))
                                        (respectNewlines (this w))
                                        (buffer (this w) ++ concat chunks)]))
    /\ (forall chunks,
           enabled (typewriter (this w)) = true ->
           let w1 := run micromark sanitize w (writes chunks) in
           buffer (this w1) = buffer (this w)
           /\ twQueue (this w1)
              = twQueue (this w)
                  ++ filter (fun c => negb (Nat.eqb (length c) 0)) chunks
           /\ timer (this w1) = timer (this w)
           /\ pending OneShot (host w1) = pending OneShot (host w)
           /\ passes (host w1) = passes (host w)).
Proof.
  intros o es w.
  assert (Hok : timers_ok w) by apply timers_ok_reachable.
  split; [|split; [|split; [|split; [|split]]]].
  - destruct Hok as (H1 & H2 & _). rewrite H1, H2.
    destruct (timer (this w)), (twTimer (this w)); simpl; lia.
  - intros Ht. unfold _schedule. destruct (timer (this w)); congruence.
  - intros Ht.
    pose proof (timers_ok_schedule Hok) as (S1 & _).
    unfold _schedule in *. rewrite Ht in *. simpl in *.
    repeat split; auto.
  - intros x Hp w'. destruct (timeout_fires x Hok Hp) as (T1 & T2 & _ & T4).
    auto.
  - intros chunks En w1. split; [intros Hc; apply run_writes_empty, Hc|].
    intros Hc.
    destruct (run_writes chunks w En) as (R1 & R2 & R3 & R4 & R5 & R6).
    fold w1 in R1, R2, R3, R4, R5, R6.
    assert (Hok1 : timers_ok w1) by (apply timers_ok_run, Hok).
    destruct (config_run (writes chunks) w) as (_ & _ & _ & _ & Hth).
    fold w1 in Hth.
    assert (Ht1 : timer (this w1) <> None).
    { destruct Hc as [Hc|Hc]; [rewrite (R6 Hc); exact Hc|exact (R5 Hc)]. }
    destruct (timer (this w1)) as [x|] eqn:Hx; [|congruence].
    exists x. pose proof Hok1 as (P1 & _). rewrite Hx, Hth in P1. simpl in P1.
    split; [exact P1|].
    split.
    { intros y Hy. assert (R : Some x = timer (this w)) by (apply R6; congruence).
      congruence. }
    split; [exact R2|].
    assert (Hp : is_pending OneShot x (host w1) = true).
    { unfold is_pending. rewrite P1. simpl. rewrite Pos.eqb_refl. reflexivity. }
    destruct (timeout_fires x Hok1 Hp) as (_ & _ & _ & T4).
    rewrite T4, R1, R2, R3, R4. reflexivity.
  - intros chunks En w1.
    destruct (run_writes_queued chunks w En) as (Q1 & Q2 & Q3 & Q4).
    fold w1 in Q1, Q2, Q3, Q4.
    assert (Hok1 : timers_ok w1) by (apply timers_ok_run, Hok).
    destruct (config_run (writes chunks) w) as (_ & _ & _ & _ & Hth).
    fold w1 in Hth.
    repeat split; try assumption.
    destruct Hok as (P & _). destruct Hok1 as (P1 & _).
    rewrite P, P1, Q3, Hth. reflexivity.
Qed.


(** ** [update] in typewriter mode *)

Lemma common_prefix_spec (old text : jsstring) :
  let i := common_prefix old text in
  firstn i old = firstn i text /\ i <= length old /\ i <= length text
  /\ forall j, i < j -> j <= length old -> j <= length text ->
               firstn j old <> firstn j text.
Proof.
  revert text. induction old as [|a old IH]; intros [|b text]; simpl;
    try (repeat split; auto; try lia; intros; lia).
  unfold char_eqb. destruct (N.eqb_spec a b) as [->|Hne]; simpl.
  - destruct (IH text) as (I1 & I2 & I3 & I4).
    repeat split; try lia; [now rewrite I1|].
    intros [|j] Hj H1 H2; [lia|]. simpl. intros E. injection E as E.
    apply (I4 j); auto; lia.
  - repeat split; auto; try lia.
    intros [|j] Hj H1 H2; [lia|]. simpl. congruence.
Qed.

Lemma clamp_index_of_nat n len : clamp_index (of_nat n) len = Nat.min n len.
Proof.
  unfold clamp_index, of_nat. simpl. rewrite Z.quot_1_r.
  destruct (Z.ltb_spec (Z.of_nat n) 0); [lia|].
  rewrite Nat2Z.id. reflexivity.
Qed.

Lemma clamp_index_le n len : clamp_index n len <= len.
Proof.
  destruct n as [q| | |]; simpl; try lia.
  destruct (Z.quot (Qnum q) (Z.pos (Qden q)) <? 0)%Z; lia.
Qed.

Lemma slice1_of_nat (s : jsstring) n : n <= length s -> slice1 s (of_nat n) = skipn n s.
Proof.
  intros H. unfold slice1. rewrite clamp_index_of_nat.
  rewrite Nat.min_l by exact H. reflexivity.
Qed.

(** C3 (amended): in typewriter mode, with [i] the length of the longest
    common prefix of the buffer and the new text: an empty buffer and a
    non-empty text queue the whole text; [i] equal to the buffer's
    length and a longer text queue exactly the rest of the text behind
    the buffer (its length is the difference of the lengths) behind the
    chunks already waiting, and the buffer stays; in every other case
    the queue is emptied, no ticker is left, the buffer is the new text
    and a throttled render is requested, not an immediate one: [update]
    runs no pass and calls no listener, the throttle timer that was
    pending stays the one pending, otherwise one is started with the
    delay [throttleMs], and the pass on the new text runs when that
    timer expires. *)
Theorem C3_update_in_typewriter_mode :
  forall (o : options extension htmlExtension sanitizeOptions_t) (es : list event)
         (text : jsstring),
    let w := run micromark sanitize (create math mathHtml o) es in
    let old := buffer (this w) in
    let i := common_prefix old text in
    let w' := snd (step_event micromark sanitize w (Update (VString text))) in
    enabled (typewriter (this w)) = true ->
    (firstn i old = firstn i text /\ i <= length old /\ i <= length text
     /\ forall j, i < j -> j <= length old -> j <= length text ->
                  firstn j old <> firstn j text)
    /\ (old = [] -> text <> [] ->
        twQueue (this w') = twQueue (this w) ++ [text]
        /\ buffer (this w') = old
        /\ twTimer (this w') <> None)
    /\ (i = length old -> length old < length text ->
        exists delta,
          text = old ++ delta
          /\ length delta = length text - length old
          /\ twQueue (this w') = twQueue (this w) ++ [delta]
          /\ buffer (this w') = old
          /\ twTimer (this w') <> None)
    /\ (~ (old = [] /\ text <> []) ->
        ~ (i = length old /\ length old < length text) ->
        twQueue (this w') = []
        /\ twTimer (this w') = None
        /\ pending Repeating (host w') = []
        /\ buffer (this w') = text
        /\ passes (host w') = passes (host w)
        /\ calls (host w') = calls (host w)
        /\ exists x,
            timer (this w') = Some x
            /\ pending OneShot (host w') = [entry OneShot (throttleMs (this w)) x]
            /\ (forall y, timer (this w) = Some y -> x = y)
            /\ passes (host (snd (step_event micromark sanitize w' (TimeoutFires x))))
               = passes (host w)
                   ++ [_preprocess (mathSyntax (this w)) (respectNewlines (this w))
                                   text]).
Proof.
  intros o es text w old i w' En.
  assert (Hok' : timers_ok w') by (apply timers_ok_step, timers_ok_reachable).
  assert (Hcfg : mathSyntax (this w') = mathSyntax (this w)
                 /\ respectNewlines (this w') = respectNewlines (this w)
                 /\ throttleMs (this w') = throttleMs (this w)).
  { destruct (config_step w (Update (VString text))) as (_ & A2 & _ & A4 & A5).
    auto. }
  assert (Hquiet : passes (host w') = passes (host w)
                   /\ calls (host w') = calls (host w)).
  { subst w'. cbn [step_event snd]. by_cases_of_the_methods. }
  assert (Hkept : forall y, timer (this w) = Some y -> timer (this w') = Some y).
  { intros y Hy. subst w'. cbn [step_event snd]. unfold update. rewrite En. cbv zeta.
    unfold _startTypewriter, stop_ticker, _schedule, on_this.
    repeat (match goal with
            | |- context [match ?x with _ => _ end] => destruct x eqn:?
            end; simpl in *); congruence. }
  destruct Hcfg as (Hms & Hrn & Hth). destruct Hquiet as (Hpa & Hca).
  assert (Hfires : forall x,
             timer (this w') = Some x -> buffer (this w') = text ->
             passes (host (snd (step_event micromark sanitize w' (TimeoutFires x))))
             = passes (host w)
                 ++ [_preprocess (mathSyntax (this w)) (respectNewlines (this w))
                                 text]).
  { intros x Hx Hb.
    destruct (@timeout_fires w' x Hok' (held_timeout_is_pending Hok' Hx))
      as (_ & _ & _ & T).
    rewrite T, Hms, Hrn, Hpa, Hb. reflexivity. }
  pose proof (conj Hok' (conj Hpa (conj Hca (conj Hkept (conj Hfires Hth))))) as Hall.
  clear Hok' Hms Hrn Hpa Hca Hkept Hfires Hth. rename Hall into Hok'.
  destruct (common_prefix_spec old text) as (P1 & P2 & P3 & P4). fold i in P1, P2, P3, P4.
  split; [repeat split; assumption|].
  assert (Happ : forall delta,
             let u := _startTypewriter
                        (on_this (fun r => set_twQueue (twQueue r ++ [delta]) r) w) in
             twQueue (this u) = twQueue (this w) ++ [delta]
             /\ buffer (this u) = old /\ twTimer (this u) <> None).
  { intros delta u.
    destruct (startTypewriter_frame
                (on_this (fun r => set_twQueue (twQueue r ++ [delta]) r) w))
      as (_ & _ & _ & E4 & E5 & _ & _ & E8).
    fold u in E4, E5, E8. rewrite E4, E5. auto. }
  subst w'. cbn [step_event snd]. unfold update. rewrite En. fold old. fold i.
  split; [|split].
  - intros Ho Ht.
    replace (Nat.eqb (length old) 0 && Nat.ltb 0 (length text)) with true.
    2:{ rewrite Ho. destruct text; [congruence|reflexivity]. }
    apply Happ.
  - intros Hi Hlt. exists (skipn i text).
    assert (Ht : text = old ++ skipn i text).
    { rewrite <- (firstn_skipn i text) at 1. rewrite <- P1, Hi, firstn_all. reflexivity. }
    assert (Hl : length (skipn i text) = length text - length old)
      by (rewrite length_skipn, Hi; reflexivity).
    split; [exact Ht|]. split; [exact Hl|].
    destruct (Nat.eqb (length old) 0 && Nat.ltb 0 (length text)) eqn:Init.
    + apply andb_prop in Init. destruct Init as [I0 _]. apply Nat.eqb_eq in I0.
      assert (old = []) by (destruct old; [reflexivity|discriminate]).
      assert (i = 0) by lia.
      replace (skipn i text) with text by (subst i; rewrite H0; reflexivity).
      apply Happ.
    + replace (Nat.eqb i (length old) && Nat.ltb (length old) (length text)) with true.
      2:{ symmetry. apply andb_true_intro. split;
          [apply Nat.eqb_eq, Hi|apply Nat.ltb_lt, Hlt]. }
      rewrite slice1_of_nat by exact P3.
      destruct (skipn i text) as [|d delta] eqn:Ed; [simpl in Hl; lia|].
      apply Happ.
  - intros Hn1 Hn2.
    replace (Nat.eqb (length old) 0 && Nat.ltb 0 (length text)) with false.
    2:{ symmetry. apply andb_false_iff.
        destruct (Nat.eqb_spec (length old) 0) as [E0|]; [|auto]. right.
        apply Nat.ltb_ge. destruct text; [simpl; lia|]. exfalso. apply Hn1.
        split; [destruct old; [reflexivity|discriminate]|discriminate]. }
    replace (Nat.eqb i (length old) && Nat.ltb (length old) (length text)) with false.
    2:{ symmetry. apply andb_false_iff.
        destruct (Nat.eqb_spec i (length old)) as [E0|]; [|auto]. right.
        apply Nat.ltb_ge. destruct (Nat.le_gt_cases (length text) (length old)); [auto|].
        exfalso. apply Hn2. auto. }
    cbv zeta in *.
    cbn [step_event snd] in Hok'. unfold update in Hok'. rewrite En in Hok'.
    fold old in Hok'. fold i in Hok'.
    replace (Nat.eqb (length old) 0 && Nat.ltb 0 (length text)) with false in Hok'.
    2:{ symmetry. apply andb_false_iff.
        destruct (Nat.eqb_spec (length old) 0) as [E0|]; [|auto]. right.
        apply Nat.ltb_ge. destruct text; [simpl; lia|]. exfalso. apply Hn1.
        split; [destruct old; [reflexivity|discriminate]|discriminate]. }
    replace (Nat.eqb i (length old) && Nat.ltb (length old) (length text)) with false in Hok'.
    2:{ symmetry. apply andb_false_iff.
        destruct (Nat.eqb_spec i (length old)) as [E0|]; [|auto]. right.
        apply Nat.ltb_ge. destruct (Nat.le_gt_cases (length text) (length old)); [auto|].
        exfalso. apply Hn2. auto. }
    cbv zeta in Hok'.
    set (u := _schedule _) in *.
    destruct (schedule_frame
                (on_this (set_buffer text) (stop_ticker (on_this (set_twQueue []) w))))
      as (_ & _ & _ & E4 & E5 & E6 & _).
    fold u in E4, E5, E6.
    destruct (stop_ticker_frame (on_this (set_twQueue []) w))
      as (_ & _ & _ & _ & F5 & _ & _ & F8).
    simpl in E4, E5, E6. rewrite F5 in E5. rewrite F8 in E6. simpl in E5.
    destruct Hok' as ((K1 & K2 & _) & Hpa & Hca & Hkept & Hfires & Hth).
    rewrite E6 in K2. simpl in K2.
    split; [exact E5|]. split; [exact E6|]. split; [exact K2|].
    split; [exact E4|]. split; [exact Hpa|]. split; [exact Hca|].
    assert (Hu : timer (this u) <> None) by apply schedule_sets_timer.
    destruct (timer (this u)) as [x|] eqn:Hx; [|congruence].
    exists x. split; [reflexivity|].
    split; [rewrite K1, Hth; reflexivity|].
    split.
    + intros y Hy. specialize (Hkept y Hy). congruence.
    + exact (Hfires x eq_refl E4).
Qed.


(** ** The typewriter ticker *)

(** One tick on a queue that is not empty, with [k] the number of
    characters [slice] takes. *)
Lemma tick_takes w current others :
  twQueue (this w) = current :: others ->
  let k := clamp_index (step (typewriter (this w))) (length current) in
  on_tick w
  = _schedule
      (on_this (fun r => set_buffer (buffer r ++ firstn k current)
                           (set_twQueue (if Nat.ltb k (length current)
                                         then skipn k current :: others
                                         else others) r)) w).
Proof.
  intros Hq k. unfold on_tick. rewrite Hq. cbv zeta.
  unfold slice2, slice1. rewrite clamp_index_of_nat. simpl Nat.min.
  rewrite Nat.sub_0_r. simpl skipn. fold k.
  rewrite length_skipn.
  replace (Nat.ltb 0 (length current - k)) with (Nat.ltb k (length current)).
  - reflexivity.
  - destruct (Nat.ltb_spec k (length current));
      destruct (Nat.ltb_spec 0 (length current - k)); auto; lia.
Qed.

(** With step 1 and one chunk waiting, [k] ticks reveal its first [k]
    characters. *)
Lemma reveal_one_by_one k :
  forall (chunk : jsstring) w x,
    timers_ok w -> twTimer (this w) = Some x ->
    step (typewriter (this w)) = of_nat 1 ->
    twQueue (this w) = match chunk with [] => [] | _ :: _ => [chunk] end ->
    k <= length chunk ->
    buffer (this (run micromark sanitize w (ticks x k)))
    = buffer (this w) ++ firstn k chunk.
Proof.
  induction k as [|k IH]; intros chunk w x Hok Hx Hs Hq Hk.
  - simpl. rewrite app_nil_r. reflexivity.
  - destruct chunk as [|c rest]; [simpl in Hk; lia|].
    unfold ticks. simpl repeat. rewrite run_cons. fold (ticks (extension := extension)
      (htmlExtension := htmlExtension) (sanitizeOptions_t := sanitizeOptions_t) x k).
    assert (Hp : is_pending Repeating x (host w) = true)
      by (apply held_interval_is_pending; assumption).
    assert (Hok1 : timers_ok (snd (step_event micromark sanitize w (IntervalFires x))))
      by (apply timers_ok_step, Hok).
    cbn [step_event snd] in *. rewrite Hp in *. cbn [snd] in *.
    rewrite (tick_takes w Hq) in *. rewrite Hs, clamp_index_of_nat in *.
    simpl in Hk. simpl Nat.min in *. simpl firstn in *. simpl skipn in *.
    match type of Hok1 with
    | timers_ok (_schedule ?v) =>
        destruct (schedule_frame v) as (_ & _ & _ & E4 & E5 & E6 & E7 & _)
    end.
    set (u := _schedule _) in *. simpl in E4, E5, E6, E7.
    rewrite (IH rest u x); auto.
    + rewrite E4, <- app_assoc. reflexivity.
    + congruence.
    + congruence.
    + rewrite E5. destruct rest; reflexivity.
    + lia.
Qed.

(** What [slice] makes of a step the constructor keeps: its integer
    part, capped by the length. *)
Lemma clamp_index_floor (n : number) (len : nat) :
  gt0 n = true ->
  clamp_index n len
  = match n with
    | Fin q => Nat.min (Z.to_nat (Qfloor q)) len
    | PosInf => len
    | NegInf | NaN => 0
    end.
Proof.
  destruct n as [[num den]| | |]; try reflexivity. cbn [gt0 clamp_index Qnum Qden Qfloor].
  destruct num as [|p|p]; try discriminate. intros _.
  rewrite Z.quot_div_nonneg by lia.
  destruct (Z.ltb_spec (Z.pos p / Z.pos den) 0) as [H|H]; [|reflexivity].
  pose proof (Z.div_pos (Z.pos p) (Z.pos den)). lia.
Qed.

(** C4 (amended): the step is a number above 0, whole or not, and a
    tick with a chunk waiting takes the first [k] characters of the head
    chunk, [k] being the integer part of the step capped by the chunk's
    length (the whole chunk for an infinite step), so [min(step,
    length)] for a whole step and nothing for a step below 1; it
    appends them to the buffer, keeps the rest of the chunk at the head
    or drops the chunk when nothing is left, so that buffer and queue
    together spell the same text as before, and it requests a throttled
    render. A tick with an empty queue stops the ticker. With step 1,
    after a chunk is written to an idle queue, [k] ticks reveal its
    first [k] characters, all of it after as many ticks as it has
    characters. *)
Theorem C4_typewriter_tick :
  forall (o : options extension htmlExtension sanitizeOptions_t) (es : list event),
    let w := run micromark sanitize (create math mathHtml o) es in
    (forall x current others,
        is_pending Repeating x (host w) = true ->
        twQueue (this w) = current :: others ->
        let w' := snd (step_event micromark sanitize w (IntervalFires x)) in
        let k := clamp_index (step (typewriter (this w))) (length current) in
        gt0 (step (typewriter (this w))) = true
        /\ k = match step (typewriter (this w)) with
               | Fin q => Nat.min (Z.to_nat (Qfloor q)) (length current)
               | PosInf => length current
               | NegInf | NaN => 0
               end
        /\ (forall n, step (typewriter (this w)) = of_nat n ->
                      k = Nat.min n (length current))
        /\ buffer (this w') = buffer (this w) ++ firstn k current
        /\ twQueue (this w')
           = (if Nat.ltb k (length current) then skipn k current :: others
              else others)
        /\ buffer (this w') ++ concat (twQueue (this w'))
           = buffer (this w) ++ concat (twQueue (this w))
        /\ timer (this w') <> None)
    /\ (forall x,
           is_pending Repeating x (host w) = true ->
           twQueue (this w) = [] ->
           let w' := snd (step_event micromark sanitize w (IntervalFires x)) in
           twTimer (this w') = None
           /\ pending Repeating (host w') = []
           /\ buffer (this w') = buffer (this w))
    /\ (forall s,
           enabled (typewriter (this w)) = true ->
           step (typewriter (this w)) = of_nat 1 ->
           twQueue (this w) = [] ->
           s <> [] ->
           let w0 := snd (step_event micromark sanitize w (Write (VString s))) in
           exists x,
             is_pending Repeating x (host w0) = true
             /\ (forall k, k <= length s ->
                   buffer (this (run micromark sanitize w0 (ticks x k)))
                   = buffer (this w) ++ firstn k s)
             /\ buffer (this (run micromark sanitize w0 (ticks x (length s))))
                = buffer (this w) ++ s).
Proof.
  intros o es w.
  assert (Hok : timers_ok w) by apply timers_ok_reachable.
  split; [|split].
  - intros x current others Hp Hq w' k. subst w'.
    cbn [step_event snd]. rewrite Hp. cbn [snd].
    rewrite (tick_takes w Hq). fold k.
    match goal with |- context [_schedule ?v] =>
      destruct (schedule_frame v) as (_ & _ & _ & E4 & E5 & _);
      pose proof (schedule_sets_timer v) as E6 end.
    rewrite E4, E5. simpl. rewrite Hq.
    assert (Hg : gt0 (step (typewriter (this w))) = true).
    { destruct (config_run es (create math mathHtml o)) as (A1 & _).
      fold w in A1. rewrite A1. simpl.
      destruct (o_tw_step o) as [n|]; [|reflexivity].
      destruct (gt0 n) eqn:E; [exact E|reflexivity]. }
    split; [exact Hg|]. split; [apply clamp_index_floor, Hg|].
    split; [intros n Hn; subst k; rewrite Hn; apply clamp_index_of_nat|].
    repeat split; auto.
    rewrite <- app_assoc. f_equal. simpl.
    destruct (Nat.ltb_spec k (length current)).
    + simpl. rewrite app_assoc, firstn_skipn. reflexivity.
    + rewrite firstn_all2 by lia. reflexivity.
  - intros x Hp Hq w'.
    assert (Hok' : timers_ok w') by (apply timers_ok_step, Hok).
    subst w'. cbn [step_event snd] in *. rewrite Hp in *. cbn [snd] in *.
    unfold on_tick in *. rewrite Hq in *. simpl.
    destruct Hok' as (_ & K2 & _). simpl in K2. auto.
  - intros s En Hs Hq Hne w0.
    assert (Hok0 : timers_ok w0) by (apply timers_ok_step, Hok).
    subst w0. cbn [step_event snd] in *.
    destruct s as [|c s]; [congruence|]. simpl write in *. rewrite En in *.
    set (u := _startTypewriter _) in *.
    destruct (startTypewriter_frame
                (on_this (fun r => set_twQueue (twQueue r ++ [c :: s]) r) w))
      as (_ & _ & _ & E4 & E5 & _ & E7 & E8).
    fold u in E4, E5, E7, E8. simpl in E4, E5, E7. rewrite Hq in E5. simpl in E5.
    destruct (twTimer (this u)) as [x|] eqn:Hx; [|exfalso; apply E8; exact Hx].
    exists x. split; [apply held_interval_is_pending; assumption|].
    assert (R : forall k, k <= length (c :: s) ->
                  buffer (this (run micromark sanitize u (ticks x k)))
                  = buffer (this w) ++ firstn k (c :: s)).
    { intros k Hk. rewrite <- E4. apply reveal_one_by_one.
      - exact Hok0.
      - exact Hx.
      - rewrite E7. exact Hs.
      - exact E5.
      - exact Hk. }
    split; [exact R|].
    rewrite R by lia. rewrite firstn_all. reflexivity.
Qed.

(** ** Runs: what stays as it is *)

(** X1: no method and no timer changes the configuration the
    constructor set: in every state a renderer reaches, the typewriter
    settings, the math syntax, [allowHtml], [respectNewlines] and
    [throttleMs] are the constructor's, and the typewriter step is a
    positive number whatever the options were. *)
Theorem configuration_is_fixed :
  forall (o : options extension htmlExtension sanitizeOptions_t) (es : list event),
    let w := run micromark sanitize (create math mathHtml o) es in
    typewriter (this w) = typewriter (constructor math mathHtml o)
    /\ mathSyntax (this w) = o_mathSyntax o
    /\ allowHtml (this w) = o_allowHtml o
    /\ respectNewlines (this w) = o_respectNewlines o
    /\ throttleMs (this w) = throttleMs (constructor math mathHtml o)
    /\ enabled (typewriter (this w)) = o_tw_enabled o
    /\ gt0 (step (typewriter (this w))) = true.
Proof.
  intros o es w.
  destruct (config_run es (create math mathHtml o)) as (A1 & A2 & A3 & A4 & A5).
  fold w in A1, A2, A3, A4, A5.
  repeat split; try assumption.
  - rewrite A1. reflexivity.
  - rewrite A1. simpl. destruct (o_tw_step o) as [n|]; [|reflexivity].
    destruct (gt0 n) eqn:E; [exact E|reflexivity].
Qed.

(** X2: only [flush], [clear] and the expiry of the throttle timer
    run a render pass. Every other event ([write], [update], [destroy],
    [on], [renderTo], the three registrations, a tick of the ticker)
    returns normally, runs no pass, does not call the listener and
    leaves every element of the page and [prevHtml] as they are. *)
Theorem other_events_do_not_render :
  forall w ev,
    renders ev = false ->
    let r := step_event micromark sanitize w ev in
    fst r = Normal tt
    /\ passes (host (snd r)) = passes (host w)
    /\ calls (host (snd r)) = calls (host w)
    /\ elements (host (snd r)) = elements (host w)
    /\ prevHtml (this (snd r)) = prevHtml (this w).
Proof.
  intros w ev Hr. destruct ev; try discriminate Hr; cbn [step_event snd fst].
  - by_cases_of_the_methods.
  - by_cases_of_the_methods.
  - by_cases_of_the_methods.
  - by_cases_of_the_methods.
  - by_cases_of_the_methods.
  - by_cases_of_the_methods.
  - by_cases_of_the_methods.
  - by_cases_of_the_methods.
  - destruct (is_pending Repeating x (host w)); [|simpl; repeat split; reflexivity].
    simpl. by_cases_of_the_methods.
Qed.

(** ** Runs: the queue *)

Lemma emit_frame f w :
  let w' := snd (_emit micromark sanitize f w) in
  buffer (this w') = buffer (this w) /\ twQueue (this w') = twQueue (this w)
  /\ twTimer (this w') = twTimer (this w) /\ timer (this w') = timer (this w)
  /\ typewriter (this w') = typewriter (this w)
  /\ extensions (this w') = extensions (this w)
  /\ htmlExtensions (this w') = htmlExtensions (this w).
Proof.
  cbv zeta. destruct (emit_this f w) as [p ->]. repeat split; reflexivity.
Qed.

Lemma not_pending_without_ticker w x :
  timers_ok w -> twTimer (this w) = None -> is_pending Repeating x (host w) = false.
Proof.
  intros (_ & H2 & _) Hn. unfold is_pending. rewrite H2, Hn. reflexivity.
Qed.

Lemma inert_step w ev :
  timers_ok w -> enabled (typewriter (this w)) = false ->
  twQueue (this w) = [] -> twTimer (this w) = None ->
  let w' := snd (step_event micromark sanitize w ev) in
  twQueue (this w') = [] /\ twTimer (this w') = None.
Proof.
  intros Hok En Hq Ht. destruct ev; cbn [step_event snd].
  - destruct chunk as [[|c s]| | | | |]; simpl; auto. rewrite En.
    match goal with |- context [_schedule ?u] =>
      destruct (schedule_frame u) as (_ & _ & _ & _ & E5 & E6 & _) end.
    rewrite E5, E6. auto.
  - destruct text as [s| | | | |]; simpl; auto. rewrite En.
    match goal with |- context [_schedule ?u] =>
      destruct (schedule_frame u) as (_ & _ & _ & _ & E5 & E6 & _) end.
    rewrite E5, E6. auto.
  - unfold flush. destruct (emit_frame None w) as (_ & E2 & E3 & _).
    destruct (_emit micromark sanitize None w) as [[s|] w']; simpl in *;
      rewrite E2, E3; auto.
  - unfold clear. cbv zeta.
    match goal with |- context [_emit micromark sanitize ?f ?u] =>
      destruct (emit_frame f u) as (_ & E2 & E3 & _);
      destruct (_emit micromark sanitize f u) as [[s|] w'] end;
      simpl in *; rewrite E2, E3;
      destruct (stop_ticker_frame
                  (on_this (fun r => set_twQueue [] (set_buffer [] r)) w))
        as (_ & _ & _ & _ & F5 & _ & _ & F8);
      rewrite F5, F8; auto.
  - destruct (destroy_fields w) as (_ & E2 & _ & E4 & _). auto.
  - auto.
  - destruct el; auto.
  - destruct exts; auto.
  - destruct exts; auto.
  - auto.
  - destruct (is_pending OneShot x (host w)); [|auto].
    unfold on_timeout.
    match goal with |- context [_emit micromark sanitize ?f ?u] =>
      destruct (emit_frame f u) as (_ & E2 & E3 & _);
      destruct (_emit micromark sanitize f u) as [[s|] w'] end;
      simpl in *; rewrite E2, E3; auto.
  - rewrite (not_pending_without_ticker x Hok Ht). auto.
Qed.

(** X3: with the typewriter disabled the typewriter machinery is
    never used: in every state the renderer reaches, whatever is called,
    the queue is empty, no ticker is held and the host has no repeating
    timer. *)
Theorem disabled_typewriter_is_inert :
  forall (o : options extension htmlExtension sanitizeOptions_t) (es : list event),
    o_tw_enabled o = false ->
    let w := run micromark sanitize (create math mathHtml o) es in
    twQueue (this w) = [] /\ twTimer (this w) = None
    /\ pending Repeating (host w) = [].
Proof.
  intros o es En w.
  assert (G : forall es0 w0,
             timers_ok w0 -> enabled (typewriter (this w0)) = false ->
             twQueue (this w0) = [] -> twTimer (this w0) = None ->
             twQueue (this (run micromark sanitize w0 es0)) = []
             /\ twTimer (this (run micromark sanitize w0 es0)) = None).
  { induction es0 as [|ev es0 IH]; intros w0 Hok En0 Hq Ht; [simpl; auto|].
    rewrite run_cons.
    destruct (inert_step ev Hok En0 Hq Ht) as [Q T].
    destruct (config_step w0 ev) as (C1 & _).
    apply IH; auto.
    - apply timers_ok_step, Hok.
    - rewrite C1. exact En0. }
  destruct (G es (create math mathHtml o)) as [Q T]; auto.
  - apply timers_ok_create.
  - fold w in Q, T. split; [exact Q|]. split; [exact T|].
    pose proof (timers_ok_reachable o es) as (_ & H2 & _). fold w in H2.
    rewrite H2, T. reflexivity.
Qed.

Lemma queue_ok_push w (s : jsstring) :
  queue_ok w -> s <> [] ->
  queue_ok (_startTypewriter (on_this (fun r => set_twQueue (twQueue r ++ [s]) r) w)).
Proof.
  intros [Q1 Q2] Hs.
  match goal with |- queue_ok (_startTypewriter ?u) =>
    destruct (startTypewriter_frame u) as (_ & _ & _ & _ & E5 & _ & _ & E8) end.
  split.
  - rewrite E5. simpl. apply Forall_app. split; [exact Q1|].
    constructor; [exact Hs|constructor].
  - intros _. exact E8.
Qed.

Lemma queue_ok_same w w' :
  twQueue (this w') = twQueue (this w) -> twTimer (this w') = twTimer (this w) ->
  queue_ok w -> queue_ok w'.
Proof. unfold queue_ok. intros -> ->. auto. Qed.

Lemma queue_ok_empty w : twQueue (this w) = [] -> queue_ok w.
Proof. unfold queue_ok. intros ->. split; [constructor|congruence]. Qed.

Lemma queue_ok_step w ev :
  queue_ok w -> queue_ok (snd (step_event micromark sanitize w ev)).
Proof.
  intros Hq. destruct ev; cbn [step_event snd].
  - destruct chunk as [[|c s]| | | | |]; simpl; auto.
    destruct (enabled (typewriter (this w))).
    + apply queue_ok_push; [exact Hq|discriminate].
    + match goal with |- context [_schedule ?u] =>
        destruct (schedule_frame u) as (_ & _ & _ & _ & E5 & E6 & _) end.
      eapply queue_ok_same; eauto.
  - destruct text as [s| | | | |]; try exact Hq. unfold update.
    destruct (enabled (typewriter (this w))).
    + cbv zeta.
      destruct (Nat.eqb (length (buffer (this w))) 0 && Nat.ltb 0 (length s)) eqn:Init.
      { apply queue_ok_push; [exact Hq|].
        apply andb_prop in Init. destruct Init as [_ I2].
        destruct s; [discriminate I2|discriminate]. }
      destruct (Nat.eqb (common_prefix (buffer (this w)) s) (length (buffer (this w)))
                && Nat.ltb (length (buffer (this w))) (length s)).
      { destruct (slice1 s _) eqn:Ed; [exact Hq|].
        apply queue_ok_push; [exact Hq|discriminate]. }
      apply queue_ok_empty.
      match goal with |- context [_schedule ?u] =>
        destruct (schedule_frame u) as (_ & _ & _ & _ & E5 & _) end.
      rewrite E5. simpl.
      destruct (stop_ticker_frame (on_this (set_twQueue []) w))
        as (_ & _ & _ & _ & F5 & _).
      rewrite F5. reflexivity.
    + match goal with |- context [_schedule ?u] =>
        destruct (schedule_frame u) as (_ & _ & _ & _ & E5 & E6 & _) end.
      eapply queue_ok_same; eauto.
  - unfold flush. destruct (emit_frame None w) as (_ & E2 & E3 & _).
    destruct (_emit micromark sanitize None w) as [[s|] w']; simpl in *;
      eapply queue_ok_same; eauto.
  - unfold clear. cbv zeta.
    match goal with |- context [_emit micromark sanitize ?f ?u] =>
      destruct (emit_frame f u) as (_ & E2 & E3 & _);
      destruct (_emit micromark sanitize f u) as [[s|] w'] end;
      simpl in *; apply queue_ok_empty; rewrite E2;
      destruct (stop_ticker_frame
                  (on_this (fun r => set_twQueue [] (set_buffer [] r)) w))
        as (_ & _ & _ & _ & F5 & _);
      rewrite F5; reflexivity.
  - apply queue_ok_empty. destruct (destroy_fields w) as (_ & E2 & _). exact E2.
  - exact Hq.
  - destruct el; exact Hq.
  - destruct exts; exact Hq.
  - destruct exts; exact Hq.
  - exact Hq.
  - destruct (is_pending OneShot x (host w)); [|exact Hq].
    unfold on_timeout.
    match goal with |- context [_emit micromark sanitize ?f ?u] =>
      destruct (emit_frame f u) as (_ & E2 & E3 & _);
      destruct (_emit micromark sanitize f u) as [[s|] w'] end;
      simpl in *; eapply queue_ok_same; eauto.
  - destruct (is_pending Repeating x (host w)); [|exact Hq]. cbn [snd].
    destruct (twQueue (this w)) as [|current others] eqn:Eq.
    + apply queue_ok_empty. unfold on_tick. rewrite Eq. simpl. exact Eq.
    + rewrite (tick_takes w Eq).
      match goal with |- context [_schedule ?u] =>
        destruct (schedule_frame u) as (_ & _ & _ & _ & E5 & E6 & _) end.
      destruct Hq as [Q1 Q2]. rewrite Eq in Q1, Q2.
      inversion Q1 as [|? ? Hc Ho]; subst.
      split.
      * rewrite E5. simpl.
        destruct (Nat.ltb_spec
                    (clamp_index (step (typewriter (this w))) (length current))
                    (length current)); [|exact Ho].
        constructor; [|exact Ho].
        intros E. apply (f_equal (@length _)) in E. rewrite length_skipn in E.
        simpl in E. lia.
      * intros _. rewrite E6. simpl. apply Q2. discriminate.
Qed.

Lemma queue_ok_run es w :
  queue_ok w -> queue_ok (run micromark sanitize w es).
Proof.
  revert w. induction es as [|ev es IH]; intros w H; [exact H|].
  rewrite run_cons. apply IH, queue_ok_step, H.
Qed.

Lemma queue_ok_reachable (o : options extension htmlExtension sanitizeOptions_t) es :
  queue_ok (run micromark sanitize (create math mathHtml o) es).
Proof. apply queue_ok_run, queue_ok_empty. reflexivity. Qed.

(** X4: in every state a renderer reaches, no chunk in the
    typewriter queue is empty, and whenever a chunk is waiting a ticker
    is held and pending at the host: queued text is never left without
    a ticker to reveal it. *)
Theorem queued_text_has_a_ticker :
  forall (o : options extension htmlExtension sanitizeOptions_t) (es : list event),
    let w := run micromark sanitize (create math mathHtml o) es in
    Forall (fun c : jsstring => c <> []) (twQueue (this w))
    /\ (twQueue (this w) <> [] ->
        exists x, twTimer (this w) = Some x
                  /\ is_pending Repeating x (host w) = true).
Proof.
  intros o es w. destruct (queue_ok_reachable o es) as [Q1 Q2]. fold w in Q1, Q2.
  split; [exact Q1|]. intros Hne.
  destruct (twTimer (this w)) as [x|] eqn:Hx; [|exfalso; apply (Q2 Hne); reflexivity].
  exists x. split; [reflexivity|].
  apply held_interval_is_pending; [apply timers_ok_reachable|exact Hx].
Qed.

(** ** Runs: text is kept in order *)

Lemma written_cons (ev : event) (es : list event) :
  written (ev :: es) = written [ev] ++ written es.
Proof.
  destruct ev as [[s| | | | |]| | | | | | | | | | |]; simpl;
    rewrite ?app_nil_r; reflexivity.
Qed.

Lemma stream_step w ev :
  (enabled (typewriter (this w)) = false -> twQueue (this w) = []) ->
  resets ev = false ->
  let w' := snd (step_event micromark sanitize w ev) in
  (enabled (typewriter (this w')) = false -> twQueue (this w') = [])
  /\ buffer (this w') ++ concat (twQueue (this w'))
     = (buffer (this w) ++ concat (twQueue (this w))) ++ written [ev].
Proof.
  intros Hinv Hr.
  assert (Same : forall w' : world,
             buffer (this w') = buffer (this w) ->
             twQueue (this w') = twQueue (this w) ->
             typewriter (this w') = typewriter (this w) ->
             (enabled (typewriter (this w')) = false -> twQueue (this w') = [])
             /\ buffer (this w') ++ concat (twQueue (this w'))
                = (buffer (this w) ++ concat (twQueue (this w))) ++ []).
  { intros w' -> -> ->. rewrite app_nil_r. auto. }
  destruct ev; try discriminate Hr; cbn [step_event snd].
  - destruct chunk as [[|c s]| | | | |]; try (apply Same; reflexivity).
    change (written [Write (VString (c :: s))]) with ((c :: s) ++ []).
    rewrite app_nil_r. unfold write.
    destruct (enabled (typewriter (this w))) eqn:En.
    + match goal with |- context [_startTypewriter ?u] =>
        destruct (startTypewriter_frame u) as (_ & _ & _ & E4 & E5 & _ & E7 & _) end.
      rewrite E4, E5, E7. simpl. rewrite En. split; [discriminate|].
      rewrite concat_app. simpl. rewrite app_nil_r, app_assoc. reflexivity.
    + match goal with |- context [_schedule ?u] =>
        destruct (schedule_frame u) as (_ & _ & _ & E4 & E5 & _ & E7 & _) end.
      rewrite E4, E5, E7. simpl. split; [intros _; apply Hinv; reflexivity|].
      rewrite (Hinv eq_refl). simpl. rewrite !app_nil_r. reflexivity.
  - unfold flush. destruct (emit_frame None w) as (E1 & E2 & _ & _ & E5 & _).
    destruct (_emit micromark sanitize None w) as [[s|] w']; simpl in *;
      apply Same; assumption.
  - apply Same; reflexivity.
  - destruct el; apply Same; reflexivity.
  - destruct exts; apply Same; reflexivity.
  - destruct exts; apply Same; reflexivity.
  - apply Same; reflexivity.
  - destruct (is_pending OneShot x (host w)); [|apply Same; reflexivity].
    unfold on_timeout.
    match goal with |- context [_emit micromark sanitize ?f ?u] =>
      destruct (emit_frame f u) as (E1 & E2 & _ & _ & E5 & _);
      destruct (_emit micromark sanitize f u) as [[s|] w'] end;
      simpl in *; apply Same; assumption.
  - destruct (is_pending Repeating x (host w)); [|apply Same; reflexivity].
    cbn [snd]. destruct (twQueue (this w)) as [|current others] eqn:Eq.
    + unfold on_tick. rewrite Eq. simpl. rewrite Eq. simpl.
      rewrite !app_nil_r. auto.
    + rewrite (tick_takes w Eq).
      match goal with |- context [_schedule ?u] =>
        destruct (schedule_frame u) as (_ & _ & _ & E4 & E5 & _ & E7 & _) end.
      rewrite E4, E5, E7. simpl. split.
      * intros En. specialize (Hinv En). discriminate Hinv.
      * rewrite app_nil_r, <- app_assoc. f_equal.
        set (k := clamp_index (step (typewriter (this w))) (length current)).
        destruct (Nat.ltb_spec k (length current)).
        -- simpl. rewrite app_assoc, firstn_skipn. reflexivity.
        -- rewrite firstn_all2 by lia. reflexivity.
Qed.

(** X5: as long as text is only written ([update], [clear] and
    [destroy] are not called), nothing written is lost, doubled or
    reordered, with or without the typewriter and however timer
    expiries, ticks and flushes are interleaved: the buffer followed by
    the chunks still queued is the concatenation of all chunks written
    so far (arguments that are not strings count as no text). *)
Theorem written_text_is_kept_in_order :
  forall (o : options extension htmlExtension sanitizeOptions_t) (es : list event),
    forallb (fun ev => negb (resets ev)) es = true ->
    let w := run micromark sanitize (create math mathHtml o) es in
    buffer (this w) ++ concat (twQueue (this w)) = written es.
Proof.
  intros o es Hes w.
  assert (G : forall es0 w0,
             (enabled (typewriter (this w0)) = false -> twQueue (this w0) = []) ->
             forallb (fun ev => negb (resets ev)) es0 = true ->
             buffer (this (run micromark sanitize w0 es0))
               ++ concat (twQueue (this (run micromark sanitize w0 es0)))
             = (buffer (this w0) ++ concat (twQueue (this w0))) ++ written es0).
  { induction es0 as [|ev es0 IH]; intros w0 Hinv H0.
    - simpl. rewrite app_nil_r. reflexivity.
    - simpl in H0. apply andb_prop in H0. destruct H0 as [H1 H2].
      apply negb_true_iff in H1.
      destruct (@stream_step w0 ev Hinv H1) as [Hinv' Hc].
      rewrite run_cons, written_cons, (IH _ Hinv' H2), Hc, <- !app_assoc.
      reflexivity. }
  subst w. rewrite G; [reflexivity| |exact Hes]. reflexivity.
Qed.

(** ** Runs: the typewriter comes to an end *)

Lemma whole_takes n len : whole n -> 0 < len -> 0 < clamp_index n len.
Proof.
  destruct n as [q| | |]; simpl; try tauto; try lia.
  intros Hq Hl. unfold Qle in Hq. simpl in Hq.
  assert (1 <= Z.quot (Qnum q) (Z.pos (Qden q)))%Z
    by (apply Z.quot_le_lower_bound; lia).
  destruct (Z.ltb_spec (Z.quot (Qnum q) (Z.pos (Qden q))) 0); lia.
Qed.

Lemma fractional_takes n len : fractional n -> clamp_index n len = 0.
Proof.
  destruct n as [q| | |]; simpl; try tauto.
  intros [H0 H1]. unfold Qlt in H0, H1. simpl in H0, H1.
  rewrite Z.quot_small by lia. reflexivity.
Qed.

Lemma fractional_gt0 n : fractional n -> gt0 n = true.
Proof.
  destruct n as [q| | |]; simpl; try tauto.
  intros [H0 _]. unfold Qlt in H0. simpl in H0.
  destruct (Qnum q); [lia|reflexivity|lia].
Qed.

Lemma concat_nonempty (q : list jsstring) :
  Forall (fun c : jsstring => c <> []) q -> q <> [] -> 0 < length (concat q).
Proof.
  intros H Hne. destruct q as [|c q]; [congruence|].
  inversion H; subst. simpl. rewrite length_app. destruct c; [congruence|simpl; lia].
Qed.

Lemma drain_step w x ev :
  timers_ok w -> queue_ok w -> whole (step (typewriter (this w))) ->
  (twTimer (this w) = Some x \/ twTimer (this w) = None) ->
  passes_time x ev = true ->
  let w' := snd (step_event micromark sanitize w ev) in
  buffer (this w') ++ concat (twQueue (this w'))
  = buffer (this w) ++ concat (twQueue (this w))
  /\ (twTimer (this w') = Some x \/ twTimer (this w') = None)
  /\ length (concat (twQueue (this w'))) + ticker_weight (twTimer (this w'))
     <= length (concat (twQueue (this w))) + ticker_weight (twTimer (this w))
        - tick_count [ev].
Proof.
  intros Hok Hq Hs Ht Hev.
  assert (Same : forall w' : world,
             buffer (this w') = buffer (this w) ->
             twQueue (this w') = twQueue (this w) ->
             twTimer (this w') = twTimer (this w) ->
             buffer (this w') ++ concat (twQueue (this w'))
             = buffer (this w) ++ concat (twQueue (this w))
             /\ (twTimer (this w') = Some x \/ twTimer (this w') = None)
             /\ length (concat (twQueue (this w'))) + ticker_weight (twTimer (this w'))
                <= length (concat (twQueue (this w)))
                   + ticker_weight (twTimer (this w)) - 0).
  { intros w' -> -> ->. repeat split; auto. lia. }
  destruct ev; try discriminate Hev; cbn [step_event snd].
  - unfold flush. destruct (emit_frame None w) as (E1 & E2 & E3 & _).
    destruct (_emit micromark sanitize None w) as [[s|] w']; simpl in *;
      apply Same; assumption.
  - destruct (is_pending OneShot x0 (host w)); [|apply Same; reflexivity].
    unfold on_timeout.
    match goal with |- context [_emit micromark sanitize ?f ?u] =>
      destruct (emit_frame f u) as (E1 & E2 & E3 & _);
      destruct (_emit micromark sanitize f u) as [[s|] w'] end;
      simpl in *; apply Same; assumption.
  - simpl in Hev. apply Pos.eqb_eq in Hev. subst x0.
    change (tick_count [IntervalFires x]) with 1.
    destruct Ht as [Ht|Ht].
    + rewrite (held_interval_is_pending Hok Ht). cbn [snd].
      destruct (twQueue (this w)) as [|current others] eqn:Eq.
      * unfold on_tick. rewrite Eq. simpl. rewrite Eq, Ht. simpl. auto.
      * rewrite (tick_takes w Eq).
        match goal with |- context [_schedule ?u] =>
          destruct (schedule_frame u) as (_ & _ & _ & E4 & E5 & E6 & _) end.
        rewrite E4, E5, E6. simpl. rewrite Ht.
        destruct Hq as [Q1 _]. rewrite Eq in Q1. inversion Q1 as [|? ? Hc Ho]; subst.
        assert (Hlen : 0 < length current) by (destruct current; [congruence|simpl; lia]).
        pose proof (@whole_takes _ _ Hs Hlen) as Hk.
        pose proof (clamp_index_le (step (typewriter (this w))) (length current)) as Hle.
        set (k := clamp_index (step (typewriter (this w))) (length current)) in *.
        split; [|split; [auto|]].
        -- rewrite <- app_assoc. f_equal.
           destruct (Nat.ltb_spec k (length current)).
           ++ simpl. rewrite app_assoc, firstn_skipn. reflexivity.
           ++ rewrite firstn_all2 by lia. reflexivity.
        -- destruct (Nat.ltb_spec k (length current)); simpl;
             rewrite !length_app, ?length_skipn; lia.
    + rewrite (not_pending_without_ticker x Hok Ht). cbn [snd].
      rewrite Ht. repeat split; auto. destruct Hq as [_ Q2].
      destruct (twQueue (this w)); [simpl; lia|].
      exfalso. apply Q2; [discriminate|exact Ht].
Qed.

Lemma tick_count_cons (ev : event) (es : list event) :
  tick_count (ev :: es) = tick_count [ev] + tick_count es.
Proof. destruct ev; reflexivity. Qed.

Lemma drain_run es :
  forall w x,
    timers_ok w -> queue_ok w -> whole (step (typewriter (this w))) ->
    (twTimer (this w) = Some x \/ twTimer (this w) = None) ->
    forallb (passes_time x) es = true ->
    let w' := run micromark sanitize w es in
    buffer (this w') ++ concat (twQueue (this w'))
    = buffer (this w) ++ concat (twQueue (this w))
    /\ (twTimer (this w') = Some x \/ twTimer (this w') = None)
    /\ length (concat (twQueue (this w'))) + ticker_weight (twTimer (this w'))
       <= length (concat (twQueue (this w))) + ticker_weight (twTimer (this w))
          - tick_count es.
Proof.
  induction es as [|ev es IH]; intros w x Hok Hq Hs Ht Hes.
  - simpl. repeat split; auto. lia.
  - simpl in Hes. apply andb_prop in Hes. destruct Hes as [H1 H2].
    destruct (@drain_step w x ev Hok Hq Hs Ht H1) as (A1 & A2 & A3).
    destruct (config_step w ev) as (C1 & _).
    cbv zeta. rewrite run_cons, tick_count_cons.
    destruct (IH (snd (step_event micromark sanitize w ev)) x) as (B1 & B2 & B3); auto.
    + apply timers_ok_step, Hok.
    + apply queue_ok_step, Hq.
    + rewrite C1. exact Hs.
    + repeat split; [congruence|exact B2|lia].
Qed.

(** X6: with a step of one character or more the typewriter comes
    to an end. From any state the renderer reaches with the ticker [x]
    running, once the ticker has fired as many times as characters are
    queued (throttle expiries and flushes may come in between), the
    queue is empty and the buffer is the former buffer followed by all
    the queued text; one tick later the ticker has stopped itself and
    the host has no repeating timer left. *)
Theorem typewriter_comes_to_an_end :
  forall (o : options extension htmlExtension sanitizeOptions_t)
         (es es' : list event) (x : handle),
    let w := run micromark sanitize (create math mathHtml o) es in
    let w' := run micromark sanitize w es' in
    whole (step (typewriter (this w))) ->
    twTimer (this w) = Some x ->
    forallb (passes_time x) es' = true ->
    (length (concat (twQueue (this w))) <= tick_count es' ->
     twQueue (this w') = []
     /\ buffer (this w') = buffer (this w) ++ concat (twQueue (this w)))
    /\ (length (concat (twQueue (this w))) < tick_count es' ->
        twTimer (this w') = None /\ pending Repeating (host w') = []).
Proof.
  intros o es es' x w w' Hs Hx Hes.
  assert (Hok : timers_ok w) by apply timers_ok_reachable.
  assert (Hq : queue_ok w) by apply queue_ok_reachable.
  destruct (@drain_run es' w x Hok Hq Hs (or_introl Hx) Hes) as (A1 & A2 & A3).
  fold w' in A1, A2, A3. rewrite Hx in A3. simpl in A3.
  assert (Hok' : timers_ok w') by (apply timers_ok_run, Hok).
  assert (Hq' : queue_ok w') by (apply queue_ok_run, Hq).
  split.
  - intros Hl.
    assert (E : twQueue (this w') = []).
    { destruct (twQueue (this w')) as [|c q] eqn:Eq; [reflexivity|]. exfalso.
      destruct Hq' as [Q1 Q2].
      assert (Hne : twQueue (this w') <> []) by (rewrite Eq; discriminate).
      pose proof (@concat_nonempty _ Q1 Hne) as Hpos. rewrite Eq in Hpos.
      specialize (Q2 Hne). destruct (twTimer (this w')); [|congruence].
      simpl in A3, Hpos. lia. }
    split; [exact E|]. rewrite E in A1. simpl in A1. rewrite app_nil_r in A1.
    exact A1.
  - intros Hl.
    assert (E : twTimer (this w') = None).
    { destruct (twTimer (this w')); [simpl in A3; lia|reflexivity]. }
    split; [exact E|]. destruct Hok' as (_ & H2 & _). rewrite H2, E. reflexivity.
Qed.

Lemma stall_step w x ev :
  timers_ok w -> queue_ok w -> fractional (step (typewriter (this w))) ->
  twTimer (this w) = Some x -> twQueue (this w) <> [] ->
  passes_time x ev = true ->
  let w' := snd (step_event micromark sanitize w ev) in
  buffer (this w') = buffer (this w) /\ twQueue (this w') = twQueue (this w)
  /\ twTimer (this w') = Some x.
Proof.
  intros Hok Hq Hs Ht Hne Hev.
  destruct ev; try discriminate Hev; cbn [step_event snd].
  - unfold flush. destruct (emit_frame None w) as (E1 & E2 & E3 & _).
    destruct (_emit micromark sanitize None w) as [[s|] w']; simpl in *;
      repeat split; congruence.
  - destruct (is_pending OneShot x0 (host w)); [|auto].
    unfold on_timeout.
    match goal with |- context [_emit micromark sanitize ?f ?u] =>
      destruct (emit_frame f u) as (E1 & E2 & E3 & _);
      destruct (_emit micromark sanitize f u) as [[s|] w'] end;
      simpl in *; repeat split; congruence.
  - destruct (is_pending Repeating x0 (host w)); [|auto]. cbn [snd].
    destruct (twQueue (this w)) as [|current others] eqn:Eq; [congruence|].
    rewrite (tick_takes w Eq).
    match goal with |- context [_schedule ?u] =>
      destruct (schedule_frame u) as (_ & _ & _ & E4 & E5 & E6 & _) end.
    rewrite E4, E5, E6. simpl. rewrite fractional_takes by exact Hs. simpl.
    destruct Hq as [Q1 _]. rewrite Eq in Q1. inversion Q1 as [|? ? Hc Ho]; subst.
    destruct current; [congruence|]. simpl. rewrite app_nil_r. auto.
Qed.

(** X7: a step between 0 and 1 passes the constructor's check
    ([step > 0]) and is kept, but [slice] rounds it down to no character
    at all. Then the typewriter reveals nothing: whatever number of
    ticks, throttle expiries and flushes follows, the buffer and the
    queue stay as they are and the ticker keeps running. *)
Theorem fractional_step_reveals_nothing :
  forall (o : options extension htmlExtension sanitizeOptions_t)
         (es es' : list event) (x : handle) (n : number),
    o_tw_step o = Some n ->
    fractional n ->
    let w := run micromark sanitize (create math mathHtml o) es in
    let w' := run micromark sanitize w es' in
    twTimer (this w) = Some x ->
    twQueue (this w) <> [] ->
    forallb (passes_time x) es' = true ->
    step (typewriter (this w)) = n
    /\ buffer (this w') = buffer (this w)
    /\ twQueue (this w') = twQueue (this w)
    /\ is_pending Repeating x (host w') = true.
Proof.
  intros o es es' x n Ho Hn w w' Hx Hne Hes.
  assert (Hstep : step (typewriter (this w)) = n).
  { destruct (config_run es (create math mathHtml o)) as (A1 & _). fold w in A1.
    rewrite A1. simpl. rewrite Ho, fractional_gt0 by exact Hn. reflexivity. }
  split; [exact Hstep|].
  assert (G : forall es0 w0,
             timers_ok w0 -> queue_ok w0 -> fractional (step (typewriter (this w0))) ->
             twTimer (this w0) = Some x -> twQueue (this w0) <> [] ->
             forallb (passes_time x) es0 = true ->
             timers_ok (run micromark sanitize w0 es0)
             /\ buffer (this (run micromark sanitize w0 es0)) = buffer (this w0)
             /\ twQueue (this (run micromark sanitize w0 es0)) = twQueue (this w0)
             /\ twTimer (this (run micromark sanitize w0 es0)) = Some x).
  { induction es0 as [|ev es0 IH]; intros w0 Hok Hq Hs Ht Hq0 H0; [simpl; auto|].
    simpl in H0. apply andb_prop in H0. destruct H0 as [H1 H2].
    destruct (@stall_step w0 x ev Hok Hq Hs Ht Hq0 H1) as (A1 & A2 & A3).
    destruct (config_step w0 ev) as (C1 & _).
    rewrite run_cons.
    destruct (IH (snd (step_event micromark sanitize w0 ev))) as (B0 & B1 & B2 & B3);
      auto.
    - apply timers_ok_step, Hok.
    - apply queue_ok_step, Hq.
    - rewrite C1. exact Hs.
    - rewrite A2. exact Hq0.
    - split; [exact B0|]. repeat split; congruence. }
  destruct (G es' w) as (B0 & B1 & B2 & B3); auto.
  - apply timers_ok_reachable.
  - apply queue_ok_reachable.
  - rewrite Hstep. exact Hn.
  - fold w' in B0, B1, B2, B3. repeat split; auto.
    apply held_interval_is_pending; assumption.
Qed.

(** ** [update] while text is queued *)

Lemma common_prefix_app (old delta : jsstring) :
  common_prefix old (old ++ delta) = length old.
Proof.
  induction old as [|a old IH]; simpl; [destruct delta; reflexivity|].
  unfold char_eqb. rewrite N.eqb_refl, IH. reflexivity.
Qed.

Lemma skipn_length_app (A : Type) (l1 l2 : list A) : skipn (length l1) (l1 ++ l2) = l2.
Proof. induction l1; simpl; auto. Qed.

Lemma update_extends w (delta : jsstring) :
  enabled (typewriter (this w)) = true -> delta <> [] ->
  update (VString (buffer (this w) ++ delta)) w
  = _startTypewriter (on_this (fun r => set_twQueue (twQueue r ++ [delta]) r) w).
Proof.
  intros En Hd. unfold update. rewrite En. cbv zeta.
  rewrite common_prefix_app, Nat.eqb_refl.
  destruct (buffer (this w)) as [|a old] eqn:Eb.
  - simpl. destruct delta; [congruence|reflexivity].
  - replace (Nat.eqb (length (a :: old)) 0) with false by reflexivity.
    cbn [andb].
    replace (Nat.ltb (length (a :: old)) (length ((a :: old) ++ delta))) with true.
    2:{ symmetry. apply Nat.ltb_lt. rewrite length_app.
        destruct delta; [congruence|simpl; lia]. }
    rewrite slice1_of_nat by (rewrite length_app; lia).
    rewrite skipn_length_app. destruct delta; [congruence|reflexivity].
Qed.

(** X8: in typewriter mode [update] compares the new text with
    the buffer, that is with the text revealed so far, not with the text
    still queued. When the new text extends the buffer by [delta], the
    delta is queued behind the chunks already waiting, so once the queue
    has drained the buffer is the old buffer, then the text that was
    waiting, then the delta; that is the new text only when nothing was
    waiting. *)
Theorem update_queues_behind_waiting_text :
  forall (o : options extension htmlExtension sanitizeOptions_t)
         (es : list event) (delta : jsstring),
    let w := run micromark sanitize (create math mathHtml o) es in
    let text := buffer (this w) ++ delta in
    let w1 := snd (step_event micromark sanitize w (Update (VString text))) in
    enabled (typewriter (this w)) = true ->
    whole (step (typewriter (this w))) ->
    delta <> [] ->
    twQueue (this w1) = twQueue (this w) ++ [delta]
    /\ buffer (this w1) = buffer (this w)
    /\ (exists x,
          twTimer (this w1) = Some x
          /\ forall es',
              forallb (passes_time x) es' = true ->
              length (concat (twQueue (this w))) + length delta <= tick_count es' ->
              buffer (this (run micromark sanitize w1 es'))
              = buffer (this w) ++ concat (twQueue (this w)) ++ delta)
    /\ (buffer (this w) ++ concat (twQueue (this w)) ++ delta = text
        <-> twQueue (this w) = []).
Proof.
  intros o es delta w text w1 En Hs Hd.
  assert (Hok1 : timers_ok w1) by (apply timers_ok_step, timers_ok_reachable).
  assert (Hq1 : queue_ok w1) by (apply queue_ok_step, queue_ok_reachable).
  assert (Hq : queue_ok w) by apply queue_ok_reachable.
  destruct (config_step w (Update (VString text))) as (C1 & _). fold w1 in C1.
  assert (E : w1 = _startTypewriter
                     (on_this (fun r => set_twQueue (twQueue r ++ [delta]) r) w)).
  { subst w1 text. cbn [step_event snd]. apply update_extends; assumption. }
  destruct (startTypewriter_frame
              (on_this (fun r => set_twQueue (twQueue r ++ [delta]) r) w))
    as (_ & _ & _ & E4 & E5 & _ & _ & E8).
  rewrite <- E in E4, E5, E8. simpl in E4, E5.
  split; [exact E5|]. split; [exact E4|]. split.
  - destruct (twTimer (this w1)) as [x|] eqn:Hx; [|congruence].
    exists x. split; [reflexivity|]. intros es' Hes Hl.
    assert (Hs1 : whole (step (typewriter (this w1)))) by (rewrite C1; exact Hs).
    destruct (@drain_run es' w1 x Hok1 Hq1 Hs1 (or_introl Hx) Hes) as (A1 & A2 & A3).
    rewrite Hx, E5, concat_app, length_app in A3. simpl in A3.
    rewrite app_nil_r in A3.
    assert (Hok' : timers_ok (run micromark sanitize w1 es')) by (apply timers_ok_run, Hok1).
    assert (Hq' : queue_ok (run micromark sanitize w1 es')) by (apply queue_ok_run, Hq1).
    set (w' := run micromark sanitize w1 es') in *.
    assert (Ee : twQueue (this w') = []).
    { destruct (twQueue (this w')) as [|c q] eqn:Eq; [reflexivity|]. exfalso.
      destruct Hq' as [Q1 Q2].
      assert (Hne : twQueue (this w') <> []) by (rewrite Eq; discriminate).
      pose proof (@concat_nonempty _ Q1 Hne) as Hpos. rewrite Eq in Hpos.
      specialize (Q2 Hne). destruct (twTimer (this w')); [|congruence].
      simpl in A3, Hpos. lia. }
    rewrite Ee in A1. simpl in A1. rewrite app_nil_r in A1.
    rewrite A1, E4, E5, concat_app. simpl. rewrite app_nil_r. reflexivity.
  - subst text. split.
    + intros H. apply app_inv_head in H.
      destruct (twQueue (this w)) as [|c q] eqn:Eq; [reflexivity|]. exfalso.
      destruct Hq as [Q1 _]. rewrite Eq in Q1.
      assert (Hpos : 0 < length (concat (c :: q)))
        by (apply concat_nonempty; [exact Q1|discriminate]).
      apply (f_equal (@length _)) in H. rewrite length_app in H. lia.
    + intros ->. reflexivity.
Qed.

(** ** [clear] and the throttle timer *)

Lemma preprocess_empty ms rn : _preprocess ms rn [] = [].
Proof. destruct ms as [[|] [|]], rn; reflexivity. Qed.

(** X9: [clear] cancels the ticker but not the throttle timer.
    With a throttle timer pending, [clear] empties buffer and queue and
    runs a pass on the empty text at once, and the timer stays pending:
    when it expires a second pass runs, on the empty buffer again. *)
Theorem clear_keeps_the_throttle_timer :
  forall (o : options extension htmlExtension sanitizeOptions_t)
         (es : list event) (x : handle),
    let w := run micromark sanitize (create math mathHtml o) es in
    let w1 := snd (step_event micromark sanitize w Clear) in
    let w2 := snd (step_event micromark sanitize w1 (TimeoutFires x)) in
    timer (this w) = Some x ->
    (buffer (this w1) = [] /\ twQueue (this w1) = [] /\ twTimer (this w1) = None
     /\ pending Repeating (host w1) = [])
    /\ timer (this w1) = Some x
    /\ is_pending OneShot x (host w1) = true
    /\ passes (host w1) = passes (host w) ++ [[]]
    /\ passes (host w2) = passes (host w) ++ [[]; []]
    /\ timer (this w2) = None.
Proof.
  intros o es x w w1 w2 Hx.
  assert (Hok1 : timers_ok w1) by (apply timers_ok_step, timers_ok_reachable).
  assert (F : buffer (this w1) = [] /\ twQueue (this w1) = []
              /\ twTimer (this w1) = None /\ timer (this w1) = Some x
              /\ passes (host w1) = passes (host w) ++ [[]]).
  { subst w1. cbn [step_event snd]. unfold clear. cbv zeta.
    match goal with |- context [_emit micromark sanitize ?f ?u] =>
      destruct (emit_frame f u) as (E1 & E2 & E3 & E4 & _);
      pose proof (passes_emit f u) as E5;
      destruct (_emit micromark sanitize f u) as [[s|] w'] end;
      simpl in *;
      destruct (stop_ticker_frame
                  (on_this (fun r => set_twQueue [] (set_buffer [] r)) w))
        as (_ & _ & F3 & F4 & F5 & F6 & _ & F8);
      rewrite E1, E2, E3, E4, E5, F3, F4, F5, F6, F8; simpl; auto. }
  destruct F as (F1 & F2 & F3 & F4 & F5).
  assert (Hp : is_pending OneShot x (host w1) = true)
    by (apply held_timeout_is_pending; assumption).
  destruct (timeout_fires x Hok1 Hp) as (T1 & _ & _ & T4). fold w2 in T1, T4.
  split; [|split; [exact F4|split; [exact Hp|split; [exact F5|split; [|exact T1]]]]].
  - repeat split; auto. destruct Hok1 as (_ & H2 & _). rewrite H2, F3. reflexivity.
  - rewrite T4, F1, F5, preprocess_empty, <- app_assoc. reflexivity.
Qed.

(** ** No render is lost *)

Lemma emit_last_pass f w :
  let w' := snd (_emit micromark sanitize f w) in
  passes (host w') = passes (host w) ++ [source_of f w]
  /\ buffer (this w') = buffer (this w)
  /\ mathSyntax (this w') = mathSyntax (this w)
  /\ respectNewlines (this w') = respectNewlines (this w)
  /\ timer (this w') = timer (this w).
Proof.
  intros w'. subst w'. destruct (emit_this f w) as [p Ep].
  split; [|rewrite Ep; repeat split; reflexivity].
  destruct (emit_cases f w) as [[safe ->]| ->]; simpl;
    [unfold call_listener; simpl; destruct (listener (this w)) as [[|]|]; simpl|];
    reflexivity.
Qed.

Lemma up_to_date_scheduled w : up_to_date (_schedule w).
Proof. intros T. exfalso. exact (schedule_sets_timer w T). Qed.

Lemma up_to_date_queued w (f : list jsstring -> list jsstring) :
  up_to_date w ->
  up_to_date (_startTypewriter (on_this (fun r => set_twQueue (f (twQueue r)) r) w)).
Proof.
  unfold up_to_date, shown, _startTypewriter. simpl.
  destruct (twTimer (this w)); simpl; auto.
Qed.

Lemma up_to_date_emitted w :
  up_to_date (snd (_emit micromark sanitize None w)).
Proof.
  destruct (emit_last_pass None w) as (E1 & E2 & E3 & E4 & _).
  intros _. unfold shown. rewrite E1, E2, E3, E4, last_last.
  split; [reflexivity|]. intros E. destruct (passes (host w)); discriminate E.
Qed.

Lemma up_to_date_step w ev :
  destroys ev = false -> up_to_date w ->
  up_to_date (snd (step_event micromark sanitize w ev)).
Proof.
  intros Hd H. destruct ev; cbn [step_event snd]; try discriminate Hd.
  - destruct chunk as [[|c s]| | | | |]; simpl; auto.
    destruct (enabled (typewriter (this w))).
    + apply (@up_to_date_queued w (fun q => q ++ [c :: s]) H).
    + apply up_to_date_scheduled.
  - destruct text as [s| | | | |]; try exact H. unfold update.
    destruct (enabled (typewriter (this w))); [|apply up_to_date_scheduled].
    cbv zeta.
    destruct (Nat.eqb (length (buffer (this w))) 0 && Nat.ltb 0 (length s)).
    { apply (@up_to_date_queued w (fun q => q ++ [s]) H). }
    destruct (Nat.eqb (common_prefix (buffer (this w)) s) (length (buffer (this w)))
              && Nat.ltb (length (buffer (this w))) (length s)).
    { destruct (slice1 s _) as [|d delta] eqn:Ed; [exact H|].
      apply (@up_to_date_queued w (fun q => q ++ [d :: delta]) H). }
    apply up_to_date_scheduled.
  - unfold flush. pose proof (up_to_date_emitted w) as U.
    destruct (_emit micromark sanitize None w) as [[s|] w']; exact U.
  - unfold clear. cbv zeta.
    match goal with |- context [_emit micromark sanitize ?f ?u] =>
      destruct (emit_last_pass f u) as (E1 & E2 & E3 & E4 & _);
      destruct (_emit micromark sanitize f u) as [[s|] w'] end;
      simpl in *; intros _; unfold shown; rewrite E1, E2, E3, E4, last_last;
      destruct (stop_ticker_frame
                  (on_this (fun r => set_twQueue [] (set_buffer [] r)) w))
        as (_ & _ & _ & F4 & _);
      rewrite F4; simpl; rewrite preprocess_empty; split; reflexivity.
  - exact H.
  - destruct el; exact H.
  - destruct exts; exact H.
  - destruct exts; exact H.
  - exact H.
  - destruct (is_pending OneShot x (host w)); [|exact H].
    unfold on_timeout.
    match goal with |- context [_emit micromark sanitize None ?u] =>
      pose proof (up_to_date_emitted u) as U;
      destruct (_emit micromark sanitize None u) as [[s|] w'] end; exact U.
  - destruct (is_pending Repeating x (host w)); [|exact H]. cbn [snd].
    destruct (twQueue (this w)) as [|current others] eqn:Eq.
    + unfold on_tick. rewrite Eq. unfold up_to_date, shown in *. simpl.
      destruct (twTimer (this w)); simpl; exact H.
    + rewrite (tick_takes w Eq). apply up_to_date_scheduled.
Qed.

Lemma up_to_date_run es :
  forall w, existsb (@destroys _ _ _) es = false -> up_to_date w ->
            up_to_date (run micromark sanitize w es).
Proof.
  induction es as [|ev es IH]; intros w Hd H; [exact H|].
  rewrite run_cons. cbn [existsb] in Hd. apply orb_false_elim in Hd.
  destruct Hd as [Hd1 Hd2]. apply IH; [exact Hd2|].
  apply up_to_date_step; [exact Hd1|exact H].
Qed.

(** X23: no render is lost. As long as [destroy] is not called, in
    every state the renderer reaches: either no throttle timer is held,
    and then the last render pass was on the buffer as it is now,
    preprocessed (the buffer is empty if no pass has run yet); or the
    timer held is pending at the host, and when it expires exactly one
    pass runs, on the buffer as it is now, and the timer is given up. *)
Theorem no_render_is_lost :
  forall (o : options extension htmlExtension sanitizeOptions_t) (es : list event),
    existsb (@destroys _ _ _) es = false ->
    let w := run micromark sanitize (create math mathHtml o) es in
    let source :=
      _preprocess (mathSyntax (this w)) (respectNewlines (this w)) (buffer (this w)) in
    match timer (this w) with
    | None =>
        last (passes (host w)) [] = source
        /\ (passes (host w) = [] -> buffer (this w) = [])
    | Some x =>
        is_pending OneShot x (host w) = true
        /\ let w' := snd (step_event micromark sanitize w (TimeoutFires x)) in
           passes (host w') = passes (host w) ++ [source]
           /\ buffer (this w') = buffer (this w)
           /\ timer (this w') = None
    end.
Proof.
  intros o es Hd w source.
  assert (U : up_to_date w).
  { apply up_to_date_run; [exact Hd|]. intros _. split; [|reflexivity].
    simpl. rewrite preprocess_empty. reflexivity. }
  destruct (timer (this w)) as [x|] eqn:Hx; [|exact (U Hx)].
  pose proof (held_timeout_is_pending (timers_ok_reachable o es) Hx) as Hp.
  fold w in Hp. split; [exact Hp|]. cbn [step_event]. rewrite Hp.
  unfold on_timeout.
  match goal with |- context [_emit micromark sanitize None ?u] =>
    destruct (emit_last_pass None u) as (E1 & E2 & E3 & E4 & E5);
    destruct (_emit micromark sanitize None u) as [[s|] w'] end;
    simpl in *; rewrite E1, E2, E5; repeat split; reflexivity.
Qed.

End TimerFacts.

(* ================================================================= *)
(** * The regular expressions *)

Unset Implicit Arguments.

Section RegexFacts.

Variable A : Type.

Implicit Types (p : char -> bool) (b s : jsstring).

Lemma rep_lazy p b s (k : jsstring -> jsstring -> option A) :
  rep p false 0 None b s k
  = match k b s with
    | Some x => Some x
    | None =>
        match s with
        | c :: s' => if p c then rep p false 0 None (c :: b) s' k else None
        | [] => None
        end
    end.
Proof.
  destruct s as [|c s']; simpl.
  - destruct (k b []); reflexivity.
  - destruct (p c); simpl; destruct (k b (c :: s')); reflexivity.
Qed.

Lemma rep_one_or_two p b s (k : jsstring -> jsstring -> option A) :
  rep p true 1 (Some 2) b s k
  = match s with
    | c1 :: s1 =>
        if p c1 then
          match s1 with
          | c2 :: s2 =>
              if p c2 then
                match k (c2 :: c1 :: b) s2 with
                | Some x => Some x
                | None => k (c1 :: b) s1
                end
              else k (c1 :: b) s1
          | [] => k (c1 :: b) []
          end
        else None
    | [] => None
    end.
Proof.
  destruct s as [|c1 [|c2 s2]]; simpl; try reflexivity.
  - destruct (p c1); simpl; [|reflexivity].
    destruct (k (c1 :: b) []); reflexivity.
  - destruct (p c1); simpl; [|reflexivity].
    destruct (p c2); simpl.
    + destruct s2 as [|c3 s3]; simpl; rewrite ?andb_false_r;
        destruct (k (c2 :: c1 :: b) _); try reflexivity;
        destruct (k (c1 :: b) _); reflexivity.
    + destruct (k (c1 :: b) (c2 :: s2)); reflexivity.
Qed.

(** One or two backslashes and a bracket, then [r]. *)
Lemma run_delim br (r : re) b s cs
      (k : jsstring -> jsstring -> caps -> option A) :
  only br BACKSLASH = false ->
  Regex.run (Cat (Rep (only BACKSLASH) 1 (Some 2) true) (Cat (Cls (only br)) r)) b s cs k
  = match delim br s with
    | Some (d, rest) => Regex.run r (rev d ++ b) rest cs k
    | None => None
    end.
Proof.
  intros Hbr. cbn [Regex.run]. rewrite rep_one_or_two. unfold delim.
  destruct s as [|c1 s1]; [reflexivity|].
  destruct (only BACKSLASH c1) eqn:E1; [|reflexivity].
  destruct s1 as [|c2 s2]; [reflexivity|].
  destruct (only BACKSLASH c2) eqn:E2.
  - assert (only br c2 = false) as Hc2.
    { unfold only, char_eqb in *. apply N.eqb_eq in E2. subst c2. exact Hbr. }
    rewrite Hc2. destruct s2 as [|c3 s3]; [reflexivity|].
    destruct (only br c3); [|reflexivity]. simpl.
    destruct (Regex.run r _ _ _ _); reflexivity.
  - destruct (only br c2); reflexivity.
Qed.

Lemma run_delim_end br b s cs (k : jsstring -> jsstring -> caps -> option A) :
  only br BACKSLASH = false ->
  Regex.run (Cat (Rep (only BACKSLASH) 1 (Some 2) true) (Cls (only br))) b s cs k
  = match delim br s with
    | Some (d, rest) => k (rev d ++ b) rest cs
    | None => None
    end.
Proof.
  intros Hbr. cbn [Regex.run]. rewrite rep_one_or_two. unfold delim.
  destruct s as [|c1 s1]; [reflexivity|].
  destruct (only BACKSLASH c1) eqn:E1; [|reflexivity].
  destruct s1 as [|c2 s2]; [reflexivity|].
  destruct (only BACKSLASH c2) eqn:E2.
  - assert (only br c2 = false) as Hc2.
    { unfold only, char_eqb in *. apply N.eqb_eq in E2. subst c2. exact Hbr. }
    rewrite Hc2. destruct s2 as [|c3 s3]; [reflexivity|].
    destruct (only br c3); [|reflexivity]. simpl.
    destruct (k _ _ _); reflexivity.
  - destruct (only br c2); reflexivity.
Qed.


(** ** The matcher finds a match exactly when there is one *)

Lemma orelse_defined (x y : option A) :
  match x with Some v => Some v | None => y end <> None
  <-> x <> None \/ y <> None.
Proof.
  destruct x; split; try tauto; try congruence.
Qed.

Lemma rep_defined p greedy (k : jsstring -> jsstring -> option A) s :
  forall lo hi b,
    rep p greedy lo hi b s k <> None
    <-> exists taken rest,
        s = taken ++ rest /\ forallb p taken = true /\ lo <= length taken
        /\ within hi (length taken) /\ k (rev taken ++ b) rest <> None.
Proof.
  assert (Hstop : forall lo b s0,
             match lo with 0 => k b s0 | S _ => None end <> None
             <-> lo = 0 /\ k b s0 <> None).
  { intros [|lo] b s0; split.
    - intros H. split; [reflexivity|exact H].
    - intros [_ H]. exact H.
    - congruence.
    - intros [H _]. discriminate. }
  induction s as [|c s IH]; intros lo hi b.
  - cbn [rep]. rewrite (Hstop lo). split.
    + intros [-> Hk]. exists [], []. simpl. repeat split; auto.
      destruct hi; simpl; lia.
    + intros (taken & rest & E & _ & Hlo & _ & Hk).
      destruct taken; [|discriminate]. destruct rest; [|discriminate].
      simpl in *. split; [lia|exact Hk].
  - cbn [rep].
    assert (Hnil : lo = 0 /\ k b (c :: s) <> None
                   <-> exists taken rest,
                       c :: s = taken ++ rest /\ forallb p taken = true
                       /\ lo <= length taken /\ within hi (length taken)
                       /\ k (rev taken ++ b) rest <> None /\ taken = []).
    { split.
      - intros [-> Hk]. exists [], (c :: s). simpl. repeat split; auto.
        destruct hi; simpl; lia.
      - intros (taken & rest & E & _ & Hlo & _ & Hk & ->). simpl in *.
        subst rest. split; [lia|exact Hk]. }
    assert (Hcons : p c = true -> may_repeat hi = true ->
                    (rep p greedy (pred lo) (one_less hi) (c :: b) s k <> None
                     <-> exists taken rest,
                         c :: s = taken ++ rest /\ forallb p taken = true
                         /\ lo <= length taken /\ within hi (length taken)
                         /\ k (rev taken ++ b) rest <> None /\ taken <> [])).
    { intros Hp Hm. rewrite IH. split.
      - intros (taken & rest & -> & Hall & Hlo & Hhi & Hk).
        exists (c :: taken), rest. simpl. rewrite Hp, Hall, <- app_assoc.
        repeat split; auto; try lia; try discriminate.
        all: destruct hi as [[|h]|]; simpl in *; try discriminate; try lia;
          try exact I.
      - intros (taken & rest & E & Hall & Hlo & Hhi & Hk & Hne).
        destruct taken as [|c' taken]; [congruence|].
        simpl in E. injection E as <- ->. simpl in Hall.
        apply andb_prop in Hall. destruct Hall as [_ Hall].
        exists taken, rest. simpl in Hk. rewrite <- app_assoc in Hk.
        repeat split; auto; simpl in *; try lia.
        all: destruct hi as [[|h]|]; simpl in *; try lia; try exact I. }
    assert (Hsplit : (exists taken rest,
                         c :: s = taken ++ rest /\ forallb p taken = true
                         /\ lo <= length taken /\ within hi (length taken)
                         /\ k (rev taken ++ b) rest <> None)
                     <-> (exists taken rest,
                             c :: s = taken ++ rest /\ forallb p taken = true
                             /\ lo <= length taken /\ within hi (length taken)
                             /\ k (rev taken ++ b) rest <> None /\ taken = [])
                         \/ (exists taken rest,
                                c :: s = taken ++ rest /\ forallb p taken = true
                                /\ lo <= length taken /\ within hi (length taken)
                                /\ k (rev taken ++ b) rest <> None /\ taken <> [])).
    { split.
      - intros (taken & rest & H). destruct taken as [|c' taken].
        + left. exists [], rest. tauto.
        + right. exists (c' :: taken), rest.
          repeat split; try tauto. discriminate.
      - intros [(taken & rest & H)|(taken & rest & H)]; exists taken, rest; tauto. }
    rewrite Hsplit, <- Hnil.
    destruct (p c && may_repeat hi) eqn:E.
    + apply andb_prop in E. destruct E as [Hp Hm].
      rewrite <- (Hcons Hp Hm).
      destruct greedy; rewrite orelse_defined, (Hstop lo); tauto.
    + rewrite (Hstop lo). split; [tauto|]. intros [H|H]; [exact H|].
      exfalso. destruct H as (taken & rest & E0 & Hall & _ & Hhi & _ & Hne).
      destruct taken as [|c' taken]; [congruence|].
      simpl in E0. injection E0 as <- ->. simpl in Hall.
      apply andb_prop in Hall. destruct Hall as [Hp _]. rewrite Hp in E.
      simpl in E. destruct hi as [[|h]|]; simpl in *; try discriminate; lia.
Qed.

Lemma run_defined (r : re) :
  forall b s cs (k : jsstring -> jsstring -> caps -> option A),
    blind k ->
    (Regex.run r b s cs k <> None
     <-> exists b' s', spans r b s b' s' /\ k b' s' cs <> None).
Proof.
  induction r as [|p|r1 IH1 r2 IH2|r1 IH1 r2 IH2|p lo hi g|i r IH| | |p|p];
    intros b s cs k Hk; cbn [Regex.run spans].
  - split.
    + intros H. exists b, s. auto.
    + intros (b' & s' & [-> ->] & H). exact H.
  - destruct s as [|c s].
    + split; [congruence|]. intros (b' & s' & (c & E & _) & _). discriminate.
    + destruct (p c) eqn:Hp.
      * split.
        -- intros H. exists (c :: b), s. split; [|exact H]. exists c. auto.
        -- intros (b' & s' & (c' & E & _ & ->) & H). injection E as <- <-. exact H.
      * split; [congruence|].
        intros (b' & s' & (c' & E & Hp' & _) & _). injection E as <- <-. congruence.
  - assert (Hk2 : blind (fun b' s' cs' => Regex.run r2 b' s' cs' k)).
    { intros b0 s0 c1 c2. rewrite !IH2 by exact Hk.
      split; intros (b' & s' & H1 & H2); exists b', s'; split; auto;
        revert H2; apply Hk. }
    rewrite IH1 by exact Hk2. split.
    + intros (b1 & s1 & H1 & H2). apply IH2 in H2; [|exact Hk].
      destruct H2 as (b' & s' & H2 & H3). exists b', s'. split; [|exact H3].
      exists b1, s1. auto.
    + intros (b' & s' & (b1 & s1 & H1 & H2) & H3). exists b1, s1.
      split; [exact H1|]. apply IH2; [exact Hk|]. exists b', s'. auto.
  - rewrite orelse_defined, IH1, IH2 by exact Hk. split.
    + intros [(b' & s' & H1 & H2)|(b' & s' & H1 & H2)]; exists b', s'; auto.
    + intros (b' & s' & [H1|H1] & H2); [left|right]; exists b', s'; auto.
  - rewrite rep_defined. split.
    + intros (taken & rest & -> & Hall & Hlo & Hhi & H).
      exists (rev taken ++ b), rest. split; [|exact H]. exists taken.
      repeat split; auto.
    + intros (b' & s' & (taken & -> & -> & Hall & Hlo & Hhi) & H).
      exists taken, s'. repeat split; auto.
  - rewrite IH.
    + split; intros (b' & s' & H1 & H2); exists b', s'; split; auto;
        revert H2; apply Hk.
    + intros b0 s0 c1 c2. apply Hk.
  - destruct b as [|c b].
    + split.
      * intros H. exists [], s. auto.
      * intros (b' & s' & (_ & -> & ->) & H). exact H.
    + split; [congruence|]. intros (b' & s' & (E & _) & _). discriminate.
  - destruct s as [|c s].
    + split.
      * intros H. exists b, []. auto.
      * intros (b' & s' & (_ & -> & ->) & H). exact H.
    + split; [congruence|]. intros (b' & s' & (E & _) & _). discriminate.
  - destruct b as [|c b].
    + split.
      * intros H. exists [], s. auto.
      * intros (b' & s' & (_ & -> & ->) & H). exact H.
    + destruct (p c) eqn:Hp.
      * split; [congruence|]. intros (b' & s' & (E & _) & _). congruence.
      * split.
        -- intros H. exists (c :: b), s. auto.
        -- intros (b' & s' & (_ & -> & ->) & H). exact H.
  - destruct s as [|c s].
    + split.
      * intros H. exists b, []. auto.
      * intros (b' & s' & (_ & -> & ->) & H). exact H.
    + destruct (p c) eqn:Hp.
      * split; [congruence|]. intros (b' & s' & (E & _) & _). congruence.
      * split.
        -- intros H. exists b, (c :: s). auto.
        -- intros (b' & s' & (_ & -> & ->) & H). exact H.
Qed.

End RegexFacts.

(** ** Bracket spans *)

Lemma captured_text (consumed b : jsstring) :
  rev (firstn (length (rev consumed ++ b) - length b) (rev consumed ++ b)) = consumed.
Proof.
  rewrite length_app, Nat.add_sub.
  rewrite firstn_app, Nat.sub_diag, firstn_all. simpl.
  rewrite app_nil_r. apply rev_involutive.
Qed.

(** The lazy inner text and the closing delimiter of a span, as the
    matcher finds them. *)
Lemma lazy_inner_close (allowed : char -> bool) (close : char) (b1 : jsstring) :
  only close BACKSLASH = false ->
  forall (body consumed : jsstring),
    rep allowed false 0 None (rev consumed ++ b1) body
        (fun b' s' =>
           Regex.run
             (Cat (Rep (only BACKSLASH) 1 (Some 2) true) (Cls (only close)))
             b' s' [(1, rev (firstn (length b' - length b1) b'))]
             (fun b'' s'' cs => Some (b'', s'', cs)))
    = match close_at allowed close body with
      | Some (inner, d, rest) =>
          Some (rev d ++ rev (consumed ++ inner) ++ b1, rest, [(1, consumed ++ inner)])
      | None => None
      end.
Proof.
  intros Hc. induction body as [|x body IH]; intros consumed.
  - rewrite rep_lazy, run_delim_end by exact Hc. reflexivity.
  - rewrite rep_lazy, run_delim_end by exact Hc. cbn [close_at].
    destruct (delim close (x :: body)) as [[d rest]|] eqn:Ed.
    + rewrite captured_text, app_nil_r. reflexivity.
    + destruct (allowed x); [|reflexivity].
      change (x :: rev consumed ++ b1) with ((rev [x] ++ rev consumed) ++ b1).
      rewrite <- rev_app_distr. rewrite IH.
      destruct (close_at allowed close body) as [[[inner d] rest]|]; [|reflexivity].
      rewrite <- app_assoc. reflexivity.
Qed.

(** What the matcher finds at one position is the span there. *)
Lemma match_here_span (open : char) (allowed : char -> bool) (close : char)
      (b s : jsstring) :
  only open BACKSLASH = false -> only close BACKSLASH = false ->
  match_here (span_re open allowed close) b s
  = match span_here open allowed close s with
    | Some (m, inner, rest) => Some (rev m ++ b, rest, [(1, inner)])
    | None => None
    end.
Proof.
  intros Ho Hc. unfold match_here, span_re, span_here.
  cbn [seq]. unfold one. rewrite run_delim by exact Ho.
  destruct (delim open s) as [[d body]|]; [|reflexivity].
  cbn [Regex.run].
  pose proof (@lazy_inner_close allowed close (rev d ++ b) Hc body []) as L.
  cbn [rev app] in L. etransitivity; [exact L|].
  destruct (close_at allowed close body) as [[[inner d'] rest]|]; [|reflexivity].
  cbn [app]. rewrite !rev_app_distr, <- !app_assoc. reflexivity.
Qed.

Lemma close_at_splits allowed close s inner d rest :
  close_at allowed close s = Some (inner, d, rest) -> s = inner ++ d ++ rest.
Proof.
  revert inner. induction s as [|x s IH]; intros inner; cbn [close_at].
  - simpl. discriminate.
  - destruct (delim close (x :: s)) as [[d0 rest0]|] eqn:Ed.
    + intros H. injection H as <- <- <-. unfold delim in Ed.
      destruct (only BACKSLASH x); [|discriminate].
      destruct s as [|c2 s2]; [discriminate|].
      destruct (only BACKSLASH c2).
      * destruct s2 as [|c3 s3]; [discriminate|].
        destruct (only close c3); [|discriminate].
        injection Ed as <- <-. reflexivity.
      * destruct (only close c2); [|discriminate].
        injection Ed as <- <-. reflexivity.
    + destruct (allowed x); [|discriminate].
      destruct (close_at allowed close s) as [[[inner0 d0] rest0]|]; [|discriminate].
      intros H. injection H as <- <- <-. simpl. f_equal. apply IH. reflexivity.
Qed.

Lemma delim_splits br s d rest : delim br s = Some (d, rest) -> s = d ++ rest /\ d <> [].
Proof.
  unfold delim. destruct s as [|c1 s1]; [discriminate|].
  destruct (only BACKSLASH c1); [|discriminate].
  destruct s1 as [|c2 s2]; [discriminate|].
  destruct (only BACKSLASH c2).
  - destruct s2 as [|c3 s3]; [discriminate|].
    destruct (only br c3); [|discriminate].
    intros H. injection H as <- <-. split; [reflexivity|discriminate].
  - destruct (only br c2); [|discriminate].
    intros H. injection H as <- <-. split; [reflexivity|discriminate].
Qed.

Lemma span_here_splits open allowed close s m inner rest :
  span_here open allowed close s = Some (m, inner, rest) -> s = m ++ rest /\ m <> [].
Proof.
  unfold span_here. destruct (delim open s) as [[d body]|] eqn:Ed; [|discriminate].
  destruct (close_at allowed close body) as [[[inner0 d'] rest0]|] eqn:Ec; [|discriminate].
  intros H. injection H as <- <- <-.
  apply delim_splits in Ed. destruct Ed as [-> Hd].
  apply close_at_splits in Ec. subst body. split.
  - rewrite <- !app_assoc. reflexivity.
  - destruct d; [congruence|discriminate].
Qed.

(** ** Global replacement *)

Lemma replace_from_skip (r : re) (f : caps -> jsstring) (x : jsstring) :
  forall b s,
    replace_from r f (length x) b (x ++ s) = replace_from r f 0 (rev x ++ b) s.
Proof.
  induction x as [|c x IH]; intros b s.
  - reflexivity.
  - simpl length. simpl app. cbn [replace_from]. rewrite IH.
    simpl rev. rewrite <- app_assoc. reflexivity.
Qed.

Lemma replace_from_match (r : re) (f : caps -> jsstring) b m s1 b' cs :
  m <> [] ->
  match_here r b (m ++ s1) = Some (b', s1, cs) ->
  replace_from r f 0 b (m ++ s1) = f cs ++ replace_from r f 0 (rev m ++ b) s1.
Proof.
  intros Hm H. destruct m as [|c m]; [congruence|].
  simpl app in *. cbn [replace_from]. rewrite H. f_equal.
  assert (E : length (c :: m ++ s1) - length s1 = S (length m)).
  { change (length (c :: m ++ s1)) with (S (length (m ++ s1))).
    rewrite length_app. lia. }
  rewrite E.
  rewrite replace_from_skip. simpl rev. rewrite <- app_assoc. reflexivity.
Qed.

Lemma replace_from_no_match (r : re) (f : caps -> jsstring) (pre : jsstring) :
  forall b s,
    (forall p1 p2, pre = p1 ++ p2 -> p2 <> [] ->
                   match_here r (rev p1 ++ b) (p2 ++ s) = None) ->
    replace_from r f 0 b (pre ++ s) = pre ++ replace_from r f 0 (rev pre ++ b) s.
Proof.
  induction pre as [|c pre IH]; intros b s H.
  - reflexivity.
  - simpl app. cbn [replace_from].
    pose proof (H [] (c :: pre) eq_refl) as H0. simpl in H0.
    rewrite H0 by discriminate.
    f_equal. rewrite IH.
    + simpl rev. rewrite <- app_assoc. reflexivity.
    + intros p1 p2 E Hp. specialize (H (c :: p1) p2).
      simpl in H. rewrite <- app_assoc in H. apply H; [congruence|exact Hp].
Qed.

(** A span expression looks at nothing before the position, so the text
    before does not matter. *)
Lemma replace_span_behind open allowed close (f : caps -> jsstring) :
  only open BACKSLASH = false -> only close BACKSLASH = false ->
  forall s n b b',
    replace_from (span_re open allowed close) f n b s
    = replace_from (span_re open allowed close) f n b' s.
Proof.
  intros Ho Hc. induction s as [|c s IH]; intros n b b'.
  - destruct n; cbn [replace_from]; [|reflexivity].
    rewrite !match_here_span by assumption.
    destruct (span_here open allowed close []) as [[[m inner] rest]|]; reflexivity.
  - destruct n; cbn [replace_from]; [|apply IH].
    rewrite !match_here_span by assumption.
    destruct (span_here open allowed close (c :: s)) as [[[m inner] rest]|].
    + f_equal. destruct (length (c :: s) - length rest); [f_equal|]; apply IH.
    + f_equal. apply IH.
Qed.

Lemma delim_none_app br s t :
  delim br s = None -> 3 <= length s -> delim br (s ++ t) = None.
Proof.
  destruct s as [|c1 [|c2 [|c3 s3]]]; simpl; try lia. intros H _.
  destruct (only BACKSLASH c1); [|reflexivity].
  destruct (only BACKSLASH c2).
  - destruct (only br c3); [discriminate|reflexivity].
  - destruct (only br c2); [discriminate|reflexivity].
Qed.

Lemma is_delim_app br d rest :
  is_delim br d = true -> delim br (d ++ rest) = Some (d, rest) /\ 2 <= length d.
Proof.
  unfold is_delim, delim.
  destruct d as [|c1 [|c2 [|c3 s3]]]; simpl; try discriminate.
  - destruct (only BACKSLASH c1); discriminate.
  - destruct (only BACKSLASH c1); [|discriminate].
    destruct (only BACKSLASH c2); [discriminate|].
    destruct (only br c2); [|discriminate]. intros _. split; [reflexivity|lia].
  - destruct (only BACKSLASH c1); [|discriminate].
    destruct (only BACKSLASH c2).
    + destruct (only br c3); [|discriminate].
      destruct s3; [|discriminate]. intros _. split; [reflexivity|lia].
    + destruct (only br c2); discriminate.
Qed.

Lemma delim_free_spec br t next :
  delim_free br t next = true ->
  forall p1 p2, t = p1 ++ p2 -> p2 <> [] -> delim br (p2 ++ next) = None.
Proof.
  induction t as [|c t IH]; intros H p1 p2 E Hp.
  - destruct p1, p2; simpl in E; congruence.
  - cbn [delim_free] in H.
    destruct (delim br ((c :: t) ++ next)) eqn:Ed; [discriminate|].
    destruct p1 as [|c' p1]; simpl in E.
    + subst p2. exact Ed.
    + injection E as -> E. apply (IH H p1 p2 E Hp).
Qed.

Lemma close_at_delim allowed close s d rest :
  delim close s = Some (d, rest) -> close_at allowed close s = Some ([], d, rest).
Proof. intros H. destruct s; cbn [close_at]; rewrite H; reflexivity. Qed.

Lemma close_at_found allowed close inner cl post :
  forallb allowed inner = true ->
  delim_free close inner cl = true ->
  is_delim close cl = true ->
  close_at allowed close (inner ++ cl ++ post) = Some (inner, cl, post).
Proof.
  intros Ha Hf Hd. destruct (is_delim_app close cl post Hd) as [Hcl Hlen].
  induction inner as [|x inner IH].
  - simpl app. apply close_at_delim, Hcl.
  - simpl in Ha. apply andb_prop in Ha. destruct Ha as [Hx Ha].
    pose proof (delim_free_spec close (x :: inner) cl Hf [] (x :: inner) eq_refl) as Hn.
    cbn [delim_free] in Hf.
    destruct (delim close ((x :: inner) ++ cl)) eqn:Ed; [discriminate|].
    simpl app. cbn [close_at].
    assert (Hnone : delim close (x :: inner ++ cl ++ post) = None).
    { change (x :: inner ++ cl ++ post) with ((x :: inner) ++ cl ++ post).
      rewrite app_assoc. apply delim_none_app; [exact Ed|].
      rewrite length_app. simpl. lia. }
    rewrite Hnone, Hx, (IH Ha Hf). reflexivity.
Qed.

(** The first span of a text: nothing before it is touched, the span is
    replaced, and the rest is rewritten in turn. *)
Lemma replace_first_span open allowed close (f : caps -> jsstring)
      (pre op inner cl post : jsstring) :
  only open BACKSLASH = false -> only close BACKSLASH = false ->
  is_delim open op = true -> is_delim close cl = true ->
  delim_free open pre op = true ->
  delim_free close inner cl = true ->
  forallb allowed inner = true ->
  replace (span_re open allowed close) f (pre ++ op ++ inner ++ cl ++ post)
  = pre ++ f [(1, inner)] ++ replace (span_re open allowed close) f post.
Proof.
  intros Ho Hc Hop Hcl Hpre Hin Hall. unfold replace.
  destruct (is_delim_app open op (inner ++ cl ++ post) Hop) as [Eop Lop].
  rewrite replace_from_no_match.
  - f_equal.
    replace (op ++ inner ++ cl ++ post) with ((op ++ inner ++ cl) ++ post)
      by (rewrite <- !app_assoc; reflexivity).
    rewrite replace_from_match
      with (b' := rev (op ++ inner ++ cl) ++ rev pre ++ []) (cs := [(1, inner)]).
    + f_equal. apply replace_span_behind; assumption.
    + destruct op; [simpl in Lop; lia|discriminate].
    + rewrite match_here_span by assumption. unfold span_here.
      rewrite <- !app_assoc, Eop, (close_at_found allowed close inner cl post)
        by assumption.
      rewrite ?app_nil_r, <- ?app_assoc. reflexivity.
  - intros p1 p2 E Hp. rewrite match_here_span by assumption.
    unfold span_here.
    assert (Hn : delim open (p2 ++ op ++ inner ++ cl ++ post) = None).
    { rewrite app_assoc. apply delim_none_app.
      - apply (delim_free_spec open pre op Hpre p1 p2 E Hp).
      - rewrite length_app. destruct p2; [congruence|simpl; lia]. }
    rewrite Hn. reflexivity.
Qed.

(* ================================================================= *)
(** * The preprocessor *)

Lemma block_re_span : block_re = span_re LBRACKET dot_all RBRACKET.
Proof. reflexivity. Qed.

Lemma inline_re_span : inline_re = span_re LPAREN dot RPAREN.
Proof. reflexivity. Qed.

Lemma is_delim_shapes br d :
  only br BACKSLASH = false ->
  is_delim br d = true <-> d = [BACKSLASH; br] \/ d = [BACKSLASH; BACKSLASH; br].
Proof.
  intros Hbr. unfold is_delim, delim, only, char_eqb in *. split.
  - destruct d as [|c1 [|c2 [|c3 s3]]]; simpl; try discriminate.
    + destruct (N.eqb c1 BACKSLASH); discriminate.
    + destruct (N.eqb_spec c1 BACKSLASH) as [->|]; [|discriminate].
      destruct (N.eqb c2 BACKSLASH); [discriminate|].
      destruct (N.eqb_spec c2 br) as [->|]; [auto|discriminate].
    + destruct (N.eqb_spec c1 BACKSLASH) as [->|]; [|discriminate].
      destruct (N.eqb_spec c2 BACKSLASH) as [->|].
      * destruct (N.eqb_spec c3 br) as [->|]; [|discriminate].
        destruct s3; [auto|discriminate].
      * destruct (N.eqb c2 br); discriminate.
  - rewrite N.eqb_sym in Hbr.
    intros [->| ->]; simpl; rewrite ?N.eqb_refl, ?Hbr, ?N.eqb_refl; reflexivity.
Qed.

(** ** Every span *)

Lemma delim_is_delim br s d rest :
  delim br s = Some (d, rest) -> is_delim br d = true /\ s = d ++ rest.
Proof.
  unfold is_delim, delim. destruct s as [|c1 s1]; [discriminate|].
  destruct (only BACKSLASH c1) eqn:E1; [|discriminate].
  destruct s1 as [|c2 s2]; [discriminate|].
  destruct (only BACKSLASH c2) eqn:E2.
  - destruct s2 as [|c3 s3]; [discriminate|].
    destruct (only br c3) eqn:E3; [|discriminate].
    intros H. injection H as <- <-. rewrite E1, E2, E3. split; reflexivity.
  - destruct (only br c2) eqn:E3; [|discriminate].
    intros H. injection H as <- <-. rewrite E1, E2, E3. split; reflexivity.
Qed.

Lemma delim_app_some br t u d rest :
  delim br t = Some (d, rest) -> delim br (t ++ u) = Some (d, rest ++ u).
Proof.
  unfold delim. destruct t as [|c1 t1]; [discriminate|]. cbn [app].
  destruct (only BACKSLASH c1); [|discriminate].
  destruct t1 as [|c2 t2]; [discriminate|]. cbn [app].
  destruct (only BACKSLASH c2).
  - destruct t2 as [|c3 t3]; [discriminate|]. cbn [app].
    destruct (only br c3); [|discriminate].
    intros H. injection H as <- <-. reflexivity.
  - destruct (only br c2); [|discriminate].
    intros H. injection H as <- <-. reflexivity.
Qed.

Lemma delim_none_prefix br t u : delim br (t ++ u) = None -> delim br t = None.
Proof.
  intros H. destruct (delim br t) as [[d rest]|] eqn:E; [|reflexivity].
  rewrite (delim_app_some br t u d rest E) in H. discriminate H.
Qed.

(** What [close_at] finds is the first closing delimiter, with allowed
    characters only before it. *)
Lemma close_at_spec allowed close s :
  forall inner d rest,
    close_at allowed close s = Some (inner, d, rest) ->
    is_delim close d = true /\ forallb allowed inner = true
    /\ delim_free close inner d = true /\ s = inner ++ d ++ rest.
Proof.
  induction s as [|x s IH]; intros inner d rest; cbn [close_at].
  - simpl. discriminate.
  - destruct (delim close (x :: s)) as [[d0 rest0]|] eqn:Ed.
    + intros H. injection H as <- <- <-.
      destruct (delim_is_delim close (x :: s) _ _ Ed) as [Hd Hs].
      repeat split; [exact Hd|exact Hs].
    + destruct (allowed x) eqn:Hx; [|discriminate].
      destruct (close_at allowed close s) as [[[inner0 d1] rest1]|] eqn:Ec;
        [|discriminate].
      intros H. injection H as <- <- <-.
      destruct (IH inner0 d1 rest1 eq_refl) as (Hd & Ha & Hf & Hs).
      split; [exact Hd|]. split; [cbn [forallb]; rewrite Hx, Ha; reflexivity|].
      split; [|cbn [app]; f_equal; exact Hs].
      cbn [delim_free].
      rewrite (delim_none_prefix close ((x :: inner0) ++ d1) rest1);
        [exact Hf|].
      rewrite <- app_assoc. cbn [app]. rewrite <- Hs. exact Ed.
Qed.

(** The span the matcher finds at a position is the span that opens
    there, and it finds none when none opens. *)
Lemma span_here_spec open allowed close s m inner rest :
  span_here open allowed close s = Some (m, inner, rest)
  <-> span_at open allowed close s m inner rest.
Proof.
  unfold span_here, span_at. split.
  - destruct (delim open s) as [[d body]|] eqn:Ed; [|discriminate].
    destruct (close_at allowed close body) as [[[inner0 d'] rest0]|] eqn:Ec;
      [|discriminate].
    intros H. injection H as <- <- <-.
    destruct (delim_is_delim open s _ _ Ed) as [Hop Hs].
    destruct (close_at_spec allowed close body _ _ _ Ec) as (Hcl & Ha & Hf & Hb).
    exists d, d'. repeat split; try assumption.
    rewrite Hs, Hb, <- !app_assoc. reflexivity.
  - intros (op & cl & Hop & Hcl & Ha & Hf & -> & ->).
    rewrite <- !app_assoc.
    destruct (is_delim_app open op (inner ++ cl ++ rest) Hop) as [-> _].
    rewrite (close_at_found allowed close inner cl rest Ha Hf Hcl). reflexivity.
Qed.

Lemma no_span_here open allowed close s :
  span_here open allowed close s = None ->
  forall m inner rest, ~ span_at open allowed close s m inner rest.
Proof.
  intros H m inner rest Hs. apply span_here_spec in Hs. congruence.
Qed.

Lemma replace_from_copy (r : re) (f : caps -> jsstring) b c s :
  match_here r b (c :: s) = None ->
  replace_from r f 0 b (c :: s) = c :: replace_from r f 0 (c :: b) s.
Proof. intros H. cbn [replace_from]. rewrite H. reflexivity. Qed.

(** The global replacement of a span expression reads the text from
    left to right. *)
Lemma replace_rewritten open allowed close (f : caps -> jsstring)
      (form : jsstring -> jsstring) :
  only open BACKSLASH = false -> only close BACKSLASH = false ->
  (forall inner, f [(1, inner)] = form inner) ->
  forall n s b,
    length s <= n ->
    rewritten open allowed close form s
              (replace_from (span_re open allowed close) f 0 b s).
Proof.
  intros Ho Hc Hf. induction n as [|n IH]; intros s b Hn.
  - destruct s; [|simpl in Hn; lia]. cbn [replace_from].
    rewrite match_here_span by assumption. apply rewritten_end.
  - destruct s as [|c s].
    { cbn [replace_from]. rewrite match_here_span by assumption. apply rewritten_end. }
    pose proof (match_here_span open allowed close b (c :: s) Ho Hc) as M.
    destruct (span_here open allowed close (c :: s)) as [[[m inner] rest]|] eqn:Es.
    + destruct (span_here_splits open allowed close (c :: s) _ _ _ Es) as [E Hm].
      rewrite E in M |- *.
      rewrite (replace_from_match (span_re open allowed close) f b m rest _ _ Hm M), Hf.
      apply rewritten_span with (m := m) (rest := rest).
      * rewrite <- E. apply span_here_spec, Es.
      * apply IH. apply (f_equal (@length _)) in E. rewrite length_app in E.
        destruct m; [congruence|]. simpl in E, Hn. lia.
    + rewrite (replace_from_copy _ f b c s M).
      apply rewritten_char; [apply no_span_here, Es|].
      apply IH. simpl in Hn. lia.
Qed.

(** Reading from left to right gives one result. *)
Lemma rewritten_once open allowed close form s out1 :
  rewritten open allowed close form s out1 ->
  forall out2, rewritten open allowed close form s out2 -> out1 = out2.
Proof.
  induction 1 as [|s m inner rest out Hs _ IH|c s out Hn _ IH]; intros out2 H2.
  - inversion H2 as [|s' m' inner' rest' out' Hs'|]; subst; [reflexivity|].
    destruct Hs' as (op & cl & Hop & _ & _ & _ & -> & E).
    apply is_delim_app with (rest := []) in Hop. destruct Hop as [_ L].
    destruct op; [simpl in L; lia|discriminate E].
  - inversion H2 as [|s' m' inner' rest' out' Hs'|c s' out' Hn']; subst.
    + destruct Hs as (op & cl & Hop & _ & _ & _ & -> & E).
      apply is_delim_app with (rest := []) in Hop. destruct Hop as [_ L].
      destruct op; [simpl in L; lia|discriminate E].
    + apply span_here_spec in Hs, Hs'. rewrite Hs in Hs'. injection Hs' as <- <- <-.
      f_equal. apply IH. assumption.
    + exfalso. exact (Hn' _ _ _ Hs).
  - inversion H2 as [|s' m' inner' rest' out' Hs'|c' s' out' Hn']; subst.
    + exfalso. exact (Hn _ _ _ Hs').
    + f_equal. apply IH. assumption.
Qed.

(** C5 (amended): with bracket syntax enabled, preprocessing first
    replaces the bracket spans and then runs the other enabled stages
    on the result, which may change the forms again (the dollar stage
    pads the [$] of an inline form with spaces, the hard-break stage
    appends spaces to the lines of a block form that does not begin
    its line). The block replacement reads the text from left to right:
    where a span opens with one or two backslashes and [[] and reaches
    to the first closing delimiter (one or two backslashes and []])
    behind it, whatever lies between, line breaks included, the span
    becomes [$$], a line break, the inner text, a line break, [$$], and
    reading goes on behind the span; any other character is copied. The
    inline replacement then reads the result in the same way, with [(]
    and [)], a span being one whose inner text has no line terminator,
    and makes it [$], the inner text, [$]; an opening delimiter with a
    line terminator before the first closing one is copied as it is.
    Each replacement has one result. [\[x^2\]] becomes the block form
    around [x^2] whatever the other stages, and [\(x\)] the inline form
    around [x] when the dollar stage is off. *)
Theorem C5_bracket_math_rewrite :
  (forall ms rn text,
      brackets ms = true ->
      _preprocess ms rn text
      = (if rn then _applyHardBreaks else fun t => t)
          ((if dollars ms then _normalizeInlineDollars else fun t => t)
             (replace inline_re inline_math (replace block_re block_math text))))
  /\ (forall br d,
         only br BACKSLASH = false ->
         is_delim br d = true
         <-> d = [BACKSLASH; br] \/ d = [BACKSLASH; BACKSLASH; br])
  /\ (forall text out,
         rewritten LBRACKET any_char RBRACKET block_form text out
         <-> out = replace block_re block_math text)
  /\ (forall text out,
         rewritten LPAREN one_line RPAREN inline_form text out
         <-> out = replace inline_re inline_math text)
  /\ (forall pre op inner cl post,
         is_delim LBRACKET op = true -> is_delim RBRACKET cl = true ->
         delim_free LBRACKET pre op = true ->
         delim_free RBRACKET inner cl = true ->
         replace block_re block_math (pre ++ op ++ inner ++ cl ++ post)
         = pre ++ (js "$$" ++ [LF] ++ inner ++ [LF] ++ js "$$")
               ++ replace block_re block_math post)
  /\ (forall pre op inner cl post,
         is_delim LPAREN op = true -> is_delim RPAREN cl = true ->
         delim_free LPAREN pre op = true ->
         delim_free RPAREN inner cl = true ->
         forallb one_line inner = true ->
         replace inline_re inline_math (pre ++ op ++ inner ++ cl ++ post)
         = pre ++ (js "$" ++ inner ++ js "$")
               ++ replace inline_re inline_math post)
  /\ (forall ms rn,
         brackets ms = true ->
         _preprocess ms rn (js "\[x^2\]")
         = js "$$" ++ [LF] ++ js "x^2" ++ [LF] ++ js "$$")
  /\ (forall ms rn,
         brackets ms = true -> dollars ms = false ->
         _preprocess ms rn (js "\(x\)") = js "$x$").
Proof.
  assert (B : forall text,
             rewritten LBRACKET any_char RBRACKET block_form text
                       (replace block_re block_math text)).
  { intros text. unfold replace. rewrite block_re_span.
    apply (replace_rewritten LBRACKET dot_all RBRACKET block_math block_form)
      with (n := length text);
      [reflexivity|reflexivity|reflexivity|apply Nat.le_refl]. }
  assert (I : forall text,
             rewritten LPAREN one_line RPAREN inline_form text
                       (replace inline_re inline_math text)).
  { intros text. unfold replace. rewrite inline_re_span.
    apply (replace_rewritten LPAREN dot RPAREN inline_math inline_form)
      with (n := length text);
      [reflexivity|reflexivity|reflexivity|apply Nat.le_refl]. }
  split; [|split; [|split; [|split; [|split; [|split; [|split]]]]]].
  - intros ms rn text Hb. unfold _preprocess. rewrite Hb. simpl.
    destruct (dollars ms), rn; reflexivity.
  - exact is_delim_shapes.
  - intros text out. split; [|intros ->; apply B].
    intros H. apply (rewritten_once _ _ _ _ _ _ H), B.
  - intros text out. split; [|intros ->; apply I].
    intros H. apply (rewritten_once _ _ _ _ _ _ H), I.
  - intros pre op inner cl post Hop Hcl Hpre Hin.
    rewrite block_re_span.
    rewrite (replace_first_span LBRACKET dot_all RBRACKET block_math
               pre op inner cl post); auto.
    apply forallb_forall. reflexivity.
  - intros pre op inner cl post Hop Hcl Hpre Hin Hdot.
    rewrite inline_re_span.
    rewrite (replace_first_span LPAREN dot RPAREN inline_math
               pre op inner cl post); auto.
  - intros [[] d] rn Hb; [|discriminate]. destruct d, rn; vm_compute; reflexivity.
  - intros [[] d] rn Hb Hd; [|discriminate]. simpl in Hd. subst d.
    destruct rn; vm_compute; reflexivity.
Qed.

(** C10: with bracket syntax disabled, [_preprocess] returns its input,
    whatever the dollar and hard-break settings are. *)
Theorem C10_brackets_gate_preprocessing :
  forall (ms : mathSyntax_t) (rn : bool) (text : jsstring),
    brackets ms = false -> _preprocess ms rn text = text.
Proof.
  intros ms rn text Hb. unfold _preprocess. rewrite Hb. reflexivity.
Qed.

(** ** Hard breaks *)

Lemma hardBreaks_loop_turn line rest code math res :
  hardBreaks_loop (line :: rest) code math res
  = hardBreaks_loop rest
      (fst (snd (hardBreaks_turn code math line (hd [] rest))))
      (snd (snd (hardBreaks_turn code math line (hd [] rest))))
      (res ++ fst (hardBreaks_turn code math line (hd [] rest))).
Proof.
  cbn [hardBreaks_loop]. unfold hardBreaks_turn.
  replace (match rest with n :: _ => n | [] => [] end) with (hd [] rest)
    by (destruct rest; reflexivity).
  destruct (fence (trim line)); [reflexivity|].
  destruct (startsWith (trim line) (js "$$") && negb code); [reflexivity|].
  destruct (negb code && negb math); [|reflexivity].
  cbv zeta.
  destruct (test closingHtmlBlock_re (trim line)
            && negb (Nat.eqb (length (trim (hd [] rest))) 0)
            && negb (test blockStart_re (trim (hd [] rest)))); reflexivity.
Qed.

Lemma hardBreaks_loop_acc ls :
  forall code math res,
    hardBreaks_loop ls code math res = res ++ hardBreaks_loop ls code math [].
Proof.
  induction ls as [|l ls IH]; intros code math res.
  - simpl. rewrite app_nil_r. reflexivity.
  - rewrite !hardBreaks_loop_turn. rewrite IH.
    rewrite (IH _ _ ([] ++ _)). simpl. rewrite app_assoc. reflexivity.
Qed.

Lemma toggles_turn code math l rest next :
  toggles code math (l :: rest)
  = toggles (fst (snd (hardBreaks_turn code math l next)))
            (snd (snd (hardBreaks_turn code math l next))) rest.
Proof.
  cbn [toggles]. unfold hardBreaks_turn.
  destruct (fence (trim l)); [reflexivity|].
  destruct (startsWith (trim l) (js "$$") && negb code); [reflexivity|].
  destruct (negb code && negb math); [|reflexivity].
  cbv zeta.
  destruct (test closingHtmlBlock_re (trim l)
            && negb (Nat.eqb (length (trim next)) 0)
            && negb (test blockStart_re (trim next))); reflexivity.
Qed.

(** The lines before [l] come out the same whatever follows [l]. *)
Lemma hardBreaks_loop_prefix pre l :
  forall code math,
  exists before,
    forall rest,
      hardBreaks_loop (pre ++ l :: rest) code math []
      = before ++ hardBreaks_loop (l :: rest)
                    (fst (toggles code math pre)) (snd (toggles code math pre)) [].
Proof.
  induction pre as [|p pre IH]; intros code math.
  - exists []. reflexivity.
  - set (next := hd [] (pre ++ [l])).
    destruct (IH (fst (snd (hardBreaks_turn code math p next)))
                 (snd (snd (hardBreaks_turn code math p next)))) as [before Hb].
    exists (fst (hardBreaks_turn code math p next) ++ before).
    intros rest. change ((p :: pre) ++ l :: rest) with (p :: (pre ++ l :: rest)).
    rewrite hardBreaks_loop_turn.
    replace (hd [] (pre ++ l :: rest)) with next
      by (subst next; destruct pre; reflexivity).
    rewrite hardBreaks_loop_acc, Hb. cbn [app].
    rewrite (toggles_turn code math p pre next), <- app_assoc. reflexivity.
Qed.

Lemma hardBreaks_loop_last l code math : hardBreaks_loop [l] code math [] = [l].
Proof.
  rewrite hardBreaks_loop_turn. unfold hardBreaks_turn. simpl hd.
  change (trim []) with (@nil char). simpl length. simpl Nat.eqb.
  rewrite !andb_false_r. simpl.
  destruct (fence (trim l)); [reflexivity|].
  destruct (startsWith (trim l) (js "$$") && negb code); [reflexivity|].
  destruct (negb code && negb math); reflexivity.
Qed.

(** ** Lines *)

Lemma split_lines_plain l :
  forallb (fun c => negb (char_eqb c LF)) l = true -> split_lines l = [l].
Proof.
  induction l as [|c l IH]; simpl; [reflexivity|].
  intros H. apply andb_prop in H. destruct H as [Hc Hl].
  apply negb_true_iff in Hc. rewrite Hc, (IH Hl). reflexivity.
Qed.

Lemma split_lines_app l s :
  forallb (fun c => negb (char_eqb c LF)) l = true ->
  split_lines (l ++ LF :: s) = l :: split_lines s.
Proof.
  induction l as [|c l IH]; simpl.
  - intros _. reflexivity.
  - intros H. apply andb_prop in H. destruct H as [Hc Hl].
    apply negb_true_iff in Hc. rewrite Hc, (IH Hl). reflexivity.
Qed.

Lemma plain_line_no_lf l :
  plain_line l = true -> forallb (fun c => negb (char_eqb c LF)) l = true.
Proof.
  unfold plain_line. induction l as [|c l IH]; simpl; [reflexivity|].
  intros H. apply andb_prop in H. destruct H as [Hc Hl].
  apply andb_prop in Hc. destruct Hc as [Hc _]. rewrite Hc, (IH Hl). reflexivity.
Qed.

Lemma split_join_lines ls :
  ls <> [] -> forallb plain_line ls = true -> split_lines (join_lines ls) = ls.
Proof.
  induction ls as [|l ls IH]; [congruence|]. intros _ H.
  simpl in H. apply andb_prop in H. destruct H as [Hl Hls].
  destruct ls as [|l' ls].
  - simpl. apply split_lines_plain, plain_line_no_lf, Hl.
  - change (join_lines (l :: l' :: ls)) with (l ++ LF :: join_lines (l' :: ls)).
    rewrite split_lines_app by (apply plain_line_no_lf, Hl).
    rewrite IH; [reflexivity|discriminate|exact Hls].
Qed.

Lemma crlf_no_match b s :
  match s with c :: _ => char_eqb c CR = false | [] => True end ->
  match_here crlf_re b s = None.
Proof.
  unfold match_here, crlf_re, one. cbn [seq Regex.run].
  destruct s as [|c s]; [reflexivity|]. unfold only. intros ->. reflexivity.
Qed.

Lemma replace_crlf_id s :
  forallb (fun c => negb (char_eqb c CR)) s = true ->
  replace crlf_re (fun _ => [LF]) s = s.
Proof.
  intros H. unfold replace.
  rewrite <- (app_nil_r s) at 1. rewrite replace_from_no_match.
  - cbn [replace_from]. rewrite crlf_no_match by exact I. apply app_nil_r.
  - intros p1 p2 E Hp. apply crlf_no_match.
    destruct p2 as [|c p2]; [congruence|]. simpl.
    rewrite forallb_forall in H. apply negb_true_iff, H.
    rewrite E. apply in_or_app. right. left. reflexivity.
Qed.

Lemma join_lines_no_cr ls :
  forallb plain_line ls = true ->
  forallb (fun c => negb (char_eqb c CR)) (join_lines ls) = true.
Proof.
  induction ls as [|l ls IH]; [reflexivity|]. intros H.
  simpl in H. apply andb_prop in H. destruct H as [Hl Hls].
  assert (Hcr : forallb (fun c => negb (char_eqb c CR)) l = true).
  { unfold plain_line in Hl. rewrite forallb_forall in *. intros c Hc.
    specialize (Hl c Hc). apply andb_prop in Hl. apply Hl. }
  destruct ls as [|l' ls]; [exact Hcr|].
  change (join_lines (l :: l' :: ls)) with (l ++ LF :: join_lines (l' :: ls)).
  rewrite forallb_app, Hcr. simpl. apply IH, Hls.
Qed.

(** A text put together from lines proper is split into those lines. *)
Lemma lines_of_join ls :
  ls <> [] -> forallb plain_line ls = true -> lines_of (join_lines ls) = ls.
Proof.
  intros Hne H. unfold lines_of.
  rewrite replace_crlf_id by (apply join_lines_no_cr, H).
  apply split_join_lines; assumption.
Qed.

Lemma search_spec (r : re) s :
  forall b,
    search r b s = true
    <-> exists p1 p2, s = p1 ++ p2 /\ match_here r (rev p1 ++ b) p2 <> None.
Proof.
  induction s as [|c s IH]; intros b; cbn [search].
  - destruct (match_here r b []) eqn:E.
    + split; [|reflexivity]. intros _. exists [], []. simpl. rewrite E.
      split; [reflexivity|discriminate].
    + split; [discriminate|]. intros (p1 & p2 & E0 & H).
      destruct p1, p2; try discriminate. simpl in H. congruence.
  - destruct (match_here r b (c :: s)) eqn:E.
    + split; [|reflexivity]. intros _. exists [], (c :: s). simpl. rewrite E.
      split; [reflexivity|discriminate].
    + rewrite IH. split.
      * intros (p1 & p2 & -> & H). exists (c :: p1), p2. simpl.
        rewrite <- app_assoc. split; [reflexivity|exact H].
      * intros (p1 & p2 & E0 & H). destruct p1 as [|c' p1].
        { simpl in *. subst p2. congruence. }
        simpl in E0. injection E0 as -> ->. exists p1, p2.
        simpl in H. rewrite <- app_assoc in H. split; [reflexivity|exact H].
Qed.

Lemma two_spaces_here b s :
  match_here two_spaces_re b s <> None
  <-> exists a c, s = [a; c] /\ is_space a = true /\ is_space c = true.
Proof.
  unfold match_here, two_spaces_re. cbn [seq Regex.run]. split.
  - destruct s as [|a [|c [|d s]]]; try congruence.
    + destruct (is_space a); congruence.
    + destruct (is_space a) eqn:Ea; [|congruence].
      destruct (is_space c) eqn:Ec; [|congruence].
      intros _. exists a, c. auto.
    + destruct (is_space a); [|congruence]. destruct (is_space c); congruence.
  - intros (a & c & -> & Ha & Hc). rewrite Ha, Hc. discriminate.
Qed.

Lemma two_spaces_test line :
  test two_spaces_re line = true <-> ends_in_two_spaces line.
Proof.
  unfold test, ends_in_two_spaces. rewrite search_spec. split.
  - intros (p1 & p2 & -> & H). apply two_spaces_here in H.
    destruct H as (a & c & -> & Ha & Hc). exists p1, a, c. auto.
  - intros (p & a & c & -> & Ha & Hc). exists p, [a; c]. split; [reflexivity|].
    apply two_spaces_here. exists a, c. auto.
Qed.

(** [re.test(s)] in terms of what the expression may match. *)
Lemma test_spec (r : re) (s : jsstring) :
  test r s = true
  <-> exists p1 p2 b' s', s = p1 ++ p2 /\ spans r (rev p1) p2 b' s'.
Proof.
  unfold test. rewrite search_spec. unfold match_here.
  assert (Hk : blind (fun (b' s' : jsstring) (cs : caps) => Some (b', s', cs)))
    by (intros b0 s0 c1 c2; split; discriminate).
  split.
  - intros (p1 & p2 & E & H). apply run_defined in H; [|exact Hk].
    destruct H as (b' & s' & H & _). rewrite app_nil_r in H.
    exists p1, p2, b', s'. auto.
  - intros (p1 & p2 & b' & s' & E & H). exists p1, p2. split; [exact E|].
    apply run_defined; [exact Hk|]. exists b', s'. rewrite app_nil_r.
    split; [exact H|discriminate].
Qed.

Lemma spans_seq_cons (r : re) (rs : list re) b s b' s' :
  spans (seq (r :: rs)) b s b' s'
  <-> exists b1 s1, spans r b s b1 s1 /\ spans (seq rs) b1 s1 b' s'.
Proof.
  destruct rs as [|r' rs].
  - simpl. split.
    + intros H. exists b', s'. auto.
    + intros (b1 & s1 & H & -> & ->). exact H.
  - reflexivity.
Qed.

Lemma spans_alt_cons (r r' : re) (rs : list re) b s b' s' :
  spans (alt (r :: r' :: rs)) b s b' s'
  <-> spans r b s b' s' \/ spans (alt (r' :: rs)) b s b' s'.
Proof. reflexivity. Qed.

(** Literal text matches itself. *)
Lemma spans_text (p : jsstring) :
  forall b s b' s',
    spans (seq (List.map (fun c => Cls (only c)) p)) b s b' s'
    <-> s = p ++ s' /\ b' = rev p ++ b.
Proof.
  induction p as [|c p IH]; intros b s b' s'.
  - simpl. split; intros [-> ->]; auto.
  - cbn [List.map]. rewrite spans_seq_cons. split.
    + intros (b1 & s1 & (c' & -> & Hc & ->) & H). apply IH in H.
      destruct H as [-> ->]. apply N.eqb_eq in Hc. subst c'.
      simpl. rewrite <- app_assoc. auto.
    + intros [-> ->]. exists (c :: b), (p ++ s'). split.
      * exists c. unfold only, char_eqb. rewrite N.eqb_refl. auto.
      * apply IH. simpl. rewrite <- app_assoc. auto.
Qed.

Lemma spans_lit (str : string) b s b' s' :
  spans (lit str) b s b' s' <-> s = js str ++ s' /\ b' = rev (js str) ++ b.
Proof. apply spans_text. Qed.

Lemma startsWith_spec (s p : jsstring) :
  startsWith s p = true <-> exists rest, s = p ++ rest.
Proof.
  revert s. induction p as [|x p IH]; intros s.
  - split; [intros _; exists s; reflexivity|destruct s; reflexivity].
  - destruct s as [|c s]; simpl.
    + split; [discriminate|]. intros (rest & H). discriminate.
    + split.
      * intros H. apply andb_prop in H. destruct H as [Hc H].
        apply N.eqb_eq in Hc. subst c. apply IH in H. destruct H as (rest & ->).
        exists rest. reflexivity.
      * intros (rest & H). injection H as -> ->. unfold char_eqb.
        rewrite N.eqb_refl. apply IH. exists rest. reflexivity.
Qed.

Lemma forallb_only (x : char) (l : jsstring) :
  forallb (only x) l = true <-> l = repeat x (length l).
Proof.
  induction l as [|c l IH]; simpl.
  - split; reflexivity.
  - split.
    + intros H. apply andb_prop in H. destruct H as [Hc H].
      apply N.eqb_eq in Hc. subst c. f_equal. apply IH, H.
    + intros H. injection H as -> H. unfold only at 1, char_eqb.
      rewrite N.eqb_refl. apply IH, H.
Qed.

(** The block-start test accepts exactly the seven shapes. *)
Lemma block_start_test (t : jsstring) :
  test blockStart_re t = true <-> block_start t.
Proof.
  rewrite test_spec. unfold blockStart_re, block_start. split.
  - intros (p1 & p2 & b' & s' & E & H).
    apply spans_seq_cons in H. destruct H as (b1 & s1 & (Hb & -> & ->) & H).
    assert (p1 = []) by (destruct p1; [reflexivity|];
                         simpl in Hb; destruct (rev p1); discriminate).
    subst p1. simpl in E. subst p2. cbn [seq spans] in H.
    rewrite !spans_alt_cons in H.
    destruct H as [H|[H|[H|[H|[H|[H|H]]]]]].
    + left. cbn [spans] in H.
      destruct H as (b1 & s1 & (taken & -> & -> & Hall & Hlo & Hhi) & H).
      destruct H as (c & -> & Hc & _). apply forallb_only in Hall.
      exists (length taken), c, s'. simpl in Hhi.
      split; [split; [exact Hlo|exact Hhi]|]. split; [exact Hc|].
      exact (f_equal (fun l => l ++ c :: s') Hall).
    + right; left. cbn [spans] in H.
      destruct H as (b1 & s1 & (x & -> & Hx & ->) & (c & -> & Hc & _)).
      apply N.eqb_eq in Hx. subst x. exists c, s'. auto.
    + right; right; left. cbn [spans] in H.
      destruct H as (b1 & s1 & (x & -> & Hx & ->) & (c & -> & Hc & _)).
      exists x, c, s'. repeat split; auto.
      unfold only, char_eqb in Hx.
      destruct (N.eqb_spec x 45); [auto|]. destruct (N.eqb_spec x 43); [auto|].
      destruct (N.eqb_spec x 42); [auto|discriminate].
    + right; right; right; left. cbn [spans] in H.
      destruct H as (b1 & s1 & (taken & -> & -> & Hall & Hlo & _) & H).
      destruct H as (b2 & s2 & (x & -> & Hx & ->) & (c & -> & Hc & _)).
      apply N.eqb_eq in Hx. subst x. exists taken, c, s'. repeat split; auto.
      destruct taken; [simpl in Hlo; lia|discriminate].
    + right; right; right; right; left. unfold fence.
      apply orb_true_iff. cbn [spans alt] in H.
      destruct H as [H|H]; apply spans_lit in H;
        destruct H as [-> _]; [left|right]; apply startsWith_spec;
        exists s'; reflexivity.
    + right; right; right; right; right; left. cbn [spans] in H.
      destruct H as (b1 & s1 & (taken & -> & -> & Hall & _) & (x & -> & Hx & _)).
      apply N.eqb_eq in Hx. subst x. exists taken, s'. auto.
    + right; right; right; right; right; right. cbn [spans] in H.
      destruct H as (b1 & s1 & (taken & Et & _ & Hall & _) & (Es & _ & _)).
      unfold blank. rewrite Et, Es, app_nil_r. exact Hall.
  - intros H.
    assert (G : exists b' s',
               spans (alt [seq [Rep (only 35%N) 1 (Some 6) true; Cls is_space];
                           seq [one 62%N; Cls is_space];
                           seq [Grp 2 (Cls (fun c => only 45%N c || only 43%N c
                                                     || only 42%N c));
                                Cls is_space];
                           seq [Rep is_digit 1 None true; one 46%N; Cls is_space];
                           Grp 3 (alt [lit "```"; lit "~~~"]);
                           seq [Rep is_space 0 None true; one 60%N];
                           seq [Rep is_space 0 None true; Eos]]) [] t b' s').
    { destruct H as [H|[H|[H|[H|[H|[H|H]]]]]].
      - destruct H as (n & c & rest & [Hn1 Hn2] & Hc & ->).
        exists (c :: rev (repeat 35%N n) ++ []), rest. left.
        apply spans_seq_cons. exists (rev (repeat 35%N n) ++ []), (c :: rest). split.
        + exists (repeat 35%N n). rewrite repeat_length. repeat split; auto.
          apply forallb_only. rewrite repeat_length. reflexivity.
        + exists c. auto.
      - destruct H as (c & rest & Hc & ->).
        exists [c; 62%N], rest. right; left.
        apply spans_seq_cons. exists [62%N], (c :: rest). split.
        + exists 62%N. auto.
        + exists c. auto.
      - destruct H as (x & c & rest & Hx & Hc & ->).
        exists [c; x], rest. right; right; left.
        apply spans_seq_cons. exists [x], (c :: rest). split.
        + exists x. repeat split; auto.
          destruct Hx as [->|[->| ->]]; reflexivity.
        + exists c. auto.
      - destruct H as (ds & c & rest & Hne & Hds & Hc & ->).
        exists (c :: 46%N :: rev ds ++ []), rest. right; right; right; left.
        apply spans_seq_cons. exists (rev ds ++ []), (46%N :: c :: rest). split.
        + exists ds. repeat split; auto. destruct ds; [congruence|simpl; lia].
        + apply spans_seq_cons. exists (46%N :: rev ds ++ []), (c :: rest). split.
          * exists 46%N. auto.
          * exists c. auto.
      - unfold fence in H. apply orb_true_iff in H.
        destruct H as [H|H]; apply startsWith_spec in H; destruct H as (rest & ->).
        + exists (rev (js "```") ++ []), rest. do 4 right. left. left.
          apply spans_lit. auto.
        + exists (rev (js "~~~") ++ []), rest. do 4 right. left. right.
          apply spans_lit. auto.
      - destruct H as (ws & rest & Hws & ->).
        exists (60%N :: rev ws ++ []), rest. do 5 right. left.
        apply spans_seq_cons. exists (rev ws ++ []), (60%N :: rest). split.
        + exists ws. repeat split; auto. lia.
        + exists 60%N. auto.
      - exists (rev t ++ []), []. do 6 right.
        apply spans_seq_cons. exists (rev t ++ []), []. split.
        + exists t. rewrite app_nil_r. repeat split; auto. lia.
        + simpl. auto. }
    destruct G as (b' & s' & G). exists [], t, b', s'. split; [reflexivity|].
    apply spans_seq_cons. exists [], t. split; [simpl; auto|]. exact G.
Qed.


Lemma spans_alt_lits (tag : string) (tags : list string) :
  forall b s b' s',
    spans (alt (List.map lit (tag :: tags))) b s b' s'
    <-> exists x, In x (tag :: tags) /\ s = js x ++ s' /\ b' = rev (js x) ++ b.
Proof.
  revert tag. induction tags as [|tag' tags IH]; intros tag b s b' s'.
  - cbn [List.map alt]. split.
    + intros H. apply spans_lit in H. exists tag. split; [left; reflexivity|exact H].
    + intros (x & [<-|[]] & H). apply spans_lit. exact H.
  - cbn [List.map]. split.
    + intros H. apply spans_alt_cons in H. destruct H as [H|H].
      * apply spans_lit in H. exists tag. split; [left; reflexivity|exact H].
      * apply IH in H. destruct H as (x & Hin & H). exists x.
        split; [right; exact Hin|exact H].
    + intros (x & [<-|Hin] & H); apply spans_alt_cons.
      * left. apply spans_lit. exact H.
      * right. apply IH. exists x. auto.
Qed.

Lemma trimStart_head (s : jsstring) :
  trimStart s = [] \/ exists c rest, trimStart s = c :: rest /\ is_space c = false.
Proof.
  induction s as [|c s IH]; [left; reflexivity|].
  cbn [trimStart]. destruct (is_space c) eqn:E; [exact IH|].
  right. exists c, s. auto.
Qed.

(** A trimmed text does not end in white space. *)
Lemma trim_last (l : jsstring) :
  trim l = [] \/ exists p c, trim l = p ++ [c] /\ is_space c = false.
Proof.
  unfold trim, trimEnd.
  destruct (trimStart_head (rev (trimStart l))) as [->|(c & rest & -> & Hc)].
  - left. reflexivity.
  - right. exists (rev rest), c. auto.
Qed.

(** On a trimmed line the closing-tag test accepts exactly the closing
    tags of the twelve block-level elements. *)
Lemma closing_tag_test (line : jsstring) :
  test closingHtmlBlock_re (trim line) = true <-> closes_block (trim line).
Proof.
  rewrite test_spec. unfold closes_block. split.
  - intros (p1 & p2 & b' & s' & E & H). unfold closingHtmlBlock_re in H.
    apply spans_seq_cons in H. destruct H as (b1 & s1 & (Hb & -> & ->) & H).
    assert (p1 = []) by (destruct p1; [reflexivity|];
                         simpl in Hb; destruct (rev p1); discriminate).
    subst p1. simpl in E. subst p2.
    apply spans_seq_cons in H. destruct H as (b1 & s1 & H0 & H).
    apply spans_lit in H0. destruct H0 as [E0 _].
    apply spans_seq_cons in H. destruct H as (b2 & s2 & H1 & H).
    cbn [spans] in H1.
    apply (spans_alt_lits "div"
             ["p"; "section"; "article"; "header"; "footer"; "table"; "ul";
              "ol"; "li"; "pre"; "blockquote"]%string) in H1.
    destruct H1 as (tag & Hin & E1 & _).
    apply spans_seq_cons in H. destruct H as (b3 & s3 & (x & E2 & Hx & _) & H).
    apply N.eqb_eq in Hx. subst x.
    apply spans_seq_cons in H.
    destruct H as (b4 & s4 & (ws & E3 & _ & Hws & _) & (E4 & _ & _)).
    exists tag. split; [exact Hin|].
    rewrite E0, E1, E2, E3, E4, app_nil_r.
    destruct ws as [|w ws]; [reflexivity|]. exfalso.
    destruct (trim_last line) as [Ht|(p & c & Ht & Hc)].
    + rewrite Ht in E0. discriminate.
    + rewrite E0, E1, E2, E3, E4, app_nil_r in Ht.
      destruct (exists_last (l := w :: ws)) as (ws' & w' & Hl); [discriminate|].
      rewrite Hl in Ht, Hws. rewrite forallb_app in Hws.
      apply andb_prop in Hws. destruct Hws as [_ Hw']. simpl in Hw'.
      rewrite andb_true_r in Hw'.
      change (js ">") with [62%N] in *.
      assert (Hs : (js "</" ++ js tag ++ 62%N :: ws') ++ [w'] = p ++ [c]).
      { etransitivity; [|exact Ht]. rewrite <- !app_assoc. reflexivity. }
      apply app_inj_tail in Hs. destruct Hs as [_ <-]. congruence.
  - intros (tag & Hin & E). rewrite E.
    exists [], (js "</" ++ js tag ++ js ">"),
           (rev (js ">") ++ rev (js tag) ++ rev (js "</") ++ []), [].
    split; [reflexivity|]. unfold closingHtmlBlock_re.
    apply spans_seq_cons. exists [], (js "</" ++ js tag ++ js ">").
    split; [simpl; auto|].
    apply spans_seq_cons. exists (rev (js "</") ++ []), (js tag ++ js ">").
    split; [apply spans_lit; auto|].
    apply spans_seq_cons. exists (rev (js tag) ++ rev (js "</") ++ []), (js ">").
    split.
    { cbn [spans].
      apply (spans_alt_lits "div"
               ["p"; "section"; "article"; "header"; "footer"; "table"; "ul";
                "ol"; "li"; "pre"; "blockquote"]%string).
      exists tag. auto. }
    apply spans_seq_cons.
    exists (rev (js ">") ++ rev (js tag) ++ rev (js "</") ++ []), []. split.
    { exists 62%N. auto. }
    apply spans_seq_cons.
    exists (rev (js ">") ++ rev (js tag) ++ rev (js "</") ++ []), []. split.
    { exists []. simpl. repeat split; auto. }
    simpl. auto.
Qed.


Lemma length_eqb_0 (s : jsstring) : s <> [] -> Nat.eqb (length s) 0 = false.
Proof. destruct s; [congruence|reflexivity]. Qed.

Lemma hardBreaks_turn_text line next :
  boundary line = false -> trim line <> [] -> trim next <> [] ->
  hardBreaks_turn false false line next
  = (if test blockStart_re (trim next) then [line]
     else (if test two_spaces_re line then line else line ++ js "  ")
            :: (if test closingHtmlBlock_re (trim line) then [[]] else []),
     (false, false)).
Proof.
  intros Hbound Ht Hnt. unfold hardBreaks_turn.
  unfold boundary in Hbound. apply orb_false_iff in Hbound.
  destruct Hbound as [Hf Hm]. rewrite Hf, Hm. simpl andb. cbv zeta.
  rewrite (length_eqb_0 _ Ht), (length_eqb_0 _ Hnt). simpl negb.
  rewrite !andb_true_r, !andb_true_l.
  destruct (test blockStart_re (trim next)); simpl.
  { rewrite !andb_false_r. reflexivity. }
  rewrite !andb_true_r.
  destruct (test two_spaces_re line), (test closingHtmlBlock_re (trim line));
    reflexivity.
Qed.

(** C6 (amended): hard breaks are the last stage of preprocessing, run
    only when bracket syntax is enabled too. For a line outside code
    fences and block math that is no boundary line and has content,
    followed by a line with content: if the next line, trimmed, does not
    pass the block-start test, the line gets exactly two spaces
    appended unless it already ends in two white-space characters of
    any kind (two tabs count), and if the line, trimmed, passes the
    closing-tag test an empty line is inserted behind it; if the next
    line passes the block-start test the line is left as it is. The
    lines before are not affected by what follows the line. The three
    tests are characterized: the block-start test accepts exactly a
    heading (one to six [#] and a white-space character), a quote, a
    bullet, a numbered item, a fence, a line whose first character
    after white space is [<], and a blank text; the two-spaces test
    accepts exactly the lines ending in two white-space characters; on
    a trimmed line the closing-tag test accepts exactly the closing
    tags of the twelve block-level elements. *)
Theorem C6_hard_breaks :
  (forall ms text,
      brackets ms = true ->
      _preprocess ms true text
      = _applyHardBreaks
          ((if dollars ms then _normalizeInlineDollars else fun t => t)
             (replace inline_re inline_math (replace block_re block_math text))))
  /\ (forall pre line next post,
         forallb plain_line (pre ++ line :: next :: post) = true ->
         toggles false false pre = (false, false) ->
         boundary line = false ->
         trim line <> [] ->
         trim next <> [] ->
         exists before,
           _applyHardBreaks (join_lines (pre ++ [line])) = join_lines (before ++ [line])
           /\ _applyHardBreaks (join_lines (pre ++ line :: next :: post))
              = join_lines
                  (before
                     ++ (if test blockStart_re (trim next) then [line]
                         else (if test two_spaces_re line then line
                               else line ++ js "  ")
                                :: (if test closingHtmlBlock_re (trim line)
                                    then [[]] else []))
                     ++ hardBreaks_loop (next :: post) false false []))
  /\ (forall t, test blockStart_re t = true <-> block_start t)
  /\ (forall line, test two_spaces_re line = true <-> ends_in_two_spaces line)
  /\ (forall line,
         test closingHtmlBlock_re (trim line) = true <-> closes_block (trim line)).
Proof.
  split; [|split; [|split; [|split]]].
  - intros ms text Hb. unfold _preprocess. rewrite Hb. simpl.
    destruct (dollars ms); reflexivity.
  - intros pre line next post Hplain Htog Hbound Ht Hnt.
    destruct (hardBreaks_loop_prefix pre line false false) as [before Hb].
    rewrite Htog in Hb. simpl fst in Hb. simpl snd in Hb.
    exists before.
    rewrite forallb_app in Hplain. apply andb_prop in Hplain.
    destruct Hplain as [Hpre Hrest].
    assert (Hline : plain_line line = true)
      by (simpl in Hrest; apply andb_prop in Hrest; apply Hrest).
    unfold _applyHardBreaks. split.
    + rewrite lines_of_join.
      * rewrite (Hb []), hardBreaks_loop_last. reflexivity.
      * destruct pre; discriminate.
      * rewrite forallb_app, Hpre. simpl. rewrite Hline. reflexivity.
    + rewrite lines_of_join.
      * rewrite (Hb (next :: post)). f_equal. f_equal.
        rewrite hardBreaks_loop_turn, hardBreaks_loop_acc.
        cbn [hd]. rewrite (hardBreaks_turn_text line next Hbound Ht Hnt).
        reflexivity.
      * destruct pre; discriminate.
      * rewrite forallb_app, Hpre. exact Hrest.
  - exact block_start_test.
  - exact two_spaces_test.
  - exact closing_tag_test.
Qed.

(* ================================================================= *)
(** * Hard breaks: what the pass keeps *)

(** One turn of the loop, with the lines pushed in front of the rest. *)
Lemma hardBreaks_loop_cons line rest code math :
  hardBreaks_loop (line :: rest) code math []
  = fst (hardBreaks_turn code math line (hd [] rest))
      ++ hardBreaks_loop rest
           (fst (snd (hardBreaks_turn code math line (hd [] rest))))
           (snd (snd (hardBreaks_turn code math line (hd [] rest)))) [].
Proof. rewrite hardBreaks_loop_turn, hardBreaks_loop_acc. reflexivity. Qed.

Lemma hardBreaks_turn_next code math l n1 n2 :
  trim n1 = trim n2 -> hardBreaks_turn code math l n1 = hardBreaks_turn code math l n2.
Proof. intros E. unfold hardBreaks_turn. rewrite E. reflexivity. Qed.

Lemma hardBreaks_turn_shape code math l n :
  exists l',
    (l' = l \/ l' = l ++ js "  ")
    /\ (fst (hardBreaks_turn code math l n) = [l']
        \/ fst (hardBreaks_turn code math l n) = [l'; []]).
Proof.
  unfold hardBreaks_turn.
  destruct (fence (trim l)); [exists l; simpl; auto|].
  destruct (startsWith (trim l) (js "$$") && negb code); [exists l; simpl; auto|].
  destruct (negb code && negb math); [|exists l; simpl; auto].
  cbv zeta.
  match goal with |- context [if ?c then l ++ js "  " else l] =>
    destruct c end;
    [exists (l ++ js "  ")|exists l];
    (split; [auto|]);
    match goal with |- context [if ?c then (_, _) else _] => destruct c end;
    simpl; auto.
Qed.

Lemma hardBreaks_turn_inside code math l n :
  code || math = true -> fst (hardBreaks_turn code math l n) = [l].
Proof.
  intros H. unfold hardBreaks_turn.
  destruct (fence (trim l)); [reflexivity|].
  destruct (startsWith (trim l) (js "$$") && negb code); [reflexivity|].
  destruct code, math; try discriminate H; reflexivity.
Qed.

Lemma decorated_loop ls :
  ls <> [] -> forall code math, decorated ls (hardBreaks_loop ls code math []).
Proof.
  induction ls as [|l ls IH]; [congruence|]. intros _ code math.
  destruct ls as [|n ls].
  - rewrite hardBreaks_loop_last. constructor.
  - rewrite hardBreaks_loop_cons.
    destruct (hardBreaks_turn_shape code math l (hd [] (n :: ls)))
      as (l' & Hl & [-> | ->]); cbn [app].
    + apply decorated_line; [exact Hl|]. apply IH. discriminate.
    + apply decorated_blank; [exact Hl|]. apply IH. discriminate.
Qed.

Lemma split_lines_not_nil s : split_lines s <> [].
Proof.
  induction s as [|c s IH]; simpl; [discriminate|].
  destruct (char_eqb c LF); [discriminate|].
  destruct (split_lines s); [congruence|discriminate].
Qed.

Lemma split_lines_no_lf s :
  Forall (fun l => forallb (fun c => negb (char_eqb c LF)) l = true) (split_lines s).
Proof.
  induction s as [|c s IH]; simpl; [repeat constructor|].
  destruct (char_eqb c LF) eqn:E; [constructor; [reflexivity|exact IH]|].
  destruct (split_lines s) as [|l ls]; [repeat constructor; simpl; rewrite E; reflexivity|].
  inversion IH; subst. constructor; [simpl; rewrite E; assumption|assumption].
Qed.

Lemma join_split_lines s : join_lines (split_lines s) = s.
Proof.
  induction s as [|c s IH]; [reflexivity|]. simpl.
  destruct (char_eqb c LF) eqn:E.
  - apply N.eqb_eq in E. subst c.
    pose proof (split_lines_not_nil s) as Hne.
    destruct (split_lines s) as [|l ls] eqn:Es; [congruence|].
    change (join_lines ([] :: l :: ls)) with ([] ++ LF :: join_lines (l :: ls)).
    rewrite IH. reflexivity.
  - pose proof (split_lines_not_nil s) as Hne.
    destruct (split_lines s) as [|l ls] eqn:Es; [congruence|].
    destruct ls as [|l2 ls].
    + simpl in *. congruence.
    + change (join_lines ((c :: l) :: l2 :: ls))
        with (c :: (l ++ LF :: join_lines (l2 :: ls))).
      change (join_lines (l :: l2 :: ls)) with (l ++ LF :: join_lines (l2 :: ls)) in IH.
      rewrite IH. reflexivity.
Qed.

Lemma split_join_no_lf ls :
  ls <> [] ->
  Forall (fun l => forallb (fun c => negb (char_eqb c LF)) l = true) ls ->
  split_lines (join_lines ls) = ls.
Proof.
  induction ls as [|l ls IH]; [congruence|]. intros _ H.
  inversion H as [|? ? Hl Hls]; subst.
  destruct ls as [|l' ls].
  - simpl. apply split_lines_plain, Hl.
  - change (join_lines (l :: l' :: ls)) with (l ++ LF :: join_lines (l' :: ls)).
    rewrite split_lines_app by exact Hl.
    rewrite IH; [reflexivity|discriminate|exact Hls].
Qed.

Lemma decorated_no_lf ls out :
  decorated ls out ->
  Forall (fun l => forallb (fun c => negb (char_eqb c LF)) l = true) ls ->
  Forall (fun l => forallb (fun c => negb (char_eqb c LF)) l = true) out.
Proof.
  assert (P : forall l l' : jsstring,
             l' = l \/ l' = l ++ js "  " ->
             forallb (fun c => negb (char_eqb c LF)) l = true ->
             forallb (fun c => negb (char_eqb c LF)) l' = true).
  { intros l l' [->| ->] H; [exact H|]. rewrite forallb_app, H. reflexivity. }
  induction 1 as [l|l l' ls out Hl Hd IH|l l' ls out Hl Hd IH]; intros H.
  - exact H.
  - inversion H; subst. constructor; [eapply P; eauto|auto].
  - inversion H; subst. constructor; [eapply P; eauto|].
    constructor; [reflexivity|auto].
Qed.

Lemma decorated_not_nil ls out : decorated ls out -> out <> [].
Proof. destruct 1; discriminate. Qed.

Lemma lines_of_not_nil input : lines_of input <> [].
Proof. apply split_lines_not_nil. Qed.

Lemma lines_of_no_lf input :
  Forall (fun l => forallb (fun c => negb (char_eqb c LF)) l = true) (lines_of input).
Proof. apply split_lines_no_lf. Qed.

(** [replace(/\r\n/g, "\n")] leaves out the CR of every CR LF and
    nothing else. *)
Lemma replace_crlf_spec (s : jsstring) :
  (forall b, replace_from crlf_re (fun _ => [LF]) 0 b s = unix_line_ends s)
  /\ (forall b, replace_from crlf_re (fun _ => [LF]) 1 b s = unix_line_ends (tl s)).
Proof.
  induction s as [|c s [IH0 IH1]]; [split; reflexivity|].
  split; intros b; [|cbn [replace_from tl]; apply IH0].
  cbn [replace_from unix_line_ends].
  unfold match_here, crlf_re, one. cbn [seq Regex.run]. unfold only at 1.
  destruct (char_eqb c CR) eqn:Ec; [|f_equal; apply IH0].
  destruct s as [|d s]; [reflexivity|]. unfold only.
  destruct (char_eqb d LF) eqn:Ed.
  - cbn [length]. replace (S (S (length s)) - length s) with 2 by lia.
    rewrite IH1. cbn [tl unix_line_ends].
    apply N.eqb_eq in Ed. subst d. reflexivity.
  - f_equal. apply IH0.
Qed.

Lemma unix_line_ends_no_cr (s : jsstring) :
  forallb (fun c => negb (char_eqb c CR)) s = true -> unix_line_ends s = s.
Proof.
  induction s as [|c s IH]; [reflexivity|]. cbn [forallb unix_line_ends].
  intros H. apply andb_prop in H. destruct H as [Hc Hs].
  apply negb_true_iff in Hc. rewrite Hc, (IH Hs). reflexivity.
Qed.

(** X10: hard-break insertion leaves out the CR of every CR LF and
    from there on only adds. For every text, the lines the stage works
    on are the lines of the text without those CRs, and the lines of
    the result are these lines in their order, each one either as it
    was or with exactly two spaces appended, with an empty line put
    behind some of them; the last line always stays as it is. So no
    other character of the input is removed or changed, and in a text
    without CR none at all. *)
Theorem hard_breaks_only_add :
  forall input : jsstring,
    lines_of input = split_lines (unix_line_ends input)
    /\ decorated (split_lines (unix_line_ends input))
                 (split_lines (_applyHardBreaks input))
    /\ (forallb (fun c => negb (char_eqb c CR)) input = true ->
        decorated (split_lines input) (split_lines (_applyHardBreaks input))).
Proof.
  intros input.
  assert (L : lines_of input = split_lines (unix_line_ends input)).
  { unfold lines_of, replace. rewrite (proj1 (replace_crlf_spec input)). reflexivity. }
  assert (D : decorated (lines_of input) (split_lines (_applyHardBreaks input))).
  { unfold _applyHardBreaks.
    pose proof (decorated_loop (lines_of input) (lines_of_not_nil input) false false)
      as D.
    rewrite split_join_no_lf.
    - exact D.
    - eapply decorated_not_nil, D.
    - eapply decorated_no_lf; [exact D|apply lines_of_no_lf]. }
  split; [exact L|]. rewrite L in D. split; [exact D|].
  intros H. rewrite (unix_line_ends_no_cr input H) in D. exact D.
Qed.

(** With CR LF line ends the CRs are gone from the result. *)
Example hard_breaks_drop_the_carriage_return :
  _applyHardBreaks (js "a" ++ [CR; LF] ++ js "b") = js "a  " ++ [LF] ++ js "b".
Proof. vm_compute. reflexivity. Qed.

Lemma toggles_app pre post :
  forall code math,
    toggles code math (pre ++ post)
    = toggles (fst (toggles code math pre)) (snd (toggles code math pre)) post.
Proof.
  induction pre as [|l pre IH]; intros code math; [reflexivity|].
  cbn [app toggles].
  destruct (fence (trim l)); [apply IH|].
  destruct (startsWith (trim l) (js "$$") && negb code); apply IH.
Qed.

(** X11: a line inside a code fence or inside block math, that is
    a line before which the fence or [$$] lines have left one of the
    two toggles on, is copied as it is, whatever it holds and whatever
    follows it. *)
Theorem hard_breaks_spare_fenced_lines :
  forall (pre : list jsstring) (line : jsstring) (post : list jsstring),
    forallb plain_line (pre ++ line :: post) = true ->
    fst (toggles false false pre) || snd (toggles false false pre) = true ->
    exists before,
      _applyHardBreaks (join_lines (pre ++ [line])) = join_lines (before ++ [line])
      /\ _applyHardBreaks (join_lines (pre ++ line :: post))
         = join_lines
             (before ++ line
                :: hardBreaks_loop post
                     (fst (toggles false false (pre ++ [line])))
                     (snd (toggles false false (pre ++ [line]))) []).
Proof.
  intros pre line post Hplain Hin.
  destruct (hardBreaks_loop_prefix pre line false false) as [before Hb].
  exists before.
  rewrite forallb_app in Hplain. apply andb_prop in Hplain.
  destruct Hplain as [Hpre Hrest].
  assert (Hline : plain_line line = true)
    by (simpl in Hrest; apply andb_prop in Hrest; apply Hrest).
  unfold _applyHardBreaks. split.
  - rewrite lines_of_join.
    + rewrite (Hb []), hardBreaks_loop_last. reflexivity.
    + destruct pre; discriminate.
    + rewrite forallb_app, Hpre. simpl. rewrite Hline. reflexivity.
  - rewrite lines_of_join.
    + rewrite (Hb post). f_equal. f_equal.
      destruct post as [|next post].
      * rewrite hardBreaks_loop_last. reflexivity.
      * rewrite hardBreaks_loop_cons, (hardBreaks_turn_inside _ _ _ _ Hin).
        cbn [app]. f_equal.
        rewrite toggles_app, (toggles_turn _ _ line [] (hd [] (next :: post))).
        reflexivity.
    + destruct pre; discriminate.
    + rewrite forallb_app, Hpre. exact Hrest.
Qed.

(** ** Hard breaks: a second pass changes nothing *)

Lemma trimStart_spaces (ws : jsstring) : forallb is_space ws = true -> trimStart ws = [].
Proof.
  induction ws as [|c ws IH]; simpl; [reflexivity|].
  intros H. apply andb_prop in H. destruct H as [-> H]. apply IH, H.
Qed.

Lemma trimStart_skip (ws y : jsstring) :
  forallb is_space ws = true -> trimStart (ws ++ y) = trimStart y.
Proof.
  induction ws as [|c ws IH]; simpl; [reflexivity|].
  intros H. apply andb_prop in H. destruct H as [-> H]. apply IH, H.
Qed.

Lemma trimStart_app_spaces (l ws : jsstring) :
  forallb is_space ws = true ->
  trimStart (l ++ ws) = if forallb is_space l then [] else trimStart l ++ ws.
Proof.
  intros H. induction l as [|c l IH]; simpl.
  - apply trimStart_spaces, H.
  - destruct (is_space c); simpl; [exact IH|reflexivity].
Qed.

Lemma trimEnd_app_spaces (x ws : jsstring) :
  forallb is_space ws = true -> trimEnd (x ++ ws) = trimEnd x.
Proof.
  intros H. unfold trimEnd. rewrite rev_app_distr, trimStart_skip; [reflexivity|].
  rewrite forallb_forall in *. intros c Hc. apply H, in_rev, Hc.
Qed.

Lemma trim_app_spaces (l ws : jsstring) :
  forallb is_space ws = true -> trim (l ++ ws) = trim l.
Proof.
  intros H. unfold trim. rewrite trimStart_app_spaces by exact H.
  destruct (forallb is_space l) eqn:E.
  - rewrite (trimStart_spaces l E). reflexivity.
  - apply trimEnd_app_spaces, H.
Qed.

Lemma two_spaces_appended (l : jsstring) : test two_spaces_re (l ++ js "  ") = true.
Proof. apply two_spaces_test. exists l, SP, SP. auto. Qed.

(** The turn at a line outside fences and block math that is no
    boundary line. *)
Lemma hardBreaks_turn_outside l n :
  fence (trim l) = false -> startsWith (trim l) (js "$$") = false ->
  hardBreaks_turn false false l n
  = (let line' :=
       if negb (Nat.eqb (length (trim l)) 0) && negb (Nat.eqb (length (trim n)) 0)
          && negb (test blockStart_re (trim n)) && negb (test two_spaces_re l)
       then l ++ js "  " else l in
     if test closingHtmlBlock_re (trim l) && negb (Nat.eqb (length (trim n)) 0)
        && negb (test blockStart_re (trim n))
     then [line'; []] else [line'],
     (false, false)).
Proof.
  intros F D. unfold hardBreaks_turn. rewrite F, D. cbn [andb negb]. cbv zeta.
  match goal with |- context [if ?c then (_, _) else _] => destruct c end; reflexivity.
Qed.

Lemma hardBreaks_turn_boundary code math l n1 n2 :
  fence (trim l) = true \/ startsWith (trim l) (js "$$") && negb code = true
  \/ code || math = true ->
  hardBreaks_turn code math l n1 = hardBreaks_turn code math l n2
  /\ fst (hardBreaks_turn code math l n1) = [l].
Proof.
  intros H. unfold hardBreaks_turn.
  destruct (fence (trim l)); [auto|].
  destruct (startsWith (trim l) (js "$$") && negb code); [auto|].
  destruct H as [H|[H|H]]; try discriminate H.
  destruct code, math; try discriminate H; auto.
Qed.

(** Running the loop over what a turn pushed, followed by lines [R]
    that begin like the next line did. *)
Lemma hardBreaks_loop_again code math l n (R : list jsstring) :
  trim (hd [] R) = trim n ->
  hardBreaks_loop (fst (hardBreaks_turn code math l n) ++ R) code math []
  = fst (hardBreaks_turn code math l n)
      ++ hardBreaks_loop R (fst (snd (hardBreaks_turn code math l n)))
                         (snd (snd (hardBreaks_turn code math l n))) [].
Proof.
  intros Hn.
  destruct (fence (trim l)) eqn:F.
  { destruct (hardBreaks_turn_boundary code math l n (hd [] R) (or_introl F)) as [E1 E2].
    rewrite E2. cbn [app]. rewrite hardBreaks_loop_cons, <- E1, E2. reflexivity. }
  destruct (startsWith (trim l) (js "$$") && negb code) eqn:D.
  { destruct (hardBreaks_turn_boundary code math l n (hd [] R)
                (or_intror (or_introl D))) as [E1 E2].
    rewrite E2. cbn [app]. rewrite hardBreaks_loop_cons, <- E1, E2. reflexivity. }
  destruct (code || math) eqn:CM.
  { destruct (hardBreaks_turn_boundary code math l n (hd [] R)
                (or_intror (or_intror CM))) as [E1 E2].
    rewrite E2. cbn [app]. rewrite hardBreaks_loop_cons, <- E1, E2. reflexivity. }
  apply orb_false_iff in CM. destruct CM as [-> ->].
  rewrite andb_true_r in D.
  rewrite (hardBreaks_turn_outside l n F D). cbv zeta. cbn [fst snd].
  set (bs := test blockStart_re (trim n)).
  set (ne := negb (Nat.eqb (length (trim n)) 0)).
  set (cl := test closingHtmlBlock_re (trim l)).
  set (l' := if negb (Nat.eqb (length (trim l)) 0) && ne && negb bs
                && negb (test two_spaces_re l)
             then l ++ js "  " else l).
  assert (Ht : trim l' = trim l).
  { subst l'. destruct (_ && _ && _ && _); [|reflexivity].
    apply trim_app_spaces. reflexivity. }
  assert (Hpad : negb (Nat.eqb (length (trim l)) 0) && ne && negb bs
                 && negb (test two_spaces_re l') = false).
  { subst l'.
    destruct (negb (Nat.eqb (length (trim l)) 0) && ne && negb bs
              && negb (test two_spaces_re l)) eqn:P; [|exact P].
    rewrite two_spaces_appended. simpl. apply andb_false_r. }
  assert (F' : fence (trim l') = false) by (rewrite Ht; exact F).
  assert (D' : startsWith (trim l') (js "$$") = false) by (rewrite Ht; exact D).
  assert (Again : forall x, trim x = trim n ->
             hardBreaks_turn false false l' x
             = (if cl && ne && negb bs then [l'; []] else [l'], (false, false))).
  { intros x Hx. rewrite (hardBreaks_turn_outside l' x F' D'). cbv zeta.
    rewrite Hx, Ht. fold bs. fold ne. fold cl. rewrite Hpad. reflexivity. }
  destruct (cl && ne && negb bs) eqn:B.
  - cbn [app]. rewrite hardBreaks_loop_cons. cbn [hd].
    rewrite (hardBreaks_turn_outside l' [] F' D'). cbv zeta.
    change (trim []) with (@nil char). cbn [length Nat.eqb negb].
    rewrite !andb_false_r. cbn [fst snd app]. f_equal.
    rewrite hardBreaks_loop_cons.
    assert (E : forall x, hardBreaks_turn false false [] x = ([[]], (false, false))).
    { intros x. rewrite hardBreaks_turn_outside by reflexivity. cbv zeta.
      change (trim []) with (@nil char). reflexivity. }
    rewrite E. reflexivity.
  - cbn [app]. rewrite hardBreaks_loop_cons, (Again _ Hn). reflexivity.
Qed.

Lemma hardBreaks_loop_head ls :
  forall code math,
    trim (hd [] (hardBreaks_loop ls code math [])) = trim (hd [] ls).
Proof.
  destruct ls as [|l ls]; intros code math; [reflexivity|].
  rewrite hardBreaks_loop_cons.
  destruct (hardBreaks_turn_shape code math l (hd [] ls)) as (l' & Hl & [-> | ->]);
    cbn [app hd]; destruct Hl as [->| ->]; try reflexivity;
    apply trim_app_spaces; reflexivity.
Qed.

Lemma hardBreaks_loop_twice ls :
  forall code math,
    hardBreaks_loop (hardBreaks_loop ls code math []) code math []
    = hardBreaks_loop ls code math [].
Proof.
  induction ls as [|l ls IH]; intros code math; [reflexivity|].
  rewrite hardBreaks_loop_cons, hardBreaks_loop_again.
  - rewrite IH. reflexivity.
  - apply hardBreaks_loop_head.
Qed.

Lemma no_cr_lines input :
  forallb (fun c => negb (char_eqb c CR)) input = true ->
  lines_of input = split_lines input.
Proof. intros H. unfold lines_of. rewrite replace_crlf_id by exact H. reflexivity. Qed.

Lemma split_lines_no_cr s :
  forallb (fun c => negb (char_eqb c CR)) s = true ->
  Forall (fun l => forallb (fun c => negb (char_eqb c CR)) l = true) (split_lines s).
Proof.
  induction s as [|c s IH]; simpl; [repeat constructor|].
  intros H. apply andb_prop in H. destruct H as [Hc Hs]. specialize (IH Hs).
  destruct (char_eqb c LF); [constructor; [reflexivity|exact IH]|].
  destruct (split_lines s) as [|l ls]; [repeat constructor; simpl; rewrite Hc; reflexivity|].
  inversion IH; subst. constructor; [simpl; rewrite Hc; assumption|assumption].
Qed.

Lemma decorated_no_cr ls out :
  decorated ls out ->
  Forall (fun l => forallb (fun c => negb (char_eqb c CR)) l = true) ls ->
  Forall (fun l => forallb (fun c => negb (char_eqb c CR)) l = true) out.
Proof.
  assert (P : forall l l' : jsstring,
             l' = l \/ l' = l ++ js "  " ->
             forallb (fun c => negb (char_eqb c CR)) l = true ->
             forallb (fun c => negb (char_eqb c CR)) l' = true).
  { intros l l' [->| ->] H; [exact H|]. rewrite forallb_app, H. reflexivity. }
  induction 1 as [l|l l' ls out Hl Hd IH|l l' ls out Hl Hd IH]; intros H.
  - exact H.
  - inversion H; subst. constructor; [eapply P; eauto|auto].
  - inversion H; subst. constructor; [eapply P; eauto|].
    constructor; [reflexivity|auto].
Qed.

Lemma join_lines_no_cr_lines ls :
  Forall (fun l => forallb (fun c => negb (char_eqb c CR)) l = true) ls ->
  forallb (fun c => negb (char_eqb c CR)) (join_lines ls) = true.
Proof.
  induction ls as [|l ls IH]; [reflexivity|]. intros H.
  inversion H as [|? ? Hl Hls]; subst.
  destruct ls as [|l' ls]; [exact Hl|].
  change (join_lines (l :: l' :: ls)) with (l ++ LF :: join_lines (l' :: ls)).
  rewrite forallb_app, Hl. simpl. apply IH, Hls.
Qed.

(** X12: on a text without carriage returns hard-break insertion
    is idempotent: applied to its own result it changes nothing, so
    preprocessing a text again (as every render pass does with the whole
    buffer) never piles up trailing spaces or empty lines. *)
Theorem hard_breaks_are_idempotent :
  forall input : jsstring,
    forallb (fun c => negb (char_eqb c CR)) input = true ->
    _applyHardBreaks (_applyHardBreaks input) = _applyHardBreaks input.
Proof.
  intros input Hcr.
  pose proof (decorated_loop (lines_of input) (lines_of_not_nil input) false false) as D.
  unfold _applyHardBreaks at 1 2.
  rewrite no_cr_lines.
  - rewrite split_join_no_lf.
    + rewrite hardBreaks_loop_twice. reflexivity.
    + eapply decorated_not_nil, D.
    + eapply decorated_no_lf; [exact D|apply lines_of_no_lf].
  - apply join_lines_no_cr_lines. eapply decorated_no_cr; [exact D|].
    rewrite no_cr_lines by exact Hcr. apply split_lines_no_cr, Hcr.
Qed.

(* ================================================================= *)
(** * Line ends *)

Lemma replace_crlf_prefix (pre : jsstring) (f : caps -> jsstring) :
  forallb (fun c => negb (char_eqb c CR)) pre = true ->
  forall b s,
    replace_from crlf_re f 0 b (pre ++ s) = pre ++ replace_from crlf_re f 0 (rev pre ++ b) s.
Proof.
  intros H b s. apply replace_from_no_match.
  intros p1 p2 E Hp. apply crlf_no_match.
  destruct p2 as [|c p2]; [congruence|]. simpl.
  rewrite forallb_forall in H. apply negb_true_iff, H.
  rewrite E. apply in_or_app. right. left. reflexivity.
Qed.

Lemma plain_line_no_cr l :
  plain_line l = true -> forallb (fun c => negb (char_eqb c CR)) l = true.
Proof.
  unfold plain_line. rewrite !forallb_forall. intros H c Hc.
  specialize (H c Hc). apply andb_prop in H. apply H.
Qed.

Lemma replace_crlf_join ls :
  forallb plain_line ls = true ->
  forall b, replace_from crlf_re (fun _ => [LF]) 0 b (join_crlf ls) = join_lines ls.
Proof.
  induction ls as [|l ls IH]; intros H b; [reflexivity|].
  simpl in H. apply andb_prop in H. destruct H as [Hl Hls].
  destruct ls as [|l' ls].
  - simpl. rewrite <- (app_nil_r l) at 1.
    rewrite replace_crlf_prefix by (apply plain_line_no_cr, Hl).
    simpl. rewrite app_nil_r. reflexivity.
  - change (join_crlf (l :: l' :: ls)) with (l ++ [CR; LF] ++ join_crlf (l' :: ls)).
    change (join_lines (l :: l' :: ls)) with (l ++ LF :: join_lines (l' :: ls)).
    rewrite replace_crlf_prefix by (apply plain_line_no_cr, Hl). f_equal.
    rewrite (replace_from_match crlf_re (fun _ => [LF]) (rev l ++ b) [CR; LF]
               (join_crlf (l' :: ls)) (LF :: CR :: rev l ++ b) []);
      [|discriminate|reflexivity].
    cbn [app]. f_equal. apply IH, Hls.
Qed.

(** X13: the two line-based stages read a Windows line end as a
    line end: for lines without line breaks in them, the text with
    CR LF between the lines is split into the same lines as the text
    with LF between them, so both texts give the same result (which has
    LF between its lines). *)
Theorem windows_line_ends_are_line_ends :
  forall ls : list jsstring,
    forallb plain_line ls = true ->
    lines_of (join_crlf ls) = lines_of (join_lines ls)
    /\ _applyHardBreaks (join_crlf ls) = _applyHardBreaks (join_lines ls)
    /\ _normalizeInlineDollars (join_crlf ls) = _normalizeInlineDollars (join_lines ls).
Proof.
  intros ls H.
  assert (E : lines_of (join_crlf ls) = lines_of (join_lines ls)).
  { unfold lines_of, replace. rewrite (replace_crlf_join ls H).
    fold (replace crlf_re (fun _ => [LF]) (join_lines ls)).
    rewrite replace_crlf_id by (apply join_lines_no_cr, H). reflexivity. }
  split; [exact E|]. unfold _applyHardBreaks, _normalizeInlineDollars.
  rewrite E. auto.
Qed.

(* ================================================================= *)
(** * Dollar signs *)

Lemma match_dollar_left b s :
  match_here dollar_left_re b s
  = match s with
    | c :: s' =>
        if only DOLLAR c && negb (is_dollar (hd_error b) || is_blank (hd_error b))
           && negb (is_dollar (hd_error s'))
        then Some (c :: b, s', []) else None
    | [] => None
    end.
Proof.
  unfold match_here, dollar_left_re, one. cbn [seq Regex.run].
  destruct b as [|x b]; cbn [hd_error is_dollar is_blank].
  - destruct s as [|c s]; [reflexivity|]. cbn [negb orb andb].
    destruct (only DOLLAR c); [|reflexivity]. cbn [andb].
    destruct s as [|c' s]; [reflexivity|]. cbn [hd_error is_dollar].
    destruct (only DOLLAR c'); reflexivity.
  - destruct (only DOLLAR x || is_space x).
    + destruct s as [|c s]; [reflexivity|]. cbn [negb]. rewrite andb_false_r.
      reflexivity.
    + destruct s as [|c s]; [reflexivity|]. cbn [negb]. rewrite andb_true_r.
      destruct (only DOLLAR c); [|reflexivity]. cbn [andb].
      destruct s as [|c' s]; [reflexivity|]. cbn [hd_error is_dollar].
      destruct (only DOLLAR c'); reflexivity.
Qed.

Lemma match_dollar_right b s :
  match_here dollar_right_re b s
  = match s with
    | c :: s' =>
        if only DOLLAR c && negb (is_dollar (hd_error b))
           && negb (is_dollar (hd_error s') || is_blank (hd_error s'))
        then Some (c :: b, s', []) else None
    | [] => None
    end.
Proof.
  unfold match_here, dollar_right_re, one. cbn [seq Regex.run].
  destruct b as [|x b]; cbn [hd_error is_dollar is_blank].
  - destruct s as [|c s]; [reflexivity|]. cbn [negb andb].
    destruct (only DOLLAR c); [|reflexivity]. cbn [andb].
    destruct s as [|c' s]; [reflexivity|]. cbn [hd_error is_dollar is_blank].
    destruct (only DOLLAR c' || is_space c'); reflexivity.
  - destruct (only DOLLAR x).
    + destruct s as [|c s]; [reflexivity|]. cbn [negb]. rewrite andb_false_r.
      reflexivity.
    + destruct s as [|c s]; [reflexivity|]. cbn [negb]. rewrite andb_true_r.
      destruct (only DOLLAR c); [|reflexivity]. cbn [andb].
      destruct s as [|c' s]; [reflexivity|]. cbn [hd_error is_dollar is_blank].
      destruct (only DOLLAR c' || is_space c'); reflexivity.
Qed.

Lemma only_eq (a c : char) : only a c = true -> c = a.
Proof. unfold only, char_eqb. apply N.eqb_eq. Qed.

Lemma replace_dollar_left s :
  forall b,
    replace_from dollar_left_re (fun _ => js " $") 0 b s = pad_left (hd_error b) s.
Proof.
  induction s as [|c s IH]; intros b.
  - cbn [replace_from]. rewrite match_dollar_left. reflexivity.
  - cbn [pad_left].
    destruct (only DOLLAR c && negb (is_dollar (hd_error b) || is_blank (hd_error b))
              && negb (is_dollar (hd_error s))) eqn:E.
    + assert (R : replace_from dollar_left_re (fun _ => js " $") 0 b ([c] ++ s)
                  = js " $" ++ replace_from dollar_left_re (fun _ => js " $") 0
                                 (rev [c] ++ b) s).
      { apply (replace_from_match dollar_left_re (fun _ => js " $") b [c] s (c :: b) []);
          [discriminate|cbn [app]; rewrite match_dollar_left, E; reflexivity]. }
      cbn [rev app] in R. rewrite R, IH. cbn [hd_error].
      apply andb_prop in E. destruct E as [E _]. apply andb_prop in E.
      destruct E as [E _]. apply only_eq in E. subst c. reflexivity.
    + cbn [replace_from]. rewrite match_dollar_left, E, IH. reflexivity.
Qed.

Lemma replace_dollar_right s :
  forall b,
    replace_from dollar_right_re (fun _ => js "$ ") 0 b s = pad_right (hd_error b) s.
Proof.
  induction s as [|c s IH]; intros b.
  - cbn [replace_from]. rewrite match_dollar_right. reflexivity.
  - cbn [pad_right].
    destruct (only DOLLAR c && negb (is_dollar (hd_error b))
              && negb (is_dollar (hd_error s) || is_blank (hd_error s))) eqn:E.
    + assert (R : replace_from dollar_right_re (fun _ => js "$ ") 0 b ([c] ++ s)
                  = js "$ " ++ replace_from dollar_right_re (fun _ => js "$ ") 0
                                 (rev [c] ++ b) s).
      { apply (replace_from_match dollar_right_re (fun _ => js "$ ") b [c] s (c :: b) []);
          [discriminate|cbn [app]; rewrite match_dollar_right, E; reflexivity]. }
      cbn [rev app] in R. rewrite R, IH. cbn [hd_error].
      apply andb_prop in E. destruct E as [E _]. apply andb_prop in E.
      destruct E as [E _]. apply only_eq in E. subst c. reflexivity.
    + cbn [replace_from]. rewrite match_dollar_right, E, IH. reflexivity.
Qed.

Lemma pad_left_head prev s :
  hd_error (pad_left prev s)
  = match s with
    | [] => None
    | c :: s' =>
        if only DOLLAR c && negb (is_dollar prev || is_blank prev)
           && negb (is_dollar (hd_error s'))
        then Some SP else Some c
    end.
Proof.
  destruct s as [|c s]; [reflexivity|]. cbn [pad_left].
  destruct (_ && _ && _); reflexivity.
Qed.

Lemma dollar_not_space (c : char) : only DOLLAR c = true -> is_space c = false.
Proof. intros H. apply only_eq in H. subst c. reflexivity. Qed.

(** The two replacements one after the other. *)
Lemma pad_right_left s :
  forall prev, pad_right prev (pad_left prev s) = pad_dollars prev s.
Proof.
  induction s as [|c s IH]; intros prev; [reflexivity|].
  cbn [pad_left pad_dollars].
  destruct (only DOLLAR c) eqn:Dc.
  - (* a dollar sign *)
    assert (Hn : hd_error (pad_left (Some c) s) = hd_error s).
    { rewrite pad_left_head. destruct s as [|c' s']; [reflexivity|].
      cbn [is_dollar is_blank]. rewrite Dc. cbn [orb negb].
      rewrite andb_false_r. reflexivity. }
    cbn [andb].
    destruct (is_dollar prev) eqn:Dp; cbn [negb orb andb].
    + cbn [app pad_right]. rewrite Dc, Dp. cbn [negb andb app].
      rewrite IH. reflexivity.
    + destruct (is_dollar (hd_error s)) eqn:Dn; cbn [negb andb].
      * rewrite andb_false_r. cbn [app pad_right]. rewrite Dc, Dp, Hn, Dn.
        cbn [negb orb andb app]. rewrite IH. reflexivity.
      * rewrite andb_true_r.
        destruct (is_blank prev) eqn:Bp; cbn [negb app pad_right].
        -- rewrite Dc, Dp, Hn, Dn. cbn [negb orb andb].
           destruct (is_blank (hd_error s)); cbn [negb app]; rewrite IH; reflexivity.
        -- change (only DOLLAR SP) with false. cbn [andb app pad_right hd_error is_dollar].
           rewrite Dc, Hn, Dn. cbn [negb orb andb].
           destruct (is_blank (hd_error s)); cbn [negb app]; rewrite IH; reflexivity.
  - cbn [andb app pad_right]. rewrite Dc. cbn [andb app]. rewrite IH. reflexivity.
Qed.

(** The rewriting of a line in [_normalizeInlineDollars]. *)
Lemma dollar_replacements l :
  replace dollar_right_re (fun _ => js "$ ") (replace dollar_left_re (fun _ => js " $") l)
  = pad_dollars None l.
Proof.
  unfold replace. rewrite replace_dollar_left, replace_dollar_right.
  apply pad_right_left.
Qed.

Lemma unspaced_pad s : forall prev, unspaced (pad_dollars prev s) = unspaced s.
Proof.
  induction s as [|c s IH]; intros prev; [reflexivity|].
  cbn [pad_dollars]. unfold unspaced in *. rewrite filter_app, IH.
  change (c :: s) with ([c] ++ s). rewrite filter_app. f_equal.
  destruct (only DOLLAR c && negb (is_dollar prev) && negb (is_dollar (hd_error s)));
    [|reflexivity].
  destruct (is_blank prev), (is_blank (hd_error s)); cbn [app filter];
    change (char_eqb SP SP) with true; cbn [negb];
    destruct (negb (char_eqb c SP)); reflexivity.
Qed.

Lemma pad_dollars_head prev s :
  hd_error (pad_dollars prev s)
  = match s with
    | [] => None
    | c :: s' =>
        if only DOLLAR c && negb (is_dollar prev) && negb (is_dollar (hd_error s'))
           && negb (is_blank prev)
        then Some SP else Some c
    end.
Proof.
  destruct s as [|c s]; [reflexivity|]. cbn [pad_dollars].
  destruct (only DOLLAR c && negb (is_dollar prev) && negb (is_dollar (hd_error s)));
    [|reflexivity].
  destruct (is_blank prev); reflexivity.
Qed.

Lemma pad_dollars_head_plain prev s :
  is_dollar (hd_error s) = false -> hd_error (pad_dollars prev s) = hd_error s.
Proof.
  intros H. rewrite pad_dollars_head. destruct s as [|c s]; [reflexivity|].
  cbn [hd_error is_dollar] in H. rewrite H. reflexivity.
Qed.

(** In the rewritten line every dollar sign that stands alone has white
    space on both sides. *)
Lemma padded_pad s :
  forall prev po,
    po = prev \/ is_dollar (hd_error s) = false ->
    padded po (pad_dollars prev s) = true.
Proof.
  induction s as [|c s IH]; intros prev po R; [reflexivity|].
  cbn [pad_dollars].
  destruct (only DOLLAR c) eqn:Dc.
  - destruct R as [->|R]; [|cbn [hd_error is_dollar] in R; congruence].
    cbn [andb].
    destruct (is_dollar prev) eqn:Dp; cbn [negb andb app padded].
    + rewrite Dc, Dp. cbn [negb andb]. apply IH. left. reflexivity.
    + destruct (is_dollar (hd_error s)) eqn:Dn; cbn [negb andb app padded].
      * rewrite Dc, Dp. cbn [negb andb].
        assert (Hh : is_dollar (hd_error (pad_dollars (Some c) s)) = true).
        { rewrite pad_dollars_head. destruct s as [|c' s']; [discriminate Dn|].
          cbn [hd_error is_dollar] in Dn. cbn [is_dollar]. rewrite Dc.
          cbn [negb]. rewrite andb_false_r. cbn [andb is_dollar]. exact Dn. }
        rewrite Hh. cbn [negb andb]. apply IH. left. reflexivity.
      * assert (Hh : hd_error (pad_dollars (Some c) s) = hd_error s)
          by (apply pad_dollars_head_plain, Dn).
        destruct (is_blank prev) eqn:Bp, (is_blank (hd_error s)) eqn:Bn;
          cbn [app padded hd_error is_dollar is_blank];
          change (only DOLLAR SP) with false; change (is_space SP) with true;
          rewrite ?Dc, ?Dp, ?Hh, ?Dn, ?Bp, ?Bn; cbn [negb andb];
          apply IH; auto.
  - cbn [andb app padded]. rewrite Dc. cbn [andb]. apply IH. left. reflexivity.
Qed.

(** A line in which they have is left as it is. *)
Lemma padded_fix s : forall prev, padded prev s = true -> pad_dollars prev s = s.
Proof.
  induction s as [|c s IH]; intros prev H; [reflexivity|].
  cbn [padded pad_dollars] in *. apply andb_prop in H. destruct H as [H1 H2].
  rewrite (IH _ H2).
  destruct (only DOLLAR c && negb (is_dollar prev) && negb (is_dollar (hd_error s)));
    [|reflexivity].
  apply andb_prop in H1. destruct H1 as [-> ->]. reflexivity.
Qed.

Lemma pad_dollars_twice l :
  pad_dollars None (pad_dollars None l) = pad_dollars None l.
Proof. apply padded_fix, padded_pad. left. reflexivity. Qed.

Lemma no_dollar_padded s :
  forallb (fun c => negb (only DOLLAR c)) s = true -> forall prev, padded prev s = true.
Proof.
  induction s as [|c s IH]; intros H prev; [reflexivity|].
  simpl in H. apply andb_prop in H. destruct H as [Hc Hs].
  apply negb_true_iff in Hc. cbn [padded]. rewrite Hc. cbn [andb]. apply IH, Hs.
Qed.

(** ** The loop over the lines *)

Lemma dollars_loop_cons code math l rest :
  dollars_loop code math (l :: rest)
  = (if fence (trim l) || startsWith (trim l) (js "$$") && negb code || (code || math)
     then l else pad_dollars None l)
      :: dollars_loop (fst (toggles code math [l])) (snd (toggles code math [l])) rest.
Proof.
  cbn [dollars_loop toggles].
  destruct (fence (trim l)); [reflexivity|].
  destruct (startsWith (trim l) (js "$$") && negb code); [reflexivity|].
  cbn [orb]. destruct (code || math); [reflexivity|].
  rewrite dollar_replacements. reflexivity.
Qed.

Lemma dollars_loop_app pre post :
  forall code math,
    dollars_loop code math (pre ++ post)
    = dollars_loop code math pre
        ++ dollars_loop (fst (toggles code math pre)) (snd (toggles code math pre)) post.
Proof.
  induction pre as [|l pre IH]; intros code math; [reflexivity|].
  cbn [app]. rewrite !dollars_loop_cons, IH. cbn [app]. f_equal. f_equal.
  rewrite (toggles_app [l] pre). reflexivity.
Qed.

Lemma dollars_loop_length ls :
  forall code math, length (dollars_loop code math ls) = length ls.
Proof.
  induction ls as [|l ls IH]; intros code math; [reflexivity|].
  rewrite dollars_loop_cons. simpl. rewrite IH. reflexivity.
Qed.

Lemma unspaced_join ls : unspaced (join_lines ls) = join_lines (List.map unspaced ls).
Proof.
  induction ls as [|l ls IH]; [reflexivity|].
  destruct ls as [|l' ls]; [reflexivity|].
  change (join_lines (l :: l' :: ls)) with (l ++ LF :: join_lines (l' :: ls)).
  change (List.map unspaced (l :: l' :: ls))
    with (unspaced l :: List.map unspaced (l' :: ls)).
  unfold unspaced at 1. rewrite filter_app. cbn [filter].
  change (negb (char_eqb LF SP)) with true. cbv iota.
  fold (unspaced l). fold (unspaced (join_lines (l' :: ls))). rewrite IH.
  reflexivity.
Qed.

Lemma unspaced_dollars_loop ls :
  forall code math,
    List.map unspaced (dollars_loop code math ls) = List.map unspaced ls.
Proof.
  induction ls as [|l ls IH]; intros code math; [reflexivity|].
  rewrite dollars_loop_cons. cbn [List.map]. rewrite IH. f_equal.
  destruct (_ || _ || _); [reflexivity|apply unspaced_pad].
Qed.

Lemma no_cr_join_lines input :
  forallb (fun c => negb (char_eqb c CR)) input = true ->
  join_lines (lines_of input) = input.
Proof. intros H. rewrite no_cr_lines by exact H. apply join_split_lines. Qed.

(** X14: dollar normalisation only inserts spaces: for a text
    without carriage returns, the result and the input are the same
    text once the spaces (U+0020) are taken out of both; no other
    character is added, removed or moved, in no line. *)
Theorem dollar_normalisation_only_inserts_spaces :
  forall input : jsstring,
    forallb (fun c => negb (char_eqb c CR)) input = true ->
    unspaced (_normalizeInlineDollars input) = unspaced input.
Proof.
  intros input H. unfold _normalizeInlineDollars.
  rewrite unspaced_join, unspaced_dollars_loop, <- unspaced_join.
  rewrite no_cr_join_lines by exact H. reflexivity.
Qed.

Lemma toggles_plain_line code math line :
  boundary line = false -> toggles code math [line] = (code, math).
Proof.
  unfold boundary. intros H. apply orb_false_iff in H. destruct H as [F D].
  cbn [toggles]. rewrite F, D. reflexivity.
Qed.

(** X15: a line outside code fences and block math that is no
    fence or [$$] line comes out with a space put before every dollar
    sign that stands alone (no dollar sign next to it) and has no white
    space before it, and a space put behind every such sign that has no
    white space behind it, so that in the result every dollar sign that
    stands alone has white space on both sides. The other lines of the
    text come out as they would without that line. *)
Theorem lone_dollar_signs_get_padded :
  forall (pre : list jsstring) (line : jsstring) (post : list jsstring),
    forallb plain_line (pre ++ line :: post) = true ->
    toggles false false pre = (false, false) ->
    boundary line = false ->
    _normalizeInlineDollars (join_lines (pre ++ line :: post))
    = join_lines (dollars_loop false false pre
                    ++ pad_dollars None line :: dollars_loop false false post)
    /\ padded None (pad_dollars None line) = true.
Proof.
  intros pre line post Hplain Htog Hb. split.
  - unfold _normalizeInlineDollars.
    rewrite lines_of_join; [|destruct pre; discriminate|exact Hplain].
    rewrite dollars_loop_app, Htog. cbn [fst snd].
    rewrite dollars_loop_cons, (toggles_plain_line false false line Hb).
    unfold boundary in Hb. apply orb_false_iff in Hb. destruct Hb as [-> ->].
    reflexivity.
  - apply padded_pad. left. reflexivity.
Qed.

Lemma padded_lines_stay ls :
  Forall (fun l => padded None l = true) ls ->
  forall code math, dollars_loop code math ls = ls.
Proof.
  induction 1 as [|l ls Hl Hls IH]; intros code math; [reflexivity|].
  rewrite dollars_loop_cons, IH, (padded_fix l None Hl).
  destruct (_ || _ || _); reflexivity.
Qed.

Lemma split_lines_forall (P : char -> bool) s :
  forallb P s = true -> Forall (fun l => forallb P l = true) (split_lines s).
Proof.
  induction s as [|c s IH]; simpl; [repeat constructor|].
  intros H. apply andb_prop in H. destruct H as [Hc Hs]. specialize (IH Hs).
  destruct (char_eqb c LF); [constructor; [reflexivity|exact IH]|].
  destruct (split_lines s) as [|l ls]; [repeat constructor; simpl; rewrite Hc; reflexivity|].
  inversion IH; subst. constructor; [simpl; rewrite Hc; assumption|assumption].
Qed.

Lemma no_backslash_no_span open allowed close b s :
  only open BACKSLASH = false -> only close BACKSLASH = false ->
  match s with c :: _ => only BACKSLASH c = false | [] => True end ->
  match_here (span_re open allowed close) b s = None.
Proof.
  intros Ho Hc H. rewrite match_here_span by assumption.
  unfold span_here, delim. destruct s as [|c s]; [reflexivity|]. rewrite H.
  reflexivity.
Qed.

Lemma replace_span_no_backslash open allowed close (f : caps -> jsstring) s :
  only open BACKSLASH = false -> only close BACKSLASH = false ->
  forallb (fun c => negb (only BACKSLASH c)) s = true ->
  replace (span_re open allowed close) f s = s.
Proof.
  intros Ho Hc H. unfold replace.
  rewrite <- (app_nil_r s) at 1. rewrite replace_from_no_match.
  - cbn [replace_from]. rewrite no_backslash_no_span by (assumption || exact I).
    apply app_nil_r.
  - intros p1 p2 E Hp. apply no_backslash_no_span; try assumption.
    destruct p2 as [|c p2]; [congruence|]. simpl.
    rewrite forallb_forall in H. apply negb_true_iff, H.
    rewrite E. apply in_or_app. right. left. reflexivity.
Qed.

(** X16: plain text passes through. A text with no backslash is
    left as it is by the two bracket rewrites, and a text with no dollar
    sign and no carriage return by the dollar normalisation; so for a
    text with none of the three, preprocessing without hard breaks
    returns the text itself whatever the math syntax flags are, and
    preprocessing with hard breaks does nothing but insert the hard
    breaks. *)
Theorem plain_text_passes_through :
  forall (ms : mathSyntax_t) (text : jsstring),
    forallb (fun c => negb (only BACKSLASH c)) text = true ->
    forallb (fun c => negb (only DOLLAR c)) text = true ->
    forallb (fun c => negb (char_eqb c CR)) text = true ->
    replace inline_re inline_math (replace block_re block_math text) = text
    /\ _normalizeInlineDollars text = text
    /\ _preprocess ms false text = text
    /\ _preprocess ms true text
       = if brackets ms then _applyHardBreaks text else text.
Proof.
  intros ms text Hb Hd Hcr.
  assert (E1 : replace inline_re inline_math (replace block_re block_math text) = text).
  { rewrite block_re_span, inline_re_span.
    rewrite (replace_span_no_backslash LBRACKET dot_all RBRACKET block_math text)
      by (reflexivity || exact Hb).
    apply replace_span_no_backslash; (reflexivity || exact Hb). }
  assert (E2 : _normalizeInlineDollars text = text).
  { unfold _normalizeInlineDollars. rewrite padded_lines_stay.
    - apply no_cr_join_lines, Hcr.
    - rewrite no_cr_lines by exact Hcr.
      pose proof (split_lines_forall (fun c => negb (only DOLLAR c)) text Hd) as F.
      eapply Forall_impl; [|exact F]. intros l Hl. apply no_dollar_padded, Hl. }
  split; [exact E1|]. split; [exact E2|].
  unfold _preprocess. destruct (brackets ms); cbn [negb]; [|auto].
  cbv zeta. rewrite E1. destruct (dollars ms); rewrite ?E2; auto.
Qed.

(** ** A second normalisation changes nothing *)

Lemma trimStart_split (x : jsstring) :
  exists ws, x = ws ++ trimStart x /\ forallb is_space ws = true.
Proof.
  induction x as [|c x IH]; [exists []; auto|]. simpl.
  destruct (is_space c) eqn:E; [|exists []; auto].
  destruct IH as (ws & E1 & E2). exists (c :: ws). simpl. rewrite E, E2.
  split; [congruence|reflexivity].
Qed.

Lemma trimEnd_split (y : jsstring) :
  exists ws, y = trimEnd y ++ ws /\ forallb is_space ws = true.
Proof.
  destruct (trimStart_split (rev y)) as (ws & E1 & E2).
  exists (rev ws). split.
  - unfold trimEnd. rewrite <- rev_app_distr, <- E1, rev_involutive. reflexivity.
  - rewrite forallb_forall in *. intros c Hc. apply E2, in_rev, Hc.
Qed.

Lemma startsWith_nil (s : jsstring) : startsWith s [] = true.
Proof. destruct s; reflexivity. Qed.

Lemma startsWith_app_spaces (p : jsstring) :
  forallb (fun x => negb (is_space x)) p = true ->
  forall a ws, forallb is_space ws = true ->
               startsWith (a ++ ws) p = startsWith a p.
Proof.
  induction p as [|x p IH]; intros Hp a ws Hws.
  - rewrite !startsWith_nil. reflexivity.
  - simpl in Hp. apply andb_prop in Hp. destruct Hp as [Hx Hp].
    apply negb_true_iff in Hx.
    destruct a as [|c a]; simpl.
    + destruct ws as [|w ws]; [reflexivity|]. simpl in *.
      apply andb_prop in Hws. destruct Hws as [Hw _].
      unfold char_eqb. destruct (N.eqb_spec w x) as [->|]; [congruence|reflexivity].
    + rewrite IH by assumption. reflexivity.
Qed.

(** Whether a line begins, after white space, with a marker that has
    no white space in it, can be asked of the line trimmed at its
    start only. *)
Lemma startsWith_trim (p l : jsstring) :
  forallb (fun x => negb (is_space x)) p = true ->
  startsWith (trim l) p = startsWith (trimStart l) p.
Proof.
  intros Hp. unfold trim.
  destruct (trimEnd_split (trimStart l)) as (ws & E1 & E2).
  rewrite E1 at 2. rewrite startsWith_app_spaces by assumption. reflexivity.
Qed.

Lemma space_not_dollar (c : char) : is_space c = true -> only DOLLAR c = false.
Proof.
  intros H. destruct (only DOLLAR c) eqn:E; [|reflexivity].
  rewrite (dollar_not_space c E) in H. discriminate.
Qed.

(** A marker without dollar sign and space is there after the
    rewriting exactly when it was there before. *)
Lemma startsWith_pad (q : jsstring) :
  forallb (fun x => negb (only DOLLAR x) && negb (char_eqb x SP)) q = true ->
  forall prev r, startsWith (pad_dollars prev r) q = startsWith r q.
Proof.
  induction q as [|x q IH]; intros Hq prev r.
  - rewrite !startsWith_nil. reflexivity.
  - simpl in Hq. apply andb_prop in Hq. destruct Hq as [Hx Hq].
    apply andb_prop in Hx. destruct Hx as [Hx1 Hx2].
    apply negb_true_iff in Hx1. apply negb_true_iff in Hx2.
    destruct r as [|c r]; [reflexivity|]. cbn [pad_dollars].
    assert (Hsp : char_eqb SP x = false).
    { unfold char_eqb in *. rewrite N.eqb_sym. exact Hx2. }
    destruct (only DOLLAR c) eqn:Dc.
    + assert (Hc : char_eqb c x = false).
      { apply only_eq in Dc. subst c. unfold only, char_eqb in *.
        rewrite N.eqb_sym. exact Hx1. }
      cbn [andb]. destruct (negb (is_dollar prev) && negb (is_dollar (hd_error r))).
      * destruct (is_blank prev); cbn [app startsWith]; rewrite ?Hsp, ?Hc; reflexivity.
      * cbn [app startsWith]. rewrite Hc. reflexivity.
    + cbn [andb app startsWith]. rewrite IH by exact Hq. reflexivity.
Qed.

Lemma pad_keeps_the_class l :
  forall prev,
    is_dollar prev = false ->
    fence (trimStart l) = false -> startsWith (trimStart l) (js "$$") = false ->
    fence (trimStart (pad_dollars prev l)) = false
    /\ startsWith (trimStart (pad_dollars prev l)) (js "$$") = false.
Proof.
  induction l as [|c l IH]; intros prev Hp F D; [auto|].
  cbn [trimStart] in F, D.
  destruct (is_space c) eqn:Sc.
  - cbn [pad_dollars]. rewrite (space_not_dollar c Sc). cbn [andb app trimStart].
    rewrite Sc. apply IH; try assumption. cbn [is_dollar].
    apply space_not_dollar, Sc.
  - destruct (only DOLLAR c) eqn:Dc.
    + pose proof (only_eq _ _ Dc) as Ec. subst c.
      cbn [pad_dollars]. rewrite Hp.
      assert (Dn : is_dollar (hd_error l) = false).
      { destruct l as [|c1 l]; [reflexivity|]. cbn [hd_error is_dollar].
        destruct (only DOLLAR c1) eqn:E1; [|reflexivity].
        apply only_eq in E1. subst c1.
        assert (startsWith (DOLLAR :: DOLLAR :: l) (js "$$") = true)
          by (apply startsWith_spec; exists l; reflexivity).
        congruence. }
      rewrite Dn. change (only DOLLAR DOLLAR) with true. cbn [negb andb].
      assert (T : trimStart (((if is_blank prev then [] else [SP]) ++ [DOLLAR]
                                ++ (if is_blank (hd_error l) then [] else [SP]))
                               ++ pad_dollars (Some DOLLAR) l)
                  = DOLLAR :: (if is_blank (hd_error l) then [] else [SP])
                      ++ pad_dollars (Some DOLLAR) l)
        by (destruct (is_blank prev); reflexivity).
      rewrite T. split; [reflexivity|].
      destruct (is_blank (hd_error l)) eqn:Bn; [|reflexivity].
      destruct l as [|c1 l]; [discriminate Bn|]. cbn [hd_error is_blank] in Bn.
      cbn [app pad_dollars]. rewrite (space_not_dollar c1 Bn). cbn [andb app].
      pose proof (space_not_dollar c1 Bn) as N1. unfold only in N1.
      cbn [startsWith js List.map list_ascii_of_string]. 
      change (char_eqb DOLLAR (N_of_ascii "$")) with true. cbn [andb].
      change (N_of_ascii "$") with DOLLAR. rewrite N1. reflexivity.
    + (* the line begins with another character *)
      assert (E : trimStart (pad_dollars prev (c :: l)) = pad_dollars prev (c :: l)).
      { cbn [pad_dollars]. rewrite Dc. cbn [andb app trimStart]. rewrite Sc.
        reflexivity. }
      rewrite E. unfold fence in *. rewrite !startsWith_pad by reflexivity.
      split; [exact F|].
      cbn [pad_dollars]. rewrite Dc. cbn [andb app].
      cbn [startsWith js List.map list_ascii_of_string].
      change (N_of_ascii "$") with DOLLAR. unfold only in Dc. rewrite Dc. reflexivity.
Qed.

Lemma boundary_pad l :
  boundary l = false -> boundary (pad_dollars None l) = false.
Proof.
  unfold boundary, fence. rewrite !startsWith_trim by reflexivity.
  intros H. apply orb_false_iff in H. destruct H as [F D].
  destruct (pad_keeps_the_class l None eq_refl F D) as [F' D'].
  unfold fence in F'. rewrite F', D'. reflexivity.
Qed.

Lemma dollars_loop_twice ls :
  forall code math,
    dollars_loop code math (dollars_loop code math ls) = dollars_loop code math ls.
Proof.
  induction ls as [|l ls IH]; intros code math; [reflexivity|].
  rewrite dollars_loop_cons.
  destruct (fence (trim l) || startsWith (trim l) (js "$$") && negb code
            || (code || math)) eqn:B.
  - rewrite dollars_loop_cons, B, IH. reflexivity.
  - apply orb_false_iff in B. destruct B as [B CM].
    apply orb_false_iff in CM. destruct CM as [-> ->].
    rewrite andb_true_r in B.
    pose proof (boundary_pad l B) as B'. unfold boundary in B'.
    rewrite (toggles_plain_line false false l B).
    rewrite dollars_loop_cons, andb_true_r, B'. cbn [orb fst snd].
    rewrite (toggles_plain_line false false (pad_dollars None l) (boundary_pad l B)).
    cbn [fst snd]. rewrite IH, pad_dollars_twice. reflexivity.
Qed.

Lemma forallb_pad (P : char -> bool) s :
  P SP = true -> forallb P s = true ->
  forall prev, forallb P (pad_dollars prev s) = true.
Proof.
  intros Hsp. induction s as [|c s IH]; intros H prev; [reflexivity|].
  simpl in H. apply andb_prop in H. destruct H as [Hc Hs].
  cbn [pad_dollars]. rewrite forallb_app, (IH Hs), andb_true_r.
  destruct (_ && _ && _); [|simpl; rewrite Hc; reflexivity].
  destruct (is_blank prev), (is_blank (hd_error s)); simpl;
    rewrite ?Hsp, ?Hc; reflexivity.
Qed.

Lemma forall_dollars_loop (P : char -> bool) ls :
  P SP = true ->
  Forall (fun l => forallb P l = true) ls ->
  forall code math,
    Forall (fun l => forallb P l = true) (dollars_loop code math ls).
Proof.
  intros Hsp. induction 1 as [|l ls Hl Hls IH]; intros code math; [constructor|].
  rewrite dollars_loop_cons. constructor; [|apply IH].
  destruct (_ || _ || _); [exact Hl|apply forallb_pad; assumption].
Qed.

Lemma dollars_loop_not_nil ls code math : ls <> [] -> dollars_loop code math ls <> [].
Proof. destruct ls; [congruence|]. rewrite dollars_loop_cons. discriminate. Qed.

(** X17: on a text without carriage returns dollar
    normalisation is idempotent: applied to its own result it changes
    nothing, so normalising the growing buffer again at every render
    pass never piles up spaces around a dollar sign. *)
Theorem dollar_normalisation_is_idempotent :
  forall input : jsstring,
    forallb (fun c => negb (char_eqb c CR)) input = true ->
    _normalizeInlineDollars (_normalizeInlineDollars input)
    = _normalizeInlineDollars input.
Proof.
  intros input Hcr. unfold _normalizeInlineDollars at 1 2.
  assert (Hno : Forall (fun l => forallb (fun c => negb (char_eqb c CR)) l = true)
                       (dollars_loop false false (lines_of input))).
  { apply forall_dollars_loop; [reflexivity|].
    rewrite no_cr_lines by exact Hcr. apply split_lines_forall, Hcr. }
  rewrite no_cr_lines by (apply join_lines_no_cr_lines, Hno).
  rewrite split_join_no_lf.
  - rewrite dollars_loop_twice. reflexivity.
  - apply dollars_loop_not_nil, lines_of_not_nil.
  - apply forall_dollars_loop; [reflexivity|apply lines_of_no_lf].
Qed.

(* ================================================================= *)
(** * Style sheets *)

Lemma cssFromMap_loop_acc entries :
  forall out, cssFromMap_loop entries out = out ++ cssFromMap_loop entries [].
Proof.
  induction entries as [|[sel rules] rest IH]; intros out.
  - simpl. rewrite app_nil_r. reflexivity.
  - destruct rules as [props|]; cbn [cssFromMap_loop]; [|apply IH].
    cbv zeta.
    set (X := sel ++ js " { " ++ join_spaces (List.map declaration props) ++ js " }" ++ [LF]).
    rewrite (IH (out ++ X)), (IH ([] ++ X)). cbn [app]. rewrite <- !app_assoc.
    reflexivity.
Qed.

Lemma cssFromMap_loop_app a b :
  cssFromMap_loop (a ++ b) [] = cssFromMap_loop a [] ++ cssFromMap_loop b [].
Proof.
  induction a as [|[sel rules] a IH]; [reflexivity|].
  destruct rules as [props|]; cbn [app cssFromMap_loop]; [|exact IH].
  cbv zeta.
  set (X := sel ++ js " { " ++ join_spaces (List.map declaration props) ++ js " }" ++ [LF]).
  rewrite (cssFromMap_loop_acc (a ++ b) X), IH, (cssFromMap_loop_acc a X).
  rewrite <- !app_assoc. reflexivity.
Qed.

(** X18: the style sheet [_cssFromMap] builds is the rules of the
    properties of the map one after the other, in their order: a
    property whose value is an object gives one line (the selector, the
    declarations in braces separated by single spaces, a line feed),
    every other property is skipped. So the sheet of two maps put
    together is the two sheets put together, and the sheet is empty
    exactly when no property of the map holds an object; a string or
    any other value gives the empty sheet. *)
Theorem css_from_map :
  (forall s, _cssFromMap (CssString s) = [])
  /\ _cssFromMap CssOther = []
  /\ (forall a b,
         _cssFromMap (CssMap (a ++ b)) = _cssFromMap (CssMap a) ++ _cssFromMap (CssMap b))
  /\ (forall sel props,
         _cssFromMap (CssMap [(sel, RObject props)])
         = sel ++ js " { " ++ join_spaces (List.map declaration props) ++ js " }" ++ [LF])
  /\ (forall sel, _cssFromMap (CssMap [(sel, ROther)]) = [])
  /\ (forall entries,
         _cssFromMap (CssMap entries) = [] <-> existsb has_rules entries = false).
Proof.
  split; [reflexivity|]. split; [reflexivity|]. split; [|split; [|split]].
  - intros a b. apply cssFromMap_loop_app.
  - reflexivity.
  - reflexivity.
  - intros entries. cbn [_cssFromMap].
    induction entries as [|[sel rules] rest IH]; [split; reflexivity|].
    destruct rules as [props|]; cbn [cssFromMap_loop existsb has_rules snd orb].
    + cbv zeta. rewrite cssFromMap_loop_acc. split; [|discriminate].
      intros H. apply app_eq_nil in H. destruct H as [H _]. cbn [app] in H.
      apply app_eq_nil in H. destruct H as [_ H]. discriminate H.
    + exact IH.
Qed.

Lemma named_app name a b : named name (a ++ b) = named name a || named name b.
Proof. unfold named. apply existsb_app. Qed.

Lemma count_named_app name a b :
  count_named name (a ++ b) = count_named name a + count_named name b.
Proof. unfold count_named. rewrite filter_app, length_app. reflexivity. Qed.

Lemma has_style_appended name doc added :
  has_style name (appended doc added) = has_style name doc || named name added.
Proof.
  unfold has_style, appended. cbn [in_head elsewhere]. rewrite named_app.
  destruct (named name (in_head doc)), (named name added),
    (named name (elsewhere doc)); reflexivity.
Qed.

Lemma count_style_appended name doc added :
  count_style name (appended doc added)
  = count_style name doc + count_named name added.
Proof.
  unfold count_style, appended. cbn [in_head elsewhere]. rewrite count_named_app. lia.
Qed.

Lemma appended_nil doc : appended doc [] = doc.
Proof. destruct doc. unfold appended. cbn. rewrite app_nil_r. reflexivity. Qed.

Lemma appended_app doc a b : appended (appended doc a) b = appended doc (a ++ b).
Proof. unfold appended. cbn. rewrite app_assoc. reflexivity. Qed.

Lemma appended_inj doc a b : appended doc a = appended doc b -> a = b.
Proof.
  unfold appended. intros H. injection H as H. apply app_inv_head in H. exact H.
Qed.

Lemma not_named_no_count name l : named name l = false -> count_named name l = 0.
Proof.
  unfold named, count_named. induction l as [|st l IH]; [reflexivity|].
  simpl. destruct (str_eqb (fst st) (js name)); [discriminate|exact IH].
Qed.

Lemma named_counts name l : named name l = true -> 1 <= count_named name l.
Proof.
  unfold named, count_named. induction l as [|st l IH]; [discriminate|].
  simpl. destruct (str_eqb (fst st) (js name)); simpl; [lia|exact IH].
Qed.

Lemma no_style_no_count name doc : has_style name doc = false -> count_style name doc = 0.
Proof.
  unfold has_style, count_style. intros H. apply orb_false_iff in H.
  destruct H as [H1 H2].
  rewrite (not_named_no_count _ _ H1), (not_named_no_count _ _ H2). reflexivity.
Qed.

Lemma style_counts name doc : has_style name doc = true -> 1 <= count_style name doc.
Proof.
  unfold has_style, count_style. intros H. apply orb_true_iff in H.
  destruct H as [H|H]; apply named_counts in H; lia.
Qed.

Lemma str_eqb_refl (a : jsstring) : str_eqb a a = true.
Proof. apply str_eqb_eq. reflexivity. Qed.

Lemma named_one name text : named name [(js name, text)] = true.
Proof. unfold named. simpl. rewrite str_eqb_refl. reflexivity. Qed.

(** What [add_style] appends to [document.head]: nothing when the name
    is there, the one element when it is not. *)
Lemma add_style_spec name text doc :
  add_style name text doc
  = appended doc (if has_style name doc then [] else [(js name, text)]).
Proof.
  unfold add_style. destruct (has_style name doc); [rewrite appended_nil|];
    reflexivity.
Qed.

Lemma has_style_add name text doc : has_style name (add_style name text doc) = true.
Proof.
  rewrite add_style_spec, has_style_appended. destruct (has_style name doc) eqn:E;
    [reflexivity|]. rewrite named_one. reflexivity.
Qed.

Lemma has_style_kept name other text doc :
  has_style name doc = true -> has_style name (add_style other text doc) = true.
Proof. intros H. rewrite add_style_spec, has_style_appended, H. reflexivity. Qed.

Lemma add_style_there name text doc :
  has_style name doc = true -> add_style name text doc = doc.
Proof. intros H. unfold add_style. rewrite H. reflexivity. Qed.

Lemma add_if_spec (b : bool) name text doc :
  exists added,
    (if b then add_style name text doc else doc) = appended doc added
    /\ (added = [] \/ has_style name doc = false /\ added = [(js name, text)]).
Proof.
  destruct b.
  - rewrite add_style_spec. eexists. split; [reflexivity|].
    destruct (has_style name doc); auto.
  - exists []. rewrite appended_nil. auto.
Qed.

(** The style sheet for [katex-overrides] and the one for
    [md-overrides], as the constructor works them out. *)
Lemma constructor_styles_some o doc :
  constructor_styles o (Some doc)
  = Some
      (let css :=
         if negb (truthy (katexCssOverrides o))
            && str_eqb (katexStylePreset o) (js "academic")
         then academic_css else katexCssOverrides o in
       let cssText :=
         match cssOverrides o with
         | CssString s => s
         | m => _cssFromMap m
         end in
       let d1 := if truthy css then add_style "katex-overrides" css doc else doc in
       if truthy cssText then add_style "md-overrides" cssText d1 else d1).
Proof.
  unfold constructor_styles. cbv zeta.
  destruct (truthy (if negb (truthy (katexCssOverrides o))
                       && str_eqb (katexStylePreset o) (js "academic")
                    then academic_css else katexCssOverrides o));
    destruct (truthy (match cssOverrides o with
                      | CssString s => s
                      | m => _cssFromMap m
                      end)); reflexivity.
Qed.

(** One constructor call: what it appends to [document.head]. *)
Lemma constructor_styles_spec o doc :
  exists k m,
    constructor_styles o (Some doc) = Some (appended doc (k ++ m))
    /\ (k = [] \/ has_style "katex-overrides" doc = false
                  /\ exists text, k = [(js "katex-overrides", text)])
    /\ (m = [] \/ has_style "md-overrides" doc = false
                  /\ exists text, m = [(js "md-overrides", text)]).
Proof.
  rewrite constructor_styles_some. cbv zeta.
  match goal with |- context [if truthy ?c then add_style "katex-overrides" _ _ else _] =>
    destruct (add_if_spec (truthy c) "katex-overrides" c doc) as (k & Ek & Hk) end.
  rewrite Ek.
  match goal with |- context [if truthy ?c then add_style "md-overrides" _ _ else _] =>
    destruct (add_if_spec (truthy c) "md-overrides" c (appended doc k))
      as (m & Em & Hm) end.
  rewrite Em, appended_app. exists k, m. split; [reflexivity|]. split.
  - destruct Hk as [->|[H ->]]; [left; reflexivity|].
    right. split; [exact H|]. eexists. reflexivity.
  - destruct Hm as [->|[H ->]]; [left; reflexivity|].
    right. rewrite has_style_appended in H. apply orb_false_iff in H.
    split; [apply H|]. eexists. reflexivity.
Qed.

Lemma count_one name text : count_named name [(js name, text)] = 1.
Proof. unfold count_named. simpl. rewrite str_eqb_refl. reflexivity. Qed.

Lemma constructor_styles_counts o doc added :
  constructor_styles o (Some doc) = Some (appended doc added) ->
  count_style "katex-overrides" (appended doc added)
  <= Nat.max 1 (count_style "katex-overrides" doc)
  /\ count_style "md-overrides" (appended doc added)
     <= Nat.max 1 (count_style "md-overrides" doc).
Proof.
  destruct (constructor_styles_spec o doc) as (k & m & E & Hk & Hm).
  rewrite E. intros H. injection H as H. apply app_inv_head in H. subst added.
  rewrite !count_style_appended, !count_named_app.
  assert (K1 : count_named "katex-overrides" k = 0
               \/ count_style "katex-overrides" doc = 0
                  /\ count_named "katex-overrides" k = 1).
  { destruct Hk as [->|(H & text & ->)]; [left; reflexivity|].
    right. split; [apply no_style_no_count, H|apply count_one]. }
  assert (K2 : count_named "katex-overrides" m = 0).
  { destruct Hm as [->|(_ & text & ->)]; reflexivity. }
  assert (M1 : count_named "md-overrides" m = 0
               \/ count_style "md-overrides" doc = 0
                  /\ count_named "md-overrides" m = 1).
  { destruct Hm as [->|(H & text & ->)]; [left; reflexivity|].
    right. split; [apply no_style_no_count, H|apply count_one]. }
  assert (M2 : count_named "md-overrides" k = 0).
  { destruct Hk as [->|(_ & text & ->)]; reflexivity. }
  lia.
Qed.

(** X19: however many renderers are constructed on a page, with
    whatever options, the constructor never touches a [style] element
    that is there: it only appends to [document.head], behind the
    [style] elements already in it, and leaves the rest of the document
    as it is. It adds no element of another name than [katex-overrides]
    and [md-overrides], and leaves at most one of each in the document
    unless there were more before: a sheet of that name already there,
    in [document.head] or elsewhere, wins, so the overrides of a later
    renderer are not applied. Constructing with the same options a
    second time changes nothing, and without a document nothing
    happens. *)
Theorem style_sheets_are_added_once :
  forall (os : list style_options) (doc : document_t),
    (exists added,
        construct_all os (Some doc)
        = Some {| in_head := in_head doc ++ added; elsewhere := elsewhere doc |}
        /\ Forall (fun st => fst st = js "katex-overrides"
                             \/ fst st = js "md-overrides") added
        /\ count_style "katex-overrides" (appended doc added)
           <= Nat.max 1 (count_style "katex-overrides" doc)
        /\ count_style "md-overrides" (appended doc added)
           <= Nat.max 1 (count_style "md-overrides" doc)
        /\ (has_style "katex-overrides" doc = true ->
            named "katex-overrides" added = false)
        /\ (has_style "md-overrides" doc = true ->
            named "md-overrides" added = false))
    /\ construct_all os None = None
    /\ (forall o,
           constructor_styles o (constructor_styles o (Some doc))
           = constructor_styles o (Some doc)).
Proof.
  intros os doc. split; [|split].
  - assert (G : exists added,
               construct_all os (Some doc) = Some (appended doc added)
               /\ Forall (fun st => fst st = js "katex-overrides"
                                    \/ fst st = js "md-overrides") added
               /\ count_style "katex-overrides" (appended doc added)
                  <= Nat.max 1 (count_style "katex-overrides" doc)
               /\ count_style "md-overrides" (appended doc added)
                  <= Nat.max 1 (count_style "md-overrides" doc)).
    { revert doc. induction os as [|o os IH]; intros doc.
      - exists []. rewrite appended_nil. split; [reflexivity|].
        split; [apply Forall_nil|]. split; lia.
      - destruct (constructor_styles_spec o doc) as (k & m & E & Hk & Hm).
        destruct (constructor_styles_counts o doc (k ++ m) E) as [C1 C2].
        destruct (IH (appended doc (k ++ m))) as (added & E' & F & D1 & D2).
        exists ((k ++ m) ++ added). unfold construct_all in *. cbn [fold_left].
        rewrite E.
        split; [etransitivity; [exact E'|]; rewrite appended_app; reflexivity|].
        split.
        + rewrite <- app_assoc. apply Forall_app. split; [|apply Forall_app; split].
          * destruct Hk as [->|(_ & text & ->)];
              [apply Forall_nil|apply Forall_cons; [left; reflexivity|apply Forall_nil]].
          * destruct Hm as [->|(_ & text & ->)];
              [apply Forall_nil|apply Forall_cons; [right; reflexivity|apply Forall_nil]].
          * exact F.
        + rewrite appended_app in D1, D2.
          rewrite !count_style_appended in *. lia. }
    destruct G as (added & E & F & C1 & C2). exists added.
    split; [exact E|]. split; [exact F|]. split; [exact C1|]. split; [exact C2|].
    rewrite !count_style_appended in *. split; intros H.
    + pose proof (style_counts _ _ H).
      destruct (named "katex-overrides" added) eqn:A; [|reflexivity].
      pose proof (named_counts _ _ A). lia.
    + pose proof (style_counts _ _ H).
      destruct (named "md-overrides" added) eqn:A; [|reflexivity].
      pose proof (named_counts _ _ A). lia.
  - unfold construct_all. induction os as [|o os IH]; [reflexivity|exact IH].
  - intros o. rewrite !constructor_styles_some. cbv zeta.
    set (css := if negb (truthy (katexCssOverrides o))
                   && str_eqb (katexStylePreset o) (js "academic")
                then academic_css else katexCssOverrides o).
    set (cssText := match cssOverrides o with
                    | CssString s => s
                    | m => _cssFromMap m
                    end).
    f_equal.
    destruct (truthy css), (truthy cssText); try reflexivity.
    + rewrite (add_style_there "katex-overrides" css)
        by (apply has_style_kept, has_style_add).
      apply add_style_there, has_style_add.
    + apply add_style_there, has_style_add.
    + apply add_style_there, has_style_add.
Qed.

(* ================================================================= *)
(** * The KaTeX style sheet *)

Lemma GetSubstitution_plain (template : jsstring) :
  forallb (fun c => negb (only DOLLAR c)) template = true ->
  forall matched before after,
    GetSubstitution matched before after template = template.
Proof.
  induction template as [|c t IH]; intros H matched before after; [reflexivity|].
  simpl in H. apply andb_prop in H. destruct H as [Hc Ht].
  apply negb_true_iff in Hc. cbn [GetSubstitution]. rewrite Hc, (IH Ht). reflexivity.
Qed.

Lemma replace_str_from_skip (r : re) (t x : jsstring) :
  forall b s,
    replace_str_from r t (length x) b (x ++ s) = replace_str_from r t 0 (rev x ++ b) s.
Proof.
  induction x as [|c x IH]; intros b s.
  - reflexivity.
  - simpl length. simpl app. cbn [replace_str_from]. rewrite IH.
    simpl rev. rewrite <- app_assoc. reflexivity.
Qed.

Lemma replace_str_from_match (r : re) (t : jsstring) b m s1 b' cs :
  m <> [] ->
  match_here r b (m ++ s1) = Some (b', s1, cs) ->
  replace_str_from r t 0 b (m ++ s1)
  = GetSubstitution m (rev b) s1 t ++ replace_str_from r t 0 (rev m ++ b) s1.
Proof.
  intros Hm H. destruct m as [|c m]; [congruence|].
  assert (E : length ((c :: m) ++ s1) - length s1 = S (length m))
    by (rewrite length_app; cbn [length]; lia).
  assert (F : firstn (S (length m)) ((c :: m) ++ s1) = c :: m).
  { change (S (length m)) with (length (c :: m)).
    rewrite firstn_app, Nat.sub_diag, firstn_all. cbn [firstn]. apply app_nil_r. }
  simpl app in *. cbn [replace_str_from]. rewrite H, E, F. f_equal.
  rewrite replace_str_from_skip. simpl rev. rewrite <- app_assoc. reflexivity.
Qed.

Lemma replace_str_from_no_match (r : re) (t pre : jsstring) :
  forall b s,
    (forall p1 p2, pre = p1 ++ p2 -> p2 <> [] ->
                   match_here r (rev p1 ++ b) (p2 ++ s) = None) ->
    replace_str_from r t 0 b (pre ++ s) = pre ++ replace_str_from r t 0 (rev pre ++ b) s.
Proof.
  induction pre as [|c pre IH]; intros b s H.
  - reflexivity.
  - simpl app. cbn [replace_str_from].
    pose proof (H [] (c :: pre) eq_refl) as H0. simpl in H0.
    rewrite H0 by discriminate.
    f_equal. rewrite IH.
    + simpl rev. rewrite <- app_assoc. reflexivity.
    + intros p1 p2 E Hp. specialize (H (c :: p1) p2).
      simpl in H. rewrite <- app_assoc in H. apply H; [congruence|exact Hp].
Qed.

(** A text in which the expression matches nowhere comes back as it
    is. *)
Lemma replace_str_nowhere (r : re) (t s : jsstring) :
  (forall b p1 p2, s = p1 ++ p2 -> match_here r b p2 = None) ->
  forall b, replace_str_from r t 0 b s = s.
Proof.
  intros H b. rewrite <- (app_nil_r s) at 1. rewrite replace_str_from_no_match.
  - cbn [replace_str_from]. rewrite (H _ s []) by (rewrite app_nil_r; reflexivity).
    apply app_nil_r.
  - intros p1 p2 E Hp. rewrite app_nil_r. apply (H _ p1 p2 E).
Qed.

Lemma run_text (A : Type) (p : jsstring) :
  forall b s' cs (k : jsstring -> jsstring -> caps -> option A),
    Regex.run (seq (List.map (fun c => Cls (only c)) p)) b (p ++ s') cs k
    = k (rev p ++ b) s' cs.
Proof.
  induction p as [|c p IH]; intros b s' cs k; [reflexivity|].
  assert (Hc : only c c = true) by (unfold only, char_eqb; apply N.eqb_refl).
  destruct p as [|c' p].
  - cbn [List.map seq Regex.run app]. rewrite Hc. reflexivity.
  - change (seq (List.map (fun c => Cls (only c)) (c :: c' :: p)))
      with (Cat (Cls (only c)) (seq (List.map (fun c => Cls (only c)) (c' :: p)))).
    change ((c :: c' :: p) ++ s') with (c :: ((c' :: p) ++ s')).
    cbn [Regex.run]. rewrite Hc. rewrite IH.
    cbn [rev]. rewrite <- !app_assoc. reflexivity.
Qed.

Lemma match_lit (l : string) b s' :
  match_here (lit l) b (js l ++ s') = Some (rev (js l) ++ b, s', []).
Proof. unfold match_here, lit. apply run_text. Qed.

Lemma match_lit_begins (l : string) b s :
  match_here (lit l) b s <> None -> exists s', s = js l ++ s'.
Proof.
  unfold match_here. intros H. apply run_defined in H.
  - destruct H as (b' & s' & H & _). apply spans_lit in H. exists s'. apply H.
  - intros b0 s0 c1 c2. split; discriminate.
Qed.

Lemma occurs_inside (p x y z : jsstring) : occurs p y -> occurs p (x ++ y ++ z).
Proof.
  intros (a & c & ->). exists (x ++ a), (c ++ z). rewrite <- !app_assoc. reflexivity.
Qed.

Lemma occurs_behind (p x y : jsstring) : occurs p y -> occurs p (x ++ y).
Proof.
  intros H. rewrite <- (app_nil_r y). apply occurs_inside, H.
Qed.

(** Every match of one of the nine expressions holds a font
    reference. *)
Lemma lit_mentions (l : string) b s :
  startsWith (js l) font_reference = true ->
  match_here (lit l) b s <> None -> occurs font_reference s.
Proof.
  intros Hl H. apply match_lit_begins in H. destruct H as (s' & ->).
  apply startsWith_spec in Hl. destruct Hl as (rest & ->).
  exists [], (rest ++ s'). rewrite <- app_assoc. reflexivity.
Qed.

Lemma sources_mention (ext fmt : string) b s :
  match_here
    (seq [one 44%N; Rep is_space 0 None true; lit "url(fonts/KaTeX_";
          Rep (fun c => negb (only 41%N c)) 1 None true; lit ext;
          Rep is_space 0 None true; lit fmt]) b s <> None ->
  occurs font_reference s.
Proof.
  unfold match_here. intros H. apply run_defined in H.
  2:{ intros b0 s0 c1 c2. split; discriminate. }
  destruct H as (b' & s' & H & _).
  apply spans_seq_cons in H. destruct H as (b1 & s1 & (c & E1 & _ & _) & H).
  apply spans_seq_cons in H. destruct H as (b2 & s2 & (ws & E2 & _) & H).
  apply spans_seq_cons in H. destruct H as (b3 & s3 & H3 & _).
  apply spans_lit in H3. destruct H3 as [E3 _].
  exists (c :: ws), s3. rewrite E1, E2, E3. reflexivity.
Qed.

Lemma replace_str_unmentioned (r : re) (t s : jsstring) :
  (forall b p, match_here r b p <> None -> occurs font_reference p) ->
  ~ occurs font_reference s ->
  forall b, replace_str_from r t 0 b s = s.
Proof.
  intros Hr Hs. apply replace_str_nowhere. intros b p1 p2 E.
  destruct (match_here r b p2) eqn:M; [|reflexivity]. exfalso. apply Hs.
  rewrite E. apply occurs_behind, (Hr b). rewrite M. discriminate.
Qed.

(** X20: [rewriteKatexCss] changes font references only: a style sheet
    in which [url(fonts/KaTeX_] does not occur comes back as it is,
    whatever the URLs of the font files are. *)
Theorem sheet_without_font_references_is_kept :
  forall (im : imports) (css : jsstring),
    ~ occurs font_reference css -> rewriteKatexCss im css = css.
Proof.
  intros im css H. unfold rewriteKatexCss, replace_str, woff_re, ttf_re. cbv zeta.
  do 9 (rewrite (replace_str_unmentioned _ _ css);
        [|intros ? ?;
          first [apply lit_mentions; reflexivity|apply sources_mention]
         |exact H]).
  reflexivity.
Qed.

Lemma tails_split (l p1 p2 : jsstring) : l = p1 ++ p2 -> p2 <> [] -> In p2 (tails l).
Proof.
  revert l. induction p1 as [|c p1 IH]; intros l E Hp.
  - simpl in E. subst l. destruct p2; [congruence|left; reflexivity].
  - subst l. cbn [app tails]. right. apply IH; [reflexivity|exact Hp].
Qed.

Lemma clash_app (u : jsstring) :
  forall l, clash l u = true -> forall post, startsWith (u ++ post) l = false.
Proof.
  induction u as [|c u IH]; intros [|x l] H post; unfold clash in H.
  - discriminate H.
  - cbn [startsWith] in H. discriminate H.
  - rewrite startsWith_nil in H. discriminate H.
  - cbn [startsWith app] in *. unfold char_eqb in *.
    rewrite (N.eqb_sym x c) in H.
    destruct (N.eqb c x); [|reflexivity]. cbn [andb] in *.
    apply IH. exact H.
Qed.

Lemma occurs_tails (p s : jsstring) :
  forallb (fun u => negb (startsWith u p)) (tails s) = true -> p <> [] ->
  ~ occurs p s.
Proof.
  intros H Hp (a & c & E).
  assert (Hin : In (p ++ c) (tails s)).
  { apply (tails_split s a (p ++ c) E). destruct p; [congruence|discriminate]. }
  rewrite forallb_forall in H. specialize (H _ Hin).
  apply negb_true_iff in H.
  assert (startsWith (p ++ c) p = true) by (apply startsWith_spec; exists c; reflexivity).
  congruence.
Qed.

(** A font reference cannot begin in a text without an opening
    parenthesis and end in the reference behind it. *)
Lemma paren_blocks (p2 y z : jsstring) :
  p2 <> [] -> forallb (fun c => negb (only 40%N c)) p2 = true ->
  p2 ++ js "url(" ++ y <> js "url(" ++ z.
Proof.
  intros Hne Hp E. change (js "url(") with [117; 114; 108; 40]%N in E.
  destruct p2 as [|c0 p2]; [congruence|]. cbn [app] in E. injection E as E0 E.
  destruct p2 as [|c1 p2]; cbn [app] in E; [discriminate E|]. injection E as E1 E.
  destruct p2 as [|c2 p2]; cbn [app] in E; [discriminate E|]. injection E as E2 E.
  destruct p2 as [|c3 p2]; cbn [app] in E; [discriminate E|]. injection E as E3 E.
  subst c3. simpl in Hp. rewrite !andb_false_r in Hp. discriminate Hp.
Qed.

Lemma no_match_before (lj li : string) (pre post : jsstring) :
  startsWith (js lj) (js "url(") = true ->
  startsWith (js li) (js "url(") = true ->
  forallb (fun c => negb (only 40%N c)) pre = true ->
  forall b p1 p2,
    pre = p1 ++ p2 -> p2 <> [] ->
    match_here (lit lj) b (p2 ++ js li ++ post) = None.
Proof.
  intros Hj Hi Hpre b p1 p2 E Hp.
  destruct (match_here (lit lj) b (p2 ++ js li ++ post)) eqn:M; [|reflexivity].
  exfalso.
  assert (M' : match_here (lit lj) b (p2 ++ js li ++ post) <> None)
    by (rewrite M; discriminate).
  apply match_lit_begins in M'. destruct M' as (s' & M').
  apply startsWith_spec in Hj. destruct Hj as (yj & Hj).
  apply startsWith_spec in Hi. destruct Hi as (yi & Hi).
  rewrite Hj, Hi, <- !app_assoc in M'.
  apply (paren_blocks p2 (yi ++ post) (yj ++ s')); [exact Hp| |exact M'].
  rewrite E, forallb_app in Hpre. apply andb_prop in Hpre. apply Hpre.
Qed.

(** An expression for another font file passes over the reference. *)
Lemma lit_skips (lj li : string) (t pre post : jsstring) :
  startsWith (js lj) (js "url(") = true ->
  startsWith (js li) (js "url(") = true ->
  startsWith (js lj) font_reference = true ->
  forallb (clash (js lj)) (tails (js li)) = true ->
  forallb (fun c => negb (only 40%N c)) pre = true ->
  ~ occurs font_reference post ->
  forall b,
    replace_str_from (lit lj) t 0 b (pre ++ js li ++ post) = pre ++ js li ++ post.
Proof.
  intros Hj Hi Hf Hc Hpre Hpost b.
  rewrite replace_str_from_no_match.
  2:{ intros p1 p2 E Hp. apply (no_match_before lj li pre post Hj Hi Hpre _ p1 p2 E Hp). }
  f_equal. rewrite replace_str_from_no_match.
  2:{ intros p1 p2 E Hp.
      destruct (match_here (lit lj) (rev p1 ++ rev pre ++ b) (p2 ++ post)) eqn:M;
        [|reflexivity].
      exfalso.
      assert (M' : match_here (lit lj) (rev p1 ++ rev pre ++ b) (p2 ++ post) <> None)
        by (rewrite M; discriminate).
      apply match_lit_begins in M'. destruct M' as (s' & M').
      assert (S1 : startsWith (p2 ++ post) (js lj) = true)
        by (apply startsWith_spec; exists s'; exact M').
      rewrite forallb_forall in Hc.
      rewrite (clash_app p2 (js lj) (Hc _ (tails_split _ _ _ E Hp)) post) in S1.
      discriminate S1. }
  f_equal. apply replace_str_unmentioned; [|exact Hpost].
  intros b0 p. apply lit_mentions, Hf.
Qed.

(** The expression for the font file itself puts the replacement in
    its place. *)
Lemma lit_swaps (li : string) (t pre post : jsstring) :
  startsWith (js li) (js "url(") = true ->
  startsWith (js li) font_reference = true ->
  forallb (fun c => negb (only 40%N c)) pre = true ->
  ~ occurs font_reference post ->
  forallb (fun c => negb (only DOLLAR c)) t = true ->
  forall b,
    replace_str_from (lit li) t 0 b (pre ++ js li ++ post) = pre ++ t ++ post.
Proof.
  intros Hi Hf Hpre Hpost Ht b.
  rewrite replace_str_from_no_match.
  2:{ intros p1 p2 E Hp. apply (no_match_before li li pre post Hi Hi Hpre _ p1 p2 E Hp). }
  f_equal.
  rewrite (replace_str_from_match (lit li) t (rev pre ++ b) (js li) post
             (rev (js li) ++ rev pre ++ b) []).
  - rewrite GetSubstitution_plain by exact Ht. f_equal.
    apply replace_str_unmentioned; [|exact Hpost].
    intros b0 p. apply lit_mentions, Hf.
  - apply startsWith_spec in Hi. destruct Hi as (y & ->). discriminate.
  - apply match_lit.
Qed.

Lemma url_plain (u : jsstring) :
  forallb (fun c => negb (only DOLLAR c)) u = true ->
  forallb (fun c => negb (only DOLLAR c)) (url u) = true.
Proof.
  intros H. unfold url. rewrite !forallb_app, H. reflexivity.
Qed.

Lemma occurs_behind_first (p x y : jsstring) : ~ occurs p (x ++ y) -> ~ occurs p y.
Proof. intros H Hy. apply H, occurs_behind, Hy. Qed.

Ltac name_the_reference :=
  match goal with
  | |- context [js "url(fonts/KaTeX_" ++ js ?n ++ js ".woff2)"] =>
      let li := eval vm_compute in ("url(fonts/KaTeX_" ++ n ++ ".woff2)")%string in
      change (js "url(fonts/KaTeX_" ++ js n ++ js ".woff2)") with (js li)
  end.

Ltac swap_step pre post Hpre Hpost Hurl Hres :=
  first
    [ rewrite (lit_skips _ _ _ pre post);
      [|reflexivity|reflexivity|reflexivity|vm_compute; reflexivity
       |exact Hpre|exact Hpost]
    | rewrite (lit_swaps _ _ pre post);
      [|reflexivity|reflexivity|exact Hpre|exact Hpost|exact Hurl]
    | rewrite (replace_str_unmentioned _ _ (pre ++ url _ ++ post));
      [|intros ? ?;
        first [apply lit_mentions; reflexivity|apply sources_mention]
       |exact Hres] ].

(** X21: [rewriteKatexCss] puts the URL of a font file in the place of
    the reference to it. For each of the seven font files: in a style
    sheet that refers to the file once, with no opening parenthesis
    before the reference, if the URL has no dollar sign (so that
    nothing in it is taken for a replacement pattern) and the sheet
    with the URL put in does not refer to a KaTeX font file any more,
    the result is that sheet: the text before and behind the reference
    stays and [url(fonts/KaTeX_<name>.woff2)] has become [url(<URL>)]. *)
Theorem font_references_are_swapped :
  forall (im : imports) (name : string) (u pre post : jsstring),
    In (name, u) (font_files im) ->
    forallb (fun c => negb (only 40%N c)) pre = true ->
    forallb (fun c => negb (only DOLLAR c)) u = true ->
    ~ occurs font_reference (pre ++ url u ++ post) ->
    rewriteKatexCss im
      (pre ++ (js "url(fonts/KaTeX_" ++ js name ++ js ".woff2)") ++ post)
    = pre ++ url u ++ post.
Proof.
  intros im name u pre post Hin Hpre Hu Hres.
  assert (Hpost : ~ occurs font_reference post).
  { apply (occurs_behind_first _ (url u)), (occurs_behind_first _ pre), Hres. }
  pose proof (url_plain u Hu) as Hurl.
  unfold rewriteKatexCss, replace_str, woff_re, ttf_re. cbv zeta.
  simpl in Hin.
  repeat (destruct Hin as [Hin|Hin]; [injection Hin as <- <-|]); [..|contradiction].
  all: name_the_reference.
  all: repeat swap_step pre post Hpre Hpost Hurl Hres.
  all: reflexivity.
Qed.

(** X22: [injectKatexCss] adds the rewritten KaTeX style sheet once:
    without a document it does nothing; with a [style] element named
    [katex-injected] anywhere in the document it leaves the document as
    it is; otherwise it appends one such element to [document.head],
    behind the [style] elements already in it, and changes no other. So
    a second call changes nothing, and it leaves the two override
    sheets of the constructor alone, as the constructor leaves this
    one. *)
Theorem katex_sheet_is_injected_once :
  forall (im : imports) (doc : document_t),
    injectKatexCss im None = None
    /\ injectKatexCss im (Some doc)
       = Some {| in_head :=
                   in_head doc
                   ++ (if has_style "katex-injected" doc then []
                       else [(js "katex-injected", rewriteKatexCss im (katexCss im))]);
                 elsewhere := elsewhere doc |}
    /\ injectKatexCss im (injectKatexCss im (Some doc)) = injectKatexCss im (Some doc)
    /\ (forall doc',
           injectKatexCss im (Some doc) = Some doc' ->
           count_style "katex-injected" doc' = Nat.max 1 (count_style "katex-injected" doc)
           /\ count_style "katex-overrides" doc' = count_style "katex-overrides" doc
           /\ count_style "md-overrides" doc' = count_style "md-overrides" doc)
    /\ (forall os doc',
           construct_all os (Some doc) = Some doc' ->
           count_style "katex-injected" doc' = count_style "katex-injected" doc).
Proof.
  intros im doc.
  assert (E : injectKatexCss im (Some doc)
              = Some (appended doc
                        (if has_style "katex-injected" doc then []
                         else [(js "katex-injected",
                                rewriteKatexCss im (katexCss im))]))).
  { unfold injectKatexCss. destruct (has_style "katex-injected" doc);
      [rewrite appended_nil|]; reflexivity. }
  split; [reflexivity|]. split; [exact E|]. split; [|split].
  - rewrite E. unfold injectKatexCss at 1. rewrite has_style_appended.
    destruct (has_style "katex-injected" doc) eqn:H; [reflexivity|].
    cbn [orb]. rewrite named_one. reflexivity.
  - intros doc' H. rewrite E in H. injection H as <-. rewrite !count_style_appended.
    destruct (has_style "katex-injected" doc) eqn:Hs.
    + pose proof (style_counts _ _ Hs).
      change (count_named "katex-injected" []) with 0.
      change (count_named "katex-overrides" []) with 0.
      change (count_named "md-overrides" []) with 0. lia.
    + rewrite (no_style_no_count _ _ Hs). rewrite count_one. split; [reflexivity|].
      split; rewrite Nat.add_0_r; reflexivity.
  - intros os. induction os as [|o os IH] in doc |- *; intros doc' H.
    + injection H as <-. reflexivity.
    + unfold construct_all in *. cbn [fold_left] in H.
      destruct (constructor_styles_spec o doc) as (k & m & Ek & Hk & Hm).
      rewrite Ek in H. rewrite (IH _ _ H), count_style_appended, count_named_app.
      assert (K0 : count_named "katex-injected" k = 0)
        by (destruct Hk as [->|(_ & text & ->)]; reflexivity).
      assert (M0 : count_named "katex-injected" m = 0)
        by (destruct Hm as [->|(_ & text & ->)]; reflexivity).
      lia.
Qed.

(* ================================================================= *)
(** * Concrete runs *)

(** Two [flush] calls after one [write]: the listener hears the same
    string twice in a row. *)
Lemma C1_counterexample :
  calls (host (Demo.go (Demo.start Demo.defaults) [Demo.say "a"; Flush; Flush]))
  = [js "a"; js "a"].
Proof. vm_compute. reflexivity. Qed.

Lemma C1_witness :
  calls (host (snd (flush Demo.echo Demo.keep
                      (snd (flush Demo.echo Demo.keep
                              (Demo.go (Demo.start Demo.defaults) [Demo.say "a"]))))))
  = [js "a"; js "a"].
Proof.
  pose proof (@C1_listener_called_on_every_pass unit unit unit Demo.echo Demo.keep
                (Demo.go (Demo.start Demo.defaults) [Demo.say "a"])
                Callback (js "a")) as H.
  cbv zeta in H.
  destruct H as (_ & _ & H & _); [vm_compute; reflexivity ..|].
  vm_compute in H. vm_compute. exact H.
Defined.

(** Two elements: the second is given to [renderTo] after the markup
    was shown in the first; the next pass finds the markup equal to
    [prevHtml], which the elements share, and assigns nothing, so the
    second element stays empty. *)
Example the_second_element_stays_empty :
  innerHTML (elements (host (Demo.go (Demo.start Demo.defaults)
                                     [RenderTo (Some 1%positive); Demo.say "a"; Flush;
                                      RenderTo (Some 2%positive); Flush]))
                      1%positive)
  = js "a"
  /\ innerHTML (elements (host (Demo.go (Demo.start Demo.defaults)
                                        [RenderTo (Some 1%positive); Demo.say "a";
                                         Flush; RenderTo (Some 2%positive); Flush]))
                         2%positive)
     = [].
Proof. vm_compute. split; reflexivity. Qed.

(** The class names are added on every call of the listener, also when
    the markup has not changed. *)
Example class_names_are_added_again :
  elements (host (Demo.go (Demo.start Demo.with_classes)
                          [RenderTo (Some 1%positive); Demo.say "a"; Flush]))
           1%positive
  = {| innerHTML := js "a";
       classes := [(js "p", [js "lead"; js "big"]); (js "h1", [js "title"])] |}
  /\ elements (host (Demo.go (Demo.start Demo.with_classes)
                             [RenderTo (Some 1%positive); Demo.say "a"; Flush; Flush]))
              1%positive
     = {| innerHTML := js "a";
          classes := [(js "p", [js "lead"; js "big"]); (js "h1", [js "title"]);
                      (js "p", [js "lead"; js "big"]); (js "h1", [js "title"])] |}.
Proof. vm_compute. split; reflexivity. Qed.

(** [" lead  big ".split(/\s+/)] *)
Example split_spaces_of_a_padded_text :
  split_spaces (js " lead  big ") = [[]; js "lead"; js "big"; []]
  /\ split_spaces [] = [[]].
Proof. vm_compute. split; reflexivity. Qed.

(** Two writes, then the timer: one pass, on both chunks. *)
Lemma C2_witness :
  exists x,
    pending OneShot (host (Demo.go (Demo.start Demo.defaults)
                                   [Demo.say "ab"; Demo.say "cd"]))
    = [entry OneShot (of_nat 16) x]
    /\ passes (host (Demo.go (Demo.start Demo.defaults)
                             [Demo.say "ab"; Demo.say "cd"])) = []
    /\ passes (host (snd (step_event Demo.echo Demo.keep
                            (Demo.go (Demo.start Demo.defaults)
                                     [Demo.say "ab"; Demo.say "cd"])
                            (TimeoutFires x))))
       = [js "abcd"].
Proof.
  pose proof (@C2_one_timer_and_coalescing unit unit unit Demo.echo Demo.keep
                (fun _ => tt) tt Demo.defaults []) as H.
  cbv zeta in H. destruct H as (_ & _ & _ & _ & H & _).
  destruct (H [js "ab"; js "cd"]) as (_ & H'); [vm_compute; reflexivity|].
  destruct H' as (x & H1 & _ & H2 & H3); [right; vm_compute; discriminate|].
  exists x. split; [exact H1|]. split; [exact H2|exact H3].
Defined.

(** Typewriter mode: two writes start no throttle timer and leave the
    buffer empty; the renders come with the ticks, one for each, and
    the first two are on "a" and on "ab". *)
Lemma C2_counterexample :
  pending OneShot (host (Demo.go (Demo.start (Demo.with_typewriter (of_nat 1)))
                                 [Demo.say "ab"; Demo.say "cd"]))
  = []
  /\ buffer (this (Demo.go (Demo.start (Demo.with_typewriter (of_nat 1)))
                           [Demo.say "ab"; Demo.say "cd"]))
     = []
  /\ passes (host (Demo.go (Demo.start (Demo.with_typewriter (of_nat 1)))
                           [Demo.say "ab"; Demo.say "cd";
                            IntervalFires 1%positive; TimeoutFires 2%positive;
                            IntervalFires 1%positive; TimeoutFires 3%positive]))
     = [js "a"; js "ab"].
Proof. vm_compute. repeat split; reflexivity. Qed.

(** Typewriter mode, "he" revealed, then [update("hello")]: only "llo"
    is queued. *)
Lemma C3_witness :
  exists delta,
    js "hello" = js "he" ++ delta
    /\ length delta = 3
    /\ twQueue (this (Demo.go (Demo.start (Demo.with_typewriter (of_nat 1)))
                              [Demo.say "he"; IntervalFires 1%positive;
                               IntervalFires 1%positive;
                               Update (VString (js "hello"))]))
       = [delta].
Proof.
  assert (N : exists delta : jsstring,
             js "hello" = js "he" ++ delta /\ length delta = 3
             /\ [js "llo"] = [delta]).
  { pose proof (@C3_update_in_typewriter_mode unit unit unit Demo.echo Demo.keep
                  (fun _ => tt) tt (Demo.with_typewriter (of_nat 1))
                  [Demo.say "he"; IntervalFires 1%positive; IntervalFires 1%positive]
                  (js "hello")) as H.
    cbv zeta in H.
    destruct H as (_ & _ & H & _); [vm_compute; reflexivity|].
    destruct H as (delta & H1 & H2 & H3 & _);
      [vm_compute; reflexivity | vm_compute; lia |].
    vm_compute in H1, H2, H3. exists delta. vm_compute. auto. }
  destruct N as (delta & N1 & N2 & N3). exists delta.
  split; [exact N1|]. split; [exact N2|].
  vm_compute. vm_compute in N3. exact N3.
Defined.

(** Typewriter mode, "he" revealed and a throttle timer pending, then
    [update("xy")]: the buffer is the new text at once, but no pass has
    run and the listener has heard nothing; the timer that was pending
    is the one pending, with its delay of 16, and the pass on "xy" runs
    when it expires. *)
Lemma C3_counterexample :
  buffer (this (Demo.go (Demo.start (Demo.with_typewriter (of_nat 1)))
                        [Demo.say "hello"; IntervalFires 1%positive;
                         IntervalFires 1%positive]))
  = js "he"
  /\ pending OneShot
       (host (Demo.go (Demo.start (Demo.with_typewriter (of_nat 1)))
                      [Demo.say "hello"; IntervalFires 1%positive;
                       IntervalFires 1%positive]))
     = [entry OneShot (of_nat 16) 2%positive]
  /\ buffer (this (Demo.go (Demo.start (Demo.with_typewriter (of_nat 1)))
                           [Demo.say "hello"; IntervalFires 1%positive;
                            IntervalFires 1%positive; Update (VString (js "xy"))]))
     = js "xy"
  /\ passes (host (Demo.go (Demo.start (Demo.with_typewriter (of_nat 1)))
                           [Demo.say "hello"; IntervalFires 1%positive;
                            IntervalFires 1%positive; Update (VString (js "xy"))]))
     = []
  /\ calls (host (Demo.go (Demo.start (Demo.with_typewriter (of_nat 1)))
                          [Demo.say "hello"; IntervalFires 1%positive;
                           IntervalFires 1%positive; Update (VString (js "xy"))]))
     = []
  /\ pending OneShot
       (host (Demo.go (Demo.start (Demo.with_typewriter (of_nat 1)))
                      [Demo.say "hello"; IntervalFires 1%positive;
                       IntervalFires 1%positive; Update (VString (js "xy"))]))
     = [entry OneShot (of_nat 16) 2%positive]
  /\ passes (host (Demo.go (Demo.start (Demo.with_typewriter (of_nat 1)))
                           [Demo.say "hello"; IntervalFires 1%positive;
                            IntervalFires 1%positive; Update (VString (js "xy"));
                            TimeoutFires 2%positive]))
     = [js "xy"].
Proof. vm_compute. repeat split; reflexivity. Qed.

(** Step 1: five ticks reveal "hello". *)
Lemma C4_witness :
  exists x,
    is_pending Repeating x
      (host (snd (step_event Demo.echo Demo.keep
                    (Demo.start (Demo.with_typewriter (of_nat 1)))
                    (Demo.say "hello")))) = true
    /\ buffer (this (run Demo.echo Demo.keep
                       (snd (step_event Demo.echo Demo.keep
                               (Demo.start (Demo.with_typewriter (of_nat 1)))
                               (Demo.say "hello")))
                       (ticks x 5)))
       = js "hello".
Proof.
  pose proof (@C4_typewriter_tick unit unit unit Demo.echo Demo.keep
                (fun _ => tt) tt (Demo.with_typewriter (of_nat 1)) []) as H.
  cbv zeta in H. destruct H as (_ & _ & H).
  destruct (H (js "hello")) as (x & H1 & _ & H3);
    [vm_compute; reflexivity | vm_compute; reflexivity | vm_compute; reflexivity
     | vm_compute; discriminate |].
  exists x. split; [exact H1|exact H3].
Defined.

(** Fractional steps: of a step of 5/2 a tick takes two characters,
    and of a step of 1/2 none at all, tick after tick. *)
Lemma C4_counterexample :
  step (typewriter (this (Demo.start (Demo.with_typewriter (Fin (5 # 2))))))
  = Fin (5 # 2)
  /\ buffer (this (Demo.go (Demo.start (Demo.with_typewriter (Fin (5 # 2))))
                           [Demo.say "hello"; IntervalFires 1%positive]))
     = js "he"
  /\ twQueue (this (Demo.go (Demo.start (Demo.with_typewriter (Fin (5 # 2))))
                            [Demo.say "hello"; IntervalFires 1%positive]))
     = [js "llo"]
  /\ step (typewriter (this (Demo.start (Demo.with_typewriter (Fin (1 # 2))))))
     = Fin (1 # 2)
  /\ buffer (this (Demo.go (Demo.start (Demo.with_typewriter (Fin (1 # 2))))
                           [Demo.say "hello"; IntervalFires 1%positive;
                            IntervalFires 1%positive]))
     = []
  /\ twQueue (this (Demo.go (Demo.start (Demo.with_typewriter (Fin (1 # 2))))
                            [Demo.say "hello"; IntervalFires 1%positive;
                             IntervalFires 1%positive]))
     = [js "hello"].
Proof. vm_compute. repeat split; reflexivity. Qed.

(** A block span over two lines, opened with two backslashes. *)
Lemma C5_witness :
  replace block_re block_math
          (js "a " ++ js "\\[" ++ (js "x" ++ [LF] ++ js "y") ++ js "\]" ++ js " b")
  = js "a " ++ (js "$$" ++ [LF] ++ (js "x" ++ [LF] ++ js "y") ++ [LF] ++ js "$$")
         ++ replace block_re block_math (js " b").
Proof.
  destruct C5_bracket_math_rewrite as (_ & _ & _ & _ & H & _).
  apply H; vm_compute; reflexivity.
Defined.

(** The later stages change the forms: with the dollar stage on the
    inline form is padded, and with hard breaks on the lines of a block
    form inside a line of text get two spaces appended. *)
Lemma C5_counterexample :
  _preprocess {| brackets := true; dollars := true |} false (js "\(x\)")
  = js " $ x $ "
  /\ _preprocess {| brackets := true; dollars := false |} true (js "a \[x\] b")
     = js "a $$  " ++ [LF] ++ js "x  " ++ [LF] ++ js "$$ b".
Proof. vm_compute. split; reflexivity. Qed.

(** An opening delimiter with a line break before the first closing
    one is no inline span: it is copied, and the span behind it is
    replaced. *)
Example inline_spans_stay_on_one_line :
  replace inline_re inline_math (js "\(a" ++ [LF] ++ js "b \(c\)")
  = js "\(a" ++ [LF] ++ js "b $c$"
  /\ replace block_re block_math (js "\[a" ++ [LF] ++ js "b \[c\]")
     = js "$$" ++ [LF] ++ js "a" ++ [LF] ++ js "b \[c" ++ [LF] ++ js "$$".
Proof. vm_compute. split; reflexivity. Qed.

(** Two lines of text. *)
Lemma C6_witness :
  exists before,
    _applyHardBreaks (join_lines ([] ++ [js "foo"])) = join_lines (before ++ [js "foo"])
    /\ _applyHardBreaks (join_lines ([] ++ [js "foo"; js "bar"]))
       = join_lines
           (before
              ++ (if test blockStart_re (trim (js "bar")) then [js "foo"]
                  else (if test two_spaces_re (js "foo") then js "foo"
                        else js "foo" ++ js "  ")
                         :: (if test closingHtmlBlock_re (trim (js "foo"))
                             then [[]] else []))
              ++ hardBreaks_loop [js "bar"] false false []).
Proof.
  destruct C6_hard_breaks as (_ & H & _).
  apply H; vm_compute; (reflexivity || discriminate).
Defined.

Example two_lines_of_text :
  _applyHardBreaks (js "foo" ++ [LF] ++ js "bar") = js "foo  " ++ [LF] ++ js "bar".
Proof. vm_compute. reflexivity. Qed.

(** A line that ends in two tabs, so not in two spaces, gets nothing
    appended; and with bracket syntax disabled hard-break mode appends
    nothing anywhere. *)
Lemma C6_counterexample :
  (endsWith (js "foo" ++ [TAB; TAB]) (js "  ") = false
   /\ boundary (js "foo" ++ [TAB; TAB]) = false
   /\ trim (js "foo" ++ [TAB; TAB]) = js "foo"
   /\ trim (js "bar") = js "bar"
   /\ test blockStart_re (js "bar") = false
   /\ _preprocess {| brackets := true; dollars := false |} true
                  (js "foo" ++ [TAB; TAB] ++ [LF] ++ js "bar")
      = js "foo" ++ [TAB; TAB] ++ [LF] ++ js "bar")
  /\ _preprocess {| brackets := false; dollars := false |} true
                 (js "foo" ++ [LF] ++ js "bar")
     = js "foo" ++ [LF] ++ js "bar".
Proof. vm_compute. repeat split; reflexivity. Qed.


(** The listener gets the raw buffer as the fallback has parsed it. *)
Example the_fallback_is_delivered :
  calls (host (Demo.picky_go (Demo.start Demo.defaults) [Demo.say "\(x\)"; Flush]))
  = [js "\(x\)"]
  /\ calls (host (Demo.go (Demo.start Demo.defaults) [Demo.say "\(x\)"; Flush]))
     = [js "$x$"].
Proof. vm_compute. split; reflexivity. Qed.

Lemma C8_witness :
  step_event Demo.echo Demo.keep (Demo.start Demo.defaults) (Write (VNumber 3))
  = (Normal tt, Demo.start Demo.defaults).
Proof.
  pose proof (@C8_ignored_arguments unit unit unit Demo.echo Demo.keep
                (Demo.start Demo.defaults) (VNumber 3)) as H.
  destruct H as [H _]; [left; reflexivity|]. exact H.
Defined.

(** [update("")] after "abc" was rendered: the buffer is emptied and a
    new timer is started. *)
Lemma C8_counterexample :
  buffer (this (Demo.go (Demo.start Demo.defaults)
                        [Demo.say "abc"; TimeoutFires 1%positive]))
  = js "abc"
  /\ timer (this (Demo.go (Demo.start Demo.defaults)
                          [Demo.say "abc"; TimeoutFires 1%positive]))
     = None
  /\ buffer (this (Demo.go (Demo.start Demo.defaults)
                           [Demo.say "abc"; TimeoutFires 1%positive;
                            Update (VString [])]))
     = []
  /\ timer (this (Demo.go (Demo.start Demo.defaults)
                          [Demo.say "abc"; TimeoutFires 1%positive;
                           Update (VString [])]))
     = Some 2%positive.
Proof. vm_compute. repeat split; reflexivity. Qed.

(** After [destroy] a write, the old timer, the new timer and a flush
    reach no listener. *)
Lemma C9_witness :
  calls (host (run Demo.echo Demo.keep
                 (snd (step_event Demo.echo Demo.keep
                         (run Demo.echo Demo.keep
                              (create (fun _ => tt) tt Demo.defaults) [Demo.say "a"])
                         Destroy))
                 [Demo.say "b"; TimeoutFires 1%positive;
                  TimeoutFires 2%positive; Flush]))
  = calls (host (run Demo.echo Demo.keep
                     (create (fun _ => tt) tt Demo.defaults) [Demo.say "a"])).
Proof.
  pose proof (@C9_destroy_is_final unit unit unit Demo.echo Demo.keep
                (fun _ => tt) tt Demo.defaults [Demo.say "a"]
                [Demo.say "b"; TimeoutFires 1%positive; TimeoutFires 2%positive;
                 Flush]) as H.
  cbv zeta in H. destruct H as (_ & _ & H).
  apply H. vm_compute. reflexivity.
Defined.

(** Dollars and hard breaks enabled, brackets disabled: nothing is
    done; with brackets enabled the same text is changed. *)
Lemma C10_witness :
  _preprocess {| brackets := false; dollars := true |} true
              (js "a$b" ++ [LF] ++ js "c")
  = js "a$b" ++ [LF] ++ js "c".
Proof.
  apply C10_brackets_gate_preprocessing. reflexivity.
Defined.

Example brackets_enabled_changes_the_text :
  _preprocess {| brackets := true; dollars := true |} true
              (js "a$b" ++ [LF] ++ js "c")
  = js "a $ b  " ++ [LF] ++ js "c".
Proof. vm_compute. reflexivity. Qed.

(** ** Further runs *)

(** A [write] renders nothing by itself. *)
Lemma other_events_do_not_render_witness :
  fst (step_event Demo.echo Demo.keep (Demo.start Demo.defaults) (Demo.say "a"))
  = Normal tt
  /\ passes (host (snd (step_event Demo.echo Demo.keep (Demo.start Demo.defaults)
                          (Demo.say "a"))))
     = passes (host (Demo.start Demo.defaults)).
Proof.
  destruct (@other_events_do_not_render unit unit unit Demo.echo Demo.keep
              (Demo.start Demo.defaults) (Demo.say "a") eq_refl) as (H1 & H2 & _).
  split; [exact H1|exact H2].
Defined.

Lemma disabled_typewriter_is_inert_witness :
  twQueue (this (run Demo.echo Demo.keep
                   (create (fun _ => tt) tt Demo.defaults)
                   [Demo.say "a"; Update (VString (js "b"))])) = []
  /\ twTimer (this (run Demo.echo Demo.keep
                      (create (fun _ => tt) tt Demo.defaults)
                      [Demo.say "a"; Update (VString (js "b"))])) = None.
Proof.
  destruct (@disabled_typewriter_is_inert unit unit unit Demo.echo Demo.keep
              (fun _ => tt) tt Demo.defaults
              [Demo.say "a"; Update (VString (js "b"))] eq_refl) as (H1 & H2 & _).
  split; [exact H1|exact H2].
Defined.

(** Two chunks written around a tick: nothing is lost. *)
Lemma written_text_is_kept_in_order_witness :
  buffer (this (run Demo.echo Demo.keep
                  (create (fun _ => tt) tt (Demo.with_typewriter (of_nat 1)))
                  [Demo.say "ab"; IntervalFires 1%positive; Demo.say "cd"]))
    ++ concat (twQueue (this (run Demo.echo Demo.keep
                                (create (fun _ => tt) tt
                                        (Demo.with_typewriter (of_nat 1)))
                                [Demo.say "ab"; IntervalFires 1%positive;
                                 Demo.say "cd"])))
  = written [Demo.say "ab"; IntervalFires 1%positive; Demo.say "cd"].
Proof.
  apply (@written_text_is_kept_in_order unit unit unit Demo.echo Demo.keep
           (fun _ => tt) tt (Demo.with_typewriter (of_nat 1))
           [Demo.say "ab"; IntervalFires 1%positive; Demo.say "cd"]).
  reflexivity.
Defined.

(** Three characters, a step of two: two ticks reveal them, the third
    stops the ticker. *)
Lemma typewriter_comes_to_an_end_witness :
  twQueue (this (run Demo.echo Demo.keep
                   (run Demo.echo Demo.keep
                      (create (fun _ => tt) tt (Demo.with_typewriter (of_nat 2)))
                      [Demo.say "abc"])
                   (ticks 1%positive 3))) = []
  /\ buffer (this (run Demo.echo Demo.keep
                     (run Demo.echo Demo.keep
                        (create (fun _ => tt) tt (Demo.with_typewriter (of_nat 2)))
                        [Demo.say "abc"])
                     (ticks 1%positive 3)))
     = buffer (this (run Demo.echo Demo.keep
                       (create (fun _ => tt) tt (Demo.with_typewriter (of_nat 2)))
                       [Demo.say "abc"]))
         ++ concat (twQueue (this (run Demo.echo Demo.keep
                                     (create (fun _ => tt) tt
                                             (Demo.with_typewriter (of_nat 2)))
                                     [Demo.say "abc"]))).
Proof.
  pose proof (@typewriter_comes_to_an_end unit unit unit Demo.echo Demo.keep
                (fun _ => tt) tt (Demo.with_typewriter (of_nat 2))
                [Demo.say "abc"] (ticks 1%positive 3) 1%positive) as H.
  cbv zeta in H.
  destruct H as [H _];
    [vm_compute; discriminate | vm_compute; reflexivity | reflexivity |].
  apply H. vm_compute. lia.
Defined.

(** Half a character per tick: nothing is revealed. *)
Lemma fractional_step_reveals_nothing_witness :
  step (typewriter (this (run Demo.echo Demo.keep
                            (create (fun _ => tt) tt
                                    (Demo.with_typewriter (Fin (1 # 2))))
                            [Demo.say "abc"]))) = Fin (1 # 2)
  /\ buffer (this (run Demo.echo Demo.keep
                     (run Demo.echo Demo.keep
                        (create (fun _ => tt) tt (Demo.with_typewriter (Fin (1 # 2))))
                        [Demo.say "abc"])
                     (ticks 1%positive 3)))
     = buffer (this (run Demo.echo Demo.keep
                       (create (fun _ => tt) tt (Demo.with_typewriter (Fin (1 # 2))))
                       [Demo.say "abc"]))
  /\ twQueue (this (run Demo.echo Demo.keep
                      (run Demo.echo Demo.keep
                         (create (fun _ => tt) tt (Demo.with_typewriter (Fin (1 # 2))))
                         [Demo.say "abc"])
                      (ticks 1%positive 3)))
     = twQueue (this (run Demo.echo Demo.keep
                        (create (fun _ => tt) tt (Demo.with_typewriter (Fin (1 # 2))))
                        [Demo.say "abc"])).
Proof.
  pose proof (@fractional_step_reveals_nothing unit unit unit Demo.echo Demo.keep
                (fun _ => tt) tt (Demo.with_typewriter (Fin (1 # 2)))
                [Demo.say "abc"] (ticks 1%positive 3) 1%positive (Fin (1 # 2))) as H.
  cbv zeta in H.
  destruct H as (H1 & H2 & H3 & _);
    [reflexivity | vm_compute; split; reflexivity | vm_compute; reflexivity
     | vm_compute; discriminate | reflexivity |].
  split; [exact H1|]. split; [exact H2|exact H3].
Defined.

(** "hello" is being revealed, "he" is out; [update] with
    "hello world" queues "llo world" behind the "llo" that waits. *)
Lemma update_queues_behind_waiting_text_witness :
  twQueue (this (snd (step_event Demo.echo Demo.keep
                        (run Demo.echo Demo.keep
                           (create (fun _ => tt) tt (Demo.with_typewriter (of_nat 1)))
                           [Demo.say "hello"; IntervalFires 1%positive;
                            IntervalFires 1%positive])
                        (Update
                           (VString
                              (buffer (this (run Demo.echo Demo.keep
                                               (create (fun _ => tt) tt
                                                  (Demo.with_typewriter (of_nat 1)))
                                               [Demo.say "hello";
                                                IntervalFires 1%positive;
                                                IntervalFires 1%positive]))
                                 ++ js "llo world"))))))
  = twQueue (this (run Demo.echo Demo.keep
                     (create (fun _ => tt) tt (Demo.with_typewriter (of_nat 1)))
                     [Demo.say "hello"; IntervalFires 1%positive;
                      IntervalFires 1%positive]))
      ++ [js "llo world"].
Proof.
  pose proof (@update_queues_behind_waiting_text unit unit unit Demo.echo Demo.keep
                (fun _ => tt) tt (Demo.with_typewriter (of_nat 1))
                [Demo.say "hello"; IntervalFires 1%positive; IntervalFires 1%positive]
                (js "llo world")) as H.
  cbv zeta in H.
  destruct H as (H1 & _);
    [vm_compute; reflexivity | vm_compute; discriminate | discriminate |].
  exact H1.
Defined.

(** What the queue then spells behind the buffer. *)
Example the_waiting_text_comes_twice :
  let w := run Demo.echo Demo.keep
               (create (fun _ => tt) tt (Demo.with_typewriter (of_nat 1)))
               [Demo.say "hello"; IntervalFires 1%positive; IntervalFires 1%positive;
                Update (VString (js "hello world"))] in
  buffer (this w) = js "he" /\ twQueue (this w) = [js "llo"; js "llo world"]
  /\ buffer (this (run Demo.echo Demo.keep w (ticks 1%positive 12)))
     = js "hellollo world".
Proof. vm_compute. auto. Qed.

(** A [write], then [clear] before the throttle timer has expired. *)
Lemma clear_keeps_the_throttle_timer_witness :
  timer (this (snd (step_event Demo.echo Demo.keep
                      (run Demo.echo Demo.keep (create (fun _ => tt) tt Demo.defaults)
                           [Demo.say "a"])
                      Clear))) = Some 1%positive
  /\ passes (host (snd (step_event Demo.echo Demo.keep
                          (snd (step_event Demo.echo Demo.keep
                                  (run Demo.echo Demo.keep
                                       (create (fun _ => tt) tt Demo.defaults)
                                       [Demo.say "a"])
                                  Clear))
                          (TimeoutFires 1%positive))))
     = passes (host (run Demo.echo Demo.keep (create (fun _ => tt) tt Demo.defaults)
                         [Demo.say "a"]))
         ++ [[]; []].
Proof.
  pose proof (@clear_keeps_the_throttle_timer unit unit unit Demo.echo Demo.keep
                (fun _ => tt) tt Demo.defaults [Demo.say "a"] 1%positive) as H.
  cbv zeta in H.
  destruct H as (_ & H2 & _ & _ & H5 & _); [vm_compute; reflexivity|].
  split; [exact H2|exact H5].
Defined.

(** A line inside a fence. *)
Lemma hard_breaks_spare_fenced_lines_witness :
  exists before,
    _applyHardBreaks (join_lines ([js "```"] ++ [js "a"]))
    = join_lines (before ++ [js "a"])
    /\ _applyHardBreaks (join_lines ([js "```"] ++ js "a" :: [js "b"]))
       = join_lines
           (before ++ js "a"
              :: hardBreaks_loop [js "b"]
                   (fst (toggles false false ([js "```"] ++ [js "a"])))
                   (snd (toggles false false ([js "```"] ++ [js "a"]))) []).
Proof.
  apply (hard_breaks_spare_fenced_lines [js "```"] (js "a") [js "b"]);
    vm_compute; reflexivity.
Defined.

Example fenced_text_stays :
  _applyHardBreaks (join_lines [js "```"; js "a"; js "b"; js "```"; js "c"; js "d"])
  = join_lines [js "```"; js "a"; js "b"; js "```"; js "c  "; js "d"].
Proof. vm_compute. reflexivity. Qed.

Lemma hard_breaks_are_idempotent_witness :
  _applyHardBreaks (_applyHardBreaks (join_lines [js "a"; js "b"]))
  = _applyHardBreaks (join_lines [js "a"; js "b"]).
Proof.
  apply (hard_breaks_are_idempotent (join_lines [js "a"; js "b"])). reflexivity.
Defined.

(** With carriage returns a second pass can change the text: the CR that
    was left before a line feed is taken for a line end then. *)
Example hard_breaks_twice_with_carriage_returns :
  _applyHardBreaks (js "a  " ++ [CR; CR; LF] ++ js "b") = js "a  " ++ [CR; LF] ++ js "b"
  /\ _applyHardBreaks (js "a  " ++ [CR; LF] ++ js "b") = js "a  " ++ [LF] ++ js "b".
Proof. vm_compute. auto. Qed.

Lemma windows_line_ends_are_line_ends_witness :
  lines_of (join_crlf [js "a"; js "b"]) = lines_of (join_lines [js "a"; js "b"])
  /\ _applyHardBreaks (join_crlf [js "a"; js "b"])
     = _applyHardBreaks (join_lines [js "a"; js "b"])
  /\ _normalizeInlineDollars (join_crlf [js "a"; js "b"])
     = _normalizeInlineDollars (join_lines [js "a"; js "b"]).
Proof.
  apply (windows_line_ends_are_line_ends [js "a"; js "b"]). reflexivity.
Defined.

Lemma dollar_normalisation_only_inserts_spaces_witness :
  unspaced (_normalizeInlineDollars (js "a$x$b")) = unspaced (js "a$x$b").
Proof.
  apply (dollar_normalisation_only_inserts_spaces (js "a$x$b")). reflexivity.
Defined.

Lemma lone_dollar_signs_get_padded_witness :
  _normalizeInlineDollars (join_lines ([] ++ js "a$x$b" :: []))
  = join_lines (dollars_loop false false []
                  ++ pad_dollars None (js "a$x$b") :: dollars_loop false false [])
  /\ padded None (pad_dollars None (js "a$x$b")) = true.
Proof.
  apply (lone_dollar_signs_get_padded [] (js "a$x$b") []); reflexivity.
Defined.

Example dollars_padded_on_both_sides :
  _normalizeInlineDollars (js "a$x$b and $$y$$ and c $z$") = js "a $ x $ b and $$y$$ and c $ z $ ".
Proof. vm_compute. reflexivity. Qed.

Lemma plain_text_passes_through_witness :
  replace inline_re inline_math (replace block_re block_math (js "hello")) = js "hello"
  /\ _normalizeInlineDollars (js "hello") = js "hello"
  /\ _preprocess {| brackets := true; dollars := true |} false (js "hello") = js "hello"
  /\ _preprocess {| brackets := true; dollars := true |} true (js "hello")
     = if brackets {| brackets := true; dollars := true |}
       then _applyHardBreaks (js "hello") else js "hello".
Proof.
  apply (plain_text_passes_through {| brackets := true; dollars := true |} (js "hello"));
    reflexivity.
Defined.

Lemma dollar_normalisation_is_idempotent_witness :
  _normalizeInlineDollars (_normalizeInlineDollars (js "a$x$b"))
  = _normalizeInlineDollars (js "a$x$b").
Proof.
  apply (dollar_normalisation_is_idempotent (js "a$x$b")). reflexivity.
Defined.

(** A fresh page and two renderers, the second with overrides of its
    own: the sheet of the first stays the only one. *)
Example the_first_overrides_win :
  construct_all
    [{| katexCssOverrides := []; katexStylePreset := js "academic";
        cssOverrides := CssString [] |};
     {| katexCssOverrides := js ".katex { color: red; }"; katexStylePreset := js "academic";
        cssOverrides := CssMap [(js "p", RObject [(js "margin", js "0")])] |}]
    (Some {| in_head := []; elsewhere := [] |})
  = Some {| in_head := [(js "katex-overrides", academic_css);
                        (js "md-overrides", js "p { margin: 0; }" ++ [LF])];
            elsewhere := [] |}.
Proof. vm_compute. reflexivity. Qed.

(** A sheet of the name in the body of the page: nothing is added to
    [document.head]. *)
Example a_sheet_in_the_body_wins :
  construct_all
    [{| katexCssOverrides := []; katexStylePreset := js "academic";
        cssOverrides := CssString (js "p { margin: 0; }") |}]
    (Some {| in_head := [(js "theme", js "body { margin: 0; }")];
             elsewhere := [(js "md-overrides", js "p { color: red; }")] |})
  = Some {| in_head := [(js "theme", js "body { margin: 0; }");
                        (js "katex-overrides", academic_css)];
            elsewhere := [(js "md-overrides", js "p { color: red; }")] |}.
Proof. vm_compute. reflexivity. Qed.

(** A second [write] after the first one has been rendered. *)
Lemma no_render_is_lost_witness :
  is_pending OneShot 2%positive
    (host (run Demo.echo Demo.keep (create (fun _ => tt) tt Demo.defaults)
               [Demo.say "a"; TimeoutFires 1%positive; Demo.say "b"])) = true
  /\ passes (host (snd (step_event Demo.echo Demo.keep
                          (run Demo.echo Demo.keep
                               (create (fun _ => tt) tt Demo.defaults)
                               [Demo.say "a"; TimeoutFires 1%positive; Demo.say "b"])
                          (TimeoutFires 2%positive))))
     = [js "a"; js "ab"].
Proof.
  pose proof (@no_render_is_lost unit unit unit Demo.echo Demo.keep
                (fun _ => tt) tt Demo.defaults
                [Demo.say "a"; TimeoutFires 1%positive; Demo.say "b"]) as H.
  cbv zeta in H.
  assert (T : timer (this (run Demo.echo Demo.keep
                               (create (fun _ => tt) tt Demo.defaults)
                               [Demo.say "a"; TimeoutFires 1%positive; Demo.say "b"]))
              = Some 2%positive) by (vm_compute; reflexivity).
  rewrite T in H. destruct H as (H1 & H2 & _); [vm_compute; reflexivity|].
  split; [exact H1|]. rewrite H2. vm_compute. reflexivity.
Defined.

(** A sheet that names the font family but no font file. *)
Lemma sheet_without_font_references_is_kept_witness :
  rewriteKatexCss Demo.fonts (js ".katex{font:normal 1.21em KaTeX_Main}")
  = js ".katex{font:normal 1.21em KaTeX_Main}".
Proof.
  apply (sheet_without_font_references_is_kept Demo.fonts).
  apply occurs_tails; [vm_compute; reflexivity|discriminate].
Defined.

(** The rule for the italic font. *)
Lemma font_references_are_swapped_witness :
  rewriteKatexCss Demo.fonts
    (js "@font-face{font-family:KaTeX_Main;src:"
       ++ (js "url(fonts/KaTeX_" ++ js "Main-Italic" ++ js ".woff2)")
       ++ js " format('woff2')}")
  = js "@font-face{font-family:KaTeX_Main;src:"
      ++ url (js "/assets/KaTeX_Main-Italic.woff2") ++ js " format('woff2')}".
Proof.
  apply (font_references_are_swapped Demo.fonts "Main-Italic"
           (js "/assets/KaTeX_Main-Italic.woff2")).
  - right. left. reflexivity.
  - vm_compute. reflexivity.
  - vm_compute. reflexivity.
  - apply occurs_tails; [vm_compute; reflexivity|discriminate].
Defined.

(** A rule of the KaTeX sheet with its three sources: the first is
    swapped for the URL, the other two are dropped. *)
Example the_font_face_rule :
  rewriteKatexCss Demo.fonts
    (js ("@font-face{font-family:KaTeX_Main;src:url(fonts/KaTeX_Main-Regular.woff2) "
         ++ "format('woff2'),url(fonts/KaTeX_Main-Regular.woff) format('woff'),"
         ++ "url(fonts/KaTeX_Main-Regular.ttf) format('truetype')}"))
  = js ("@font-face{font-family:KaTeX_Main;src:url(data:font/woff2;base64,AAEC) "
        ++ "format('woff2')}").
Proof. vm_compute. reflexivity. Qed.

(** A font the bundle does not import keeps its [woff2] reference and
    loses the other two. *)
Example a_font_that_is_not_bundled :
  rewriteKatexCss Demo.fonts
    (js ("src:url(fonts/KaTeX_AMS-Regular.woff2) format('woff2'),"
         ++ "url(fonts/KaTeX_AMS-Regular.woff) format('woff'),"
         ++ "url(fonts/KaTeX_AMS-Regular.ttf) format('truetype')"))
  = js "src:url(fonts/KaTeX_AMS-Regular.woff2) format('woff2')".
Proof. vm_compute. reflexivity. Qed.

(** A URL with a dollar sign in it is read as a replacement pattern. *)
Example a_dollar_sign_in_the_url :
  replace_str (lit "url(fonts/KaTeX_Main-Regular.woff2)") (url (js "/a$&b"))
    (js "src:url(fonts/KaTeX_Main-Regular.woff2)")
  = js "src:url(/aurl(fonts/KaTeX_Main-Regular.woff2)b)".
Proof. vm_compute. reflexivity. Qed.
